(** * gonum/graph: shortest paths, D* Lite, Tarjan SCC and spanning trees

    A shallow embedding of the algorithmic core of the repository
    (path/path.go with its helpers, path/dynamic/dstarlite.go and
    structure/structure.go) together with the properties checked about it.

    Conventions.
    - Go's [float64] is Rocq's primitive binary64 [float]; [<], [==] and [+]
      are [PrimFloat.ltb], [PrimFloat.eqb] and [PrimFloat.add].
    - Go's [int] node identifiers are [Z]; slice indices are [nat].
    - A Go [map] is a [gmap]; reading an absent key gives the zero value of
      the element type, which is written out at each such read.
    - A run of Go code either returns, panics, or (for the loops that are not
      structurally bounded) exhausts the fuel given to the model. *)

From Stdlib Require Import ZArith Floats Lia.
From stdpp Require Import gmap list sets strings.

(** ** Outcomes of running Go code *)

Inductive result (A : Type) : Type :=
| Ok (a : A)
| Panicked (why : string)
| OutOfFuel.
Arguments Ok {A} a.
Arguments Panicked {A} why.
Arguments OutOfFuel {A}.

#[global] Instance result_ret : MRet result := @Ok.
#[global] Instance result_bind : MBind result := λ A B f m,
  match m with
  | Ok a => f a
  | Panicked why => Panicked why
  | OutOfFuel => OutOfFuel
  end.

#[global] Instance result_fmap : FMap result := λ A B f m,
  match m with
  | Ok a => Ok (f a)
  | Panicked why => Panicked why
  | OutOfFuel => OutOfFuel
  end.

Definition index_out_of_range {A} : result A :=
  Panicked "runtime error: index out of range".

Definition nil_dereference {A} : result A :=
  Panicked "runtime error: invalid memory address or nil pointer dereference".

(** [xs[i]] on a slice. *)
Definition at_index {A} (xs : list A) (i : nat) : result A :=
  match xs !! i with
  | Some x => Ok x
  | None => index_out_of_range
  end.

(** ** Floating point helpers (package math) *)

Definition inf : float := PrimFloat.infinity.
Definition fzero : float := 0%float.
Definition fone : float := 1%float.

Definition flt (a b : float) : bool := PrimFloat.ltb a b.
Definition fle (a b : float) : bool := PrimFloat.leb a b.
Definition feq (a b : float) : bool := PrimFloat.eqb a b.
Definition fadd (a b : float) : float := PrimFloat.add a b.

Definition IsNaN (x : float) : bool := negb (feq x x).
(** [math.IsInf(x, sign)] for [sign > 0] and [sign < 0]. *)
Definition IsInfPos (x : float) : bool := feq x PrimFloat.infinity.
Definition IsInfNeg (x : float) : bool := feq x PrimFloat.neg_infinity.
Definition Signbit (x : float) : bool := PrimFloat.get_sign x.

(** [math.Min], with its special cases. *)
Definition Min (x y : float) : float :=
  if IsInfNeg x || IsInfNeg y then PrimFloat.neg_infinity
  else if IsNaN x || IsNaN y then PrimFloat.nan
  else if feq x fzero && feq x y then (if Signbit x then x else y)
  else if flt x y then x else y.

(** ** The graph capability layer (graph.go) *)

(** [graph.Node]: anything that reports an identifier. *)
Class Node (N : Type) := ID : N → Z.

(** [concrete.Node] is an [int] that is its own identifier. *)
#[global] Instance concrete_Node : Node Z := λ n, n.

(** [graph.Edge]: an interface value, [nil] or a pair of end points. *)
Definition Edge (N : Type) : Type := option (N * N).

Definition WeightFunc (N : Type) : Type := Edge N → float.
Definition HeuristicWeightFunc (N : Type) : Type := N → N → float.

(** [graph.UniformCostWeight]. *)
Definition UniformCostWeight {N} : WeightFunc N := λ e,
  match e with
  | None => inf
  | Some _ => fone
  end.

(** [path.NullHeuristic]. *)
Definition NullHeuristic {N} : HeuristicWeightFunc N := λ _ _, fzero.

(** The static capability a graph value has beyond [graph.Graph]. *)
Inductive Directedness (N : Type) : Type :=
| IsDirected (To : N → list N) (EdgeFromTo : N → N → Edge N)
| IsUndirected (EdgeBetween : N → N → Edge N)
| IsPlain.
Arguments IsDirected {N} To EdgeFromTo.
Arguments IsUndirected {N} EdgeBetween.
Arguments IsPlain {N}.

(** A graph value as the algorithms see it: the methods of [graph.Graph],
    what a type switch on [graph.Directed] / [graph.Undirected] finds, and
    the optional [graph.Weighter] and [graph.HeuristicWeighter] methods. *)
Record Graph (N : Type) : Type := {
  Nodes : list N;
  From : N → list N;
  HasEdge : N → N → bool;
  directedness : Directedness N;
  Weighter : option (WeightFunc N);
  HeuristicWeighter : option (HeuristicWeightFunc N);
}.
Arguments Nodes {N} g.
Arguments From {N} g n.
Arguments HasEdge {N} g u v.
Arguments directedness {N} g.
Arguments Weighter {N} g.
Arguments HeuristicWeighter {N} g.

(** ** container/heap of the Go standard library

    The repository's two priority queues implement [heap.Interface]; the
    functions below follow container/heap. *)

Module Interface.
Class t (H X : Type) : Type := {
  Len : H → nat;
  Less : H → nat → nat → result bool;
  Swap : H → nat → nat → result H;
  Push : H → X → result H;
  Pop : H → result (H * X);
}.
End Interface.

Module heap.
Section Heap.
Context {H X : Type} `{!Interface.t H X}.

Fixpoint up_loop (fuel : nat) (h : H) (j : nat) : result H :=
  match fuel with
  | O => OutOfFuel
  | S fuel' =>
    let i := ((j - 1) / 2)%nat in (* parent *)
    if decide (i = j) then Ok h
    else
      lt ← Interface.Less h j i;
      if negb (lt : bool) then Ok h
      else h' ← Interface.Swap h i j; up_loop fuel' h' i
  end.

Definition up (h : H) (j : nat) : result H := up_loop (S j) h j.

Fixpoint down_loop (fuel : nat) (h : H) (i n : nat) : result (H * nat) :=
  match fuel with
  | O => OutOfFuel
  | S fuel' =>
    let j1 := (2 * i + 1)%nat in
    if decide (n ≤ j1)%nat then Ok (h, i)
    else
      right_smaller ←
        (if decide (j1 + 1 < n)%nat then Interface.Less h (j1 + 1)%nat j1
         else Ok false);
      let j := if (right_smaller : bool) then (j1 + 1)%nat else j1 in
      lt ← Interface.Less h j i;
      if negb (lt : bool) then Ok (h, i)
      else h' ← Interface.Swap h i j; down_loop fuel' h' j n
  end.

(** [down] reports whether the element moved. *)
Definition down (h : H) (i0 n : nat) : result (H * bool) :=
  '(h', i) ← down_loop (S n) h i0 n;
  Ok (h', bool_decide (i0 < i)%nat).

Fixpoint Init_loop (h : H) (n : nat) (i : nat) : result H :=
  match i with
  | O => Ok h
  | S i' => '(h', _) ← down h i' n; Init_loop h' n i'
  end.

Definition Init (h : H) : result H :=
  let n := Interface.Len h in Init_loop h n (n / 2).

Definition Push (h : H) (x : X) : result H :=
  h' ← Interface.Push h x;
  up h' (Interface.Len h' - 1).

Definition Pop (h : H) : result (H * X) :=
  match Interface.Len h with
  | O => index_out_of_range
  | S n =>
    h1 ← Interface.Swap h 0 n;
    '(h2, _) ← down h1 0 n;
    Interface.Pop h2
  end.

Definition Remove (h : H) (i : nat) : result (H * X) :=
  match Interface.Len h with
  | O => index_out_of_range
  | S n =>
    h' ← (if decide (n = i) then Ok h
          else
            h1 ← Interface.Swap h i n;
            '(h2, moved) ← down h1 i n;
            if (moved : bool) then Ok h2 else up h2 i);
    Interface.Pop h'
  end.

Definition Fix (h : H) (i : nat) : result H :=
  '(h', moved) ← down h i (Interface.Len h);
  if (moved : bool) then Ok h' else up h' i.
End Heap.
End heap.

(** [for _, x := range xs { s = body(s, x) }] with a body that may panic. *)
Fixpoint for_range {A S : Type} (xs : list A) (body : S → A → result S) (s : S)
  : result S :=
  match xs with
  | [] => Ok s
  | x :: xs' => s' ← body s x; for_range xs' body s'
  end.

(** ** Search helpers of package path *)

Section Path.
Context {N : Type} `{!Node N}.

(** [searchFuncs]. *)
Record searchFuncs : Type := {
  from : N → list N;
  to : N → list N;
  isSuccessor : N → N → bool;
  isPredecessor : N → N → bool;
  isNeighbor : N → N → bool;
  weight : WeightFunc N;
  heuristic : HeuristicWeightFunc N;
  edgeTo : N → N → Edge N;
  edgeBetween : N → N → Edge N;
}.

Definition genIsSuccessor (EdgeFromTo : N → N → Edge N) : N → N → bool :=
  λ node succ, bool_decide (EdgeFromTo node succ ≠ None).

Definition genIsPredecessor (EdgeFromTo : N → N → Edge N) : N → N → bool :=
  λ node succ, bool_decide (EdgeFromTo succ node ≠ None).

Definition genEdgeFor (g : Graph N) : N → N → Edge N :=
  λ u v, if HasEdge g u v then Some (u, v) else None.

Definition setupFuncs (g : Graph N) (weight : option (WeightFunc N))
    (heuristic : option (HeuristicWeightFunc N)) : searchFuncs :=
  let h :=
    match heuristic with
    | Some h => h
    | None =>
      match HeuristicWeighter g with
      | Some h => h
      | None => NullHeuristic
      end
    end in
  let w :=
    match weight with
    | Some w => w
    | None =>
      match Weighter g with
      | Some w => w
      | None => UniformCostWeight
      end
    end in
  match directedness g with
  | IsDirected To EdgeFromTo =>
    {| from := From g; to := To;
       isSuccessor := genIsSuccessor EdgeFromTo;
       isPredecessor := genIsPredecessor EdgeFromTo;
       isNeighbor := HasEdge g;
       weight := w; heuristic := h;
       edgeTo := EdgeFromTo; edgeBetween := EdgeFromTo |}
  | IsUndirected EdgeBetween =>
    {| from := From g; to := From g;
       isSuccessor := HasEdge g; isPredecessor := HasEdge g;
       isNeighbor := HasEdge g;
       weight := w; heuristic := h;
       edgeTo := EdgeBetween; edgeBetween := EdgeBetween |}
  | IsPlain =>
    {| from := From g; to := From g;
       isSuccessor := HasEdge g; isPredecessor := HasEdge g;
       isNeighbor := HasEdge g;
       weight := w; heuristic := h;
       edgeTo := genEdgeFor g; edgeBetween := genEdgeFor g |}
  end.

(** [internalNode]: a node with its scores; the embedded [graph.Node] is
    [node_of]. *)
Record internalNode : Type := {
  node_of : N;
  gscore : float;
  fscore : float;
}.

#[global] Instance internalNode_Node : Node internalNode :=
  λ x, ID (node_of x).

(** A [graph.Node] interface value inside package path is either a node of
    the caller or an [internalNode] wrapping one. *)
Inductive anyNode : Type :=
| Plain (n : N)
| Wrapped (x : internalNode).

(** [if n, ok := v.(internalNode); ok { v = n.Node }]. *)
Definition unwrap (v : anyNode) : N :=
  match v with
  | Plain n => n
  | Wrapped x => node_of x
  end.

(** *** aStarPriorityQueue *)

Record aStarPriorityQueue : Type := {
  indexList : gmap Z nat;
  nodes : list internalNode;
}.

Definition aStar_Len (pq : aStarPriorityQueue) : nat := length (nodes pq).

Definition aStar_Less (pq : aStarPriorityQueue) (i j : nat) : result bool :=
  a ← at_index (nodes pq) i;
  b ← at_index (nodes pq) j;
  Ok (flt (fscore a) (fscore b)).

Definition aStar_Swap (pq : aStarPriorityQueue) (i j : nat)
  : result aStarPriorityQueue :=
  a ← at_index (nodes pq) i;
  b ← at_index (nodes pq) j;
  Ok {| indexList := <[ID b := i]> (<[ID a := j]> (indexList pq));
        nodes := <[j := a]> (<[i := b]> (nodes pq)) |}.

Definition aStar_Push (pq : aStarPriorityQueue) (node : internalNode)
  : result aStarPriorityQueue :=
  let nodes' := nodes pq ++ [node] in
  Ok {| indexList := <[ID node := (length nodes' - 1)%nat]> (indexList pq);
        nodes := nodes' |}.

Definition aStar_Pop (pq : aStarPriorityQueue)
  : result (aStarPriorityQueue * internalNode) :=
  match nodes pq with
  | [] => index_out_of_range
  | _ =>
    x ← at_index (nodes pq) (length (nodes pq) - 1);
    Ok ({| indexList := delete (ID x) (indexList pq);
           nodes := take (length (nodes pq) - 1) (nodes pq) |}, x)
  end.

#[global] Instance aStarPriorityQueue_heap
  : Interface.t aStarPriorityQueue internalNode :=
  {| Interface.Len := aStar_Len;
     Interface.Less := aStar_Less;
     Interface.Swap := aStar_Swap;
     Interface.Push := aStar_Push;
     Interface.Pop := aStar_Pop |}.

Definition aStar_Fix (pq : aStarPriorityQueue) (id : Z)
    (newGScore newFScore : float) : result aStarPriorityQueue :=
  match indexList pq !! id with
  | Some i =>
    x ← at_index (nodes pq) i;
    let x' := {| node_of := node_of x; gscore := newGScore;
                 fscore := newFScore |} in
    heap.Fix {| indexList := indexList pq; nodes := <[i := x']> (nodes pq) |} i
  | None => Ok pq
  end.

Definition aStar_Find (pq : aStarPriorityQueue) (id : Z)
  : result (option internalNode) :=
  match indexList pq !! id with
  | Some loc => x ← at_index (nodes pq) loc; Ok (Some x)
  | None => Ok None
  end.

Definition aStar_Exists (pq : aStarPriorityQueue) (id : Z) : bool :=
  bool_decide (is_Some (indexList pq !! id)).

Definition emptyQueue : aStarPriorityQueue :=
  {| indexList := ∅; nodes := [] |}.

(** *** rebuildPath

    The loop follows [predecessors] until an identifier has no entry.  A
    chain longer than the map has entries repeats an identifier and is
    followed for ever, so the size of the map bounds every terminating
    run. *)
Fixpoint rebuildPath_loop (fuel : nat) (predecessors : gmap Z anyNode)
    (curr : N) (path : list N) : result (list N) :=
  match predecessors !! ID curr with
  | None => Ok path
  | Some prev =>
    match fuel with
    | O => OutOfFuel
    | S fuel' =>
      let prev := unwrap prev in
      rebuildPath_loop fuel' predecessors prev (path ++ [prev])
    end
  end.

Definition rebuildPath (predecessors : gmap Z anyNode) (goal : anyNode)
  : result (list N) :=
  let goal := unwrap goal in
  path ← rebuildPath_loop (size predecessors) predecessors goal [goal];
  Ok (reverse path).
End Path.
Arguments searchFuncs N : clear implicits.
Arguments internalNode N : clear implicits.
Arguments anyNode N : clear implicits.
Arguments aStarPriorityQueue N : clear implicits.

(** ** A*, Dijkstra and Bellman-Ford (path/path.go) *)

Section Search.
Context {N : Type} `{!Node N}.

(** The variables of one [AStar] call.  [popped] is not a variable of the
    Go function: it records the results of [heap.Pop] in order, so that
    statements can speak about the expansions; no branch reads it. *)
Record aStarState : Type := {
  closedSet : gmap Z (internalNode N);
  openSet : aStarPriorityQueue N;
  predecessor : gmap Z (anyNode N);
  nodesExpanded : nat;
  popped : list (internalNode N);
}.

(** The body of [for _, neighbor := range from(curr.Node)]. *)
Definition AStar_neighbor (sf : searchFuncs N) (goal : N)
    (closedSet : gmap Z (internalNode N)) (curr : internalNode N)
    (st : aStarPriorityQueue N * gmap Z (anyNode N)) (neighbor : N)
  : result (aStarPriorityQueue N * gmap Z (anyNode N)) :=
  let '(openSet, predecessor) := st in
  match closedSet !! ID neighbor with
  | Some _ => Ok st
  | None =>
    let g := fadd (gscore curr)
               (weight sf (edgeTo sf (node_of curr) neighbor)) in
    found ← aStar_Find openSet (ID neighbor);
    match found with
    | None =>
      let predecessor := <[ID neighbor := Wrapped curr]> predecessor in
      let node := {| node_of := neighbor; gscore := g;
                     fscore := fadd g (heuristic sf neighbor goal) |} in
      openSet ← heap.Push openSet node;
      Ok (openSet, predecessor)
    | Some existing =>
      if flt g (gscore existing) then
        let predecessor := <[ID neighbor := Wrapped curr]> predecessor in
        openSet ← aStar_Fix openSet (ID neighbor) g
                    (fadd g (heuristic sf neighbor goal));
        Ok (openSet, predecessor)
      else Ok st
    end
  end.

(** What one turn of [for openSet.Len() != 0] does: return, or go on. *)
Inductive aStarTurn : Type :=
| Return (path : option (list N)) (pathCost : float) (st : aStarState)
| Continue (st : aStarState).

Definition AStar_turn (sf : searchFuncs N) (goal : N) (st : aStarState)
  : result aStarTurn :=
  if decide (Interface.Len (openSet st) = 0)%nat then
    Ok (Return None fzero st)
  else
    '(openSet', curr) ← heap.Pop (openSet st);
    let expanded := S (nodesExpanded st) in
    let popped' := popped st ++ [curr] in
    if decide (ID curr = ID goal) then
      path ← rebuildPath (predecessor st) (Plain goal);
      Ok (Return (Some path) (gscore curr)
            {| closedSet := closedSet st; openSet := openSet';
               predecessor := predecessor st; nodesExpanded := expanded;
               popped := popped' |})
    else
      let closedSet' := <[ID curr := curr]> (closedSet st) in
      '(openSet'', predecessor') ←
        for_range (from sf (node_of curr))
          (AStar_neighbor sf goal closedSet' curr)
          (openSet', predecessor st);
      Ok (Continue
            {| closedSet := closedSet'; openSet := openSet'';
               predecessor := predecessor'; nodesExpanded := expanded;
               popped := popped' |}).

Fixpoint AStar_loop (fuel : nat) (sf : searchFuncs N) (goal : N)
    (st : aStarState) : result (option (list N) * float * aStarState) :=
  match fuel with
  | O => OutOfFuel
  | S fuel' =>
    turn ← AStar_turn sf goal st;
    match turn with
    | Return path pathCost st' => Ok (path, pathCost, st')
    | Continue st' => AStar_loop fuel' sf goal st'
    end
  end.

Definition AStar_init (sf : searchFuncs N) (start goal : N)
  : result aStarState :=
  openSet ← heap.Init (emptyQueue (N := N));
  let node := {| node_of := start; gscore := fzero;
                 fscore := heuristic sf start goal |} in
  openSet ← heap.Push openSet node;
  Ok {| closedSet := ∅; openSet := openSet; predecessor := ∅;
        nodesExpanded := 0; popped := [] |}.

(** [AStar] with the final values of its variables. *)
Definition AStar_run (fuel : nat) (start goal : N) (g : Graph N)
    (weight : option (WeightFunc N))
    (heuristic : option (HeuristicWeightFunc N))
  : result (option (list N) * float * aStarState) :=
  let sf := setupFuncs g weight heuristic in
  st ← AStar_init sf start goal;
  AStar_loop fuel sf goal st.

(** [AStar]: the path ([None] is Go's nil slice), its cost and the number
    of nodes expanded. *)
Definition AStar (fuel : nat) (start goal : N) (g : Graph N)
    (weight : option (WeightFunc N))
    (heuristic : option (HeuristicWeightFunc N))
  : result (option (list N) * float * nat) :=
  '(path, pathCost, st) ← AStar_run fuel start goal g weight heuristic;
  Ok (path, pathCost, nodesExpanded st).

(** [BreadthFirstSearch]. *)
Definition BreadthFirstSearch (fuel : nat) (start goal : N) (g : Graph N)
  : result (option (list N) * nat) :=
  '(path, _, visited) ←
    AStar fuel start goal g (Some UniformCostWeight) (Some NullHeuristic);
  Ok (path, visited).

(** [m[k]] on a [map[int]float64]: zero when the key is absent. *)
Definition cost_at (costs : gmap Z float) (id : Z) : float :=
  default fzero (costs !! id).

(** The final loop of Dijkstra and Bellman-Ford:
    [for node := range costs { paths[node] = rebuildPath(...) }].
    [nodeIDMap[node]] is a nil interface when the key is absent, and
    [rebuildPath] then calls a method on nil. *)
Definition rebuildAll (predecessor : gmap Z (anyNode N))
    (nodeIDMap : gmap Z (anyNode N)) (costs : gmap Z float)
  : result (gmap Z (list N)) :=
  for_range (map_to_list costs)
    (λ paths '(node, _),
       match nodeIDMap !! node with
       | None => nil_dereference
       | Some goal =>
         path ← rebuildPath predecessor goal;
         Ok (<[node := path]> paths)
       end)
    ∅.

(** *** Dijkstra *)

Record dijkstraState : Type := {
  d_openSet : aStarPriorityQueue N;
  d_costs : gmap Z float;
  d_predecessor : gmap Z (anyNode N);
  d_nodeIDMap : gmap Z (anyNode N);
}.

Definition Dijkstra_neighbor (sf : searchFuncs N) (node : internalNode N)
    (st : dijkstraState) (neighbor : N) : result dijkstraState :=
  let tmpCost := fadd (cost_at (d_costs st) (ID node))
                   (weight sf (edgeTo sf (node_of node) neighbor)) in
  match d_costs st !! ID neighbor with
  | None =>
    openSet ← heap.Push (d_openSet st)
                {| node_of := neighbor; gscore := tmpCost;
                   fscore := tmpCost |};
    Ok {| d_openSet := openSet;
          d_costs := <[ID neighbor := tmpCost]> (d_costs st);
          d_predecessor := <[ID neighbor := Wrapped node]> (d_predecessor st);
          d_nodeIDMap := d_nodeIDMap st |}
  | Some w =>
    if flt tmpCost w then
      openSet ← aStar_Fix (d_openSet st) (ID neighbor) tmpCost tmpCost;
      Ok {| d_openSet := openSet;
            d_costs := <[ID neighbor := tmpCost]> (d_costs st);
            d_predecessor :=
              <[ID neighbor := Wrapped node]> (d_predecessor st);
            d_nodeIDMap := d_nodeIDMap st |}
    else Ok st
  end.

Fixpoint Dijkstra_loop (fuel : nat) (sf : searchFuncs N)
    (st : dijkstraState) : result dijkstraState :=
  match fuel with
  | O => OutOfFuel
  | S fuel' =>
    if decide (Interface.Len (d_openSet st) = 0)%nat then Ok st
    else
      '(openSet, node) ← heap.Pop (d_openSet st);
      let st := {| d_openSet := openSet; d_costs := d_costs st;
                   d_predecessor := d_predecessor st;
                   d_nodeIDMap :=
                     <[ID node := Wrapped node]> (d_nodeIDMap st) |} in
      st ← for_range (from sf (node_of node)) (Dijkstra_neighbor sf node) st;
      Dijkstra_loop fuel' sf st
  end.

Definition Dijkstra (fuel : nat) (source : N) (g : Graph N)
    (weight : option (WeightFunc N))
  : result (gmap Z (list N) * gmap Z float) :=
  let sf := setupFuncs g weight None in
  openSet ← heap.Init (emptyQueue (N := N));
  openSet ← heap.Push openSet
              {| node_of := source; gscore := fzero; fscore := fzero |};
  st ← Dijkstra_loop fuel sf
         {| d_openSet := openSet; d_costs := {[ID source := fzero]};
            d_predecessor := ∅; d_nodeIDMap := ∅ |};
  paths ← rebuildAll (d_predecessor st) (d_nodeIDMap st) (d_costs st);
  Ok (paths, d_costs st).

(** *** Bellman-Ford *)

Record bellmanFordState : Type := {
  bf_predecessor : gmap Z (anyNode N);
  bf_costs : gmap Z float;
  bf_nodeIDMap : gmap Z (anyNode N);
}.

(** The relaxation test [costs[node.ID()] + weight < costs[succ.ID()]]. *)
Definition relaxes (costs : gmap Z float) (sf : searchFuncs N)
    (node succ : N) : bool :=
  flt (fadd (cost_at costs (ID node)) (weight sf (edgeTo sf node succ)))
      (cost_at costs (ID succ)).

(** The body of [for _, succ := range succs]. *)
Definition BellmanFord_relax (sf : searchFuncs N) (node : N)
    (st : bellmanFordState) (succ : N) : bellmanFordState :=
  let w := weight sf (edgeTo sf node succ) in
  let nodeIDMap := <[ID succ := Plain succ]> (bf_nodeIDMap st) in
  let dist := fadd (cost_at (bf_costs st) (ID node)) w in
  if flt dist (cost_at (bf_costs st) (ID succ)) then
    {| bf_predecessor := <[ID succ := Plain node]> (bf_predecessor st);
       bf_costs := <[ID succ := dist]> (bf_costs st);
       bf_nodeIDMap := nodeIDMap |}
  else
    {| bf_predecessor := bf_predecessor st; bf_costs := bf_costs st;
       bf_nodeIDMap := nodeIDMap |}.

(** The body of [for _, node := range nodes]. *)
Definition BellmanFord_node (sf : searchFuncs N) (st : bellmanFordState)
    (node : N) : bellmanFordState :=
  let st := {| bf_predecessor := bf_predecessor st; bf_costs := bf_costs st;
               bf_nodeIDMap := <[ID node := Plain node]> (bf_nodeIDMap st) |} in
  foldl (BellmanFord_relax sf node) st (from sf node).

Definition BellmanFord_pass (sf : searchFuncs N) (nodes : list N)
    (st : bellmanFordState) : bellmanFordState :=
  foldl (BellmanFord_node sf) st nodes.

(** [for i := 1; i < len(nodes)-1; i++]: [len(nodes) - 2] passes. *)
Definition BellmanFord_passes (sf : searchFuncs N) (nodes : list N)
    (st : bellmanFordState) : bellmanFordState :=
  Nat.iter (length nodes - 2) (BellmanFord_pass sf nodes) st.

Definition BellmanFord_init (source : N) : bellmanFordState :=
  {| bf_predecessor := ∅;
     bf_costs := {[ID source := fzero]};
     bf_nodeIDMap := {[ID source := Plain source]} |}.

(** The scan after the passes: does some edge still relax? *)
Definition BellmanFord_detect (sf : searchFuncs N) (nodes : list N)
    (costs : gmap Z float) : bool :=
  existsb (λ node, existsb (relaxes costs sf node) (from sf node)) nodes.

(** The three results of [BellmanFord]; a nil map is [None]. *)
Record bellmanFordResult : Type := {
  paths : option (gmap Z (list N));
  costs : option (gmap Z float);
  err : option string;
}.

Definition BellmanFord (source : N) (g : Graph N)
    (weight : option (WeightFunc N)) : result bellmanFordResult :=
  let sf := setupFuncs g weight None in
  let nodes := Nodes g in
  let st := BellmanFord_passes sf nodes (BellmanFord_init source) in
  if BellmanFord_detect sf nodes (bf_costs st) then
    Ok {| paths := None; costs := None;
          err := Some "Negative edge cycle detected" |}
  else
    paths ← rebuildAll (bf_predecessor st) (bf_nodeIDMap st) (bf_costs st);
    Ok {| paths := Some paths; costs := Some (bf_costs st); err := None |}.
End Search.
Arguments aStarState N : clear implicits.
Arguments aStarTurn N : clear implicits.
Arguments dijkstraState N : clear implicits.
Arguments bellmanFordState N : clear implicits.
Arguments bellmanFordResult N : clear implicits.

(** ** Concrete graphs for the worked examples

    Graph values over [concrete.Node] built from an edge list: the
    successors of a node are enumerated in the order of the list. *)

Module examples.
Definition edge_list : Type := list (Z * Z * float).

Definition lookup_weight (es : edge_list) (u v : Z) : option float :=
  (λ r, r.2.2) <$> list_find (λ e, e.1 = (u, v)) es.

Definition succs (es : edge_list) (u : Z) : list Z :=
  (λ e, e.1.2) <$> filter (λ e, e.1.1 = u) es.

Definition preds (es : edge_list) (v : Z) : list Z :=
  (λ e, e.1.1) <$> filter (λ e, e.1.2 = v) es.

Definition edge_weight (es : edge_list) : WeightFunc Z := λ e,
  match e with
  | Some (u, v) => default inf (lookup_weight es u v)
  | None => inf
  end.

Definition edge_of (es : edge_list) (u v : Z) : Edge Z :=
  match lookup_weight es u v with
  | Some _ => Some (u, v)
  | None => None
  end.

(** A weighted directed graph. *)
Definition directed (ns : list Z) (es : edge_list) : Graph Z :=
  {| Nodes := ns;
     From := succs es;
     HasEdge := λ u v, bool_decide (is_Some (lookup_weight es u v)
                                    ∨ is_Some (lookup_weight es v u));
     directedness := IsDirected (preds es) (edge_of es);
     Weighter := Some (edge_weight es);
     HeuristicWeighter := None |}.

Definition symmetric (es : edge_list) : edge_list :=
  es ++ ((λ e, (e.1.2, e.1.1, e.2)) <$> es).

(** A weighted undirected graph: every edge is usable both ways. *)
Definition undirected (ns : list Z) (es : edge_list) : Graph Z :=
  let es := symmetric es in
  {| Nodes := ns;
     From := succs es;
     HasEdge := λ u v, bool_decide (is_Some (lookup_weight es u v));
     directedness := IsUndirected (edge_of es);
     Weighter := Some (edge_weight es);
     HeuristicWeighter := None |}.
End examples.

(** ** D* Lite (path/dynamic/dstarlite.go) *)

Module dynamic.
Section DStarLite.
Context {N : Type} `{!Node N}.

(** [key]: a D* Lite priority queue key, [[2]float64]. *)
Definition key : Type := float * float.

(** [key.less]. *)
Definition less (k other : key) : bool :=
  flt k.1 other.1 || (feq k.1 other.1 && flt k.2 other.2).

(** [dStarLiteNode]; the embedded [graph.Node] is [node_of]. *)
Record dStarLiteNode : Type := {
  node_of : N;
  node_key : key;
  rhs : float;
  g : float;
}.

(** The planner shares its nodes through [*dStarLiteNode] pointers: the
    queue, the world graph and the fields [s], [t], [last] all refer to
    the same records.  [memory] maps each pointer to its record. *)
Definition ptr : Type := nat.
Definition memory : Type := gmap ptr dStarLiteNode.

Definition deref (m : memory) (p : ptr) : result dStarLiteNode :=
  match m !! p with
  | Some n => Ok n
  | None => nil_dereference
  end.

(** [&dStarLiteNode{...}]. *)
Definition new (m : memory) (n : dStarLiteNode) : memory * ptr :=
  let p := size m in (<[p := n]> m, p).

Definition set_key (k : key) (n : dStarLiteNode) : dStarLiteNode :=
  {| node_of := node_of n; node_key := k; rhs := rhs n; g := g n |}.
Definition set_rhs (x : float) (n : dStarLiteNode) : dStarLiteNode :=
  {| node_of := node_of n; node_key := node_key n; rhs := x; g := g n |}.
Definition set_g (x : float) (n : dStarLiteNode) : dStarLiteNode :=
  {| node_of := node_of n; node_key := node_key n; rhs := rhs n; g := x |}.

(** [p.field = x] through a pointer. *)
Definition store (m : memory) (p : ptr) (f : dStarLiteNode → dStarLiteNode)
  : result memory :=
  n ← deref m p; Ok (<[p := f n]> m).

(** A [graph.Node] interface value held by the world graph: a node of the
    caller, a [*dStarLiteNode], or a [dStarLiteNode] by value. *)
Inductive worldNode : Type :=
| OfCaller (n : N)
| Pointer (p : ptr)
| ByValue (n : dStarLiteNode).

(** The caller's node under an interface value, for [ID()] and for the
    caller's weight and heuristic functions. *)
Definition underlying (m : memory) (v : worldNode) : result N :=
  match v with
  | OfCaller n => Ok n
  | Pointer p => n ← deref m p; Ok (node_of n)
  | ByValue n => Ok (node_of n)
  end.

Definition worldNode_ID (m : memory) (v : worldNode) : result Z :=
  n ← underlying m v; Ok (ID n).

(** The type assertion of [v] to [*dStarLiteNode]. *)
Definition assert_pointer (v : worldNode) : result ptr :=
  match v with
  | Pointer p => Ok p
  | OfCaller _ =>
    Panicked "interface conversion: graph.Node is not *dynamic.dStarLiteNode"
  | ByValue _ =>
    Panicked "interface conversion: graph.Node is dynamic.dStarLiteNode, not *dynamic.dStarLiteNode"
  end.

(** The type assertion of [v] to [dStarLiteNode]. *)
Definition assert_value (v : worldNode) : result dStarLiteNode :=
  match v with
  | ByValue n => Ok n
  | Pointer _ =>
    Panicked "interface conversion: graph.Node is *dynamic.dStarLiteNode, not dynamic.dStarLiteNode"
  | OfCaller _ =>
    Panicked "interface conversion: graph.Node is not dynamic.dStarLiteNode"
  end.

(** *** The world graph

    Modelled from the spec: the [MutableDirected] world graph handed to
    [NewDStarLite] is an interface whose implementation is not part of the
    sources.  Following graph.go's contract for mutable graphs, it stores
    the exact node values it is given under their identifiers, a later
    [AddNode] supersedes an earlier one, [SetEdge] adds missing end points
    without replacing present ones, and [Node] returns nil for an unknown
    identifier. *)
Record World : Type := {
  nodeMap : gmap Z worldNode;
  edgeMap : gmap (Z * Z) float;
}.

Definition emptyWorld : World := {| nodeMap := ∅; edgeMap := ∅ |}.

Definition World_AddNode (m : memory) (w : World) (n : worldNode)
  : result World :=
  id ← worldNode_ID m n;
  Ok {| nodeMap := <[id := n]> (nodeMap w); edgeMap := edgeMap w |}.

Definition World_Nodes (w : World) : list worldNode :=
  (map_to_list (nodeMap w)).*2.

Definition World_Node (w : World) (id : Z) : option worldNode :=
  nodeMap w !! id.

Definition add_if_absent (id : Z) (n : worldNode) (nm : gmap Z worldNode)
  : gmap Z worldNode :=
  match nm !! id with
  | Some _ => nm
  | None => <[id := n]> nm
  end.

Definition World_SetEdge (m : memory) (w : World) (F T : worldNode)
    (weight : float) : result World :=
  f ← worldNode_ID m F;
  t ← worldNode_ID m T;
  Ok {| nodeMap := add_if_absent t T (add_if_absent f F (nodeMap w));
        edgeMap := <[(f, t) := weight]> (edgeMap w) |}.

Definition World_neighbours (w : World) (sel : Z * Z → option Z)
  : list worldNode :=
  omap (λ e, sel e.1 ≫= λ id, nodeMap w !! id) (map_to_list (edgeMap w)).

Definition World_From (m : memory) (w : World) (u : worldNode)
  : result (list worldNode) :=
  id ← worldNode_ID m u;
  Ok (World_neighbours w (λ e, if decide (e.1 = id) then Some e.2 else None)).

Definition World_To (m : memory) (w : World) (u : worldNode)
  : result (list worldNode) :=
  id ← worldNode_ID m u;
  Ok (World_neighbours w (λ e, if decide (e.2 = id) then Some e.1 else None)).

(** [world.Edge(u, v)], as the edge over the caller's nodes that the
    weight function is applied to. *)
Definition World_Edge (m : memory) (w : World) (u v : worldNode)
  : result (Edge N) :=
  a ← underlying m u;
  b ← underlying m v;
  Ok (match edgeMap w !! (ID a, ID b) with
      | Some _ => Some (a, b)
      | None => None
      end).

(** *** dStarLiteQueue *)

Record dStarLiteQueue : Type := {
  indexOf : gmap Z nat;
  nodes : list ptr;
}.

(** The queue orders pointers by the keys stored behind them, so the heap
    operations act on the memory together with the queue. *)
Definition queueHeap : Type := memory * dStarLiteQueue.

Definition node_ID (m : memory) (p : ptr) : result Z :=
  n ← deref m p; Ok (ID (node_of n)).

Definition queue_Less (h : queueHeap) (i j : nat) : result bool :=
  a ← at_index (nodes h.2) i;
  a ← deref h.1 a;
  b ← at_index (nodes h.2) j;
  b ← deref h.1 b;
  Ok (less (node_key a) (node_key b)).

Definition queue_Swap (h : queueHeap) (i j : nat) : result queueHeap :=
  a ← at_index (nodes h.2) i;
  ida ← node_ID h.1 a;
  b ← at_index (nodes h.2) j;
  idb ← node_ID h.1 b;
  Ok (h.1, {| indexOf := <[idb := i]> (<[ida := j]> (indexOf h.2));
              nodes := <[j := a]> (<[i := b]> (nodes h.2)) |}).

Definition queue_Len (h : queueHeap) : nat := length (nodes h.2).

Definition queue_Push (h : queueHeap) (n : ptr) : result queueHeap :=
  id ← node_ID h.1 n;
  Ok (h.1, {| indexOf := <[id := length (nodes h.2)]> (indexOf h.2);
              nodes := nodes h.2 ++ [n] |}).

Definition queue_Pop (h : queueHeap) : result (queueHeap * ptr) :=
  match nodes h.2 with
  | [] => index_out_of_range
  | _ =>
    n ← at_index (nodes h.2) (length (nodes h.2) - 1);
    id ← node_ID h.1 n;
    Ok ((h.1, {| indexOf := delete id (indexOf h.2);
                 nodes := take (length (nodes h.2) - 1) (nodes h.2) |}), n)
  end.

#[global] Instance dStarLiteQueue_heap : Interface.t queueHeap ptr :=
  {| Interface.Len := queue_Len;
     Interface.Less := queue_Less;
     Interface.Swap := queue_Swap;
     Interface.Push := queue_Push;
     Interface.Pop := queue_Pop |}.

(** [has]. *)
Definition queue_has (q : dStarLiteQueue) (id : Z) : bool :=
  bool_decide (is_Some (indexOf q !! id)).

(** [top]. *)
Definition queue_top (q : dStarLiteQueue) : result ptr :=
  at_index (nodes q) 0.

(** [insert]: the key [k] is a parameter of the Go method, whose body is
    the single statement [heap.Push(q, u)]. *)
Definition queue_insert (h : queueHeap) (u : ptr) (k : key)
  : result queueHeap :=
  heap.Push h u.

(** [update]. *)
Definition queue_update (h : queueHeap) (id : Z) (k : key)
  : result queueHeap :=
  match indexOf h.2 !! id with
  | None => Ok h
  | Some i =>
    p ← at_index (nodes h.2) i;
    m ← store h.1 p (set_key k);
    heap.Fix (m, h.2) i
  end.

(** [remove]. *)
Definition queue_remove (h : queueHeap) (id : Z) : result queueHeap :=
  match indexOf h.2 !! id with
  | None => Ok h
  | Some i => '(h', _) ← heap.Remove h i; Ok h'
  end.

(** *** The planner *)

Record DStarLite : Type := {
  mem : memory;
  s : ptr;
  t : ptr;
  last : ptr;
  world : World;
  queue : dStarLiteQueue;
  k_m : float;
  weight : WeightFunc N;
  heuristic : HeuristicWeightFunc N;
}.

Definition with_heap (d : DStarLite) (h : queueHeap) : DStarLite :=
  {| mem := h.1; s := s d; t := t d; last := last d; world := world d;
     queue := h.2; k_m := k_m d; weight := weight d;
     heuristic := heuristic d |}.

Definition with_mem (d : DStarLite) (m : memory) : DStarLite :=
  with_heap d (m, queue d).

Definition with_world (d : DStarLite) (w : World) : DStarLite :=
  {| mem := mem d; s := s d; t := t d; last := last d; world := w;
     queue := queue d; k_m := k_m d; weight := weight d;
     heuristic := heuristic d |}.

Definition heap_of (d : DStarLite) : queueHeap := (mem d, queue d).

(** [keyFor]. *)
Definition keyFor (d : DStarLite) (p : ptr) : result key :=
  n ← deref (mem d) p;
  start ← deref (mem d) (s d);
  let k1 := Min (g n) (rhs n) in
  Ok (fadd (fadd k1 (heuristic d (node_of start) (node_of n))) (k_m d), k1).

(** [update], the UpdateVertex procedure. *)
Definition update (d : DStarLite) (u : ptr) : result DStarLite :=
  n ← deref (mem d) u;
  let uid := ID (node_of n) in
  let inQueue := queue_has (queue d) uid in
  let consistent := feq (g n) (rhs n) in
  if inQueue && negb consistent then
    k ← keyFor d u; with_heap d <$> queue_update (heap_of d) uid k
  else if negb inQueue && negb consistent then
    k ← keyFor d u; with_heap d <$> queue_insert (heap_of d) u k
  else if inQueue && consistent then
    with_heap d <$> queue_remove (heap_of d) uid
  else Ok d.

Definition weight_between (d : DStarLite) (a b : ptr) : result float :=
  e ← World_Edge (mem d) (world d) (Pointer a) (Pointer b);
  Ok (weight d e).

(** [s.rhs = math.Inf(1)] followed by the loop over [d.world.From(s)] that
    asserts each successor to the value type [dStarLiteNode]. *)
Definition recompute_rhs (d : DStarLite) (p : ptr) : result DStarLite :=
  m ← store (mem d) p (set_rhs inf);
  let d := with_mem d m in
  succs ← World_From (mem d) (world d) (Pointer p);
  for_range succs
    (λ d v,
       n ← deref (mem d) p;
       e ← World_Edge (mem d) (world d) (Pointer p) v;
       successor ← assert_value v;
       m ← store (mem d) p
             (set_rhs (Min (rhs n) (fadd (weight d e) (g successor))));
       Ok (with_mem d m))
    d.

(** The loop body of the overconsistent case. *)
Definition lower_predecessor (u : ptr) (d : DStarLite) (v : worldNode)
  : result DStarLite :=
  p ← assert_pointer v;
  pid ← node_ID (mem d) p;
  tid ← node_ID (mem d) (t d);
  d ← (if decide (pid ≠ tid) then
         n ← deref (mem d) p;
         w ← weight_between d p u;
         un ← deref (mem d) u;
         m ← store (mem d) p (set_rhs (Min (rhs n) (fadd w (g un))));
         Ok (with_mem d m)
       else Ok d);
  update d p.

(** The loop body of the underconsistent case. *)
Definition raise_predecessor (u : ptr) (gOld : float) (d : DStarLite)
    (v : worldNode) : result DStarLite :=
  p ← assert_pointer v;
  n ← deref (mem d) p;
  w ← weight_between d p u;
  d ← (if feq (rhs n) (fadd w gOld) then
         pid ← node_ID (mem d) p;
         tid ← node_ID (mem d) (t d);
         if decide (pid ≠ tid) then recompute_rhs d p else Ok d
       else Ok d);
  update d p.

(** [findShortestPath], the ComputeShortestPath procedure. *)
Fixpoint findShortestPath (fuel : nat) (d : DStarLite) : result DStarLite :=
  match fuel with
  | O => OutOfFuel
  | S fuel' =>
    if decide (Interface.Len (heap_of d) = 0)%nat then Ok d
    else
      u ← queue_top (queue d);
      un ← deref (mem d) u;
      ks ← keyFor d (s d);
      start ← deref (mem d) (s d);
      if negb (less (node_key un) ks) && fle (rhs start) (g start) then Ok d
      else
        kNew ← keyFor d u;
        uid ← node_ID (mem d) u;
        d ←
          (if less (node_key un) kNew then
             with_heap d <$> queue_update (heap_of d) uid kNew
           else if flt (rhs un) (g un) then
             m ← store (mem d) u (set_g (rhs un));
             let d := with_mem d m in
             d ← with_heap d <$> queue_remove (heap_of d) uid;
             preds ← World_To (mem d) (world d) (Pointer u);
             for_range preds (lower_predecessor u) d
           else
             let gOld := g un in
             m ← store (mem d) u (set_g inf);
             let d := with_mem d m in
             preds ← World_To (mem d) (world d) (Pointer u);
             for_range (preds ++ [Pointer u]) (raise_predecessor u gOld) d);
        findShortestPath fuel' d
  end.

(** [g.Edge(u, v)] on the input graph: the edge lookup its kind offers. *)
Definition Graph_Edge (gr : Graph N) (u v : N) : Edge N :=
  edgeTo (setupFuncs gr None None) u v.

(** The first loop of [NewDStarLite]: [for _, n := range g.Nodes()]. *)
Definition add_world_node (ps pt : ptr) (st : memory * World) (n : N)
  : result (memory * World) :=
  let '(m, w) := st in
  sid ← node_ID m ps;
  tid ← node_ID m pt;
  if decide (ID n = sid) then w ← World_AddNode m w (Pointer ps); Ok (m, w)
  else if decide (ID n = tid) then
    w ← World_AddNode m w (Pointer pt); Ok (m, w)
  else
    let '(m, p) := new m {| node_of := n; node_key := (fzero, fzero);
                            rhs := inf; g := inf |} in
    w ← World_AddNode m w (Pointer p); Ok (m, w).

(** The second loop: [for _, u := range world.Nodes()] and, inside,
    [for _, v := range g.From(u)]. *)
Definition add_world_edges (gr : Graph N) (weight : WeightFunc N)
    (m : memory) (w : World) (u : worldNode) : result World :=
  a ← underlying m u;
  for_range (From gr a)
    (λ w v,
       let c := weight (Graph_Edge gr a v) in
       if flt c fzero then Panicked "D* Lite: negative edge weight"
       else
         match World_Node w (ID v) with
         | None => nil_dereference
         | Some target => World_SetEdge m w u target c
         end)
    w.

(** [NewDStarLite].  A nil [h] is [None]; calling it panics. *)
Definition NewDStarLite (fuel : nat) (s t : N) (gr : Graph N)
    (h : option (HeuristicWeightFunc N)) (world : World)
  : result DStarLite :=
  let '(m, ps) := new ∅ {| node_of := s; node_key := (fzero, fzero);
                           rhs := inf; g := inf |} in
  let '(m, pt) := new m {| node_of := t; node_key := (fzero, fzero);
                           rhs := fzero; g := inf |} in
  let weight := match Weighter gr with
                | Some w => w
                | None => UniformCostWeight
                end in
  let heuristic := match h with
                   | Some h => h
                   | None =>
                     match HeuristicWeighter gr with
                     | Some h => h
                     | None => NullHeuristic
                     end
                   end in
  k ← match h with
      | Some h => Ok (h s t, fzero)
      | None => nil_dereference
      end;
  hp ← queue_insert (m, {| indexOf := ∅; nodes := [] |}) pt k;
  '(m, world) ← for_range (Nodes gr) (add_world_node ps pt) (hp.1, world);
  world ← for_range (World_Nodes world) (add_world_edges gr weight m) world;
  findShortestPath fuel
    {| mem := m; s := ps; t := pt; last := ps; world := world;
       queue := hp.2; k_m := fzero; weight := weight;
       heuristic := heuristic |}.

(** [worldNodeFor]. *)
Definition worldNodeFor (d : DStarLite) (n : N) : result (DStarLite * ptr) :=
  match World_Node (world d) (ID n) with
  | Some (Pointer p) => Ok (d, p)
  | Some _ => Panicked "D* Lite: illegal world node type"
  | None =>
    let '(m, p) := new (mem d) {| node_of := n; node_key := (fzero, fzero);
                                  rhs := inf; g := inf |} in
    Ok (with_mem d m, p)
  end.

(** One element of [changes]: a [concrete.WeightedEdge]. *)
Definition change : Type := N * N * float.

(** The loop body of [UpdateWorld]. *)
Definition apply_change (d : DStarLite) (e : change) : result DStarLite :=
  let '(from, to, cost) := e in
  if flt cost fzero then Panicked "D* Lite: negative edge weight"
  else
    let cOld := weight d (Some (from, to)) in
    '(d, u) ← worldNodeFor d from;
    '(d, v) ← worldNodeFor d to;
    w ← World_SetEdge (mem d) (world d) (Pointer u) (Pointer v) cost;
    let d := with_world d w in
    un ← deref (mem d) u;
    vn ← deref (mem d) v;
    uid ← node_ID (mem d) u;
    tid ← node_ID (mem d) (t d);
    d ← (if flt cost cOld then
           if decide (uid ≠ tid) then
             m ← store (mem d) u (set_rhs (Min (rhs un) (fadd cost (g vn))));
             Ok (with_mem d m)
           else Ok d
         else if feq (rhs un) (fadd cOld (g vn)) then
           if decide (uid ≠ tid) then recompute_rhs d u else Ok d
         else Ok d);
    update d u.

(** [UpdateWorld]. *)
Definition UpdateWorld (fuel : nat) (d : DStarLite) (changes : list change)
  : result DStarLite :=
  match changes with
  | [] => Ok d
  | _ =>
    lastn ← deref (mem d) (last d);
    start ← deref (mem d) (s d);
    let d := {| mem := mem d; s := s d; t := t d; last := s d;
                world := world d; queue := queue d;
                k_m := fadd (k_m d)
                         (heuristic d (node_of lastn) (node_of start));
                weight := weight d; heuristic := heuristic d |} in
    d ← for_range changes apply_change d;
    findShortestPath fuel d
  end.

(** [MoveTo]. *)
Definition MoveTo (d : DStarLite) (n : Z) : result DStarLite :=
  match World_Node (world d) n with
  | None => Panicked "interface conversion: interface is nil"
  | Some v =>
    p ← assert_pointer v;
    lastn ← deref (mem d) (s d);
    here ← deref (mem d) p;
    Ok {| mem := mem d; s := p; t := t d; last := s d; world := world d;
          queue := queue d;
          k_m := fadd (k_m d) (heuristic d (node_of lastn) (node_of here));
          weight := weight d; heuristic := heuristic d |}
  end.

(** The scan of the successors of [u] shared by [Step] and [Path]: the
    successor minimising edge weight plus [g], with that edge weight. *)
Definition best_successor (d : DStarLite) (u : ptr)
  : result (option ptr * float) :=
  succs ← World_From (mem d) (world d) (Pointer u);
  '(next, _, cost) ←
    for_range succs
      (λ '(next, min, cost) v,
         p ← assert_pointer v;
         w ← weight_between d u p;
         n ← deref (mem d) p;
         if flt (fadd w (g n)) min then Ok (Some p, fadd w (g n), w)
         else Ok (next, min, cost))
      (None, inf, fzero);
  Ok (next, cost).

(** [Step]. *)
Definition Step (d : DStarLite) : result (DStarLite * bool) :=
  sid ← node_ID (mem d) (s d);
  tid ← node_ID (mem d) (t d);
  start ← deref (mem d) (s d);
  if decide (sid = tid) then Ok (d, false)
  else if IsInfPos (rhs start) then Ok (d, false)
  else
    '(next, _) ← best_successor d (s d);
    match next with
    | None => nil_dereference
    | Some p => id ← node_ID (mem d) p; d ← MoveTo d id; Ok (d, true)
    end.

(** [Path]: the node sequence ([None] is nil) and its weight. *)
Fixpoint Path_loop (fuel : nat) (d : DStarLite) (u : ptr) (p : list N)
    (total : float) : result (option (list N) * float) :=
  match fuel with
  | O => OutOfFuel
  | S fuel' =>
    uid ← node_ID (mem d) u;
    tid ← node_ID (mem d) (t d);
    if decide (uid = tid) then Ok (Some p, total)
    else
      un ← deref (mem d) u;
      if IsInfPos (rhs un) then Ok (None, inf)
      else
        '(next, cost) ← best_successor d u;
        match next with
        | None => nil_dereference
        | Some v =>
          vn ← deref (mem d) v;
          Path_loop fuel' d v (p ++ [node_of vn]) (fadd total cost)
        end
  end.

Definition Path (fuel : nat) (d : DStarLite)
  : result (option (list N) * float) :=
  start ← deref (mem d) (s d);
  Path_loop fuel d (s d) [node_of start] fzero.
End DStarLite.
Arguments dStarLiteNode N : clear implicits.
Arguments worldNode N : clear implicits.
Arguments World N : clear implicits.
Arguments DStarLite N : clear implicits.
Arguments memory N : clear implicits.
Arguments queueHeap N : clear implicits.
End dynamic.

(** ** Strongly connected components and spanning trees
       (structure/structure.go) *)

Module structure.
Section Tarjan.
Context {N : Type} `{!Node N}.

(** [tarjan].  [stack] lists the Go slice from its end: the head of the
    list is the top of the stack.  [sccs] is in order of emission. *)
Record tarjan : Type := {
  index : nat;
  indexTable : gmap Z nat;
  lowLink : gmap Z nat;
  onStack : gset Z;
  stack : list N;
  sccs : list (list N);
}.

(** [m[id]] on a [map[int]int]: zero when the key is absent. *)
Definition int_at (m : gmap Z nat) (id : Z) : nat := default 0%nat (m !! id).

Definition set_lowLink (t : tarjan) (id : Z) (x : nat) : tarjan :=
  {| index := index t; indexTable := indexTable t;
     lowLink := <[id := x]> (lowLink t); onStack := onStack t;
     stack := stack t; sccs := sccs t |}.

(** The first five statements of [strongconnect]. *)
Definition discover (v : N) (t : tarjan) : tarjan :=
  let vID := ID v in
  let i := S (index t) in
  {| index := i;
     indexTable := <[vID := i]> (indexTable t);
     lowLink := <[vID := i]> (lowLink t);
     onStack := {[vID]} ∪ onStack t;
     stack := v :: stack t;
     sccs := sccs t |}.

(** The loop that pops the stack down to [v] and builds one component. *)
Fixpoint pop_component (vID : Z) (stack : list N) (onStack : gset Z)
    (scc : list N) : result (list N * gset Z * list N) :=
  match stack with
  | [] => index_out_of_range
  | w :: stack' =>
    let onStack := onStack ∖ {[ID w]} in
    let scc := scc ++ [w] in
    if decide (ID w = vID) then Ok (stack', onStack, scc)
    else pop_component vID stack' onStack scc
  end.

(** [if t.lowLink[vID] == t.indexTable[vID] { ... }]. *)
Definition close_root (v : N) (t : tarjan) : result tarjan :=
  let vID := ID v in
  if decide (int_at (lowLink t) vID = int_at (indexTable t) vID) then
    '(stack', onStack', scc) ← pop_component vID (stack t) (onStack t) [];
    Ok {| index := index t; indexTable := indexTable t;
          lowLink := lowLink t; onStack := onStack'; stack := stack';
          sccs := sccs t ++ [scc] |}
  else Ok t.

(** The body of [for _, w := range t.succ(v)]; [recur] is the recursive call
    of [strongconnect]. *)
Definition consider_successor (recur : N → tarjan → result tarjan) (v : N)
    (t : tarjan) (w : N) : result tarjan :=
  let vID := ID v in
  let wID := ID w in
  if decide (int_at (indexTable t) wID = 0)%nat then
    t ← recur w t;
    Ok (set_lowLink t vID
          (Nat.min (int_at (lowLink t) vID) (int_at (lowLink t) wID)))
  else if decide (wID ∈ onStack t) then
    Ok (set_lowLink t vID
          (Nat.min (int_at (lowLink t) vID) (int_at (indexTable t) wID)))
  else Ok t.

(** [strongconnect].  The recursion follows the depth-first search; [fuel]
    bounds its depth. *)
Fixpoint strongconnect (fuel : nat) (succ : N → list N) (v : N)
    (t : tarjan) : result tarjan :=
  match fuel with
  | O => OutOfFuel
  | S fuel' =>
    t ← for_range (succ v) (consider_successor (strongconnect fuel' succ) v)
          (discover v t);
    close_root v t
  end.

Definition TarjanSCC_init : tarjan :=
  {| index := 0; indexTable := ∅; lowLink := ∅; onStack := ∅;
     stack := []; sccs := [] |}.

(** [TarjanSCC], for a graph given by its [Nodes] and [From]. *)
Definition TarjanSCC (fuel : nat) (g : Graph N) : result (list (list N)) :=
  t ← for_range (Nodes g)
        (λ t v,
           if decide (int_at (indexTable t) (ID v) = 0)%nat then
             strongconnect fuel (From g) v t
           else Ok t)
        TarjanSCC_init;
  Ok (sccs t).
End Tarjan.
Arguments tarjan N : clear implicits.

Section SpanningTree.
Context {N : Type} `{!Node N}.

(** [graph.EdgeList]: a graph that also lists its edges. *)
Record EdgeList : Type := {
  graph_of :> Graph N;
  Edges : list (N * N);
}.

(** [concrete.WeightedEdge]. *)
Record WeightedEdge : Type := {
  edge_of : N * N;
  Weight : float;
}.

(** [concrete.UndirectedGraph] (concrete/mutablegr.go), the destination of
    the spanning tree algorithms. *)
Record UndirectedGraph : Type := {
  absent : float;
  neighbors : gmap Z (gmap Z WeightedEdge);
  nodeMap : gmap Z N;
  maxID : Z;
  freeMap : gset Z;
}.

Definition NewUndirectedGraph (absent : float) : UndirectedGraph :=
  {| absent := absent; neighbors := ∅; nodeMap := ∅; maxID := 0;
     freeMap := ∅ |}.

Definition Has (g : UndirectedGraph) (n : N) : bool :=
  bool_decide (is_Some (nodeMap g !! ID n)).

Definition AddNode (g : UndirectedGraph) (n : N) : UndirectedGraph :=
  {| absent := absent g;
     neighbors := <[ID n := ∅]> (neighbors g);
     nodeMap := <[ID n := n]> (nodeMap g);
     maxID := Z.max (maxID g) (ID n);
     freeMap := freeMap g ∖ {[ID n]} |}.

(** [g.neighbors[a][b] = we]; assignment into a nil inner map panics. *)
Definition set_neighbor (g : UndirectedGraph) (a b : Z) (we : WeightedEdge)
  : result UndirectedGraph :=
  match neighbors g !! a with
  | None => Panicked "assignment to entry in nil map"
  | Some inner =>
    Ok {| absent := absent g;
          neighbors := <[a := <[b := we]> inner]> (neighbors g);
          nodeMap := nodeMap g; maxID := maxID g; freeMap := freeMap g |}
  end.

Definition AddUndirectedEdge (g : UndirectedGraph) (e : N * N)
    (weight : float) : result UndirectedGraph :=
  let '(from, to) := e in
  let g := if Has g from then g else AddNode g from in
  let g := if Has g to then g else AddNode g to in
  let we := {| edge_of := e; Weight := weight |} in
  g ← set_neighbor g (ID from) (ID to) we;
  set_neighbor g (ID to) (ID from) we.

(** The weights stored in a destination graph, each undirected edge
    counted under its smaller end point first. *)
Definition stored_edges (g : UndirectedGraph) : list (Z * Z * float) :=
  '(a, inner) ← map_to_list (neighbors g);
  '(b, we) ← map_to_list inner;
  if decide (a ≤ b)%Z then [(a, b, Weight we)] else [].

(** *** sort.Sort(byWeight(edges))

    [sort.Sort] belongs to the Go standard library.  On a slice of at
    most six elements it is, in every release of Go, an insertion sort
    over [Less] and [Swap]: an element moves left while it is strictly
    lighter than its left neighbour.  Longer slices are sorted by other
    means, equal weights then coming out in another order. *)
Fixpoint insert_by_weight (e : WeightedEdge) (sorted : list WeightedEdge)
  : list WeightedEdge :=
  match sorted with
  | [] => [e]
  | x :: rest =>
    if flt (Weight e) (Weight x) then x :: insert_by_weight e rest
    else e :: sorted
  end.

(** [sorted] is kept in reverse (heaviest first) while elements come in
    from the left of the slice. *)
Definition sort_byWeight (edges : list WeightedEdge) : list WeightedEdge :=
  reverse (foldl (λ sorted e, insert_by_weight e sorted) [] edges).

Definition resolve_weight (g : Graph N) (weight : option (WeightFunc N))
  : WeightFunc N :=
  match weight with
  | Some w => w
  | None =>
    match Weighter g with
    | Some w => w
    | None => UniformCostWeight
    end
  end.

(** *** Prim *)

Record primState : Type := {
  dst : UndirectedGraph;
  remainingNodes : gset Z;
}.

(** The edges with one end in [dst] and the other among the remaining
    nodes, with their weights. *)
Definition crossing (weight : WeightFunc N) (edgeList : list (N * N))
    (st : primState) : list WeightedEdge :=
  (λ e, {| edge_of := e; Weight := weight (Some e) |}) <$>
    filter (λ e : N * N,
              (Has (dst st) e.1 ∧ ID e.2 ∈ remainingNodes st)
              ∨ (Has (dst st) e.2 ∧ ID e.1 ∈ remainingNodes st))
           edgeList.

(** One turn of [for remainingNodes.Count() != 0]. *)
Definition Prim_turn (weight : WeightFunc N) (edgeList : list (N * N))
    (st : primState) : result primState :=
  myEdge ← at_index (sort_byWeight (crossing weight edgeList st)) 0;
  dst' ← AddUndirectedEdge (dst st) (edge_of myEdge) (Weight myEdge);
  Ok {| dst := dst';
        remainingNodes := remainingNodes st ∖ {[ID (edge_of myEdge).1]} |}.

Fixpoint Prim_loop (fuel : nat) (weight : WeightFunc N)
    (edgeList : list (N * N)) (st : primState) : result UndirectedGraph :=
  match fuel with
  | O => OutOfFuel
  | S fuel' =>
    if decide (size (remainingNodes st) = 0)%nat then Ok (dst st)
    else
      st' ← Prim_turn weight edgeList st;
      Prim_loop fuel' weight edgeList st'
  end.

Definition Prim (fuel : nat) (dst : UndirectedGraph) (g : EdgeList)
    (weight : option (WeightFunc N)) : result UndirectedGraph :=
  let weight := resolve_weight g weight in
  match Nodes g with
  | [] => Ok dst
  | first :: rest =>
    Prim_loop fuel weight (Edges g)
      {| dst := AddNode dst first;
         remainingNodes := list_to_set (ID <$> rest) |}
  end.

(** *** The disjoint set used by Kruskal

    Modelled from the spec: [internal.DisjointSet] is not among the
    sources; it is the union-find with path compression and union by rank
    of section 4.4, the same as topo/disjoint.go with [int] elements.
    Each element owns one node, so a node pointer is the element's
    identifier. *)
Record DisjointSet : Type := {
  parent : gmap Z Z;
  rank : gmap Z nat;
}.

Definition NewDisjointSet : DisjointSet := {| parent := ∅; rank := ∅ |}.

Definition MakeSet (ds : DisjointSet) (el : Z) : DisjointSet :=
  match parent ds !! el with
  | Some _ => ds
  | None => {| parent := <[el := el]> (parent ds);
               rank := <[el := 0%nat]> (rank ds) |}
  end.

(** [find], with path compression.  The recursion climbs parent
    pointers; a climb longer than the number of nodes has entered a cycle
    and never ends. *)
Fixpoint find_loop (fuel : nat) (ds : DisjointSet) (x : Z)
  : result (DisjointSet * Z) :=
  match fuel with
  | O => OutOfFuel
  | S fuel' =>
    match parent ds !! x with
    | None => nil_dereference
    | Some p =>
      if decide (p = x) then Ok (ds, p)
      else
        '(ds, root) ← find_loop fuel' ds p;
        Ok ({| parent := <[x := root]> (parent ds); rank := rank ds |}, root)
    end
  end.

Definition find (ds : DisjointSet) (x : Z) : result (DisjointSet * Z) :=
  find_loop (S (size (parent ds))) ds x.

(** [Find]: nil ([None]) for an unknown element. *)
Definition Find (ds : DisjointSet) (el : Z)
  : result (DisjointSet * option Z) :=
  match parent ds !! el with
  | None => Ok (ds, None)
  | Some _ => '(ds, root) ← find ds el; Ok (ds, Some root)
  end.

Definition Union (ds : DisjointSet) (x y : option Z) : result DisjointSet :=
  match x, y with
  | Some x, Some y =>
    '(ds, xRoot) ← find ds x;
    '(ds, yRoot) ← find ds y;
    if decide (xRoot = yRoot) then Ok ds
    else
      let rx := default 0%nat (rank ds !! xRoot) in
      let ry := default 0%nat (rank ds !! yRoot) in
      if decide (rx < ry)%nat then
        Ok {| parent := <[xRoot := yRoot]> (parent ds); rank := rank ds |}
      else if decide (ry < rx)%nat then
        Ok {| parent := <[yRoot := xRoot]> (parent ds); rank := rank ds |}
      else
        Ok {| parent := <[yRoot := xRoot]> (parent ds);
              rank := <[xRoot := S rx]> (rank ds) |}
  | _, _ => Panicked "Disjoint Set union on nil sets"
  end.

(** *** Kruskal *)

(** The body of [for _, edge := range edges]. *)
Definition Kruskal_edge (st : DisjointSet * UndirectedGraph)
    (edge : WeightedEdge) : result (DisjointSet * UndirectedGraph) :=
  let '(ds, dst) := st in
  '(ds, s1) ← Find ds (ID (edge_of edge).1);
  '(ds, s2) ← Find ds (ID (edge_of edge).2);
  if decide (s1 ≠ s2) then
    ds ← Union ds s1 s2;
    dst ← AddUndirectedEdge dst (edge_of edge) (Weight edge);
    Ok (ds, dst)
  else Ok (ds, dst).

Definition Kruskal (dst : UndirectedGraph) (g : EdgeList)
    (weight : option (WeightFunc N)) : result UndirectedGraph :=
  let weight := resolve_weight g weight in
  let edges :=
    sort_byWeight
      ((λ e, {| edge_of := e; Weight := weight (Some e) |}) <$> Edges g) in
  let ds := foldl (λ ds node, MakeSet ds (ID node)) NewDisjointSet (Nodes g) in
  '(_, dst) ← for_range edges Kruskal_edge (ds, dst);
  Ok dst.
End SpanningTree.
Arguments EdgeList N : clear implicits.
Arguments WeightedEdge N : clear implicits.
Arguments UndirectedGraph N : clear implicits.
Arguments primState N : clear implicits.
End structure.

(** ** Path validation and depth-first search (path/path.go) *)

Section Traversal.
Context {N : Type} `{!Node N}.

(** The [canReach] closure of [IsPath]: the type switch on the graph. *)
Definition canReach (g : Graph N) : N → N → bool :=
  match directedness g with
  | IsDirected _ EdgeFromTo => λ u v, bool_decide (EdgeFromTo u v ≠ None)
  | IsUndirected _ => HasEdge g
  | IsPlain => HasEdge g
  end.

(** [for i := 0; i < len(path)-1; i++]: every node reaches the next. *)
Fixpoint all_reach (reach : N → N → bool) (path : list N) : bool :=
  match path with
  | u :: (v :: _) as rest =>
    if negb (reach u v) then false else all_reach reach rest
  | _ => true
  end.

(** [IsPath].  [has] is the method [g.Has] of the graph, the only use of
    which in package path is here. *)
Definition IsPath (has : N → bool) (path : list N) (g : Graph N) : bool :=
  match path with
  | [] => true
  | [n] => has n
  | _ => all_reach (canReach g) path
  end.

(** The variables of [DepthFirstSearch].  [dfs_open] is the
    [internal.NodeStack], listed from its top.

    Modelled from the spec: package internal is not among the sources.
    Its [NodeStack] is the explicit stack of section 4.12 ([Push] appends,
    [Pop] removes the node pushed last) and its [IntSet] a set of
    identifiers. *)
Record dfsState : Type := {
  dfs_closed : gset Z;
  dfs_predecessor : gmap Z (anyNode N);
  dfs_open : list N;
}.

(** The body of [for _, neighbor := range from(curr)]. *)
Definition DepthFirstSearch_neighbor (curr : N) (st : dfsState)
    (neighbor : N) : dfsState :=
  if decide (ID neighbor ∈ dfs_closed st) then st
  else
    {| dfs_closed := dfs_closed st;
       dfs_predecessor := <[ID neighbor := Plain curr]> (dfs_predecessor st);
       dfs_open := neighbor :: dfs_open st |}.

Fixpoint DepthFirstSearch_loop (fuel : nat) (sf : searchFuncs N) (goal : N)
    (st : dfsState) : result (option (list N)) :=
  match fuel with
  | O => OutOfFuel
  | S fuel' =>
    match dfs_open st with
    | [] => Ok None
    | curr :: rest =>
      if decide (ID curr ∈ dfs_closed st) then
        DepthFirstSearch_loop fuel' sf goal
          {| dfs_closed := dfs_closed st;
             dfs_predecessor := dfs_predecessor st; dfs_open := rest |}
      else if decide (ID curr = ID goal) then
        path ← rebuildPath (dfs_predecessor st) (Plain goal);
        Ok (Some path)
      else
        DepthFirstSearch_loop fuel' sf goal
          (foldl (DepthFirstSearch_neighbor curr)
             {| dfs_closed := {[ID curr]} ∪ dfs_closed st;
                dfs_predecessor := dfs_predecessor st; dfs_open := rest |}
             (from sf curr))
    end
  end.

(** [DepthFirstSearch]: the path, [None] for Go's nil slice. *)
Definition DepthFirstSearch (fuel : nat) (start goal : N) (g : Graph N)
  : result (option (list N)) :=
  let sf := setupFuncs g None None in
  DepthFirstSearch_loop fuel sf goal
    {| dfs_closed := ∅; dfs_predecessor := ∅; dfs_open := [start] |}.
End Traversal.
Arguments dfsState N : clear implicits.

(** ** concrete.UndirectedGraph (concrete/mutablegr.go)

    The constructor, [AddNode], [AddUndirectedEdge] and [Has] are above,
    with the spanning trees that are written into such a graph; the other
    methods follow.  Go ranges over a map in an order that it leaves open:
    where a method returns a slice filled from a map, the model lists the
    map in the order of [map_to_list]. *)

Module concrete.
Import structure.
Section UndirectedGraph.
Context {N : Type} `{!Node N}.
Implicit Types (g : UndirectedGraph N) (n : N).

(** [delete(g.neighbors[a], b)]; deleting from a nil inner map does
    nothing. *)
Definition delete_neighbor (a b : Z) (nb : gmap Z (gmap Z (WeightedEdge N)))
  : gmap Z (gmap Z (WeightedEdge N)) :=
  alter (delete b) a nb.

Definition RemoveNode g n : UndirectedGraph N :=
  match nodeMap g !! ID n with
  | None => g
  | Some _ =>
    let around := default ∅ (neighbors g !! ID n) in
    {| absent := absent g;
       neighbors :=
         delete (ID n)
           (map_fold (λ neigh _ nb, delete_neighbor neigh (ID n) nb)
              (neighbors g) around);
       nodeMap := delete (ID n) (nodeMap g);
       maxID := if decide (maxID g ≠ 0 ∧ ID n = maxID g)%Z
                then (maxID g - 1)%Z else maxID g;
       freeMap := {[ID n]} ∪ freeMap g |}
  end.

Definition RemoveUndirectedEdge g (e : N * N) : UndirectedGraph N :=
  let '(from, to) := e in
  match nodeMap g !! ID from, nodeMap g !! ID to with
  | Some _, Some _ =>
    {| absent := absent g;
       neighbors :=
         delete_neighbor (ID to) (ID from)
           (delete_neighbor (ID from) (ID to) (neighbors g));
       nodeMap := nodeMap g; maxID := maxID g; freeMap := freeMap g |}
  | _, _ => g
  end.

Definition EmptyGraph g : UndirectedGraph N :=
  {| absent := absent g; neighbors := ∅; nodeMap := ∅; maxID := maxID g;
     freeMap := freeMap g |}.

(** [g.neighbors[a][b]] with its [ok]; reading a nil inner map finds
    nothing. *)
Definition neighbor_at g (a b : Z) : option (WeightedEdge N) :=
  neighbors g !! a ≫= λ around, around !! b.

(** [From]; an element is [None] where [g.nodeMap[id]] is the nil
    interface. *)
Definition From g n : list (option N) :=
  if negb (Has g n) then []
  else (λ id, nodeMap g !! id)
         <$> (map_to_list (default ∅ (neighbors g !! ID n))).*1.

Definition HasEdge g n neigh : bool :=
  bool_decide (is_Some (neighbor_at g (ID n) (ID neigh))).

(** The [graph.Edge] that [EdgeBetween] returns: nil, a stored
    [WeightedEdge], or the zero [WeightedEdge] (whose embedded edge is nil)
    that reading an absent key of [g.neighbors[n.ID()]] gives. *)
Inductive edgeValue : Type :=
| NilEdge
| StoredEdge (we : WeightedEdge N)
| ZeroWeightedEdge.

Definition EdgeBetween g n neigh : edgeValue :=
  if negb (Has g n) then NilEdge
  else
    match neighbor_at g (ID n) (ID neigh) with
    | Some we => StoredEdge we
    | None => ZeroWeightedEdge
    end.

Definition Order g : nat := size (nodeMap g).

Definition Nodes g : list N := (map_to_list (nodeMap g)).*2.

Definition Weight g (e : N * N) : float :=
  match neighbors g !! ID e.1 with
  | Some around =>
    match around !! ID e.2 with
    | Some we => structure.Weight we
    | None => absent g
    end
  | None => absent g
  end.

Definition Degree g n : nat :=
  match nodeMap g !! ID n with
  | None => 0
  | Some _ => size (default ∅ (neighbors g !! ID n))
  end.
End UndirectedGraph.
Arguments edgeValue N : clear implicits.

Section NewNode.
Context {N : Type} `{!Node N}.

(** The constant [maxInt] of package concrete, the largest [int], is
    declared outside the sources: the model takes it as a parameter. *)
Variable maxInt : Z.

(** The key that [for id := range g.freeMap] produces first, if there is
    one.  Go leaves the choice open: the model takes it as a parameter. *)
Variable first_key : gset Z → option Z.

(** [for i := 0; i < maxInt; i++ { if _, ok := g.nodeMap[i]; !ok {...} }]
    from [i] on, with [steps] turns to go. *)
Fixpoint first_unused (steps : nat) (i : Z) (nodeMap : gmap Z N) : option Z :=
  match steps with
  | O => None
  | S steps' =>
    match nodeMap !! i with
    | None => Some i
    | Some _ => first_unused steps' (i + 1)%Z nodeMap
    end
  end.

(** [NewNode]: the graph, whose [maxID] may have grown, and the identifier
    of the [concrete.Node] returned. *)
Definition NewNode (g : UndirectedGraph N) : result (UndirectedGraph N * Z) :=
  if decide (maxID g ≠ maxInt) then
    Ok ({| absent := absent g; neighbors := neighbors g;
           nodeMap := nodeMap g; maxID := (maxID g + 1)%Z;
           freeMap := freeMap g |}, (maxID g + 1)%Z)
  else
    match first_key (freeMap g) with
    | Some id => Ok (g, id)
    | None =>
      if decide (Z.of_nat (size (nodeMap g)) = maxInt) then
        Panicked "cannot allocate node: graph too large"
      else
        match first_unused (Z.to_nat maxInt) 0%Z (nodeMap g) with
        | Some i => Ok (g, i)
        | None => Panicked "cannot allocate node id: no free id found"
        end
    end.
End NewNode.
End concrete.

(** ** graph.CopyUndirected (graph.go) *)

Section Copy.
Context {N : Type} `{!Node N}.

(** [CopyUndirected] into a [concrete.UndirectedGraph].  [src] is a
    [graph.Undirected]: a graph with its [EdgeBetween].  A nil edge makes
    [AddUndirectedEdge] call [From] on nil. *)
Definition CopyUndirected (dst : structure.UndirectedGraph N) (src : Graph N)
    (EdgeBetween : N → N → Edge N) : result (structure.UndirectedGraph N) :=
  let cost :=
    match Weighter src with
    | Some cost => cost
    | None => UniformCostWeight
    end in
  for_range (Nodes src)
    (λ dst node,
       let dst := structure.AddNode dst node in
       for_range (From src node)
         (λ dst succ,
            let edge := EdgeBetween node succ in
            let c := cost edge in
            match edge with
            | None => nil_dereference
            | Some e => structure.AddUndirectedEdge dst e c
            end)
         dst)
    dst.
End Copy.

(** ** Degeneracy ordering and k-cores (structure/structure.go) *)

Module degeneracy.
Section VertexOrdering.
Context {N : Type} `{!Node N}.

(** The variables of [VertexOrdering] that its main loop updates.  [l] is
    listed in the order of the [append]s, [dv] is the map of the numbers d_v
    and [d] the array of the cells D[i]. *)
Record ordering : Type := {
  l : list N;
  dv : gmap Z nat;
  d : list (list N);
  k : nat;
  s : list nat;
}.

(** [xs[i] = x] on a slice. *)
Definition set_index {A} (xs : list A) (i : nat) (x : A) : result (list A) :=
  if decide (i < length xs)%nat then Ok (<[i := x]> xs)
  else index_out_of_range.

(** The body of the first loop: [neighbours], [dv] and [maxDegree]. *)
Definition count_degree (g : Graph N)
    (acc : gmap Z (list N) * gmap Z nat * nat) (n : N)
  : gmap Z (list N) * gmap Z nat * nat :=
  let adj := From g n in
  (<[ID n := adj]> acc.1.1, <[ID n := length adj]> acc.1.2,
   if decide (acc.2 < length adj)%nat then length adj else acc.2).

(** The body of the second loop: [d[deg] = append(d[deg], n)]. *)
Definition file_node (dv : gmap Z nat) (d : list (list N)) (n : N)
  : result (list (list N)) :=
  let deg := structure.int_at dv (ID n) in
  bucket ← at_index d deg;
  set_index d deg (bucket ++ [n]).

(** [for i, di = range d { if len(di) != 0 { break } }], from cell [j] on:
    the two variables keep what the last turn assigned. *)
Fixpoint scan (i : nat) (di : list N) (j : nat) (d : list (list N))
  : nat * list N :=
  match d with
  | [] => (i, di)
  | b :: d' =>
    if decide (length b ≠ 0)%nat then (j, b) else scan j b (S j) d'
  end.

(** The body of [for _, w := range neighbours[v.ID()]].  The inner loop
    stops at the first node of [d[dw]] that has the identifier of [w]. *)
Definition lower (st : ordering) (w : N) : result ordering :=
  match dv st !! ID w with
  | None => Ok st
  | Some dw =>
    bucket ← at_index (d st) dw;
    match list_find (λ n, ID n = ID w) bucket with
    | None =>
      Ok {| l := l st; dv := <[ID w := dw]> (dv st); d := d st;
            k := k st; s := s st |}
    | Some (i, _) =>
      last ← at_index bucket (length bucket - 1);
      let d1 :=
        <[dw := take (length bucket - 1) (<[i := last]> bucket)]> (d st) in
      match dw with
      | O => index_out_of_range
      | S dw' =>
        target ← at_index d1 dw';
        Ok {| l := l st; dv := <[ID w := dw']> (dv st);
              d := <[dw' := target ++ [w]]> d1; k := k st; s := s st |}
      end
    end
  end.

(** One turn of the main loop. *)
Definition select (neighbours : gmap Z (list N)) (st : ordering)
  : result ordering :=
  let '(i, di) := scan 0 [] 0 (d st) in
  '(k', s') ←
    (if decide (k st < i)%nat then
       if decide (i + 1 < length (s st))%nat
       then Panicked "runtime error: makeslice: len out of range"
       else Ok (i, s st ++ replicate (i + 1 - length (s st)) 0%nat)
     else Ok (k st, s st));
  v ← at_index di (length di - 1);
  d' ← set_index (d st) i (take (length di - 1) di);
  count ← at_index s' k';
  for_range (default [] (neighbours !! ID v)) lower
    {| l := l st ++ [v]; dv := delete (ID v) (dv st); d := d';
       k := k'; s := <[k' := S count]> s' |}.

(** The body of the last loop: [cores[i] = l[offset-n : offset]]. *)
Definition core (l : list N) (acc : list (list N) * nat) (n : nat)
  : result (list (list N) * nat) :=
  if decide (acc.2 < n)%nat
  then Panicked "runtime error: slice bounds out of range"
  else Ok (acc.1 ++ [take n (drop (acc.2 - n) l)], (acc.2 - n)%nat).

(** [VertexOrdering], for a graph given by its [Nodes] and [From]. *)
Definition VertexOrdering (g : Graph N) : result (list N * list (list N)) :=
  let nodes := Nodes g in
  let '(neighbours, dv0, maxDegree) :=
    foldl (count_degree g) (∅, ∅, 0%nat) nodes in
  d0 ← for_range nodes (file_node dv0) (replicate (maxDegree + 1) []);
  st ← for_range nodes (λ st _, select neighbours st)
         {| l := []; dv := dv0; d := d0; k := 0; s := [0%nat] |};
  let l := reverse (l st) in
  acc ← for_range (s st) (core l) ([], length l);
  Ok (l, acc.1).
End VertexOrdering.
Arguments ordering N : clear implicits.
End degeneracy.

(** * Specification vocabulary

    The inputs of the worked examples and the predicates in which the
    properties of the next part are stated. *)

(** ** Inputs of the worked examples *)

Module inputs.
Import examples dynamic structure.

(** The chain 0 -> 1 -> 2 with unit weights. *)
Definition chain : Graph Z :=
  directed [0; 1; 2]%Z [(0, 1, 1%float); (1, 2, 1%float)]%Z.

(** A single edge 0 -> 1 of weight -1: no cycle at all. *)
Definition one_negative_edge : Graph Z :=
  directed [0; 1]%Z [(0, 1, (-1)%float)]%Z.

(** Four nodes; the cheapest way from 0 to 3 is 0 -> 1 -> 2 -> 3 of
    cost 12, the direct 0 -> 2 -> 3 costs 13. *)
Definition detour : Graph Z :=
  directed [0; 1; 2; 3]%Z
    [(0, 1, 1%float); (0, 2, 3%float); (1, 2, 1%float); (2, 3, 10%float)]%Z.

(** An estimate of the remaining cost to node 3: 11 at node 1 (exactly
    the remaining cost there) and 0 elsewhere. *)
Definition estimate : HeuristicWeightFunc Z :=
  λ n _, if decide (n = 1%Z) then 11%float else 0%float.

Definition Dijkstra_cost (fuel : nat) (source target : Z) (g : Graph Z)
  : result (option float) :=
  '(_, costs) ← Dijkstra fuel source g None; Ok (costs !! target).

(** A node of identifier 7 that has never been given a key. *)
Definition fresh_node : dStarLiteNode Z :=
  {| node_of := 7%Z; node_key := (fzero, fzero); rhs := inf; g := inf |}.

(** One edge 0 -> 1 of weight 1. *)
Definition one_edge : Graph Z := directed [0; 1]%Z [(0, 1, 1%float)]%Z.

(** The path 0 - 1 - 2 with both edges stored from the middle node. *)
Definition star : EdgeList Z :=
  {| graph_of := undirected [0; 1; 2]%Z [(1, 0, 1%float); (1, 2, 1%float)]%Z;
     Edges := [(1, 0); (1, 2)]%Z |}.

Definition edge10 : WeightedEdge Z :=
  {| edge_of := (1, 0)%Z; Weight := 1%float |}.
Definition edge12 : WeightedEdge Z :=
  {| edge_of := (1, 2)%Z; Weight := 1%float |}.

(** The states of [Prim] on [star]: at the start, after the first turn,
    and from the second turn on. *)
Definition started : primState Z :=
  {| dst := AddNode (NewUndirectedGraph inf) 0%Z;
     remainingNodes := list_to_set (ID <$> [1; 2]%Z) |}.

Definition attached_1 : primState Z :=
  {| dst := {| absent := inf;
               neighbors := {[ 0%Z := {[ 1%Z := edge10 ]};
                               1%Z := {[ 0%Z := edge10 ]} ]};
               nodeMap := {[ 0%Z := 0%Z; 1%Z := 1%Z ]};
               maxID := 1; freeMap := ∅ |};
     remainingNodes := {[ 2%Z ]} |}.

Definition stuck : primState Z :=
  {| dst := {| absent := inf;
               neighbors := {[ 0%Z := {[ 1%Z := edge10 ]};
                               1%Z := {[ 0%Z := edge10; 2%Z := edge12 ]};
                               2%Z := {[ 1%Z := edge12 ]} ]};
               nodeMap := {[ 0%Z := 0%Z; 1%Z := 1%Z; 2%Z := 2%Z ]};
               maxID := 2; freeMap := ∅ |};
     remainingNodes := {[ 2%Z ]} |}.

(** Node 2 cannot be reached from node 0. *)
Definition dead_end : Graph Z := directed [0; 1; 2]%Z [(0, 1, 1%float)]%Z.

(** The second graph of the repository's Tarjan tests. *)
Definition cycle_with_entry : Graph Z :=
  directed [0; 1; 2; 3]%Z
    [(0, 1, 0%float); (0, 2, 0%float); (0, 3, 0%float); (1, 2, 0%float);
     (2, 3, 0%float); (3, 1, 0%float)]%Z.

End inputs.

(** ** Heaps *)

Module heap_spec.
Section Kept.
Context {H X : Type} `{!Interface.t H X}.
Variable ok : H → Prop.
Variable R : H → H → Prop.

(** What a heap function keeps: the invariant [ok], the relation [R] to the
    heap it started from, and the length. *)
Definition kept (h h' : H) : Prop :=
  ok h' ∧ R h h' ∧ Interface.Len h' = Interface.Len h.
End Kept.
End heap_spec.

(** ** The open set of A* *)

Module queue_spec.
Section Queue.
Context {N : Type} `{!Node N}.
Implicit Types (pq : aStarPriorityQueue N) (x : internalNode N).

(** The index map describes the slice exactly: an identifier is mapped to a
    position when and only when the node at that position has this
    identifier.  In particular no identifier occurs twice. *)
Definition pq_wf pq : Prop :=
  ∀ id i, indexList pq !! id = Some i
          ↔ ∃ x, nodes pq !! i = Some x ∧ ID x = id.

(** The graph nodes in the queue. *)
Definition members pq : list N := node_of <$> nodes pq.

Definition same_members pq pq' : Prop := ∀ v, v ∈ members pq' ↔ v ∈ members pq.

(** What the heap functions keep of a queue: its invariant, its members and
    its length. *)
Definition kept_queue pq pq' : Prop :=
  heap_spec.kept pq_wf same_members pq pq'.
End Queue.
End queue_spec.

(** ** Searches *)

(** [v] can be reached from [start] along successor lists. *)
Inductive reachable {N : Type} (from : N → list N) (start : N) : N → Prop :=
| reachable_start : reachable from start start
| reachable_step u v :
    reachable from start u → v ∈ from u → reachable from start v.

(** The position of the first occurrence of [id], the length of the list
    when there is none. *)
Fixpoint first_index (id : Z) (ids : list Z) : nat :=
  match ids with
  | [] => 0
  | y :: ys => if decide (y = id) then 0 else S (first_index id ys)
  end.

Module search_spec.
Import queue_spec.
Section Search.
Context {N : Type} `{!Node N}.
Variable sf : searchFuncs N.
Variable start : N.

Local Abbreviation reach := (reachable (from sf) start).

(** Every predecessor entry points to a node that was expanded before the
    node it is the predecessor of. *)
Definition pred_inv (popped : list (internalNode N))
    (predecessor : gmap Z (anyNode N)) : Prop :=
  ∀ id p, predecessor !! id = Some p →
    ∃ l1 x l2, popped = l1 ++ x :: l2 ∧ p = Wrapped x
               ∧ id ∉ ID <$> (l1 ++ [x]).

(** The invariant of [for openSet.Len() != 0]. *)
Record search_inv (st : aStarState N) : Prop := {
  inv_wf : pq_wf (openSet st);
  inv_open_closed :
    ∀ v, v ∈ members (openSet st) → closedSet st !! ID v = None;
  inv_open_reach : ∀ v, v ∈ members (openSet st) → reach v;
  inv_closed : ∀ id, is_Some (closedSet st !! id) ↔ id ∈ ID <$> popped st;
  inv_nodup : NoDup (ID <$> popped st);
  inv_popped_reach : ∀ x, x ∈ popped st → reach (node_of x);
  inv_count : nodesExpanded st = length (popped st);
  inv_pred : pred_inv (popped st) (predecessor st);
}.

(** What holds of the variables when [AStar] returns. *)
Record search_done (st : aStarState N) : Prop := {
  done_open_closed :
    ∀ v, v ∈ members (openSet st) → closedSet st !! ID v = None;
  done_nodup : NoDup (ID <$> popped st);
  done_popped_reach : ∀ x, x ∈ popped st → reach (node_of x);
  done_count : nodesExpanded st = length (popped st);
}.

(** The invariant of the loop over the neighbours of [curr]. *)
Definition neighbor_inv (closedSet : gmap Z (internalNode N))
    (popped : list (internalNode N))
    (st : aStarPriorityQueue N * gmap Z (anyNode N)) : Prop :=
  pq_wf st.1
  ∧ (∀ v, v ∈ members st.1 → closedSet !! ID v = None)
  ∧ (∀ v, v ∈ members st.1 → reach v)
  ∧ pred_inv popped st.2.
End Search.
End search_spec.

(** ** Tarjan's algorithm *)

Module tarjan_spec.
Import structure.
Section Tarjan.
Context {N : Type} `{!Node N}.
Variable succ : N → list N.
Variable universe : list N.
Implicit Types (t : tarjan N) (x y v w : N).

(** The depth index and the low link of a node, and the nodes emitted so
    far. *)
Definition ix t x : nat := int_at (indexTable t) (ID x).
Definition ll t x : nat := int_at (lowLink t) (ID x).
Definition emitted t : list N := concat (sccs t).

(** The end of an edge is settled above [bound]: it has been emitted, or it
    is on the stack with an index not below [bound]. *)
Definition settled t (bound : nat) y : Prop :=
  y ∈ emitted t ∨ (y ∈ stack t ∧ (bound ≤ ix t y)%nat).

(** The components emitted so far are in reverse topological order. *)
Definition ordered (sccs : list (list N)) : Prop :=
  ∀ i c x y, sccs !! i = Some c → x ∈ c → y ∈ succ x →
    ∃ j c', (j ≤ i)%nat ∧ sccs !! j = Some c' ∧ y ∈ c'.

Record wf t : Prop := {
  wf_nodup : NoDup (stack t ++ emitted t);
  wf_visited : ∀ x, ix t x ≠ 0%nat ↔ x ∈ stack t ++ emitted t;
  wf_onStack : ∀ x, ID x ∈ onStack t ↔ x ∈ stack t;
  wf_index : ∀ x, (ix t x ≤ index t)%nat;
  wf_sorted : ∀ pre x post, stack t = pre ++ x :: post →
    ∀ y, y ∈ post → (ix t y < ix t x)%nat;
  wf_lowlink : ∀ x, x ∈ stack t →
    (ll t x ≤ ix t x)%nat ∧ ∃ z, z ∈ stack t ∧ ix t z = ll t x;
  wf_ordered : ordered (sccs t);
  wf_universe : ∀ x, x ∈ stack t ++ emitted t → x ∈ universe;
}.

(** What a call leaves untouched: the entries of the nodes visited before
    it, and the components emitted before it. *)
Record extends t0 t1 : Prop := {
  ext_frame : ∀ x, ix t0 x ≠ 0%nat → ix t1 x = ix t0 x ∧ ll t1 x = ll t0 x;
  ext_sccs : ∃ cs, sccs t1 = sccs t0 ++ cs;
  ext_index : (index t0 ≤ index t1)%nat;
}.

(** The nodes of the graph not yet visited; their number bounds the depth
    of the recursion. *)
Definition unvisited t : list N := filter (λ x, ix t x = 0%nat) universe.

(** What [strongconnect(v)] has done when it returns: it extended the state
    it was called in, [v] has the next index, and the stack grew by a block
    of finished nodes whose edges are settled above the low link of [v];
    the block is empty when [v] was a root and ends with [v] otherwise. *)
Record returned t0 v t1 : Prop := {
  ret_wf : wf t1;
  ret_extends : extends t0 t1;
  ret_index : ix t1 v = S (index t0);
  ret_stack : ∃ B, stack t1 = B ++ stack t0
    ∧ (∀ x y, x ∈ B → y ∈ succ x → settled t1 (ll t1 v) y)
    ∧ ((B = [] ∧ ll t1 v = ix t1 v)
       ∨ (∃ B', B = B' ++ [v] ∧ ll t1 v ≠ ix t1 v));
}.

(** The invariant of the loop over the successors of [v], of which [pre]
    have been considered. *)
Record visiting t0 v (pre : list N) t : Prop := {
  vis_wf : wf t;
  vis_extends : extends t0 t;
  vis_index : ix t v = S (index t0);
  vis_stack : ∃ B, stack t = B ++ v :: stack t0
    ∧ ∀ x y, x ∈ B → y ∈ succ x → settled t (ll t v) y;
  vis_done : ∀ y, y ∈ pre → settled t (ll t v) y;
}.
End Tarjan.
End tarjan_spec.

(** ** Paths rebuilt from predecessor maps *)

Module walk_spec.
Import queue_spec search_spec.
Section Walk.
Context {N : Type} `{!Node N}.

(** Every node of the list has, among its successors, a node with the
    identifier of the next node of the list. *)
Fixpoint is_walk (from : N → list N) (path : list N) : Prop :=
  match path with
  | u :: (v :: _) as rest =>
    (∃ v', v' ∈ from u ∧ ID v' = ID v) ∧ is_walk from rest
  | _ => True
  end.

(** The nodes that [rebuildPath] meets after [curr] when it follows the
    predecessor map. *)
Inductive chain (preds : gmap Z (anyNode N)) : N → list N → Prop :=
| chain_end curr : preds !! ID curr = None → chain preds curr []
| chain_step curr p l :
    preds !! ID curr = Some p → chain preds (unwrap p) l →
    chain preds curr (unwrap p :: l).

(** A predecessor map is a tree over the nodes expanded so far: an entry
    leads to a node expanded before any node with the identifier of the
    entry, and that node has a successor with this identifier; every
    expanded node but [start] has an entry. *)
Record tree_inv (from : N → list N) (start : N) (expanded : list N)
    (preds : gmap Z (anyNode N)) : Prop := {
  tree_first : ∀ u, u ∈ expanded → ID u = ID start → u = start;
  tree_linked : ∀ u, u ∈ expanded → ID u = ID start ∨ is_Some (preds !! ID u);
  tree_parent : ∀ id p, preds !! id = Some p →
    ∃ l1 u l2, expanded = l1 ++ u :: l2 ∧ unwrap p = u
               ∧ (id ∉ ID <$> (l1 ++ [u]))
               ∧ ∃ v, v ∈ from u ∧ ID v = id;
}.

(** What a search promises of the path it returns: it ends with [goal],
    begins with [start] (with [goal] itself when the two have the same
    identifier), follows successor lists and meets no identifier twice. *)
Record found_path (from : N → list N) (start goal : N) (path : list N)
  : Prop := {
  found_last : ∃ p, path = p ++ [goal];
  found_head_ID : (ID <$> head path) = Some (ID start);
  found_head : ID start ≠ ID goal → head path = Some start;
  found_walk : is_walk from path;
  found_nodup : NoDup (ID <$> path);
}.

Variable sf : searchFuncs N.
Variables start goal : N.

(** What the loop of [AStar] keeps besides [search_inv]: the predecessor
    map is a tree, the successors of the expanded nodes are expanded or in
    the open set, and no expanded node has the identifier of [goal]. *)
Record walk_inv (st : aStarState N) : Prop := {
  winv_tree :
    tree_inv (from sf) start (node_of <$> popped st) (predecessor st);
  winv_start :
    (popped st = [] ∧ members (openSet st) = [start])
    ∨ ID start ∈ ID <$> popped st;
  winv_open_linked : ∀ v, v ∈ members (openSet st) →
    ID v = ID start ∨ is_Some (predecessor st !! ID v);
  winv_frontier : ∀ x w, x ∈ popped st → w ∈ from sf (node_of x) →
    ID w ∈ ID <$> popped st ∨ ID w ∈ ID <$> members (openSet st);
  winv_not_goal : ∀ x, x ∈ popped st → ID x ≠ ID goal;
}.

(** The same during the loop over the neighbours of [curr], of which
    [seen] have been considered. *)
Definition walk_neighbor_inv (popped : list (internalNode N))
    (curr : internalNode N) (seen : list N)
    (st : aStarPriorityQueue N * gmap Z (anyNode N)) : Prop :=
  tree_inv (from sf) start (node_of <$> (popped ++ [curr])) st.2
  ∧ (∀ v, v ∈ members st.1 → ID v = ID start ∨ is_Some (st.2 !! ID v))
  ∧ (∀ w, (∃ x, x ∈ popped ∧ w ∈ from sf (node_of x)) ∨ w ∈ seen →
       ID w ∈ ID <$> (popped ++ [curr]) ∨ ID w ∈ ID <$> members st.1).
(** The invariant of the loop of [DepthFirstSearch]; [order] lists the
    nodes in the order in which they entered the closed set. *)
Record dfs_inv (order : list N) (st : dfsState N) : Prop := {
  dinv_closed : ∀ id, id ∈ dfs_closed st ↔ id ∈ ID <$> order;
  dinv_nodup : NoDup (ID <$> order);
  dinv_reach : ∀ v, v ∈ order ∨ v ∈ dfs_open st → reachable (from sf) start v;
  dinv_tree : tree_inv (from sf) start order (dfs_predecessor st);
  dinv_start :
    (order = [] ∧ dfs_open st = [start]) ∨ ID start ∈ ID <$> order;
  dinv_open_linked : ∀ v, v ∈ dfs_open st →
    ID v = ID start ∨ is_Some (dfs_predecessor st !! ID v);
  dinv_frontier : ∀ x w, x ∈ order → w ∈ from sf x →
    ID w ∈ ID <$> order ∨ ID w ∈ ID <$> dfs_open st;
  dinv_not_goal : ∀ x, x ∈ order → ID x ≠ ID goal;
}.

(** The same during the loop over the neighbours of [curr], of which
    [seen] have been considered; [rest] is the stack below [curr]. *)
Record dfs_neighbor_inv (order : list N) (curr : N) (rest seen : list N)
    (st : dfsState N) : Prop := {
  dninv_closed : ∀ id, id ∈ dfs_closed st ↔ id ∈ ID <$> (order ++ [curr]);
  dninv_reach : ∀ v, v ∈ dfs_open st → reachable (from sf) start v;
  dninv_tree :
    tree_inv (from sf) start (order ++ [curr]) (dfs_predecessor st);
  dninv_open_linked : ∀ v, v ∈ dfs_open st →
    ID v = ID start ∨ is_Some (dfs_predecessor st !! ID v);
  dninv_frontier : ∀ w, (∃ x, x ∈ order ∧ w ∈ from sf x) ∨ w ∈ seen →
    ID w ∈ ID <$> (order ++ [curr]) ∨ ID w ∈ ID <$> dfs_open st;
  dninv_length : (length (dfs_open st) ≤ length rest + length seen)%nat;
}.
End Walk.
End walk_spec.

(** ** Dijkstra *)

Module dijkstra_spec.
Import queue_spec.
Section Dijkstra.
Context {N : Type} `{!Node N}.
Variable sf : searchFuncs N.
Variable source : N.

(** The invariant of [for openSet.Len() != 0] in [Dijkstra]; [popped]
    lists the results of [heap.Pop] so far. *)
Record dijkstra_inv (popped : list (internalNode N)) (st : dijkstraState N)
  : Prop := {
  dj_wf : pq_wf (d_openSet st);
  dj_costs : ∀ id, is_Some (d_costs st !! id)
    ↔ id ∈ ID <$> members (d_openSet st) ∨ id ∈ ID <$> popped;
  dj_nodup : NoDup (ID <$> popped);
  dj_fresh : ∀ v, v ∈ members (d_openSet st) → ID v ∉ ID <$> popped;
  dj_reach : ∀ v, v ∈ members (d_openSet st) ∨ v ∈ node_of <$> popped →
    reachable (from sf) source v;
  dj_nodeIDMap : ∀ id, is_Some (d_nodeIDMap st !! id) ↔ id ∈ ID <$> popped;
  dj_source : is_Some (d_costs st !! ID source);
  dj_frontier : ∀ x w, x ∈ popped → w ∈ from sf (node_of x) →
    is_Some (d_costs st !! ID w);
}.

(** The same during the loop over the neighbours of [node], of which
    [seen] have been considered. *)
Record dijkstra_neighbor_inv (popped : list (internalNode N))
    (node : internalNode N) (seen : list N) (st : dijkstraState N)
  : Prop := {
  djn_wf : pq_wf (d_openSet st);
  djn_costs : ∀ id, is_Some (d_costs st !! id)
    ↔ id ∈ ID <$> members (d_openSet st) ∨ id ∈ ID <$> (popped ++ [node]);
  djn_fresh : ∀ v, v ∈ members (d_openSet st) →
    ID v ∉ ID <$> (popped ++ [node]);
  djn_reach : ∀ v, v ∈ members (d_openSet st) → reachable (from sf) source v;
  djn_nodeIDMap : ∀ id, is_Some (d_nodeIDMap st !! id)
    ↔ id ∈ ID <$> (popped ++ [node]);
  djn_source : is_Some (d_costs st !! ID source);
  djn_frontier : ∀ w, (∃ x, x ∈ popped ∧ w ∈ from sf (node_of x)) ∨ w ∈ seen →
    is_Some (d_costs st !! ID w);
}.
End Dijkstra.
End dijkstra_spec.

(** ** Well-formed undirected graphs *)

Module concrete_spec.
Import structure.
Section UndirectedGraph.
Context {N : Type} `{!Node N}.
Implicit Types (g : UndirectedGraph N).

(** What the methods of [UndirectedGraph] keep of a graph that was built
    from [NewUndirectedGraph] without adding a node twice.  The book
    keeping, which [AddNode] keeps in every case: a node has an adjacency
    map when and only when it is in the graph and is stored under its
    identifier, [maxID] bounds the identifiers in use and no identifier in
    use is free.  And the symmetry of the adjacency. *)
Record ug_stored g : Prop := {
  ug_dom : ∀ id, is_Some (neighbors g !! id) ↔ is_Some (nodeMap g !! id);
  ug_ids : ∀ id n, nodeMap g !! id = Some n → ID n = id;
  ug_maxID : (0 ≤ maxID g)%Z
             ∧ ∀ id, is_Some (nodeMap g !! id) → (id ≤ maxID g)%Z;
  ug_free : ∀ id, id ∈ freeMap g → nodeMap g !! id = None;
}.

Record ug_wf g : Prop := {
  ug_book : ug_stored g;
  ug_sym : ∀ a b, is_Some (concrete.neighbor_at g a b)
                  → is_Some (concrete.neighbor_at g b a);
}.

(** The graphs that the methods build, no node being added twice. *)
Inductive built : UndirectedGraph N → Prop :=
| built_New absent : built (NewUndirectedGraph absent)
| built_AddNode g n : built g → Has g n = false → built (AddNode g n)
| built_AddUndirectedEdge g e w g' :
    built g → AddUndirectedEdge g e w = Ok g' → built g'
| built_RemoveNode g n : built g → built (concrete.RemoveNode g n)
| built_RemoveUndirectedEdge g e :
    built g → built (concrete.RemoveUndirectedEdge g e)
| built_EmptyGraph g : built g → built (concrete.EmptyGraph g).
End UndirectedGraph.
End concrete_spec.

(** ** The D* Lite queue *)

Module dstar_queue_spec.
Import dynamic.
Section Queue.
Context {N : Type} `{!Node N}.
Implicit Types (h : queueHeap N).

(** The node of identifier [id] is at position [i] of the queue. *)
Definition queued h (i : nat) (id : Z) : Prop :=
  ∃ p n, nodes h.2 !! i = Some p ∧ h.1 !! p = Some n ∧ ID (node_of n) = id.

(** Every pointer of the queue is allocated, and [indexOf] describes the
    slice exactly: an identifier is mapped to a position when and only
    when the node at that position has this identifier. *)
Definition queue_wf h : Prop :=
  (∀ p, p ∈ nodes h.2 → is_Some (h.1 !! p))
  ∧ ∀ id i, indexOf h.2 !! id = Some i ↔ queued h i id.

(** What sifting below position [n] keeps: the memory, the length, the
    pointers in the queue, and the positions from [n] on. *)
Definition same_queue (n : nat) h h' : Prop :=
  h'.1 = h.1
  ∧ length (nodes h'.2) = length (nodes h.2)
  ∧ (∀ p, p ∈ nodes h'.2 ↔ p ∈ nodes h.2)
  ∧ drop n (nodes h'.2) = drop n (nodes h.2).

(** The invariant of sifting below [n]. *)
Definition sifting (n : nat) h : Prop :=
  queue_wf h ∧ (n ≤ length (nodes h.2))%nat.
End Queue.
End dstar_queue_spec.

Module queue_inputs.
Import dynamic inputs.

(** A node of identifier 8 whose [g] and [rhs] differ. *)
Definition inconsistent_node : dStarLiteNode Z :=
  {| node_of := 8%Z; node_key := (fone, fzero); rhs := fzero; g := inf |}.

Definition two_nodes : memory Z :=
  {[0%nat := fresh_node; 1%nat := inconsistent_node]}.

Definition no_queue : queueHeap Z :=
  (two_nodes, {| indexOf := ∅; nodes := [] |}).

(** Both nodes queued, in the order of their allocation. *)
Definition both_queued : queueHeap Z :=
  (two_nodes, {| indexOf := <[8%Z := 1%nat]> (<[7%Z := 0%nat]> ∅);
                 nodes := [0%nat; 1%nat] |}).

(** A planner over these nodes with nothing queued. *)
Definition idle_planner : DStarLite Z :=
  {| mem := two_nodes; s := 0%nat; t := 1%nat; last := 0%nat;
     world := emptyWorld; queue := {| indexOf := ∅; nodes := [] |};
     k_m := fzero; weight := UniformCostWeight;
     heuristic := NullHeuristic |}.
End queue_inputs.

(** ** Strong connectivity of Tarjan's components *)

Module tarjan_scc_spec.
Import structure tarjan_spec.
Section Components.
Context {N : Type} `{!Node N}.
Variable succ : N → list N.
Implicit Types (t : tarjan N) (x y v w : N).

(** The components emitted so far are strongly connected; on the stack a
    node reaches the nodes discovered after it, and every stack node
    reaches the stack node whose index is its low link. *)
Record conn t : Prop := {
  conn_sccs : ∀ c x y, c ∈ sccs t → x ∈ c → y ∈ c → reachable succ x y;
  conn_stack : ∀ x y, x ∈ stack t → y ∈ stack t → (ix t x ≤ ix t y)%nat →
    reachable succ x y;
  conn_lowlink : ∀ x, x ∈ stack t →
    ∃ z, z ∈ stack t ∧ ix t z = ll t x ∧ reachable succ x z;
}.

(** The stack nodes discovered after [v] reach [v]. *)
Definition block_reaches t v : Prop :=
  ∀ x, x ∈ stack t → (ix t v ≤ ix t x)%nat → reachable succ x v.

(** [x] and [y] lie in one of the components [cs]. *)
Definition same_component (cs : list (list N)) x y : Prop :=
  ∃ c, c ∈ cs ∧ x ∈ c ∧ y ∈ c.
End Components.
End tarjan_scc_spec.

(** ** The disjoint set and Kruskal's spanning forest *)

Module kruskal_spec.
Import structure.

(** [x] climbs to the root [r] in [n] steps along the parent pointers. *)
Inductive climbs (ds : DisjointSet) : Z → Z → nat → Prop :=
| climbs_root x : parent ds !! x = Some x → climbs ds x x 0
| climbs_step x p r n :
    parent ds !! x = Some p → p ≠ x → climbs ds p r n →
    climbs ds x r (S n).

(** Every element climbs to a root: the parent pointers have no cycle but
    the loops at the roots. *)
Definition uf_inv (ds : DisjointSet) : Prop :=
  ∀ x, is_Some (parent ds !! x) → ∃ r n, climbs ds x r n.

Definition same_set (ds : DisjointSet) (x y : Z) : Prop :=
  ∃ r n m, climbs ds x r n ∧ climbs ds y r m.

(** [ds'] has the elements of [ds], each with the root it had. *)
Definition keeps_sets (ds ds' : DisjointSet) : Prop :=
  (∀ y, is_Some (parent ds' !! y) ↔ is_Some (parent ds !! y))
  ∧ ∀ y r k, climbs ds y r k → ∃ k', climbs ds' y r k'.

Section Forest.
Context {N : Type} `{!Node N}.

(** The identifiers [a] and [b] are joined by a path of stored edges. *)
Definition joined (dst : UndirectedGraph N) : Z → Z → Prop :=
  rtc (λ a b, is_Some (concrete.neighbor_at dst a b)).

(** The state of [Kruskal] between two edges: the disjoint set is acyclic
    and holds the nodes [ids]; the destination is consistent; elements of
    one set are joined in the destination; every stored edge is one of
    [edges], stored under the identifiers of its end points. *)
Record kruskal_inv (ids : list Z) (edges : list (WeightedEdge N))
    (st : DisjointSet * UndirectedGraph N) : Prop := {
  kr_uf : uf_inv st.1;
  kr_known : ∀ id, is_Some (parent st.1 !! id) ↔ id ∈ ids;
  kr_wf : concrete_spec.ug_wf st.2;
  kr_joined : ∀ x y, same_set st.1 x y → joined st.2 x y;
  kr_edges : ∀ a b we, concrete.neighbor_at st.2 a b = Some we →
    we ∈ edges
    ∧ ((a = ID (edge_of we).1 ∧ b = ID (edge_of we).2)
       ∨ (a = ID (edge_of we).2 ∧ b = ID (edge_of we).1));
  kr_nodes : ∀ id, is_Some (nodeMap st.2 !! id)
    → ∃ b, is_Some (concrete.neighbor_at st.2 id b);
}.
End Forest.
End kruskal_spec.

Module kruskal_inputs.
Import examples structure.

(** The edge 0 - 1, and an edge from 1 to 5, which is not a node. *)
Definition dangling : EdgeList Z :=
  {| graph_of := undirected [0; 1]%Z [(0, 1, 1%float)]%Z;
     Edges := [(0, 1); (1, 5)]%Z |}.
End kruskal_inputs.

(** ** The order of float64 values *)

Module float_spec.

(** The place of a float64 on the real line, up to the order: the sign
    class, then exponent and mantissa, mirrored for negative numbers.  Both
    zeros have the same place; NaN has none. *)
Definition place (x : spec_float) : option (Z * Z * Z) :=
  match x with
  | S754_zero _ => Some (0, 0, 0)%Z
  | S754_infinity false => Some (2, 0, 0)%Z
  | S754_infinity true => Some (-2, 0, 0)%Z
  | S754_nan => None
  | S754_finite false m e => Some (1, e, Z.pos m)%Z
  | S754_finite true m e => Some (-1, - e, Z.neg m)%Z
  end.

Definition before (a b : Z * Z * Z) : Prop :=
  (a.1.1 < b.1.1
   ∨ (a.1.1 = b.1.1 ∧ (a.1.2 < b.1.2 ∨ (a.1.2 = b.1.2 ∧ a.2 < b.2))))%Z.
End float_spec.

(** A comparison holds, with the places as witnesses, or fails. *)
Ltac place_holds :=
  split; [intros _; eexists _, _; split_and!; [done..|simpl; lia]|done].
Ltac place_fails :=
  let Hlt := fresh in
  split; [done|intros (? & ? & ? & ? & Hlt); simplify_eq/=; lia].

(** ** Degeneracy ordering *)

Module degeneracy_spec.
Import degeneracy.
Section Ordering.
Context {N : Type} `{!Node N}.

(** A simple undirected graph, as [VertexOrdering] expects it: no node and
    no neighbour is listed twice, and adjacency is mutual. *)
Record simple_undirected (g : Graph N) : Prop := {
  su_nodes : NoDup (ID <$> Nodes g);
  su_plain : ∀ u, u ∈ Nodes g → NoDup (ID <$> From g u);
  su_mutual : ∀ u v, u ∈ Nodes g → v ∈ Nodes g →
    ID v ∈ ID <$> From g u → ID u ∈ ID <$> From g v;
}.

(** The same about the map [neighbours]. *)
Definition mutual (neighbours : gmap Z (list N)) : Prop :=
  ∀ a b adja adjb, neighbours !! a = Some adja → neighbours !! b = Some adjb →
    b ∈ ID <$> adja → a ∈ ID <$> adjb.

Definition plain (neighbours : gmap Z (list N)) : Prop :=
  ∀ id adj, neighbours !! id = Some adj → NoDup (ID <$> adj).

(** How many of the neighbours [adj] have their identifier in [R]. *)
Definition live (R : gset Z) (adj : list N) : nat :=
  length (filter (λ w, ID w ∈ R) adj).

(** The cells of [d] file the keys of [dv], each under its number. *)
Record buckets_ok (dv : gmap Z nat) (d : list (list N)) : Prop := {
  bk_nodup : ∀ b bucket, d !! b = Some bucket → NoDup (ID <$> bucket);
  bk_degree : ∀ b bucket x, d !! b = Some bucket → x ∈ bucket →
    dv !! ID x = Some b;
  bk_filed : ∀ id b, dv !! id = Some b →
    ∃ bucket, d !! b = Some bucket ∧ id ∈ ID <$> bucket;
}.

(** The number kept for a node is at least the number of its neighbours
    that are still waiting. *)
Definition degrees_ok (neighbours : gmap Z (list N)) (dv : gmap Z nat)
  : Prop :=
  ∀ id c, dv !! id = Some c →
    ∃ adj, neighbours !! id = Some adj ∧ (live (dom dv) adj ≤ c)%nat.

(** What holds after [j] turns of the main loop over nodes of identifiers
    [ids]. *)
Record ordering_inv (ids : list Z) (neighbours : gmap Z (list N)) (j : nat)
    (st : ordering N) : Prop := {
  oi_nodup : NoDup (ID <$> l st);
  oi_done : ∀ id, id ∈ ID <$> l st → id ∈ ids ∧ dv st !! id = None;
  oi_todo : ∀ id, is_Some (dv st !! id) → id ∈ ids;
  oi_all : ∀ id, id ∈ ids → id ∈ ID <$> l st ∨ is_Some (dv st !! id);
  oi_length : length (l st) = j;
  oi_buckets : buckets_ok (dv st) (d st);
  oi_degrees : degrees_ok neighbours (dv st);
  oi_k : length (s st) = S (k st);
  oi_sum : sum_list (s st) = length (l st);
  oi_later : ∀ a v b adj, l st = a ++ v :: b → neighbours !! ID v = Some adj →
    (length (filter (λ w, ID w ∈ ID <$> b ∨ ID w ∈ dom (dv st)) adj)
     ≤ k st)%nat;
}.

(** What holds inside a turn, after the neighbours [pre] of the selected
    node [v] have been looked at, starting from [st0]. *)
Record lowering (neighbours : gmap Z (list N)) (v : N) (st0 : ordering N)
    (pre : list N) (st : ordering N) : Prop := {
  lw_l : l st = l st0;
  lw_k : k st = k st0;
  lw_s : s st = s st0;
  lw_dom : dom (dv st) = dom (dv st0);
  lw_buckets : buckets_ok (dv st) (d st);
  lw_degrees : degrees_ok neighbours (dv st);
  lw_credit : ∀ id c adj, dv st !! id = Some c → neighbours !! id = Some adj →
    ID v ∈ ID <$> adj → id ∉ ID <$> pre → (live (dom (dv st)) adj < c)%nat;
}.
End Ordering.
End degeneracy_spec.

Module degeneracy_inputs.
Import examples.

(** A triangle 0, 1, 2 with the node 3 hanging from 2. *)
Definition kite : Graph Z :=
  undirected [0; 1; 2; 3]%Z
    [(0, 1, 1%float); (0, 2, 1%float); (1, 2, 1%float); (2, 3, 1%float)]%Z.
End degeneracy_inputs.

(** Runs the monadic glue after a sub-call has been rewritten to its
    result. *)
Ltac bind_ok :=
  cbn [mbind result_bind mret result_ret fmap result_fmap negb fst snd].

(** * Properties *)

(** ** Bellman-Ford *)

Module bellman_ford_facts.
Import examples inputs.

(** Whatever the graph, an error comes with two nil maps. *)
Lemma BellmanFord_error_nil_maps {N} `{!Node N} (source : N) (g : Graph N)
    (w : option (WeightFunc N)) (r : bellmanFordResult N) :
  BellmanFord source g w = Ok r →
  err r ≠ None →
  paths r = None ∧ costs r = None.
Proof.
  unfold BellmanFord.
  destruct (BellmanFord_detect _ _ _).
  - intros [= <-] _. done.
  - destruct (rebuildAll _ _ _); simpl; [|done..].
    intros [= <-]. done.
Qed.

(** The error is returned exactly when the final scan finds an edge that
    still relaxes. *)
Lemma BellmanFord_error_iff_detect {N} `{!Node N} (source : N) (g : Graph N)
    (w : option (WeightFunc N)) (r : bellmanFordResult N) :
  BellmanFord source g w = Ok r →
  (err r ≠ None ↔
   BellmanFord_detect (setupFuncs g w None) (Nodes g)
     (bf_costs (BellmanFord_passes (setupFuncs g w None) (Nodes g)
                  (BellmanFord_init source))) = true).
Proof.
  unfold BellmanFord.
  destruct (BellmanFord_detect _ _ _).
  - intros [= <-]. done.
  - destruct (rebuildAll _ _ _); simpl; [|done..].
    intros [= <-]. simpl. split; done.
Qed.

(** A cost that is absent from the map reads as the zero value in the
    relaxation test. *)
Lemma relaxes_absent_target {N} `{!Node N} (costs : gmap Z float)
    (sf : searchFuncs N) (u v : N) :
  costs !! ID v = None →
  relaxes costs sf u v
  = flt (fadd (cost_at costs (ID u)) (weight sf (edgeTo sf u v))) fzero.
Proof. intros Hv. unfold relaxes, cost_at. by rewrite Hv. Qed.

(** C1.  [BellmanFord] starts with [costs[source] = 0] and no other
    entry, but the relaxation test reads an absent cost as 0 and not as
    +∞: on the chain 0 -> 1 -> 2 with unit weights and source 0, relaxing
    (0,1) leaves the cost of 1 absent although 0 + 1 is below +∞, and the
    call returns costs for the source only. *)
Theorem BellmanFord_reads_absent_cost_as_zero :
  let sf := setupFuncs chain None None in
  let st := BellmanFord_init 0%Z in
  map_to_list (bf_costs st) = [(0%Z, fzero)]
  ∧ bf_costs st !! 1%Z = None
  ∧ flt (fadd (cost_at (bf_costs st) 0) (weight sf (edgeTo sf 0%Z 1%Z))) inf
    = true
  ∧ relaxes (bf_costs st) sf 0%Z 1%Z = false
  ∧ bf_costs (BellmanFord_relax sf 0%Z st 1%Z) = bf_costs st
  ∧ (λ r, map_to_list <$> costs r) <$> BellmanFord 0%Z chain None
    = Ok (Some [(0%Z, fzero)]).
Proof. vm_compute. repeat split. Qed.

(** C3.  [BellmanFord] reports a negative cycle on a graph that has no
    cycle: for the single edge 0 -> 1 of weight -1 and source 0 (node 1 has
    no successor) it returns the error with both maps nil. *)
Theorem BellmanFord_false_negative_cycle :
  From one_negative_edge 0%Z = [1%Z]
  ∧ From one_negative_edge 1%Z = []
  ∧ BellmanFord 0%Z one_negative_edge None
    = Ok {| paths := None; costs := None;
            err := Some "Negative edge cycle detected" |}.
Proof. vm_compute. repeat split. Qed.
End bellman_ford_facts.

(** ** A* against Dijkstra *)

Module astar_facts.
Import examples inputs.

(** C2.  On [detour], whose weights are non-negative, with the estimate
    above, which never exceeds the cost Dijkstra records from a node to
    node 3, [AStar] from 0 to 3 returns the path 0, 2, 3 of cost 13 while
    [Dijkstra] from 0 records cost 12 for node 3. *)
Theorem AStar_admissible_not_optimal :
  Forall (λ e : Z * Z * float, fle fzero e.2 = true)
    [(0, 1, 1%float); (0, 2, 3%float); (1, 2, 1%float); (2, 3, 10%float)]%Z
  ∧ Forall (λ v, ∃ c, Dijkstra_cost 10 v 3%Z detour = Ok (Some c)
                     ∧ fle (estimate v 3%Z) c = true) (Nodes detour)
  ∧ AStar 10 0%Z 3%Z detour None (Some estimate)
    = Ok (Some [0; 2; 3]%Z, 13%float, 4%nat)
  ∧ Dijkstra_cost 10 0%Z 3%Z detour = Ok (Some 12%float).
Proof.
  split; [repeat constructor|].
  split; [|split; vm_compute; reflexivity].
  repeat (constructor; [eexists; split; vm_compute; reflexivity|]).
  constructor.
Qed.
End astar_facts.

(** ** D* Lite *)

Module dstarlite_facts.
Import examples dynamic inputs.

(** [insert] leaves the memory, and with it every stored key, as it
    was. *)
Lemma queue_Swap_memory {N} `{!Node N} (h h' : queueHeap N) i j :
  queue_Swap h i j = Ok h' → h'.1 = h.1.
Proof.
  unfold queue_Swap. intros Hs.
  destruct (at_index _ i); simpl in Hs; [|done..].
  destruct (node_ID _ _); simpl in Hs; [|done..].
  destruct (at_index _ j); simpl in Hs; [|done..].
  destruct (node_ID _ _); simpl in Hs; [|done..].
  by injection Hs as <-.
Qed.

Lemma up_loop_memory {N} `{!Node N} fuel (h h' : queueHeap N) j :
  heap.up_loop fuel h j = Ok h' → h'.1 = h.1.
Proof.
  revert h j. induction fuel as [|fuel IH]; intros h j; simpl; [done|].
  case_decide; [by intros [= <-]|].
  destruct (queue_Less h j _) as [lt| |]; simpl; [|done..].
  destruct lt; simpl; [|by intros [= <-]].
  destruct (queue_Swap h _ j) as [h1| |] eqn:Hs; simpl; [|done..].
  intros Hup. rewrite (IH _ _ Hup). by eapply queue_Swap_memory.
Qed.

Lemma queue_insert_memory {N} `{!Node N} (h h' : queueHeap N) u k :
  queue_insert h u k = Ok h' → h'.1 = h.1.
Proof.
  unfold queue_insert, heap.Push. simpl. unfold queue_Push.
  destruct (node_ID _ _); simpl; [|done..].
  intros Hup. by rewrite (up_loop_memory _ _ _ _ Hup).
Qed.

(** C4.  [insert(u, k)] does not store [k]: inserting the node above with
    key (5, 0) into the empty queue leaves it in the queue, as its top,
    with the key (0, 0) it had before. *)
Theorem insert_does_not_store_key :
  let m : memory Z := {[0%nat := fresh_node]} in
  let k : key := (5%float, fzero) in
  ∃ h' : queueHeap Z,
    queue_insert (m, {| indexOf := ∅; nodes := [] |}) 0%nat k = Ok h'
    ∧ queue_top h'.2 = Ok 0%nat
    ∧ node_key <$> h'.1 !! 0%nat = Some (fzero, fzero)
    ∧ (fzero, fzero) ≠ k.
Proof.
  eexists. split; [vm_compute; reflexivity|].
  split; [reflexivity|]. split; [reflexivity|].
  discriminate.
Qed.

(** C5.  With a nil heuristic argument [NewDStarLite] panics for every
    graph, start, goal and world: the key of the goal is computed by
    calling the argument [h] itself, not the resolved heuristic. *)
Theorem NewDStarLite_nil_heuristic_panics {N} `{!Node N} (fuel : nat)
    (s t : N) (gr : Graph N) (world : World N) :
  NewDStarLite fuel s t gr None world = nil_dereference.
Proof. reflexivity. Qed.

(** C10.  A planner built by [NewDStarLite] on the graph 0 -> 1 (weight 1,
    start 0, goal 1, null heuristic, empty world) finds the path of cost
    1, and [UpdateWorld] with the new cost 2 for that edge then panics in
    the type assertion of a world node to [dStarLiteNode]. *)
Theorem UpdateWorld_type_assertion_panics :
  ∃ d : DStarLite Z,
    NewDStarLite 10 0%Z 1%Z one_edge (Some NullHeuristic) emptyWorld = Ok d
    ∧ World_Nodes (world d) = [Pointer 1%nat; Pointer 0%nat]
    ∧ Path 10 d = Ok (Some [0; 1]%Z, 1%float)
    ∧ UpdateWorld 10 d [(0, 1, 2%float)]%Z
      = Panicked "interface conversion: graph.Node is *dynamic.dStarLiteNode, not dynamic.dStarLiteNode".
Proof. eexists. repeat split; vm_compute; reflexivity. Qed.
End dstarlite_facts.

(** ** Spanning trees *)

Module spanning_tree_facts.
Import examples structure inputs.

Lemma Prim_loop_turn {N} `{!Node N} fuel (w : WeightFunc N) es
    (st st' : primState N) :
  size (remainingNodes st) ≠ 0%nat →
  Prim_turn w es st = Ok st' →
  Prim_loop (S fuel) w es st = Prim_loop fuel w es st'.
Proof. intros Hne Hturn. simpl. rewrite decide_False by done. by rewrite Hturn. Qed.

Lemma Prim_loop_stuck (fuel : nat) :
  Prim_loop fuel (resolve_weight star None) (Edges star) stuck = OutOfFuel.
Proof.
  induction fuel as [|fuel IH]; [done|].
  rewrite (Prim_loop_turn _ _ _ _ stuck); [done|by vm_compute..].
Qed.

(** C7.  On the connected graph [star] [Prim] never returns, whatever the
    fuel: from its second turn on it selects the edge (1, 2) again and
    removes node 1, not node 2, from the remaining nodes.  [Kruskal]
    writes the spanning tree of total weight 2. *)
Theorem Prim_does_not_terminate :
  (∀ fuel, Prim fuel (NewUndirectedGraph inf) star None = OutOfFuel)
  ∧ Prim_turn (resolve_weight star None) (Edges star) stuck = Ok stuck
  ∧ remainingNodes stuck = {[ 2%Z ]}
  ∧ stored_edges <$> Kruskal (NewUndirectedGraph inf) star None
    = Ok [(1, 2, 1%float); (0, 1, 1%float)]%Z.
Proof.
  split; [|by vm_compute].
  intros fuel.
  change (Prim fuel (NewUndirectedGraph inf) star None) with
    (Prim_loop fuel (resolve_weight star None) (Edges star) started).
  destruct fuel as [|fuel]; [done|].
  rewrite (Prim_loop_turn _ _ _ _ attached_1); [|by vm_compute..].
  destruct fuel as [|fuel]; [done|].
  rewrite (Prim_loop_turn _ _ _ _ stuck); [|by vm_compute..].
  apply Prim_loop_stuck.
Qed.
End spanning_tree_facts.

(** ** container/heap keeps what its interface keeps *)

Module heap_facts.
Section Preservation.
Context {H X : Type} `{!Interface.t H X}.

(** [ok] is an invariant of the heap and [R] a preorder relating a heap to
    its later states.  [Less] and [Swap] do not panic at indices below
    [Len], and [Swap] keeps [ok], [R] and the length. *)
Variable ok : H → Prop.
Variable R : H → H → Prop.
Hypothesis R_refl : ∀ h, R h h.
Hypothesis R_trans : ∀ h1 h2 h3, R h1 h2 → R h2 h3 → R h1 h3.
Hypothesis Less_ok : ∀ h i j,
  ok h → (i < Interface.Len h)%nat → (j < Interface.Len h)%nat →
  ∃ b, Interface.Less h i j = Ok b.
Hypothesis Swap_ok : ∀ h i j,
  ok h → (i < Interface.Len h)%nat → (j < Interface.Len h)%nat →
  ∃ h', Interface.Swap h i j = Ok h' ∧ ok h' ∧ R h h'
        ∧ Interface.Len h' = Interface.Len h.

Local Abbreviation kept := (heap_spec.kept ok R).

Lemma kept_refl h : ok h → kept h h.
Proof. intros Hok. by split_and!. Qed.

Lemma kept_trans h1 h2 h3 : kept h1 h2 → kept h2 h3 → kept h1 h3.
Proof.
  intros (_ & HR1 & HL1) (Hok & HR2 & HL2).
  split_and!; [done|by eapply R_trans|congruence].
Qed.

Lemma up_loop_kept fuel h j :
  ok h → (j < Interface.Len h)%nat → (j < fuel)%nat →
  ∃ h', heap.up_loop fuel h j = Ok h' ∧ kept h h'.
Proof.
  revert h j. induction fuel as [|fuel IH]; intros h j Hok Hj Hfuel; [lia|].
  cbn [heap.up_loop]. cbv zeta.
  case_decide as Hparent; [eauto using kept_refl|].
  assert ((j - 1) / 2 < j)%nat as Hlt.
  { destruct j as [|j]; [done|]. apply Nat.Div0.div_lt_upper_bound; lia. }
  destruct (Less_ok h j ((j - 1) / 2) Hok) as [b ->]; [lia..|]. bind_ok.
  destruct b; bind_ok; [|eauto using kept_refl].
  destruct (Swap_ok h ((j - 1) / 2) j Hok) as (h1 & -> & Hok1 & HR1 & HL1);
    [lia..|]. bind_ok.
  destruct (IH h1 ((j - 1) / 2)%nat) as (h2 & -> & Hkept); [done|lia..|].
  eexists. split; [done|]. eapply kept_trans; [|done]. by split_and!.
Qed.

Lemma up_kept h j :
  ok h → (j < Interface.Len h)%nat → ∃ h', heap.up h j = Ok h' ∧ kept h h'.
Proof. intros. apply up_loop_kept; [done..|lia]. Qed.

Lemma down_loop_kept fuel h i n :
  ok h → (n ≤ Interface.Len h)%nat → (n < fuel + i)%nat → (0 < fuel)%nat →
  ∃ h' i', heap.down_loop fuel h i n = Ok (h', i') ∧ kept h h'.
Proof.
  revert h i. induction fuel as [|fuel IH]; intros h i Hok Hn Hfuel Hpos; [lia|].
  cbn [heap.down_loop]. cbv zeta.
  case_decide as Hleaf; [eauto using kept_refl|].
  assert (∃ b, (if decide (2 * i + 1 + 1 < n)%nat
                then Interface.Less h (2 * i + 1 + 1)%nat (2 * i + 1)%nat
                else Ok false) = Ok b
               ∧ (b = true → 2 * i + 1 + 1 < n)%nat) as (b & -> & Hb).
  { case_decide; [|by exists false].
    destruct (Less_ok h (2 * i + 1 + 1)%nat (2 * i + 1)%nat) as [b ->];
      [done|lia..|]. eauto. }
  bind_ok.
  set (j := if b then (2 * i + 1 + 1)%nat else (2 * i + 1)%nat).
  assert (i < j ∧ j < n)%nat as [Hij Hjn].
  { subst j. destruct b; [|lia]. specialize (Hb eq_refl). lia. }
  destruct (Less_ok h j i Hok) as [lt ->]; [lia..|]. bind_ok.
  destruct lt; bind_ok; [|eauto using kept_refl].
  destruct (Swap_ok h i j Hok) as (h1 & -> & Hok1 & HR1 & HL1); [lia..|]. bind_ok.
  destruct (IH h1 j) as (h2 & i2 & -> & Hkept); [done|lia..|].
  eexists _, _. split; [done|]. eapply kept_trans; [|done]. by split_and!.
Qed.

Lemma down_kept h i n :
  ok h → (n ≤ Interface.Len h)%nat →
  ∃ h' moved, heap.down h i n = Ok (h', moved) ∧ kept h h'.
Proof.
  intros Hok Hn. unfold heap.down.
  destruct (down_loop_kept (S n) h i n) as (h' & i' & -> & Hkept);
    [done|lia..|].
  bind_ok. eauto.
Qed.

Lemma Fix_kept h i :
  ok h → (i < Interface.Len h)%nat → ∃ h', heap.Fix h i = Ok h' ∧ kept h h'.
Proof.
  intros Hok Hi. unfold heap.Fix.
  destruct (down_kept h i (Interface.Len h)) as (h1 & moved & -> & Hk1);
    [done..|].
  bind_ok. destruct moved; [eauto|].
  destruct Hk1 as (Hok1 & HR1 & HL1).
  destruct (up_kept h1 i) as (h2 & -> & Hk2); [done|lia|].
  eexists. split; [done|]. eapply kept_trans; [|done]. by split_and!.
Qed.
End Preservation.
End heap_facts.

(** ** Loops and predecessor chains *)

Lemma for_range_inv {A S : Type} (P : S → Prop) (Q : A → Prop) (xs : list A)
    (body : S → A → result S) (s : S) :
  P s → Forall Q xs →
  (∀ s x, P s → Q x → ∃ s', body s x = Ok s' ∧ P s') →
  ∃ s', for_range xs body s = Ok s' ∧ P s'.
Proof.
  intros Hs Hxs Hbody. revert s Hs.
  induction Hxs as [|x xs Hx _ IH]; intros s Hs; simpl; [eauto|].
  destruct (Hbody s x Hs Hx) as (s1 & -> & Hs1). bind_ok. by apply IH.
Qed.

Lemma first_index_occurrence id l1 l2 :
  (first_index id (l1 ++ id :: l2) ≤ length l1)%nat.
Proof.
  induction l1 as [|y l1 IH]; simpl.
  - by rewrite decide_True.
  - case_decide; lia.
Qed.

Lemma first_index_absent id l1 l2 :
  id ∉ l1 → (length l1 ≤ first_index id (l1 ++ l2))%nat.
Proof.
  induction l1 as [|y l1 IH]; simpl; [lia|].
  intros Hnotin. apply not_elem_of_cons in Hnotin as [Hne Hnotin].
  rewrite decide_False by done. specialize (IH Hnotin). lia.
Qed.

Section Chains.
Context {N : Type} `{!Node N}.

(** [rebuildPath] returns when the predecessor map descends along some
    rank: it then never meets an identifier twice. *)
Lemma rebuildPath_loop_ok (rk : Z → nat) (preds : gmap Z (anyNode N)) :
  (∀ id p, preds !! id = Some p → (rk (ID (unwrap p)) < rk id)%nat) →
  ∀ fuel curr path,
    (size (filter (λ k, rk k ≤ rk (ID curr))%nat (dom preds)) ≤ fuel)%nat →
    ∃ p, rebuildPath_loop fuel preds curr path = Ok p.
Proof.
  intros Hdesc fuel. induction fuel as [|fuel IH]; intros curr path Hsize.
  - simpl. destruct (preds !! ID curr) as [prev|] eqn:Hprev; [|eauto].
    assert (ID curr ∈ filter (λ k, rk k ≤ rk (ID curr))%nat (dom preds)) as Hin.
    { apply elem_of_filter. split; [lia|]. by apply elem_of_dom. }
    assert (size (filter (λ k, rk k ≤ rk (ID curr))%nat (dom preds)) = 0%nat)
      as Hzero by lia.
    apply size_empty_inv in Hzero. apply Hzero in Hin.
    by apply elem_of_empty in Hin.
  - simpl. destruct (preds !! ID curr) as [prev|] eqn:Hprev; [|eauto].
    apply IH. specialize (Hdesc _ _ Hprev).
    assert (filter (λ k, rk k ≤ rk (ID (unwrap prev)))%nat (dom preds)
            ⊂ filter (λ k, rk k ≤ rk (ID curr))%nat (dom preds)) as Hsub.
    { split.
      - intros k. rewrite !elem_of_filter. intros [Hk ?]. split; [lia|done].
      - intros Hback. specialize (Hback (ID curr)).
        rewrite !elem_of_filter in Hback.
        destruct Hback as [Hle _]; [|lia]. split; [lia|].
        by apply elem_of_dom. }
    apply subset_size in Hsub. lia.
Qed.

Lemma rebuildPath_ok (rk : Z → nat) (preds : gmap Z (anyNode N)) goal :
  (∀ id p, preds !! id = Some p → (rk (ID (unwrap p)) < rk id)%nat) →
  ∃ p, rebuildPath preds goal = Ok p.
Proof.
  intros Hdesc. unfold rebuildPath.
  destruct (rebuildPath_loop_ok rk preds Hdesc (size preds) (unwrap goal)
              [unwrap goal]) as [p ->].
  - rewrite <-size_dom. apply subseteq_size. intros k.
    rewrite elem_of_filter. tauto.
  - bind_ok. eauto.
Qed.
End Chains.

(** ** The open set of A* *)

Module queue_facts.
Import queue_spec.
Section Queue.
Context {N : Type} `{!Node N}.
Implicit Types (pq : aStarPriorityQueue N) (x : internalNode N).

Lemma pq_wf_unique pq i j x y :
  pq_wf pq → nodes pq !! i = Some x → nodes pq !! j = Some y →
  ID x = ID y → i = j.
Proof.
  intros Hwf Hi Hj Hid.
  assert (indexList pq !! ID x = Some i) as H1 by (apply Hwf; eauto).
  assert (indexList pq !! ID x = Some j) as H2 by (apply Hwf; eauto).
  congruence.
Qed.

Lemma pq_wf_indexed pq id :
  pq_wf pq → (is_Some (indexList pq !! id) ↔ ∃ x, x ∈ nodes pq ∧ ID x = id).
Proof.
  intros Hwf. split.
  - intros [i Hi]. apply Hwf in Hi as (x & Hx & Hid).
    exists x. split; [by eapply list_elem_of_lookup_2|done].
  - intros (x & Hx & Hid). apply list_elem_of_lookup in Hx as [i Hi].
    exists i. apply Hwf. eauto.
Qed.

Lemma emptyQueue_wf : pq_wf (emptyQueue (N := N)).
Proof.
  intros id i. unfold emptyQueue; simpl. rewrite lookup_empty. split; [done|].
  by intros (x & Hx & _).
Qed.

Lemma aStar_Less_ok pq i j :
  (i < aStar_Len pq)%nat → (j < aStar_Len pq)%nat →
  ∃ b, aStar_Less pq i j = Ok b.
Proof.
  unfold aStar_Len, aStar_Less, at_index. intros Hi Hj.
  destruct (lookup_lt_is_Some_2 _ _ Hi) as [a ->].
  destruct (lookup_lt_is_Some_2 _ _ Hj) as [b ->].
  bind_ok. eauto.
Qed.

Lemma swap_lookup {A} (l : list A) i j a b k :
  l !! i = Some a → l !! j = Some b →
  <[j:=a]> (<[i:=b]> l) !! k
  = if decide (k = j) then Some a
    else if decide (k = i) then Some b else l !! k.
Proof.
  intros Ha Hb.
  apply lookup_lt_Some in Ha as Hi. apply lookup_lt_Some in Hb as Hj.
  case_decide as Hkj.
  - subst k. apply list_lookup_insert_eq. by rewrite length_insert.
  - rewrite list_lookup_insert_ne by done. case_decide as Hki.
    + subst k. by apply list_lookup_insert_eq.
    + by rewrite list_lookup_insert_ne.
Qed.

Lemma aStar_Swap_ok pq i j :
  pq_wf pq → (i < aStar_Len pq)%nat → (j < aStar_Len pq)%nat →
  ∃ pq', aStar_Swap pq i j = Ok pq' ∧ pq_wf pq' ∧ same_members pq pq'
         ∧ aStar_Len pq' = aStar_Len pq.
Proof.
  unfold aStar_Len, aStar_Swap, at_index. intros Hwf Hi Hj.
  destruct (lookup_lt_is_Some_2 _ _ Hi) as [a Ha].
  destruct (lookup_lt_is_Some_2 _ _ Hj) as [b Hb].
  rewrite Ha, Hb. bind_ok. eexists. split; [done|].
  pose proof (swap_lookup (nodes pq) i j a b) as Hk.
  split_and!.
  - intros id k. cbn [indexList nodes]. rewrite Hk by done.
    rewrite !lookup_insert.
    destruct (decide (ID b = id)) as [<-|Hidb].
    + split.
      * intros [= <-]. destruct (decide (i = j)) as [->|Hij].
        -- exists a. split; [done|]. congruence.
        -- rewrite decide_True by done. eauto.
      * intros (x & Hx & Hid). f_equal.
        destruct (decide (k = j)) as [->|Hkj].
        -- injection Hx as <-. by apply (pq_wf_unique pq i j a b).
        -- destruct (decide (k = i)) as [->|Hki]; [done|].
           destruct Hkj. by apply (pq_wf_unique pq k j x b).
    + destruct (decide (ID a = id)) as [<-|Hida].
      * split.
        -- intros [= <-]. rewrite decide_True by done. eauto.
        -- intros (x & Hx & Hid). f_equal.
           destruct (decide (k = j)) as [->|Hkj]; [done|].
           destruct (decide (k = i)) as [->|Hki].
           ++ injection Hx as <-. done.
           ++ destruct Hki. by apply (pq_wf_unique pq k i x a).
      * split.
        -- intros Hl. apply Hwf in Hl as (x & Hx & Hid). exists x.
           split; [|done].
           rewrite decide_False by (intros ->; congruence).
           rewrite decide_False by (intros ->; congruence). done.
        -- intros (x & Hx & Hid). apply Hwf. exists x. split; [|done].
           destruct (decide (k = j)); [congruence|].
           destruct (decide (k = i)); [congruence|]. done.
  - intros v. unfold members; cbn [indexList nodes].
    rewrite !list_elem_of_fmap.
    split; intros (x & -> & Hx); exists x; (split; [done|]).
    + apply list_elem_of_lookup in Hx as [k Hx]. rewrite Hk in Hx by done.
      repeat case_decide; simplify_eq; by eapply list_elem_of_lookup_2.
    + apply list_elem_of_lookup in Hx as [k Hx].
      destruct (decide (k = i)) as [->|Hki].
      * apply list_elem_of_lookup. exists j. rewrite Hk by done.
        rewrite decide_True by done. congruence.
      * destruct (decide (k = j)) as [->|Hkj].
        -- apply list_elem_of_lookup. exists i. rewrite Hk by done.
           destruct (decide (i = j)); [congruence|].
           rewrite decide_True by done. congruence.
        -- apply list_elem_of_lookup. exists k. rewrite Hk by done.
           by rewrite !decide_False by done.
  - cbn [nodes]. by rewrite !length_insert.
Qed.

Lemma same_members_refl pq : same_members pq pq.
Proof. by intros v. Qed.

Lemma same_members_trans pq1 pq2 pq3 :
  same_members pq1 pq2 → same_members pq2 pq3 → same_members pq1 pq3.
Proof. intros H12 H23 v. etrans; [apply H23|apply H12]. Qed.

Lemma aStar_up_kept pq j :
  pq_wf pq → (j < aStar_Len pq)%nat →
  ∃ pq', heap.up pq j = Ok pq' ∧ kept_queue pq pq'.
Proof.
  exact (heap_facts.up_kept pq_wf same_members same_members_refl
           same_members_trans (λ h i k _, aStar_Less_ok h i k) aStar_Swap_ok
           pq j).
Qed.

Lemma aStar_down_kept pq i n :
  pq_wf pq → (n ≤ aStar_Len pq)%nat →
  ∃ pq' moved, heap.down pq i n = Ok (pq', moved) ∧ kept_queue pq pq'.
Proof.
  exact (heap_facts.down_kept pq_wf same_members same_members_refl
           same_members_trans (λ h j k _, aStar_Less_ok h j k) aStar_Swap_ok
           pq i n).
Qed.

Lemma aStar_heap_Fix_kept pq i :
  pq_wf pq → (i < aStar_Len pq)%nat →
  ∃ pq', heap.Fix pq i = Ok pq' ∧ kept_queue pq pq'.
Proof.
  exact (heap_facts.Fix_kept pq_wf same_members same_members_refl
           same_members_trans (λ h j k _, aStar_Less_ok h j k) aStar_Swap_ok
           pq i).
Qed.

Lemma heap_Init_empty : heap.Init (emptyQueue (N := N)) = Ok emptyQueue.
Proof. reflexivity. Qed.

(** [heap.Push] of a node whose identifier is not in the queue. *)
Lemma heap_Push_ok pq x :
  pq_wf pq → indexList pq !! ID x = None →
  ∃ pq', heap.Push pq x = Ok pq' ∧ pq_wf pq'
         ∧ (∀ v, v ∈ members pq' ↔ v = node_of x ∨ v ∈ members pq).
Proof.
  intros Hwf Hfresh. unfold heap.Push.
  cbn [Interface.Push Interface.Len aStarPriorityQueue_heap]. unfold aStar_Push.
  bind_ok.
  set (pq1 := {| indexList := _; nodes := _ |}).
  assert (pq_wf pq1) as Hwf1.
  { intros id i. subst pq1. cbn [indexList nodes].
    rewrite length_app, lookup_insert. cbn [length].
    replace (length (nodes pq) + 1 - 1)%nat with (length (nodes pq)) by lia.
    destruct (decide (ID x = id)) as [<-|Hid].
    - split.
      + intros [= <-]. exists x. split; [|done].
        by rewrite lookup_app_r, Nat.sub_diag.
      + intros (y & Hy & Hid). f_equal.
        destruct (decide (i < length (nodes pq))%nat) as [Hlt|Hge].
        * rewrite lookup_app_l in Hy by done.
          assert (is_Some (indexList pq !! ID x)) as [? ?]; [|congruence].
          apply pq_wf_indexed; [done|]. exists y.
          split; [by eapply list_elem_of_lookup_2|done].
        * apply lookup_lt_Some in Hy. rewrite length_app in Hy.
          cbn [length] in Hy. lia.
    - split.
      + intros Hl. apply Hwf in Hl as (y & Hy & Hidy). exists y.
        split; [|done]. apply lookup_app_l_Some, Hy.
      + intros (y & Hy & Hidy). apply Hwf. exists y. split; [|done].
        apply lookup_app_Some in Hy as [Hy|[Hlen Hy]]; [done|].
        apply list_lookup_singleton_Some in Hy as [_ <-]. done. }
  destruct (aStar_up_kept pq1 (aStar_Len pq1 - 1)) as (pq' & Hup & Hwf' & Hm & _).
  { done. }
  { unfold aStar_Len. subst pq1. cbn [nodes]. rewrite length_app. simpl. lia. }
  exists pq'. split; [exact Hup|]. split; [done|].
  intros v. rewrite (Hm v). unfold members. subst pq1. cbn [nodes].
  rewrite fmap_app, elem_of_app. cbn [fmap list_fmap].
  rewrite list_elem_of_singleton. tauto.
Qed.

Lemma aStar_Pop_last pq n x :
  length (nodes pq) = S n → nodes pq !! n = Some x →
  aStar_Pop pq
  = Ok ({| indexList := delete (ID x) (indexList pq);
            nodes := take n (nodes pq) |}, x).
Proof.
  intros Hlen Hx. unfold aStar_Pop, at_index. rewrite Hlen.
  cbn [Nat.sub]. rewrite Nat.sub_0_r, Hx.
  destruct (nodes pq); [done|reflexivity].
Qed.

(** [heap.Pop] on a non-empty queue. *)
Lemma heap_Pop_ok pq :
  pq_wf pq → nodes pq ≠ [] →
  ∃ pq' x, heap.Pop pq = Ok (pq', x) ∧ pq_wf pq'
           ∧ (∀ v, v ∈ members pq ↔ v = node_of x ∨ v ∈ members pq')
           ∧ indexList pq' !! ID x = None.
Proof.
  intros Hwf Hne. unfold heap.Pop.
  cbn [Interface.Pop Interface.Len Interface.Swap aStarPriorityQueue_heap].
  unfold aStar_Len at 1.
  destruct (length (nodes pq)) as [|n] eqn:Hlen.
  { by destruct (nodes pq). }
  destruct (aStar_Swap_ok pq 0 n) as (pq1 & -> & Hwf1 & Hm1 & Hl1);
    [done|unfold aStar_Len; lia..|].
  bind_ok.
  destruct (aStar_down_kept pq1 0 n) as (pq2 & moved & -> & Hwf2 & Hm2 & Hl2);
    [done|unfold aStar_Len in *; lia|].
  bind_ok.
  unfold aStar_Len in *. cbn [Interface.Len aStarPriorityQueue_heap] in Hl2.
  unfold aStar_Len in Hl2.
  assert (length (nodes pq2) = S n) as Hlen2 by congruence.
  destruct (lookup_lt_is_Some_2 (nodes pq2) n) as [x Hx]; [lia|].
  rewrite (aStar_Pop_last pq2 n x) by done.
  eexists _, x. split; [done|].
  assert (∀ i z, take n (nodes pq2) !! i = Some z
                 ↔ (i < n)%nat ∧ nodes pq2 !! i = Some z) as Htake.
  { intros i z. rewrite lookup_take_Some. tauto. }
  split_and!.
  - intros id i. cbn [indexList nodes]. rewrite lookup_delete.
    destruct (decide (ID x = id)) as [<-|Hid].
    + split; [done|]. intros (z & Hz & Hidz). apply Htake in Hz as [Hi Hz].
      assert (i = n) by (by apply (pq_wf_unique pq2 i n z x)). lia.
    + split.
      * intros Hl. apply Hwf2 in Hl as (z & Hz & Hidz). exists z.
        split; [|done]. apply Htake. split; [|done].
        apply lookup_lt_Some in Hz as Hi.
        destruct (decide (i = n)) as [->|]; [congruence|lia].
      * intros (z & Hz & Hidz). apply Htake in Hz as [Hi Hz].
        apply Hwf2. eauto.
  - intros v. rewrite <-(Hm1 v), <-(Hm2 v). unfold members. cbn [nodes].
    rewrite !list_elem_of_fmap. split.
    + intros (z & -> & Hz). apply list_elem_of_lookup in Hz as [i Hz].
      destruct (decide (i = n)) as [->|Hi]; [left; congruence|].
      right. exists z. split; [done|]. apply list_elem_of_lookup. exists i.
      apply Htake. split; [|done]. apply lookup_lt_Some in Hz. lia.
    + intros [->|(z & -> & Hz)].
      * exists x. split; [done|]. by eapply list_elem_of_lookup_2.
      * exists z. split; [done|]. apply list_elem_of_lookup in Hz as [i Hz].
        apply Htake in Hz as [_ Hz]. by eapply list_elem_of_lookup_2.
  - cbn [indexList]. apply lookup_delete_eq.
Qed.

(** [Fix] replaces the scores of a node and restores the heap order. *)
Lemma aStar_Fix_ok pq id newG newF :
  pq_wf pq →
  ∃ pq', aStar_Fix pq id newG newF = Ok pq' ∧ pq_wf pq' ∧ same_members pq pq'.
Proof.
  intros Hwf. unfold aStar_Fix.
  destruct (indexList pq !! id) as [i|] eqn:Hi;
    [|eauto using same_members_refl].
  apply Hwf in Hi as (x & Hx & Hid). unfold at_index. rewrite Hx. bind_ok.
  set (x' := {| node_of := node_of x; gscore := newG; fscore := newF |}).
  set (pq1 := {| indexList := indexList pq; nodes := <[i:=x']> (nodes pq) |}).
  assert (∀ k, nodes pq1 !! k
               = if decide (k = i) then Some x' else nodes pq !! k) as Hk.
  { intros k. subst pq1. cbn [nodes]. case_decide as Hki.
    - subst k. apply list_lookup_insert_eq. by eapply lookup_lt_Some.
    - by rewrite list_lookup_insert_ne. }
  assert (pq_wf pq1) as Hwf1.
  { intros id' k. rewrite Hk. change (indexList pq1) with (indexList pq).
    rewrite (Hwf id' k). destruct (decide (k = i)) as [->|Hki]; [|done].
    split; intros (z & Hz & Hidz); simplify_eq; eauto. }
  assert (same_members pq pq1) as Hm1.
  { intros v. unfold members. rewrite !list_elem_of_fmap.
    split; intros (z & -> & Hz); apply list_elem_of_lookup in Hz as [k Hz].
    - rewrite Hk in Hz. destruct (decide (k = i)) as [->|Hki].
      + injection Hz as <-. exists x. split; [done|].
        by eapply list_elem_of_lookup_2.
      + exists z. split; [done|]. by eapply list_elem_of_lookup_2.
    - destruct (decide (k = i)) as [->|Hki].
      + assert (z = x) as -> by congruence.
        exists x'. split; [done|]. apply list_elem_of_lookup.
        exists i. rewrite Hk. by rewrite decide_True.
      + exists z. split; [done|]. apply list_elem_of_lookup. exists k.
        rewrite Hk. by rewrite decide_False. }
  destruct (aStar_heap_Fix_kept pq1 i) as (pq' & -> & Hwf' & Hm' & _);
    [done| |].
  { unfold aStar_Len. subst pq1. cbn [nodes]. rewrite length_insert.
    by eapply lookup_lt_Some. }
  eauto using same_members_trans.
Qed.

Lemma aStar_Find_ok pq id :
  pq_wf pq →
  ∃ r, aStar_Find pq id = Ok r
       ∧ (r = None ↔ indexList pq !! id = None)
       ∧ (∀ x, r = Some x → x ∈ nodes pq ∧ ID x = id).
Proof.
  intros Hwf. unfold aStar_Find.
  destruct (indexList pq !! id) as [i|] eqn:Hi.
  - apply Hwf in Hi as (x & Hx & Hid). unfold at_index. rewrite Hx. bind_ok.
    eexists. split; [done|]. split; [done|].
    intros ? [= <-]. split; [by eapply list_elem_of_lookup_2|done].
  - eexists. split; [done|]. split; [done|]. done.
Qed.

End Queue.
End queue_facts.

(** ** A*: expansions, termination and unreachable goals *)

Module search_facts.
Import queue_spec queue_facts search_spec.
Section Search.
Context {N : Type} `{!Node N}.
Variable sf : searchFuncs N.
Variables start goal : N.

Local Abbreviation reach := (reachable (from sf) start).
Local Abbreviation search_inv := (search_spec.search_inv sf start).
Local Abbreviation search_done := (search_spec.search_done sf start).
Local Abbreviation neighbor_inv := (search_spec.neighbor_inv sf start).
Local Abbreviation inv_nodup := (search_spec.inv_nodup sf start).
Local Abbreviation inv_popped_reach := (search_spec.inv_popped_reach sf start).

Lemma pred_inv_descends popped predecessor :
  pred_inv popped predecessor →
  ∀ id p, predecessor !! id = Some p →
    (first_index (ID (unwrap p)) (ID <$> popped)
     < first_index id (ID <$> popped))%nat.
Proof.
  intros Hinv id p Hp. destruct (Hinv id p Hp) as (l1 & x & l2 & -> & -> & Hid).
  simpl. rewrite fmap_app, fmap_cons.
  pose proof (first_index_occurrence (ID x) (ID <$> l1) (ID <$> l2)) as Hle.
  rewrite length_fmap in Hle.
  pose proof (first_index_absent id (ID <$> (l1 ++ [x])) (ID <$> l2) Hid) as Hge.
  rewrite length_fmap, length_app in Hge. simpl in Hge.
  rewrite fmap_app, <-app_assoc in Hge. simpl in Hge.
  change (ID (node_of x)) with (ID x). lia.
Qed.

Lemma pred_inv_grow popped predecessor x :
  pred_inv popped predecessor → pred_inv (popped ++ [x]) predecessor.
Proof.
  intros Hinv id p Hp. destruct (Hinv id p Hp) as (l1 & y & l2 & -> & -> & Hid).
  exists l1, y, (l2 ++ [x]). split; [|done]. by rewrite <-app_assoc.
Qed.

Lemma pred_inv_insert popped predecessor curr id :
  pred_inv (popped ++ [curr]) predecessor →
  id ∉ ID <$> (popped ++ [curr]) →
  pred_inv (popped ++ [curr]) (<[id := Wrapped curr]> predecessor).
Proof.
  intros Hinv Hid id' p. rewrite lookup_insert. case_decide as Heq.
  - subst id'. intros [= <-]. by exists popped, curr, [].
  - apply Hinv.
Qed.

Lemma AStar_neighbor_inv closedSet popped curr st neighbor :
  (∀ id, is_Some (closedSet !! id) ↔ id ∈ ID <$> (popped ++ [curr])) →
  neighbor_inv closedSet (popped ++ [curr]) st →
  reach neighbor →
  ∃ st', AStar_neighbor sf goal closedSet curr st neighbor = Ok st'
         ∧ neighbor_inv closedSet (popped ++ [curr]) st'.
Proof.
  intros Hclosed (Hwf & Hoc & Hreach & Hpred) Hnb.
  destruct st as [openSet predecessor]. simpl in *. unfold AStar_neighbor.
  destruct (closedSet !! ID neighbor) as [c|] eqn:Hc.
  { eexists. split; [done|]. by split_and!. }
  assert (ID neighbor ∉ ID <$> (popped ++ [curr])) as Hfresh.
  { rewrite <-Hclosed, Hc. by intros [? ?]. }
  destruct (aStar_Find_ok openSet (ID neighbor) Hwf) as (r & -> & Hnone & Hsome).
  bind_ok. destruct r as [existing|].
  - destruct (flt _ _); [|eexists; split; [done|]; by split_and!].
    destruct (aStar_Fix_ok openSet (ID neighbor)
                (fadd (gscore curr)
                   (weight sf (edgeTo sf (node_of curr) neighbor)))
                (fadd (fadd (gscore curr)
                         (weight sf (edgeTo sf (node_of curr) neighbor)))
                   (heuristic sf neighbor goal)) Hwf)
      as (openSet' & -> & Hwf' & Hm).
    bind_ok. eexists. split; [done|]. split_and!; simpl.
    + done.
    + intros v Hv. apply Hoc. by apply Hm.
    + intros v Hv. apply Hreach. by apply Hm.
    + by apply pred_inv_insert.
  - destruct (heap_Push_ok openSet
                {| node_of := neighbor;
                   gscore := fadd (gscore curr)
                      (weight sf (edgeTo sf (node_of curr) neighbor));
                   fscore := fadd (fadd (gscore curr)
                      (weight sf (edgeTo sf (node_of curr) neighbor)))
                      (heuristic sf neighbor goal) |} Hwf)
      as (openSet' & -> & Hwf' & Hm).
    { by apply Hnone. }
    bind_ok. eexists. split; [done|]. split_and!; simpl.
    + done.
    + intros v Hv. apply Hm in Hv as [->|Hv]; [done|by apply Hoc].
    + intros v Hv. apply Hm in Hv as [->|Hv]; [done|by apply Hreach].
    + by apply pred_inv_insert.
Qed.

Lemma members_indexed (pq : aStarPriorityQueue N) v :
  pq_wf pq → v ∈ members pq → is_Some (indexList pq !! ID v).
Proof.
  intros Hwf Hv. apply pq_wf_indexed; [done|].
  unfold members in Hv. apply list_elem_of_fmap in Hv as (x & -> & Hx). eauto.
Qed.

(** One turn of the loop keeps the invariant, or returns. *)
Lemma AStar_turn_inv st :
  search_inv st →
  ∃ turn, AStar_turn sf goal st = Ok turn ∧
    match turn with
    | Continue st' =>
      search_inv st' ∧ ∃ curr, popped st' = popped st ++ [curr]
    | Return path pathCost st' =>
      search_done st'
      ∧ (path = None → pathCost = fzero)
      ∧ ((∀ v, reach v → ID v ≠ ID goal) → path = None)
    end.
Proof.
  intros [Hwf Hoc Hreach Hclosed Hnodup Hpreach Hcount Hpred].
  unfold AStar_turn. cbn [Interface.Len aStarPriorityQueue_heap].
  unfold aStar_Len. case_decide as Hlen.
  { eexists. split; [done|]. split_and!; [by split|done..]. }
  destruct (heap_Pop_ok (openSet st) Hwf) as (open' & curr & -> & Hwf' & Hm & Hgone).
  { intros Hnil. apply Hlen. by rewrite Hnil. }
  bind_ok.
  assert (node_of curr ∈ members (openSet st)) as Hcurr by (apply Hm; by left).
  assert (reach (node_of curr)) as Hrcurr by by apply Hreach.
  assert (closedSet st !! ID curr = None) as Hcc by by apply Hoc.
  assert (ID curr ∉ ID <$> popped st) as Hnew.
  { rewrite <-Hclosed, Hcc. by intros [? ?]. }
  assert (NoDup (ID <$> (popped st ++ [curr]))) as Hnodup'.
  { rewrite fmap_app. apply NoDup_app. split_and!; [done| |apply NoDup_singleton].
    intros id Hid ->%list_elem_of_singleton. done. }
  assert (∀ x, x ∈ popped st ++ [curr] → reach (node_of x)) as Hpreach'.
  { intros x [Hx| ->%list_elem_of_singleton]%elem_of_app; [by apply Hpreach|done]. }
  assert (∀ v, v ∈ members open' → closedSet st !! ID v = None) as Hoc'.
  { intros v Hv. apply Hoc, Hm. by right. }
  case_decide as Hgoal.
  - destruct (rebuildPath_ok (λ id, first_index id (ID <$> popped st))
                (predecessor st) (Plain goal)) as [path ->].
    { by apply pred_inv_descends. }
    bind_ok. eexists. split; [done|]. split_and!.
    + split; cbn [closedSet openSet predecessor nodesExpanded popped];
        [done..|]. rewrite length_app. simpl. lia.
    + done.
    + intros Hunreach. by destruct (Hunreach _ Hrcurr).
  - set (closed' := <[ID curr := curr]> (closedSet st)).
    assert (∀ id, is_Some (closed' !! id) ↔ id ∈ ID <$> (popped st ++ [curr]))
      as Hclosed'.
    { intros id. subst closed'. rewrite lookup_insert_is_Some, fmap_app.
      rewrite elem_of_app, Hclosed. simpl. rewrite list_elem_of_singleton.
      destruct (decide (ID curr = id)) as [<-|Hne]; [tauto|].
      split; [intros [?|[_ ?]]; [done|by left]|].
      intros [?|?]; [by right|congruence]. }
    destruct (for_range_inv
                (neighbor_inv closed' (popped st ++ [curr])) reach
                (from sf (node_of curr))
                (AStar_neighbor sf goal closed' curr)
                (open', predecessor st))
      as ([open'' pred''] & -> & Hwf'' & Hoc'' & Hreach'' & Hpred'').
    { split_and!; simpl.
      - done.
      - intros v Hv. subst closed'. rewrite lookup_insert_ne; [by apply Hoc'|].
        intros Heq. apply members_indexed in Hv; [|done].
        rewrite <-Heq, Hgone in Hv. by destruct Hv.
      - intros v Hv. apply Hreach, Hm. by right.
      - by apply pred_inv_grow. }
    { apply Forall_forall. intros v Hv.
      apply (reachable_step _ _ (node_of curr)); [exact Hrcurr|exact Hv]. }
    { intros s v Hs Hv. by apply AStar_neighbor_inv. }
    bind_ok. eexists. split; [done|]. split; [|by eexists].
    split; cbn [closedSet openSet predecessor nodesExpanded popped];
      [done..| |done].
    rewrite length_app. simpl. lia.
Qed.

(** With more fuel than there are identifiers still to expand the loop
    returns. *)
Lemma AStar_loop_terminates (R : gset Z) fuel st :
  (∀ v, reach v → ID v ∈ R) →
  search_inv st →
  (size (R ∖ list_to_set (ID <$> popped st)) < fuel)%nat →
  ∃ path pathCost st',
    AStar_loop fuel sf goal st = Ok (path, pathCost, st')
    ∧ search_done st'
    ∧ (path = None → pathCost = fzero)
    ∧ ((∀ v, reach v → ID v ≠ ID goal) → path = None).
Proof.
  intros HR. revert st. induction fuel as [|fuel IH]; intros st Hinv Hfuel; [lia|].
  cbn [AStar_loop].
  destruct (AStar_turn_inv st Hinv) as ([path pathCost st'|st'] & -> & Hturn);
    bind_ok.
  { destruct Hturn as (? & ? & ?). by eexists _, _, _. }
  destruct Hturn as [Hinv' [curr Hpopped]]. apply IH; [done|].
  enough (R ∖ list_to_set (ID <$> popped st')
          ⊂ R ∖ list_to_set (ID <$> popped st)) as Hsub.
  { apply subset_size in Hsub. lia. }
  pose proof (inv_nodup _ Hinv') as Hnodup.
  pose proof (inv_popped_reach _ Hinv' curr) as Hcurr.
  rewrite Hpopped in *. rewrite fmap_app in *.
  apply NoDup_app in Hnodup as (_ & Hnew & _).
  assert (ID curr ∈ R) as HcurrR.
  { apply (HR (node_of curr)), Hcurr, elem_of_app. right.
    by apply list_elem_of_singleton. }
  assert (ID curr ∉ ID <$> popped st) as Hfresh.
  { intros Hin. apply (Hnew _ Hin). simpl. by apply list_elem_of_singleton. }
  split.
  - intros id. rewrite !elem_of_difference, !elem_of_list_to_set, elem_of_app.
    intros [? Hnot]. split; [done|]. intros ?. apply Hnot. by left.
  - intros Hback. specialize (Hback (ID curr)).
    rewrite !elem_of_difference, !elem_of_list_to_set, elem_of_app in Hback.
    destruct Hback as [_ Hback]; [done|]. apply Hback. right. simpl.
    by apply list_elem_of_singleton.
Qed.

Lemma AStar_init_inv :
  ∃ st, AStar_init sf start goal = Ok st ∧ search_inv st ∧ popped st = [].
Proof.
  unfold AStar_init. rewrite heap_Init_empty. bind_ok.
  destruct (heap_Push_ok emptyQueue
              {| node_of := start; gscore := fzero;
                 fscore := heuristic sf start goal |} emptyQueue_wf)
    as (pq & -> & Hwf & Hm); [done|].
  bind_ok. eexists. split; [done|]. split; [|done].
  assert (∀ v, v ∈ members pq → v = start) as Hstart.
  { intros v [->|Hv]%Hm; [done|]. by apply elem_of_nil in Hv. }
  split; simpl.
  - done.
  - done.
  - intros v ->%Hstart. constructor.
  - intros id. rewrite lookup_empty. split; [by intros [? ?]|].
    by intros ?%elem_of_nil.
  - constructor.
  - by intros x ?%elem_of_nil.
  - done.
  - by intros id p.
Qed.

(** The invariant holds after any number of turns. *)
Lemma search_inv_turns st0 st :
  search_inv st0 →
  rtc (λ st st', AStar_turn sf goal st = Ok (Continue st')) st0 st →
  search_inv st.
Proof.
  intros Hinv Hturns. induction Hturns as [|st1 st2 st3 Hturn _ IH]; [done|].
  apply IH. destruct (AStar_turn_inv st1 Hinv) as (turn & Heq & Hpost).
  rewrite Hturn in Heq. injection Heq as <-. by destruct Hpost.
Qed.
End Search.

Lemma setupFuncs_from {N : Type} `{!Node N} (g : Graph N) w h :
  from (setupFuncs g w h) = From g.
Proof. unfold setupFuncs. by destruct (directedness g). Qed.

Lemma NoDup_length_le_size (ids : list Z) (R : gset Z) :
  NoDup ids → (∀ id, id ∈ ids → id ∈ R) → (length ids ≤ size R)%nat.
Proof.
  intros Hnodup Hsub. rewrite <-(size_list_to_set (C := gset Z) ids) by done.
  apply subseteq_size. intros id. rewrite elem_of_list_to_set. apply Hsub.
Qed.

(** C8.  When no node reachable from [start] has the identifier of [goal],
    and the reachable identifiers lie in a finite set [R], [AStar] with
    more fuel than [R] has elements returns without panicking: the nil path,
    cost 0 and the number of nodes it popped from the open set. *)
Theorem AStar_unreachable_goal {N : Type} `{!Node N} (g : Graph N)
    (start goal : N) (weight : option (WeightFunc N))
    (heuristic : option (HeuristicWeightFunc N)) (R : gset Z) (fuel : nat) :
  (∀ v, reachable (From g) start v → ID v ∈ R) →
  (∀ v, reachable (From g) start v → ID v ≠ ID goal) →
  (size R < fuel)%nat →
  ∃ st, AStar_run fuel start goal g weight heuristic = Ok (None, fzero, st)
        ∧ AStar fuel start goal g weight heuristic
          = Ok (None, fzero, length (popped st)).
Proof.
  intros HR Hunreach Hfuel. unfold AStar, AStar_run.
  set (sf := setupFuncs g weight heuristic).
  assert (from sf = From g) as Hfrom by apply setupFuncs_from.
  destruct (AStar_init_inv sf start goal) as (st0 & -> & Hinv & Hpopped).
  bind_ok.
  destruct (AStar_loop_terminates sf start goal R fuel st0)
    as (path & pathCost & st & -> & Hdone & Hcost & Hnone).
  { by rewrite Hfrom. }
  { done. }
  { rewrite Hpopped. simpl. rewrite difference_empty_L. done. }
  rewrite Hfrom in Hnone. specialize (Hnone Hunreach). subst path.
  rewrite (Hcost eq_refl). bind_ok.
  exists st. split; [done|]. by rewrite (done_count _ _ _ Hdone).
Qed.

(** C9.  When [R] is the finite set of the identifiers of the nodes
    reachable from [start], [AStar] with more fuel than [R] has elements
    returns; the nodes it popped from the open set have pairwise different
    identifiers, their number is the expansion count and is at most the
    size of [R]; and after any number of turns of the loop no node of the
    open set is in the closed set. *)
Theorem AStar_expands_each_node_once {N : Type} `{!Node N} (g : Graph N)
    (start goal : N) (weight : option (WeightFunc N))
    (heuristic : option (HeuristicWeightFunc N)) (R : gset Z) (fuel : nat) :
  (∀ id, id ∈ R ↔ ∃ v, reachable (From g) start v ∧ ID v = id) →
  (size R < fuel)%nat →
  (∃ path pathCost st,
     AStar_run fuel start goal g weight heuristic = Ok (path, pathCost, st)
     ∧ AStar fuel start goal g weight heuristic
       = Ok (path, pathCost, nodesExpanded st)
     ∧ NoDup (ID <$> popped st)
     ∧ nodesExpanded st = length (popped st)
     ∧ (nodesExpanded st ≤ size R)%nat)
  ∧ (∀ st0 st,
       AStar_init (setupFuncs g weight heuristic) start goal = Ok st0 →
       rtc (λ st st',
              AStar_turn (setupFuncs g weight heuristic) goal st
              = Ok (Continue st')) st0 st →
       NoDup (ID <$> popped st)
       ∧ ∀ v, v ∈ members (openSet st) → closedSet st !! ID v = None).
Proof.
  intros HR Hfuel.
  set (sf := setupFuncs g weight heuristic).
  assert (from sf = From g) as Hfrom by apply setupFuncs_from.
  destruct (AStar_init_inv sf start goal) as (st0 & Hinit & Hinv & Hpopped).
  split.
  - unfold AStar, AStar_run. fold sf. rewrite Hinit. bind_ok.
    destruct (AStar_loop_terminates sf start goal R fuel st0)
      as (path & pathCost & st & -> & Hdone & _ & _).
    { intros v Hv. apply HR. exists v. by rewrite <-Hfrom. }
    { done. }
    { rewrite Hpopped. simpl. rewrite difference_empty_L. done. }
    bind_ok. exists path, pathCost, st.
    destruct Hdone as [_ Hnodup Hreach Hcount].
    split_and!; [done..|]. rewrite Hcount, <-(length_fmap ID).
    apply NoDup_length_le_size; [done|].
    intros id (x & -> & Hx)%list_elem_of_fmap. apply HR.
    exists (node_of x). split; [|done]. rewrite <-Hfrom. by apply Hreach.
  - intros st0' st Hinit' Hturns. rewrite Hinit in Hinit'.
    injection Hinit' as <-.
    pose proof (search_inv_turns sf start goal st0 st Hinv Hturns) as Hst.
    split; [apply (inv_nodup _ _ _ Hst)|apply (inv_open_closed _ _ _ Hst)].
Qed.
End search_facts.

Module search_witnesses.
Import examples inputs queue_spec search_facts.

Lemma dead_end_reachable v :
  reachable (From dead_end) 0%Z v → v = 0%Z ∨ v = 1%Z.
Proof.
  induction 1 as [|u v _ IH Hv]; [by left|].
  destruct IH as [->| ->]; vm_compute in Hv.
  - apply list_elem_of_singleton in Hv. by right.
  - by apply elem_of_nil in Hv.
Qed.

Lemma dead_end_reachable_ids id :
  id ∈ ({[0; 1]} : gset Z)%Z
  ↔ ∃ v, reachable (From dead_end) 0%Z v ∧ ID v = id.
Proof.
  split.
  - intros [->%elem_of_singleton| ->%elem_of_singleton]%elem_of_union.
    + exists 0%Z. split; [constructor|done].
    + exists 1%Z. split; [|done].
      apply (reachable_step _ _ 0%Z); [constructor|].
      vm_compute. by apply list_elem_of_singleton.
  - intros (v & [->| ->]%dead_end_reachable & <-); set_solver.
Qed.

Lemma AStar_unreachable_goal_witness :
  (∀ v, reachable (From dead_end) 0%Z v → ID v ∈ ({[0; 1]} : gset Z)%Z)
  ∧ (∀ v, reachable (From dead_end) 0%Z v → ID v ≠ ID 2%Z)
  ∧ (size ({[0; 1]} : gset Z)%Z < 3)%nat
  ∧ ∃ st, AStar_run 3 0%Z 2%Z dead_end None None = Ok (None, fzero, st)
          ∧ AStar 3 0%Z 2%Z dead_end None None
            = Ok (None, fzero, length (popped st)).
Proof.
  assert (∀ v, reachable (From dead_end) 0%Z v → ID v ∈ ({[0; 1]} : gset Z)%Z)
    as H1.
  { intros v Hv. apply dead_end_reachable_ids. eauto. }
  assert (∀ v, reachable (From dead_end) 0%Z v → ID v ≠ ID 2%Z) as H2.
  { by intros v [->| ->]%dead_end_reachable. }
  assert (size ({[0; 1]} : gset Z)%Z < 3)%nat as H3 by (vm_compute; lia).
  split_and!; [done..|].
  exact (AStar_unreachable_goal dead_end 0%Z 2%Z None None {[0; 1]}%Z 3
           H1 H2 H3).
Defined.

Lemma AStar_expands_each_node_once_witness :
  ∃ path pathCost st,
    AStar_run 3 0%Z 2%Z dead_end None None = Ok (path, pathCost, st)
    ∧ AStar 3 0%Z 2%Z dead_end None None = Ok (path, pathCost, nodesExpanded st)
    ∧ NoDup (ID <$> popped st)
    ∧ nodesExpanded st = length (popped st)
    ∧ (nodesExpanded st ≤ size ({[0; 1]} : gset Z)%Z)%nat.
Proof.
  apply (AStar_expands_each_node_once dead_end 0%Z 2%Z None None {[0; 1]}%Z 3).
  - apply dead_end_reachable_ids.
  - vm_compute. lia.
Defined.
End search_witnesses.

(** ** Tarjan's algorithm *)

Lemma for_range_prefix_inv {A S : Type} (P : list A → S → Prop) (xs : list A)
    (body : S → A → result S) (s : S) :
  P [] s →
  (∀ pre x post s, xs = pre ++ x :: post → P pre s →
     ∃ s', body s x = Ok s' ∧ P (pre ++ [x]) s') →
  ∃ s', for_range xs body s = Ok s' ∧ P xs s'.
Proof.
  intros Hs Hbody.
  enough (∀ pre post s, xs = pre ++ post → P pre s →
            ∃ s', for_range post body s = Ok s' ∧ P xs s') as Hgen.
  { by apply (Hgen [] xs). }
  intros pre post. revert pre.
  induction post as [|x post IH]; intros pre s0 Hxs Hpre; simpl.
  - rewrite app_nil_r in Hxs. subst. eauto.
  - destruct (Hbody pre x post s0 Hxs Hpre) as (s1 & -> & Hs1). bind_ok.
    apply (IH (pre ++ [x])); [|done]. by rewrite <-app_assoc.
Qed.

Module tarjan_facts.
Import structure tarjan_spec.
Section Tarjan.
Context {N : Type} `{!Node N}.
Context (ID_inj : ∀ x y : N, ID x = ID y → x = y).
Variable succ : N → list N.
Variable universe : list N.
Hypothesis succ_closed : ∀ u v, u ∈ universe → v ∈ succ u → v ∈ universe.
Implicit Types (t : tarjan N) (x y v w : N).

Local Abbreviation ordered := (tarjan_spec.ordered succ).
Local Abbreviation wf := (tarjan_spec.wf succ universe).
Local Abbreviation wf_nodup := (tarjan_spec.wf_nodup succ universe).
Local Abbreviation wf_visited := (tarjan_spec.wf_visited succ universe).
Local Abbreviation wf_onStack := (tarjan_spec.wf_onStack succ universe).
Local Abbreviation wf_index := (tarjan_spec.wf_index succ universe).
Local Abbreviation wf_sorted := (tarjan_spec.wf_sorted succ universe).
Local Abbreviation wf_lowlink := (tarjan_spec.wf_lowlink succ universe).
Local Abbreviation wf_ordered := (tarjan_spec.wf_ordered succ universe).
Local Abbreviation wf_universe := (tarjan_spec.wf_universe succ universe).
Local Abbreviation unvisited := (tarjan_spec.unvisited universe).
Local Abbreviation returned := (tarjan_spec.returned succ universe).
Local Abbreviation ret_wf := (tarjan_spec.ret_wf succ universe).
Local Abbreviation ret_extends := (tarjan_spec.ret_extends succ universe).
Local Abbreviation ret_index := (tarjan_spec.ret_index succ universe).
Local Abbreviation visiting := (tarjan_spec.visiting succ universe).
Local Abbreviation ret_stack := (tarjan_spec.ret_stack succ universe).
Local Abbreviation vis_wf := (tarjan_spec.vis_wf succ universe).
Local Abbreviation vis_extends := (tarjan_spec.vis_extends succ universe).
Local Abbreviation vis_index := (tarjan_spec.vis_index succ universe).
Local Abbreviation vis_stack := (tarjan_spec.vis_stack succ universe).
Local Abbreviation vis_done := (tarjan_spec.vis_done succ universe).

(** Nodes are compared through their identifiers. *)
#[local] Instance node_eq_dec : EqDecision N.
Proof.
  intros x y. destruct (decide (ID x = ID y)) as [Heq|Hne].
  - left. by apply ID_inj.
  - right. by intros ->.
Defined.

Lemma extends_refl t : extends t t.
Proof. split; [done|by exists []; rewrite app_nil_r|done]. Qed.

Lemma extends_trans t0 t1 t2 : extends t0 t1 → extends t1 t2 → extends t0 t2.
Proof.
  intros [Hf1 [cs1 Hs1] Hi1] [Hf2 [cs2 Hs2] Hi2]. split.
  - intros x Hx. destruct (Hf1 x Hx) as [Hix Hll].
    destruct (Hf2 x) as [Hix2 Hll2]; [congruence|]. split; congruence.
  - exists (cs1 ++ cs2). by rewrite Hs2, Hs1, <-app_assoc.
  - lia.
Qed.

Lemma extends_emitted t0 t1 x : extends t0 t1 → x ∈ emitted t0 → x ∈ emitted t1.
Proof.
  intros [_ [cs Hcs] _]. unfold emitted. rewrite Hcs, concat_app, elem_of_app.
  by left.
Qed.

Lemma ID_ne x y : x ≠ y → ID x ≠ ID y.
Proof. intros Hne Heq. by apply Hne, ID_inj. Qed.

Lemma int_at_insert (m : gmap Z nat) id id' n :
  int_at (<[id := n]> m) id' = if decide (id = id') then n else int_at m id'.
Proof. unfold int_at. rewrite lookup_insert. by case_decide. Qed.

Lemma ix_discover t v x :
  ix (discover v t) x = if decide (x = v) then S (index t) else ix t x.
Proof.
  unfold ix, discover. cbn [indexTable]. rewrite int_at_insert.
  destruct (decide (x = v)) as [->|Hne]; [by rewrite decide_True|].
  rewrite decide_False; [done|]. intros Heq. by apply Hne, ID_inj.
Qed.

Lemma ll_discover t v x :
  ll (discover v t) x = if decide (x = v) then S (index t) else ll t x.
Proof.
  unfold ll, discover. cbn [lowLink]. rewrite int_at_insert.
  destruct (decide (x = v)) as [->|Hne]; [by rewrite decide_True|].
  rewrite decide_False; [done|]. intros Heq. by apply Hne, ID_inj.
Qed.

Lemma ll_set_lowLink t v n x :
  ll (set_lowLink t (ID v) n) x = if decide (x = v) then n else ll t x.
Proof.
  unfold ll, set_lowLink. cbn [lowLink]. rewrite int_at_insert.
  destruct (decide (x = v)) as [->|Hne]; [by rewrite decide_True|].
  rewrite decide_False; [done|]. intros Heq. by apply Hne, ID_inj.
Qed.

Lemma unvisited_not_in t x : wf t → ix t x = 0%nat → x ∉ stack t ++ emitted t.
Proof. intros Hwf Hx Hin. by apply (wf_visited _ Hwf) in Hin. Qed.

(** [discover] keeps the invariant. *)
Lemma discover_wf t v :
  wf t → v ∈ universe → ix t v = 0%nat → wf (discover v t).
Proof.
  intros Hwf Hv Hnew. pose proof (unvisited_not_in t v Hwf Hnew) as Hnotin.
  assert (∀ x, x ∈ stack t ++ emitted t → x ≠ v) as Hne by (by intros x ? ->).
  split.
  - change (NoDup (v :: (stack t ++ emitted t))). apply NoDup_cons.
    split; [done|apply (wf_nodup _ Hwf)].
  - intros x. rewrite ix_discover.
    change (stack (discover v t) ++ emitted (discover v t))
      with (v :: (stack t ++ emitted t)).
    rewrite elem_of_cons. destruct (decide (x = v)) as [->|Hxv].
    + split; [by left|done].
    + rewrite (wf_visited _ Hwf). split; [by right|by intros [?|?]].
  - intros x. cbn [onStack stack discover]. rewrite elem_of_union.
    rewrite elem_of_singleton, elem_of_cons, (wf_onStack _ Hwf).
    split; (intros [Hx|Hx]; [left|by right]); [by apply ID_inj|by rewrite Hx].
  - intros x. rewrite ix_discover. cbn [index discover].
    case_decide; [lia|]. pose proof (wf_index _ Hwf x). lia.
  - intros pre x post Hstack y Hy. rewrite !ix_discover.
    cbn [stack discover] in Hstack.
    destruct pre as [|p pre]; simplify_eq/=.
    + rewrite (decide_False (P := y = x))
        by (apply Hne, elem_of_app; by left).
      rewrite decide_True by done. pose proof (wf_index _ Hwf y). lia.
    + assert (x ∈ stack t) as Hx.
      { rewrite H0. apply elem_of_app. right. by left. }
      assert (y ∈ stack t) as Hy'.
      { rewrite H0. apply elem_of_app. right. by right. }
      rewrite !decide_False by (apply Hne, elem_of_app; by left).
      by eapply (wf_sorted _ Hwf).
  - intros x Hx. cbn [stack discover] in Hx. rewrite ix_discover, ll_discover.
    apply elem_of_cons in Hx as [->|Hx].
    + rewrite !decide_True by done. split; [lia|]. exists v.
      split; [by left|]. rewrite ix_discover. by rewrite decide_True.
    + assert (x ≠ v) as Hxv by (apply Hne, elem_of_app; by left).
      rewrite !decide_False by done.
      destruct (wf_lowlink _ Hwf x Hx) as [Hle (z & Hz & Hzx)].
      split; [done|]. exists z. split; [by right|].
      rewrite ix_discover, decide_False; [done|].
      apply Hne, elem_of_app. by left.
  - apply (wf_ordered _ Hwf).
  - intros x Hx.
    change (stack (discover v t) ++ emitted (discover v t))
      with (v :: (stack t ++ emitted t)) in Hx.
    apply elem_of_cons in Hx as [->|Hx]; [done|]. by apply (wf_universe _ Hwf).
Qed.

Lemma unvisited_mono t0 t1 :
  (∀ x, ix t0 x ≠ 0%nat → ix t1 x ≠ 0%nat) →
  (length (unvisited t1) ≤ length (unvisited t0))%nat.
Proof.
  intros Hmono. unfold unvisited. generalize universe as l.
  induction l as [|x l IH]; [done|].
  rewrite !filter_cons. specialize (Hmono x).
  destruct (decide (ix t1 x = 0%nat)), (decide (ix t0 x = 0%nat));
    simpl; lia.
Qed.

Lemma unvisited_strict t0 t1 v :
  (∀ x, ix t0 x ≠ 0%nat → ix t1 x ≠ 0%nat) →
  v ∈ universe → ix t0 v = 0%nat → ix t1 v ≠ 0%nat →
  (length (unvisited t1) < length (unvisited t0))%nat.
Proof.
  intros Hmono Hv H0 H1.
  pose proof (unvisited_mono t0 t1 Hmono) as Hle. unfold unvisited in *.
  revert Hv Hle. generalize universe as l.
  induction l as [|x l IH]; intros Hv; [by apply elem_of_nil in Hv|].
  rewrite !filter_cons.
  assert (length (filter (λ x, ix t1 x = 0%nat) l)
          ≤ length (filter (λ x, ix t0 x = 0%nat) l))%nat as Hl.
  { clear IH Hv. induction l as [|y l IH]; [done|]. rewrite !filter_cons.
    specialize (Hmono y).
    destruct (decide (ix t1 y = 0%nat)), (decide (ix t0 y = 0%nat));
      simpl; lia. }
  apply elem_of_cons in Hv as [<-|Hv].
  - rewrite decide_False, decide_True by done. simpl. lia.
  - specialize (IH Hv Hl). specialize (Hmono x).
    destruct (decide (ix t1 x = 0%nat)), (decide (ix t0 x = 0%nat));
      simpl; lia.
Qed.

(** Lowering the low link of a stack node to the index of a stack node keeps
    the invariant. *)
Lemma set_lowLink_wf t v n :
  wf t → v ∈ stack t → (n ≤ ix t v)%nat →
  (∃ z, z ∈ stack t ∧ ix t z = n) →
  wf (set_lowLink t (ID v) n).
Proof.
  intros Hwf Hv Hn Hz. split; try apply Hwf.
  intros x Hx. change (stack (set_lowLink t (ID v) n)) with (stack t) in *.
  change (ix (set_lowLink t (ID v) n)) with (ix t).
  rewrite ll_set_lowLink. case_decide as Hxv; [by subst|].
  by apply (wf_lowlink _ Hwf).
Qed.

Lemma extends_set_lowLink t0 t v n :
  extends t0 t → ix t0 v = 0%nat → extends t0 (set_lowLink t (ID v) n).
Proof.
  intros [Hf Hs Hi] Hv. split; [|done..].
  intros x Hx. change (ix (set_lowLink t (ID v) n)) with (ix t).
  rewrite ll_set_lowLink. rewrite decide_False by (by intros ->).
  by apply Hf.
Qed.

(** The pop loop removes the stack down to [v] and returns the removed
    nodes in the order they were popped. *)
Lemma pop_component_spec B v S0 (on : gset Z) scc :
  v ∉ B →
  ∃ on', pop_component (ID v) (B ++ v :: S0) on scc
         = Ok (S0, on', scc ++ B ++ [v])
         ∧ ∀ id, id ∈ on' ↔ id ∈ on ∧ id ∉ ID <$> (B ++ [v]).
Proof.
  revert on scc. induction B as [|b B IH]; intros on scc Hv; simpl.
  - rewrite decide_True by done. eexists. split; [done|].
    intros id. rewrite elem_of_difference, elem_of_singleton.
    rewrite list_elem_of_singleton. done.
  - apply not_elem_of_cons in Hv as [Hvb Hv].
    rewrite decide_False by (intros Heq; by apply Hvb, ID_inj).
    destruct (IH (on ∖ {[ID b]}) (scc ++ [b]) Hv) as (on' & -> & Hon').
    eexists. split; [by rewrite <-app_assoc|].
    intros id. rewrite Hon', elem_of_difference, elem_of_singleton.
    rewrite not_elem_of_cons. tauto.
Qed.

Lemma elem_of_concat_lookup (ls : list (list N)) x :
  x ∈ concat ls ↔ ∃ i c, ls !! i = Some c ∧ x ∈ c.
Proof.
  induction ls as [|l ls IH]; simpl.
  - split; [by intros ?%elem_of_nil|by intros (i & c & ? & _)].
  - rewrite elem_of_app, IH. split.
    + intros [Hx|(i & c & Hi & Hx)]; [by exists 0%nat, l|by exists (S i), c].
    + intros ([|i] & c & Hi & Hx); simplify_eq/=; [by left|right; eauto].
Qed.

Lemma emitted_snoc t c :
  concat (sccs t ++ [c]) = emitted t ++ c.
Proof. unfold emitted. by rewrite concat_app; simpl; rewrite app_nil_r. Qed.

(** Nodes nearer to the top of the stack have larger indices. *)
Lemma stack_above t top rest z x :
  wf t → stack t = top ++ rest → z ∈ top → x ∈ rest → (ix t x < ix t z)%nat.
Proof.
  intros Hwf Hstack Hz Hx. apply list_elem_of_split in Hz as (p1 & p2 & ->).
  apply (wf_sorted _ Hwf p1 z (p2 ++ rest)).
  - by rewrite Hstack, <-app_assoc.
  - apply elem_of_app. by right.
Qed.

Lemma close_root_spec t0 t v B :
  wf t → extends t0 t → ix t v = S (index t0) →
  stack t = B ++ v :: stack t0 →
  (∀ x y, x ∈ B → y ∈ succ x → settled t (ll t v) y) →
  (∀ y, y ∈ succ v → settled t (ll t v) y) →
  ∃ t1, close_root v t = Ok t1 ∧ returned t0 v t1.
Proof.
  intros Hwf Hext Hix Hstack Hblack Hdone. unfold close_root.
  fold (ll t v). fold (ix t v). case_decide as Hroot; cycle 1.
  { exists t. split; [done|]. split; [done..|].
    exists (B ++ [v]). split_and!.
    - by rewrite Hstack, <-app_assoc.
    - intros x y [Hx| ->%list_elem_of_singleton]%elem_of_app; eauto.
    - right. eauto. }
  pose proof (wf_nodup _ Hwf) as Hnodup. rewrite Hstack in Hnodup.
  assert (v ∉ B) as HvB.
  { rewrite <-app_assoc in Hnodup. apply NoDup_app in Hnodup as (_ & Hnot & _).
    intros Hin. apply (Hnot _ Hin). apply elem_of_app. left. by left. }
  destruct (pop_component_spec B v (stack t0) (onStack t) [] HvB)
    as (on' & Hpop & Hon').
  rewrite Hstack, Hpop. bind_ok. simpl app.
  set (c := B ++ [v]).
  set (t1 := {| index := index t; indexTable := indexTable t;
                lowLink := lowLink t; onStack := on'; stack := stack t0;
                sccs := sccs t ++ [c] |}).
  assert (∀ x, ix t1 x = ix t x) as Hix1 by done.
  assert (∀ x, ll t1 x = ll t x) as Hll1 by done.
  assert (emitted t1 = emitted t ++ c) as Hem1 by apply emitted_snoc.
  assert (stack t = c ++ stack t0) as Hstack'.
  { subst c. by rewrite Hstack, <-app_assoc. }
  assert (∀ x, x ∈ stack t1 ++ emitted t1 ↔ x ∈ stack t ++ emitted t) as Hmem.
  { intros x. rewrite Hem1, Hstack'. cbn [stack t1]. rewrite !elem_of_app.
    tauto. }
  assert (NoDup (stack t1 ++ emitted t1)) as Hnodup1.
  { rewrite Hem1. cbn [stack t1]. pose proof (wf_nodup _ Hwf) as Hnd.
    rewrite Hstack' in Hnd.
    assert (stack t0 ++ emitted t ++ c ≡ₚ (c ++ stack t0) ++ emitted t) as ->;
      [|done].
    rewrite <-app_assoc, (comm (++) c). by rewrite <-app_assoc. }
  assert (∀ x, x ∈ stack t0 → x ∉ c) as Hbelow.
  { intros x Hx Hc. pose proof (wf_nodup _ Hwf) as Hnd. rewrite Hstack' in Hnd.
    apply NoDup_app in Hnd as (Hnd & _ & _).
    apply NoDup_app in Hnd as (_ & Hnot & _). by apply (Hnot x). }
  exists t1. split; [done|]. split.
  - split.
    + done.
    + intros x. rewrite Hix1, Hmem. apply (wf_visited _ Hwf).
    + intros x. cbn [onStack stack t1]. rewrite Hon', (wf_onStack _ Hwf).
      rewrite Hstack', elem_of_app. split.
      * intros [[Hc|Hs] Hnot]; [|done]. destruct Hnot.
        by apply list_elem_of_fmap_2.
      * intros Hs. split; [by right|].
        intros (y & Hy & Hyc)%list_elem_of_fmap.
        apply ID_inj in Hy as <-. by apply (Hbelow x).
    + intros x. rewrite Hix1. apply (wf_index _ Hwf).
    + intros pre x post Hs y Hy. rewrite !Hix1. cbn [stack t1] in Hs.
      apply (wf_sorted _ Hwf (c ++ pre) x post); [|done].
      by rewrite Hstack', Hs, <-app_assoc.
    + intros x Hx. cbn [stack t1] in *. rewrite Hix1, Hll1.
      assert (x ∈ stack t) as Hxt by (rewrite Hstack'; apply elem_of_app; by right).
      destruct (wf_lowlink _ Hwf x Hxt) as [Hle (z & Hz & Hzx)].
      split; [done|]. exists z. split; [|by rewrite Hix1].
      rewrite Hstack' in Hz. apply elem_of_app in Hz as [Hz|Hz]; [|done].
      pose proof (stack_above t c (stack t0) z x Hwf Hstack' Hz Hx). lia.
    + intros i c0 x y Hi Hx Hy. cbn [sccs t1] in *.
      apply lookup_app_Some in Hi as [Hi|[Hlen Hi]].
      * destruct (wf_ordered _ Hwf i c0 x y Hi Hx Hy) as (j & c' & Hj & Hc' & Hyc).
        exists j, c'. split; [done|]. split; [|done]. by apply lookup_app_l_Some.
      * apply list_lookup_singleton_Some in Hi as [Hi0 <-].
        assert (settled t (ll t v) y) as Hset.
        { apply elem_of_app in Hx as [Hx| ->%list_elem_of_singleton]; eauto. }
        destruct Hset as [Hem|[Hs Hbound]].
        -- apply elem_of_concat_lookup in Hem as (j & c' & Hj & Hyc).
           exists j, c'. split; [|split; [by apply lookup_app_l_Some|done]].
           apply lookup_lt_Some in Hj. lia.
        -- exists i, c. split; [done|]. split.
           ++ apply lookup_app_Some. right. split; [done|].
              apply list_lookup_singleton_Some. done.
           ++ rewrite Hstack' in Hs. apply elem_of_app in Hs as [Hs|Hs]; [done|].
              assert (ix t y < ix t v)%nat; [|lia].
              apply (wf_sorted _ Hwf B v (stack t0)); done.
    + intros x Hx. apply Hmem in Hx. by apply (wf_universe _ Hwf).
  - destruct Hext as [Hf [cs Hcs] Hi]. split; [done| |done].
    exists (cs ++ [c]). cbn [sccs t1]. by rewrite Hcs, <-app_assoc.
  - done.
  - exists []. split; [done|]. split; [by intros x y ?%elem_of_nil|].
    left. split; [done|]. by rewrite Hll1, Hix1.
Qed.

Lemma settled_set_lowLink t v n bound bound' y :
  settled t bound y → (bound' ≤ bound)%nat →
  settled (set_lowLink t (ID v) n) bound' y.
Proof.
  intros [Hem|[Hs Hb]] Hle; [by left|right].
  split; [done|]. change (ix (set_lowLink t (ID v) n) y) with (ix t y). lia.
Qed.

Lemma settled_extends t t1 B1 bound y :
  wf t → extends t t1 → stack t1 = B1 ++ stack t →
  settled t bound y → settled t1 bound y.
Proof.
  intros Hwf Hext Hstack [Hem|[Hs Hb]].
  - left. by eapply extends_emitted.
  - right. split; [rewrite Hstack; apply elem_of_app; by right|].
    destruct (ext_frame _ _ Hext y) as [-> _]; [|done].
    apply (wf_visited _ Hwf), elem_of_app. by left.
Qed.

Lemma consider_successor_spec (recur : N → tarjan N → result (tarjan N))
    (bound : nat) t0 v pre w t :
  (∀ t' w', wf t' → w' ∈ universe → ix t' w' = 0%nat →
     (length (unvisited t') < bound)%nat →
     ∃ t1, recur w' t' = Ok t1 ∧ returned t' w' t1) →
  (length (unvisited t0) ≤ bound)%nat →
  v ∈ universe → ix t0 v = 0%nat →
  visiting t0 v pre t → w ∈ succ v →
  ∃ t', consider_successor recur v t w = Ok t'
        ∧ visiting t0 v (pre ++ [w]) t'.
Proof.
  intros Hrecur Hbound Hv Hv0 [Hwf Hext Hix (B & Hstack & Hblack) Hdone] Hw.
  assert (w ∈ universe) as Hwu by by eapply succ_closed.
  assert (v ∈ stack t) as Hvs.
  { rewrite Hstack. apply elem_of_app. right. by left. }
  unfold consider_successor. cbv zeta.
  fold (ix t w). case_decide as Hnew.
  - (* [w] has not been visited: recursion *)
    destruct (Hrecur t w Hwf Hwu Hnew) as (t1 & -> & Hret).
    { assert (length (unvisited t) < length (unvisited t0))%nat; [|lia].
      apply (unvisited_strict t0 t v); [|done..|lia].
      intros x Hx. by destruct (ext_frame _ _ Hext x Hx) as [-> _]. }
    bind_ok. destruct Hret as [Hwf1 Hext1 Hix1 (B1 & Hstack1 & Hblack1 & Hshape)].
    fold (ll t1 v). fold (ll t1 w).
    assert (ix t v ≠ 0%nat) as Hvis by lia.
    destruct (ext_frame _ _ Hext1 v Hvis) as [Hixv Hllv].
    assert (v ∈ stack t1) as Hvs1.
    { rewrite Hstack1. apply elem_of_app. by right. }
    destruct (wf_lowlink _ Hwf1 v Hvs1) as [Hlev Hzv].
    assert (w ∉ stack t) as Hws.
    { intros Hin. apply (unvisited_not_in t w Hwf Hnew), elem_of_app. by left. }
    assert (settled t1 (ll t1 w) w) as Hwset.
    { destruct Hshape as [[-> Hroot]|(B' & -> & _)].
      - left. assert (w ∈ stack t1 ++ emitted t1) as Hin.
        { apply (wf_visited _ Hwf1). lia. }
        apply elem_of_app in Hin as [Hin|Hin]; [|done].
        rewrite Hstack1 in Hin. done.
      - right. assert (w ∈ stack t1) as Hin.
        { rewrite Hstack1. apply elem_of_app. left. apply elem_of_app.
          right. by left. }
        split; [done|]. by apply (wf_lowlink _ Hwf1). }
    set (n := Nat.min (ll t1 v) (ll t1 w)).
    assert (∃ z, z ∈ stack t1 ∧ ix t1 z = n) as Hz.
    { destruct (Nat.min_spec (ll t1 v) (ll t1 w)) as [[_ Hmin]|[Hle Hmin]];
        fold n in Hmin; rewrite Hmin; [done|].
      destruct Hshape as [[-> Hroot]|(B' & -> & _)].
      - pose proof (wf_index _ Hwf v). lia.
      - apply (wf_lowlink _ Hwf1). rewrite Hstack1. apply elem_of_app. left.
        apply elem_of_app. right. by left. }
    eexists. split; [done|]. split.
    + apply set_lowLink_wf; [done..|lia|done].
    + apply extends_set_lowLink; [|done]. by eapply extends_trans.
    + change (ix (set_lowLink t1 (ID v) n) v) with (ix t1 v). lia.
    + exists (B1 ++ B). cbn [stack set_lowLink]. split.
      { by rewrite Hstack1, Hstack, <-app_assoc. }
      intros x y Hx Hy. rewrite ll_set_lowLink, decide_True by done.
      apply elem_of_app in Hx as [Hx|Hx].
      * apply (settled_set_lowLink _ _ _ (ll t1 w)); [by eapply Hblack1|lia].
      * apply (settled_set_lowLink _ _ _ (ll t v)); [|lia].
        apply (settled_extends t t1 B1 _ y Hwf Hext1 Hstack1).
        by apply (Hblack x).
    + intros y Hy. rewrite ll_set_lowLink, decide_True by done.
      apply elem_of_app in Hy as [Hy| ->%list_elem_of_singleton].
      * apply (settled_set_lowLink _ _ _ (ll t v)); [|lia].
        apply (settled_extends t t1 B1 _ y Hwf Hext1 Hstack1).
        by apply Hdone.
      * apply (settled_set_lowLink _ _ _ (ll t1 w)); [done|lia].
  - case_decide as Hon.
    + (* [w] is on the stack *)
      apply (wf_onStack _ Hwf) in Hon. fold (ll t v).
      set (n := Nat.min (ll t v) (ix t w)).
      destruct (wf_lowlink _ Hwf v Hvs) as [Hlev Hzv].
      assert (∃ z, z ∈ stack t ∧ ix t z = n) as Hz.
      { destruct (Nat.min_spec (ll t v) (ix t w)) as [[_ Hmin]|[Hle Hmin]];
          fold n in Hmin; rewrite Hmin; [done|]. by exists w. }
      eexists. split; [done|]. split.
      * apply set_lowLink_wf; [done..|lia|done].
      * by apply extends_set_lowLink.
      * done.
      * exists B. split; [done|]. intros x y Hx Hy.
        rewrite ll_set_lowLink, decide_True by done.
        apply (settled_set_lowLink _ _ _ (ll t v)); [by eapply Hblack|lia].
      * intros y Hy. rewrite ll_set_lowLink, decide_True by done.
        apply elem_of_app in Hy as [Hy| ->%list_elem_of_singleton].
        -- apply (settled_set_lowLink _ _ _ (ll t v)); [by apply Hdone|lia].
        -- right. split; [done|].
           change (ix (set_lowLink t (ID v) n) w) with (ix t w). lia.
    + (* [w] was emitted before *)
      eexists. split; [done|]. split; [done..| |].
      * by exists B.
      * intros y [Hy| ->%list_elem_of_singleton]%elem_of_app; [by apply Hdone|].
        left. apply (wf_visited _ Hwf) in Hnew.
        apply elem_of_app in Hnew as [Hs|Hem]; [|done].
        by apply (wf_onStack _ Hwf) in Hs.
Qed.

Lemma discover_visiting t0 v :
  wf t0 → v ∈ universe → ix t0 v = 0%nat → visiting t0 v [] (discover v t0).
Proof.
  intros Hwf Hv Hnew. split.
  - by apply discover_wf.
  - split.
    + intros x Hx. rewrite ix_discover, ll_discover.
      by rewrite !decide_False by (by intros ->).
    + exists []. cbn [sccs discover]. by rewrite app_nil_r.
    + cbn [index discover]. lia.
  - rewrite ix_discover. by rewrite decide_True.
  - exists []. split; [done|]. by intros x y ?%elem_of_nil.
  - by intros y ?%elem_of_nil.
Qed.

(** [strongconnect] returns when its fuel exceeds the number of nodes not
    yet visited. *)
Lemma strongconnect_spec fuel t0 v :
  wf t0 → v ∈ universe → ix t0 v = 0%nat →
  (length (unvisited t0) < fuel)%nat →
  ∃ t1, strongconnect fuel succ v t0 = Ok t1 ∧ returned t0 v t1.
Proof.
  revert t0 v. induction fuel as [|fuel IH]; intros t0 v Hwf Hv Hnew Hfuel;
    [lia|].
  cbn [strongconnect].
  destruct (for_range_prefix_inv (visiting t0 v) (succ v)
              (consider_successor (strongconnect fuel succ) v)
              (discover v t0)) as (t & -> & Hvis).
  { by apply discover_visiting. }
  { intros pre w post t Hsucc Hpre.
    apply (consider_successor_spec _ fuel t0); [by apply IH|lia|done..|].
    rewrite Hsucc. apply elem_of_app. right. by left. }
  bind_ok. destruct Hvis as [Hwft Hext Hix (B & Hstack & Hblack) Hdone].
  by apply (close_root_spec t0 t v B).
Qed.

Lemma TarjanSCC_init_wf : wf TarjanSCC_init.
Proof.
  assert (∀ x, ix TarjanSCC_init x = 0%nat) as Hix.
  { intros x. unfold ix, int_at. cbn [indexTable TarjanSCC_init].
    by rewrite lookup_empty. }
  split.
  - constructor.
  - intros x. rewrite Hix. split; [done|]. by intros ?%elem_of_nil.
  - intros x. split; [by intros ?%elem_of_empty|by intros ?%elem_of_nil].
  - intros x. rewrite Hix. cbn [index TarjanSCC_init]. lia.
  - intros pre x post Hs. by destruct pre.
  - by intros x ?%elem_of_nil.
  - by intros i c x y Hi.
  - by intros x ?%elem_of_nil.
Qed.

(** A call on an empty stack leaves the stack empty: its node is a root. *)
Lemma returned_empty_stack t0 v t1 :
  stack t0 = [] → returned t0 v t1 → stack t1 = [].
Proof.
  intros Hempty [Hwf _ _ (B & Hstack & _ & [[-> _]|(B' & -> & Hne)])].
  { by rewrite Hstack, Hempty. }
  rewrite Hempty, app_nil_r in Hstack.
  assert (v ∈ stack t1) as Hv.
  { rewrite Hstack. apply elem_of_app. right. by left. }
  destruct (wf_lowlink _ Hwf v Hv) as [Hle (z & Hz & Hzv)].
  rewrite Hstack in Hz. apply elem_of_app in Hz as [Hz| ->%list_elem_of_singleton].
  - pose proof (stack_above t1 B' [v] z v Hwf Hstack Hz) as Hlt.
    assert (ix t1 v < ix t1 z)%nat by (apply Hlt; by left). lia.
  - by destruct Hne.
Qed.

Lemma TarjanSCC_loop fuel :
  (length universe < fuel)%nat →
  ∃ t, for_range universe
         (λ t v, if decide (int_at (indexTable t) (ID v) = 0)%nat
                 then strongconnect fuel succ v t else Ok t)
         TarjanSCC_init = Ok t
       ∧ wf t ∧ stack t = [] ∧ ∀ x, x ∈ universe → ix t x ≠ 0%nat.
Proof.
  intros Hfuel.
  apply (for_range_prefix_inv
           (λ pre t, wf t ∧ stack t = [] ∧ ∀ x, x ∈ pre → ix t x ≠ 0%nat)).
  { split; [apply TarjanSCC_init_wf|]. split; [done|].
    by intros x ?%elem_of_nil. }
  intros pre v post t Huniv (Hwf & Hstack & Hpre).
  assert (v ∈ universe) as Hv.
  { rewrite Huniv. apply elem_of_app. right. by left. }
  fold (ix t v). case_decide as Hnew.
  - destruct (strongconnect_spec fuel t v Hwf Hv Hnew) as (t1 & -> & Hret).
    { pose proof (length_filter (λ x, ix t x = 0%nat) universe) as Hle.
      unfold unvisited. lia. }
    eexists. split; [done|]. split; [apply (ret_wf _ _ _ Hret)|].
    split; [by eapply returned_empty_stack|].
    intros x [Hx| ->%list_elem_of_singleton]%elem_of_app.
    + destruct (ext_frame _ _ (ret_extends _ _ _ Hret) x) as [-> _]; auto.
    + rewrite (ret_index _ _ _ Hret). lia.
  - eexists. split; [done|]. split; [done|]. split; [done|].
    intros x [Hx| ->%list_elem_of_singleton]%elem_of_app; auto.
Qed.
End Tarjan.

(** C6.  On a graph whose nodes are told apart by their identifiers and
    whose successor lists stay inside [Nodes], [TarjanSCC] with more fuel
    than there are nodes returns a list of components in which every node
    of the graph occurs exactly once, and every edge leads from a node of
    some component to a node of that component or of one emitted
    earlier. *)
Theorem TarjanSCC_partition_in_reverse_topological_order {N : Type}
    `{!Node N} (g : Graph N) (fuel : nat) :
  (∀ x y : N, ID x = ID y → x = y) →
  (∀ u v, u ∈ Nodes g → v ∈ From g u → v ∈ Nodes g) →
  (length (Nodes g) < fuel)%nat →
  ∃ sccs, TarjanSCC fuel g = Ok sccs
    ∧ NoDup (concat sccs)
    ∧ (∀ x, x ∈ concat sccs ↔ x ∈ Nodes g)
    ∧ (∀ i c u v, sccs !! i = Some c → u ∈ c → v ∈ From g u →
         ∃ j c', (j ≤ i)%nat ∧ sccs !! j = Some c' ∧ v ∈ c').
Proof.
  intros Hinj Hclosed Hfuel. unfold TarjanSCC.
  destruct (TarjanSCC_loop Hinj (From g) (Nodes g) Hclosed fuel Hfuel)
    as (t & -> & Hwf & Hstack & Hall).
  bind_ok. exists (sccs t). split; [done|].
  pose proof (wf_nodup _ _ _ Hwf) as Hnodup.
  pose proof (wf_visited _ _ _ Hwf) as Hvisited.
  pose proof (wf_universe _ _ _ Hwf) as Huniverse.
  rewrite Hstack in *. simpl in *. split_and!.
  - done.
  - intros x. split; [apply Huniverse|]. intros Hx. by apply Hvisited, Hall.
  - apply (wf_ordered _ _ _ Hwf).
Qed.
End tarjan_facts.

Module tarjan_witnesses.
Import examples structure inputs tarjan_facts.

Lemma cycle_with_entry_closed u v :
  u ∈ Nodes cycle_with_entry → v ∈ From cycle_with_entry u →
  v ∈ Nodes cycle_with_entry.
Proof.
  intros Hu. revert v. apply Forall_forall. revert u Hu. apply Forall_forall.
  vm_compute. repeat constructor.
Qed.

Example TarjanSCC_cycle_with_entry :
  TarjanSCC 5 cycle_with_entry = Ok [[3; 2; 1]; [0]]%Z.
Proof. by vm_compute. Qed.

Lemma TarjanSCC_partition_in_reverse_topological_order_witness :
  ∃ sccs, TarjanSCC 5 cycle_with_entry = Ok sccs
    ∧ NoDup (concat sccs)
    ∧ (∀ x, x ∈ concat sccs ↔ x ∈ Nodes cycle_with_entry)
    ∧ (∀ i c u v, sccs !! i = Some c → u ∈ c → v ∈ From cycle_with_entry u →
         ∃ j c', (j ≤ i)%nat ∧ sccs !! j = Some c' ∧ v ∈ c').
Proof.
  apply (TarjanSCC_partition_in_reverse_topological_order cycle_with_entry 5).
  - intros x y Hxy. exact Hxy.
  - apply cycle_with_entry_closed.
  - vm_compute. lia.
Defined.
End tarjan_witnesses.

(** ** The paths of A* *)

Module walk_facts.
Import queue_spec queue_facts search_spec search_facts walk_spec.

Section Chain.
Context {N : Type} `{!Node N}.
Variable from : N → list N.
Variable start : N.
Variable expanded : list N.
Variable preds : gmap Z (anyNode N).
Hypothesis Htree : tree_inv from start expanded preds.
Hypothesis Hnodup : NoDup (ID <$> expanded).

Local Abbreviation rk := (λ id : Z, first_index id (ID <$> expanded)).

Lemma tree_parent_rank id p :
  preds !! id = Some p →
  (rk (ID (unwrap p)) < rk id)%nat ∧ unwrap p ∈ expanded
  ∧ ∃ v, v ∈ from (unwrap p) ∧ ID v = id.
Proof.
  intros Hp.
  destruct (tree_parent _ _ _ _ Htree id p Hp)
    as (l1 & u & l2 & Hexp & -> & Hid & Hedge).
  split_and!; [|rewrite Hexp; apply elem_of_app; right; by left|done].
  rewrite Hexp, fmap_app, fmap_cons.
  pose proof (first_index_occurrence (ID u) (ID <$> l1) (ID <$> l2)) as Hle.
  rewrite length_fmap in Hle.
  pose proof (first_index_absent id (ID <$> (l1 ++ [u])) (ID <$> l2) Hid) as Hge.
  rewrite length_fmap, length_app in Hge. simpl in Hge.
  rewrite fmap_app, <-app_assoc in Hge. simpl in Hge. lia.
Qed.

Lemma is_walk_snoc p u c :
  is_walk from (p ++ [u]) → (∃ v, v ∈ from u ∧ ID v = ID c) →
  is_walk from ((p ++ [u]) ++ [c]).
Proof.
  intros Hp Hedge. induction p as [|a [|b p] IH]; simpl in *.
  - done.
  - destruct Hp as [Ha _]. done.
  - destruct Hp as [Ha Hp]. split; [done|]. by apply IH.
Qed.

Lemma chain_descends c l :
  chain preds c l →
  Forall (λ u, (rk (ID u) < rk (ID c))%nat ∧ u ∈ expanded) l
  ∧ NoDup (ID <$> (c :: l))
  ∧ is_walk from (reverse (c :: l))
  ∧ ∃ e, last (c :: l) = Some e ∧ preds !! ID e = None.
Proof.
  induction 1 as [c Hc|c p l Hp Hl (Hall & Hnd & Hwalk & e & He & Hend)].
  - split_and!; [done|apply NoDup_singleton|done|by exists c].
  - destruct (tree_parent_rank _ _ Hp) as (Hrk & Hin & Hedge).
    assert (Forall (λ u, (rk (ID u) < rk (ID c))%nat ∧ u ∈ expanded)
              (unwrap p :: l)) as Hall'.
    { constructor; [done|]. eapply Forall_impl; [exact Hall|].
      simpl. intros u [? ?]. split; [lia|done]. }
    split_and!.
    + done.
    + rewrite fmap_cons. apply NoDup_cons. split; [|done].
      intros (u & Heq & Hu)%list_elem_of_fmap.
      rewrite Forall_forall in Hall'. destruct (Hall' u Hu) as [Hlt _].
      rewrite Heq in Hlt. lia.
    + rewrite reverse_cons. rewrite reverse_cons in Hwalk |- *.
      by apply is_walk_snoc.
    + exists e. split; [|done]. by rewrite last_cons, He.
Qed.

Lemma rebuildPath_loop_chain fuel curr acc p :
  rebuildPath_loop fuel preds curr acc = Ok p →
  ∃ l, p = acc ++ l ∧ chain preds curr l.
Proof.
  revert curr acc. induction fuel as [|fuel IH]; intros curr acc; simpl.
  - destruct (preds !! ID curr) as [prev|] eqn:Hprev; [done|].
    intros [= <-]. exists []. split; [by rewrite app_nil_r|by constructor].
  - destruct (preds !! ID curr) as [prev|] eqn:Hprev.
    + intros (l & -> & Hl)%IH. exists (unwrap prev :: l).
      split; [by rewrite <-app_assoc|by econstructor].
    + intros [= <-]. exists []. split; [by rewrite app_nil_r|by constructor].
Qed.

(** The path rebuilt for a goal whose identifier is linked into the
    tree. *)
Lemma rebuildPath_found goal path :
  ID goal = ID start ∨ is_Some (preds !! ID goal) →
  rebuildPath preds (Plain goal) = Ok path →
  found_path from start goal path ∧ (length path ≤ S (length expanded))%nat.
Proof.
  intros Hlinked. unfold rebuildPath. simpl.
  destruct (rebuildPath_loop _ _ _ _) as [p| |] eqn:Hloop; [|done..].
  bind_ok. intros [= <-].
  apply rebuildPath_loop_chain in Hloop as (l & -> & Hchain). simpl.
  destruct (chain_descends _ _ Hchain) as (Hall & Hnd & Hwalk & e & He & Hend).
  assert (ID e = ID start ∧ (ID start ≠ ID goal → e = start)) as [HeID Hestart].
  { destruct l as [|u l] using rev_ind.
    - injection He as <-. destruct Hlinked as [?|[? Hsome]]; [done|congruence].
    - rewrite last_cons, last_snoc in He. injection He as <-.
      rewrite Forall_app, Forall_singleton in Hall.
      destruct Hall as [_ [_ Hin]].
      destruct (tree_linked _ _ _ _ Htree u Hin) as [Hid|[? Hsome]];
        [|congruence].
      split; [done|]. intros _. by apply (tree_first _ _ _ _ Htree). }
  assert (head (reverse (goal :: l)) = Some e) as Hhead.
  { rewrite <-last_reverse, reverse_involutive. done. }
  split; [split|].
  - exists (reverse l). by rewrite reverse_cons.
  - by rewrite Hhead; simpl; rewrite HeID.
  - intros Hne. rewrite Hhead. f_equal. by apply Hestart.
  - done.
  - by rewrite fmap_reverse, reverse_Permutation.
  - rewrite length_reverse. simpl. apply le_n_S.
    rewrite fmap_cons in Hnd. apply NoDup_cons in Hnd as [_ Hnd].
    rewrite <-(length_fmap ID l), <-(length_fmap ID expanded).
    rewrite <-(size_list_to_set (C := gset Z) (ID <$> expanded)) by done.
    apply NoDup_length_le_size; [done|].
    intros id (u & -> & Hu)%list_elem_of_fmap. rewrite elem_of_list_to_set.
    rewrite Forall_forall in Hall. destruct (Hall u Hu) as [_ Hin].
    by apply list_elem_of_fmap_2.
Qed.
End Chain.

Section AStar.
Context {N : Type} `{!Node N}.
Variable sf : searchFuncs N.
Variables start goal : N.

Local Abbreviation reach := (reachable (from sf) start).
Local Abbreviation search_inv := (search_spec.search_inv sf start).
Local Abbreviation neighbor_inv := (search_spec.neighbor_inv sf start).
Local Abbreviation walk_inv := (walk_spec.walk_inv sf start goal).
Local Abbreviation walk_neighbor_inv := (walk_spec.walk_neighbor_inv sf start).

Lemma ID_members (pq : aStarPriorityQueue N) :
  ID <$> members pq = ID <$> nodes pq.
Proof. unfold members. by rewrite <-list_fmap_compose. Qed.

Lemma ID_node_of (l : list (internalNode N)) :
  ID <$> (node_of <$> l) = ID <$> l.
Proof. by rewrite <-list_fmap_compose. Qed.

(** What [AStar_neighbor] does to the open set and the predecessor map. *)
Lemma AStar_neighbor_cases closedSet popped curr st neighbor :
  (∀ id, is_Some (closedSet !! id) ↔ id ∈ ID <$> (popped ++ [curr])) →
  neighbor_inv closedSet (popped ++ [curr]) st →
  reach neighbor →
  ∃ st', AStar_neighbor sf goal closedSet curr st neighbor = Ok st'
    ∧ neighbor_inv closedSet (popped ++ [curr]) st'
    ∧ (∀ v, v ∈ members st.1 → v ∈ members st'.1)
    ∧ (∀ v, v ∈ members st'.1 →
         v ∈ members st.1
         ∨ (v = neighbor ∧ st'.2 = <[ID neighbor := Wrapped curr]> st.2))
    ∧ (st'.2 = st.2
       ∨ ((ID neighbor ∉ ID <$> (popped ++ [curr]))
          ∧ st'.2 = <[ID neighbor := Wrapped curr]> st.2))
    ∧ (ID neighbor ∈ ID <$> (popped ++ [curr])
       ∨ ID neighbor ∈ ID <$> members st'.1).
Proof.
  intros Hclosed (Hwf & Hoc & Hreach & Hpred) Hnb.
  destruct st as [openSet predecessor]. simpl in *. unfold AStar_neighbor.
  destruct (closedSet !! ID neighbor) as [c|] eqn:Hc.
  { eexists. split; [done|]. split_and!; simpl; [done..|by left|by left|].
    left. apply Hclosed. by rewrite Hc. }
  assert (ID neighbor ∉ ID <$> (popped ++ [curr])) as Hfresh.
  { rewrite <-Hclosed, Hc. by intros [? ?]. }
  destruct (aStar_Find_ok openSet (ID neighbor) Hwf) as (r & -> & Hnone & Hsome).
  bind_ok. destruct r as [existing|].
  - assert (ID neighbor ∈ ID <$> members openSet) as Hopen.
    { destruct (Hsome existing eq_refl) as [Hin <-]. rewrite ID_members.
      by apply list_elem_of_fmap_2. }
    destruct (flt _ _).
    2:{ eexists. split; [done|].
        split_and!; simpl; [done..|by left|by left|by right]. }
    destruct (aStar_Fix_ok openSet (ID neighbor)
                (fadd (gscore curr)
                   (weight sf (edgeTo sf (node_of curr) neighbor)))
                (fadd (fadd (gscore curr)
                         (weight sf (edgeTo sf (node_of curr) neighbor)))
                   (heuristic sf neighbor goal)) Hwf)
      as (openSet' & -> & Hwf' & Hm).
    bind_ok. eexists. split; [done|]. split_and!; simpl.
    + split_and!; simpl.
      * done.
      * intros v Hv. apply Hoc. by apply Hm.
      * intros v Hv. apply Hreach. by apply Hm.
      * by apply pred_inv_insert.
    + intros v Hv. by apply Hm.
    + intros v Hv. left. by apply Hm.
    + by right.
    + right. apply list_elem_of_fmap in Hopen as (v & Hv & Hin).
      rewrite Hv. apply list_elem_of_fmap_2. by apply Hm.
  - destruct (heap_Push_ok openSet
                {| node_of := neighbor;
                   gscore := fadd (gscore curr)
                      (weight sf (edgeTo sf (node_of curr) neighbor));
                   fscore := fadd (fadd (gscore curr)
                      (weight sf (edgeTo sf (node_of curr) neighbor)))
                      (heuristic sf neighbor goal) |} Hwf)
      as (openSet' & -> & Hwf' & Hm).
    { by apply Hnone. }
    bind_ok. eexists. split; [done|]. split_and!; simpl.
    + split_and!; simpl.
      * done.
      * intros v Hv. apply Hm in Hv as [->|Hv]; [done|by apply Hoc].
      * intros v Hv. apply Hm in Hv as [->|Hv]; [done|by apply Hreach].
      * by apply pred_inv_insert.
    + intros v Hv. apply Hm. by right.
    + intros v [->|Hv]%Hm; [by right|by left].
    + by right.
    + right. apply list_elem_of_fmap_2, Hm. by left.
Qed.

Lemma tree_inv_grow expanded preds u :
  tree_inv (from sf) start expanded preds →
  (ID u = ID start → u = start) →
  ID u = ID start ∨ is_Some (preds !! ID u) →
  tree_inv (from sf) start (expanded ++ [u]) preds.
Proof.
  intros [Hfirst Hlinked Hparent] Hu Hul. split.
  - intros v [Hv| ->%list_elem_of_singleton]%elem_of_app; [by apply Hfirst|done].
  - intros v [Hv| ->%list_elem_of_singleton]%elem_of_app; [by apply Hlinked|done].
  - intros id p Hp.
    destruct (Hparent id p Hp) as (l1 & w & l2 & -> & Hw & Hid & Hedge).
    exists l1, w, (l2 ++ [u]). split; [by rewrite <-app_assoc|done].
Qed.

Lemma tree_inv_insert expanded preds (curr : internalNode N) neighbor :
  tree_inv (from sf) start (expanded ++ [node_of curr]) preds →
  ID neighbor ∉ ID <$> (expanded ++ [node_of curr]) →
  neighbor ∈ from sf (node_of curr) →
  tree_inv (from sf) start (expanded ++ [node_of curr])
    (<[ID neighbor := Wrapped curr]> preds).
Proof.
  intros [Hfirst Hlinked Hparent] Hfresh Hnb. split.
  - done.
  - intros v Hv. destruct (Hlinked v Hv) as [?|Hsome]; [by left|right].
    rewrite lookup_insert_is_Some. destruct (decide (ID neighbor = ID v)); auto.
  - intros id p. rewrite lookup_insert. case_decide as Heq.
    + subst id. intros [= <-]. exists expanded, (node_of curr), [].
      split_and!; [done..|]. by exists neighbor.
    + apply Hparent.
Qed.

Lemma walk_neighbor_step closedSet popped curr pre neighbor post st :
  (∀ id, is_Some (closedSet !! id) ↔ id ∈ ID <$> (popped ++ [curr])) →
  ID start ∈ ID <$> (popped ++ [curr]) →
  from sf (node_of curr) = pre ++ neighbor :: post →
  reach (node_of curr) →
  neighbor_inv closedSet (popped ++ [curr]) st →
  walk_neighbor_inv popped curr pre st →
  ∃ st', AStar_neighbor sf goal closedSet curr st neighbor = Ok st'
    ∧ neighbor_inv closedSet (popped ++ [curr]) st'
    ∧ walk_neighbor_inv popped curr (pre ++ [neighbor]) st'.
Proof.
  intros Hclosed Hstart Hfrom Hcurr Hninv (Htree & Hlinked & Hfront).
  assert (neighbor ∈ from sf (node_of curr)) as Hnb.
  { rewrite Hfrom. apply elem_of_app. right. by left. }
  destruct (AStar_neighbor_cases closedSet popped curr st neighbor)
    as (st' & Hst' & Hninv' & Hgrow & Hnew & Hpreds & Hseen); [done..| |].
  { by apply (reachable_step _ _ (node_of curr)). }
  exists st'. split; [done|]. split; [done|]. split_and!.
  - destruct Hpreds as [->|[Hfresh ->]]; [done|].
    rewrite fmap_app. simpl. apply tree_inv_insert; [|by rewrite <-ID_node_of, fmap_app in Hfresh|done].
    by rewrite fmap_app in Htree.
  - intros v Hv. destruct (Hnew v Hv) as [Hold|[-> ->]].
    + destruct (Hlinked v Hold) as [?|Hsome]; [by left|right].
      destruct Hpreds as [->|[_ ->]]; [done|].
      rewrite lookup_insert_is_Some.
      destruct (decide (ID neighbor = ID v)); auto.
    + right. rewrite lookup_insert_eq. by eexists.
  - intros w [Hold| [Hw| ->%list_elem_of_singleton]%elem_of_app].
    + destruct (Hfront w (or_introl Hold)) as [?|Hopen]; [by left|right].
      apply list_elem_of_fmap in Hopen as (v & -> & Hv).
      by apply list_elem_of_fmap_2, Hgrow.
    + destruct (Hfront w (or_intror Hw)) as [?|Hopen]; [by left|right].
      apply list_elem_of_fmap in Hopen as (v & -> & Hv).
      by apply list_elem_of_fmap_2, Hgrow.
    + done.
Qed.

(** One turn of the loop keeps both invariants, returns nil with an empty
    open set, or returns a path from [start] to [goal]. *)
Lemma AStar_turn_walk st :
  search_inv st → walk_inv st →
  ∃ turn, AStar_turn sf goal st = Ok turn ∧
    match turn with
    | Continue st' =>
      search_inv st' ∧ walk_inv st' ∧ ∃ curr, popped st' = popped st ++ [curr]
    | Return None _ _ => nodes (openSet st) = []
    | Return (Some path) _ st' =>
      found_path (from sf) start goal path
      ∧ (length path ≤ nodesExpanded st')%nat
    end.
Proof.
  intros Hinv [Htree Hstart Hlinked Hfront Hnotgoal].
  pose proof Hinv as [Hwf Hoc Hreach Hclosed Hnodup Hpreach Hcount Hpred].
  unfold AStar_turn. cbn [Interface.Len aStarPriorityQueue_heap].
  unfold aStar_Len. case_decide as Hlen.
  { eexists. split; [done|]. by apply nil_length_inv. }
  destruct (heap_Pop_ok (openSet st) Hwf) as (open' & curr & -> & Hwf' & Hm & Hgone).
  { intros Hnil. apply Hlen. by rewrite Hnil. }
  bind_ok.
  assert (node_of curr ∈ members (openSet st)) as Hcurr by (apply Hm; by left).
  assert (reach (node_of curr)) as Hrcurr by by apply Hreach.
  assert (closedSet st !! ID curr = None) as Hcc by by apply Hoc.
  assert (ID curr ∉ ID <$> popped st) as Hnew.
  { rewrite <-Hclosed, Hcc. by intros [? ?]. }
  assert (NoDup (ID <$> (popped st ++ [curr]))) as Hnodup'.
  { rewrite fmap_app. apply NoDup_app. split_and!; [done| |apply NoDup_singleton].
    intros id Hid ->%list_elem_of_singleton. done. }
  assert (∀ x, x ∈ popped st ++ [curr] → reach (node_of x)) as Hpreach'.
  { intros x [Hx| ->%list_elem_of_singleton]%elem_of_app; [by apply Hpreach|done]. }
  assert (∀ v, v ∈ members open' → closedSet st !! ID v = None) as Hoc'.
  { intros v Hv. apply Hoc, Hm. by right. }
  assert (ID (node_of curr) = ID start → node_of curr = start) as Hfirst.
  { intros Heq. destruct Hstart as [[_ Honly]|Hin].
    - rewrite Honly in Hcurr. by apply list_elem_of_singleton in Hcurr.
    - destruct Hnew. change (ID curr) with (ID (node_of curr)). by rewrite Heq. }
  case_decide as Hgoal.
  - destruct (rebuildPath (predecessor st) (Plain goal)) as [path| |] eqn:Hpath.
    2,3: destruct (rebuildPath_ok (λ id, first_index id (ID <$> popped st))
                (predecessor st) (Plain goal)) as [path Hp];
          [by apply pred_inv_descends|congruence].
    bind_ok. eexists. split; [done|]. simpl.
    destruct (rebuildPath_found (from sf) start (node_of <$> popped st)
                (predecessor st) Htree) with (goal := goal) (path := path)
      as [Hfound Hlength].
    + by rewrite ID_node_of.
    + rewrite <-Hgoal. by apply Hlinked.
    + done.
    + split; [done|]. rewrite length_fmap in Hlength. lia.
  - set (closed' := <[ID curr := curr]> (closedSet st)).
    assert (∀ id, is_Some (closed' !! id) ↔ id ∈ ID <$> (popped st ++ [curr]))
      as Hclosed'.
    { intros id. subst closed'. rewrite lookup_insert_is_Some, fmap_app.
      rewrite elem_of_app, Hclosed. simpl. rewrite list_elem_of_singleton.
      destruct (decide (ID curr = id)) as [<-|Hne]; [tauto|].
      split; [intros [?|[_ ?]]; [done|by left]|].
      intros [?|?]; [by right|congruence]. }
    assert (ID start ∈ ID <$> (popped st ++ [curr])) as Hstart'.
    { rewrite fmap_app, elem_of_app. destruct Hstart as [[_ Honly]|Hin]; [|by left].
      right. rewrite Honly in Hcurr. apply list_elem_of_singleton in Hcurr.
      rewrite <-Hcurr. by left. }
    destruct (for_range_prefix_inv
                (λ pre s, neighbor_inv closed' (popped st ++ [curr]) s
                          ∧ walk_neighbor_inv (popped st) curr pre s)
                (from sf (node_of curr))
                (AStar_neighbor sf goal closed' curr)
                (open', predecessor st))
      as ([open'' pred''] & -> & (Hwf'' & Hoc'' & Hreach'' & Hpred'')
          & (Htree'' & Hlinked'' & Hfront'')).
    { split.
      - split_and!; simpl.
        + done.
        + intros v Hv. subst closed'. rewrite lookup_insert_ne; [by apply Hoc'|].
          intros Heq. apply members_indexed in Hv; [|done].
          rewrite <-Heq, Hgone in Hv. by destruct Hv.
        + intros v Hv. apply Hreach, Hm. by right.
        + by apply pred_inv_grow.
      - split_and!; simpl.
        + rewrite fmap_app. apply tree_inv_grow; [done..|]. by apply Hlinked.
        + intros v Hv. apply Hlinked, Hm. by right.
        + intros w [(x & Hx & Hw)|Hw]; [|by apply elem_of_nil in Hw].
          rewrite fmap_app, elem_of_app.
          destruct (Hfront x w Hx Hw) as [?|Hopen]; [by left; left|].
          apply list_elem_of_fmap in Hopen as (v & Hv & [->|Hin]%Hm).
          * left. right. rewrite Hv. by left.
          * right. rewrite Hv. by apply list_elem_of_fmap_2. }
    { intros pre x post s Hxs [Hn Hw]. by eapply walk_neighbor_step. }
    bind_ok. eexists. split; [done|]. simpl in *. split_and!.
    + split; cbn [closedSet openSet predecessor nodesExpanded popped];
        [done..| |done].
      rewrite length_app. simpl. lia.
    + split; cbn [closedSet openSet predecessor nodesExpanded popped].
      * done.
      * by right.
      * done.
      * intros x w [Hx| ->%list_elem_of_singleton]%elem_of_app Hw.
        -- apply Hfront''. left. eauto.
        -- apply Hfront''. by right.
      * intros x [Hx| ->%list_elem_of_singleton]%elem_of_app; [by apply Hnotgoal|done].
    + by eexists.
Qed.

Lemma AStar_init_walk :
  ∃ st, AStar_init sf start goal = Ok st ∧ search_inv st ∧ walk_inv st
        ∧ popped st = [].
Proof.
  destruct (AStar_init_inv sf start goal) as (st & Hst & Hinv & Hpopped).
  exists st. split; [done|]. split; [done|]. split; [|done].
  revert Hst. unfold AStar_init. rewrite heap_Init_empty. bind_ok.
  destruct (heap_Push_ok emptyQueue
              {| node_of := start; gscore := fzero;
                 fscore := heuristic sf start goal |} emptyQueue_wf)
    as (pq & Hpush & Hwf & Hm); [done|].
  rewrite Hpush. bind_ok. intros [= <-]. simpl in *.
  assert (∀ v, v ∈ members pq → v = start) as Hstart.
  { intros v [->|Hv]%Hm; [done|]. by apply elem_of_nil in Hv. }
  split; simpl.
  - split; [by intros u ?%elem_of_nil..|by intros id p].
  - left. split; [done|].
    revert Hpush. unfold heap.Push. cbn [Interface.Push aStarPriorityQueue_heap].
    unfold aStar_Push. bind_ok. cbn [nodes emptyQueue app length Nat.sub].
    unfold heap.up. cbn [Interface.Len aStarPriorityQueue_heap]. unfold aStar_Len.
    cbn [nodes length Nat.sub heap.up_loop Nat.div]. simpl.
    by intros [= <-].
  - intros v ->%Hstart. by left.
  - by intros x w ?%elem_of_nil.
  - by intros x ?%elem_of_nil.
Qed.

(** Whatever the fuel, the path the loop returns leads from [start] to
    [goal]. *)
Lemma AStar_loop_sound fuel st path pathCost st' :
  search_inv st → walk_inv st →
  AStar_loop fuel sf goal st = Ok (Some path, pathCost, st') →
  found_path (from sf) start goal path ∧ (length path ≤ nodesExpanded st')%nat.
Proof.
  revert st. induction fuel as [|fuel IH]; intros st Hinv Hwalk; [done|].
  cbn [AStar_loop].
  destruct (AStar_turn_walk st Hinv Hwalk) as ([p c s|s] & -> & Hturn); bind_ok.
  - intros [= -> -> ->]. done.
  - destruct Hturn as (? & ? & _). by apply IH.
Qed.

(** With enough fuel the loop returns, and with nil only when every node
    that can be reached has been expanded. *)
Lemma AStar_loop_complete (R : gset Z) fuel st :
  (∀ x y : N, ID x = ID y → x = y) →
  (∀ v, reach v → ID v ∈ R) →
  search_inv st → walk_inv st →
  (size (R ∖ list_to_set (ID <$> popped st)) < fuel)%nat →
  ∃ path pathCost st',
    AStar_loop fuel sf goal st = Ok (path, pathCost, st')
    ∧ (path = None → ∀ v, reach v → ID v ≠ ID goal).
Proof.
  intros ID_inj HR. revert st.
  induction fuel as [|fuel IH]; intros st Hinv Hwalk Hfuel; [lia|].
  cbn [AStar_loop].
  destruct (AStar_turn_walk st Hinv Hwalk) as ([p c s|s] & -> & Hturn); bind_ok.
  - eexists _, _, _. split; [done|]. intros ->.
    destruct Hwalk as [Htree Hstart Hlinked Hfront Hnotgoal].
    assert (members (openSet st) = []) as Hempty.
    { unfold members. by rewrite Hturn. }
    assert (∀ v, reach v → ∃ x, x ∈ popped st ∧ node_of x = v) as Hall.
    { induction 1 as [|u v Hu (x & Hx & <-) Hv].
      - destruct Hstart as [[_ Honly]|Hin]; [by rewrite Hempty in Honly|].
        apply list_elem_of_fmap in Hin as (x & Hid & Hx). exists x.
        split; [done|]. by apply ID_inj.
      - destruct (Hfront x v Hx Hv) as [Hin|Hin].
        + apply list_elem_of_fmap in Hin as (y & Hid & Hy). exists y.
          split; [done|]. by apply ID_inj.
        + rewrite Hempty in Hin. by apply elem_of_nil in Hin. }
    intros v (x & Hx & <-)%Hall. by apply Hnotgoal.
  - destruct Hturn as (Hinv' & Hwalk' & curr & Hpopped). apply IH; [done..|].
    enough (R ∖ list_to_set (ID <$> popped s)
            ⊂ R ∖ list_to_set (ID <$> popped st)) as Hsub.
    { apply subset_size in Hsub. lia. }
    pose proof (inv_nodup _ _ _ Hinv') as Hnodup.
    pose proof (inv_popped_reach _ _ _ Hinv' curr) as Hcurr.
    rewrite Hpopped in *. rewrite fmap_app in *.
    apply NoDup_app in Hnodup as (_ & Hnew & _).
    assert (ID curr ∈ R) as HcurrR.
    { apply (HR (node_of curr)), Hcurr, elem_of_app. right.
      by apply list_elem_of_singleton. }
    assert (ID curr ∉ ID <$> popped st) as Hfresh.
    { intros Hin. apply (Hnew _ Hin). simpl. by apply list_elem_of_singleton. }
    split.
    + intros id. rewrite !elem_of_difference, !elem_of_list_to_set, elem_of_app.
      intros [? Hnot]. split; [done|]. intros ?. apply Hnot. by left.
    + intros Hback. specialize (Hback (ID curr)).
      rewrite !elem_of_difference, !elem_of_list_to_set, elem_of_app in Hback.
      destruct Hback as [_ Hback]; [done|]. apply Hback. right. simpl.
      by apply list_elem_of_singleton.
Qed.
End AStar.

Section Results.
Context {N : Type} `{!Node N}.

(** X1.  Whenever [AStar] returns a path, the path ends with [goal], begins
    with [start] (it is [goal] alone when the two share an identifier),
    each of its nodes has a successor with the identifier of the next one,
    no identifier occurs twice, and it is not longer than the number of
    nodes expanded. *)
Theorem AStar_path_leads_to_goal (g : Graph N) (start goal : N)
    (weight : option (WeightFunc N))
    (heuristic : option (HeuristicWeightFunc N)) (fuel : nat)
    (path : list N) (pathCost : float) (expanded : nat) :
  AStar fuel start goal g weight heuristic = Ok (Some path, pathCost, expanded) →
  (∃ p, path = p ++ [goal])
  ∧ (ID <$> head path) = Some (ID start)
  ∧ (ID start ≠ ID goal → head path = Some start)
  ∧ is_walk (From g) path
  ∧ NoDup (ID <$> path)
  ∧ (length path ≤ expanded)%nat.
Proof.
  unfold AStar, AStar_run. set (sf := setupFuncs g weight heuristic).
  assert (from sf = From g) as Hfrom by apply setupFuncs_from.
  destruct (AStar_init_walk sf start goal) as (st0 & -> & Hinv & Hwalk & _).
  bind_ok.
  destruct (AStar_loop fuel sf goal st0) as [[[p c] st]| |] eqn:Hloop; [|done..].
  bind_ok. intros [= Hp Hc Hn]. subst p.
  destruct (AStar_loop_sound sf start goal fuel st0 path c st Hinv Hwalk Hloop)
    as [[Hlast HheadID Hhead Hwalked Hnodup] Hlen].
  rewrite Hfrom in Hwalked. rewrite <-Hn. done.
Qed.

(** X2.  When identifiers identify nodes, the identifiers of the nodes
    reachable from [start] lie in the finite set [R] and [goal] is one of
    these nodes, [AStar] with more fuel than [R] has elements returns a
    path, never nil. *)
Theorem AStar_finds_reachable_goal (g : Graph N) (start goal : N)
    (weight : option (WeightFunc N))
    (heuristic : option (HeuristicWeightFunc N)) (R : gset Z) (fuel : nat) :
  (∀ x y : N, ID x = ID y → x = y) →
  (∀ v, reachable (From g) start v → ID v ∈ R) →
  reachable (From g) start goal →
  (size R < fuel)%nat →
  ∃ path pathCost expanded,
    AStar fuel start goal g weight heuristic
    = Ok (Some path, pathCost, expanded).
Proof.
  intros ID_inj HR Hgoal Hfuel. unfold AStar, AStar_run.
  set (sf := setupFuncs g weight heuristic).
  assert (from sf = From g) as Hfrom by apply setupFuncs_from.
  destruct (AStar_init_walk sf start goal) as (st0 & -> & Hinv & Hwalk & Hpopped).
  bind_ok.
  destruct (AStar_loop_complete sf start goal R fuel st0)
    as (path & pathCost & st & -> & Hnone); [done| |done..| |].
  { by rewrite Hfrom. }
  { rewrite Hpopped. simpl. by rewrite difference_empty_L. }
  bind_ok. destruct path as [path|]; [by eexists _, _, _|].
  destruct (Hnone eq_refl goal); [|done]. by rewrite Hfrom.
Qed.

Lemma is_walk_all_reach (g : Graph N) (path : list N) :
  (∀ x y : N, ID x = ID y → x = y) →
  (∀ u v, v ∈ From g u → canReach g u v = true) →
  is_walk (From g) path → all_reach (canReach g) path = true.
Proof.
  intros ID_inj Hedges. induction path as [|u [|v path] IH]; [done..|].
  intros [(v' & Hv' & Hid) Hrest]. cbn [all_reach].
  apply ID_inj in Hid as ->. rewrite (Hedges u v Hv'). by apply IH.
Qed.

(** X3.  On a graph whose nodes are identified by their identifiers and
    whose edge test accepts every listed successor, [IsPath] accepts every
    path that [AStar] returns to a goal of the graph. *)
Theorem AStar_path_IsPath (g : Graph N) (has : N → bool) (start goal : N)
    (weight : option (WeightFunc N))
    (heuristic : option (HeuristicWeightFunc N)) (fuel : nat)
    (path : list N) (pathCost : float) (expanded : nat) :
  (∀ x y : N, ID x = ID y → x = y) →
  (∀ u v, v ∈ From g u → canReach g u v = true) →
  has goal = true →
  AStar fuel start goal g weight heuristic = Ok (Some path, pathCost, expanded) →
  IsPath has path g = true.
Proof.
  intros ID_inj Hedges Hhas. unfold AStar, AStar_run.
  set (sf := setupFuncs g weight heuristic).
  assert (from sf = From g) as Hfrom by apply setupFuncs_from.
  destruct (AStar_init_walk sf start goal) as (st0 & -> & Hinv & Hwalk & _).
  bind_ok.
  destruct (AStar_loop fuel sf goal st0) as [[[p c] st]| |] eqn:Hloop; [|done..].
  bind_ok. intros [= Hp Hc Hn]. subst p.
  destruct (AStar_loop_sound sf start goal fuel st0 path c st Hinv Hwalk Hloop)
    as [[[p Hlast] _ _ Hwalked _] _].
  rewrite Hfrom in Hwalked. unfold IsPath.
  destruct path as [|u [|v path]].
  - done.
  - destruct p as [|? [|? ?]]; [|done..]. by injection Hlast as ->.
  - by apply is_walk_all_reach.
Qed.
End Results.
End walk_facts.

Module walk_witnesses.
Import examples inputs walk_spec walk_facts.

Lemma succs_lookup_weight (es : edge_list) (u v : Z) :
  v ∈ succs es u → is_Some (lookup_weight es u v).
Proof.
  unfold succs, lookup_weight.
  intros ([[a b] w] & -> & [Ha Hin]%list_elem_of_filter)%list_elem_of_fmap.
  simpl in *. subst a. apply fmap_is_Some.
  destruct (list_find (λ e : Z * Z * float, e.1 = (u, b)) es) as [r|] eqn:Hfind;
    [done|].
  rewrite list_find_None, Forall_forall in Hfind. by destruct (Hfind _ Hin).
Qed.

Lemma directed_canReach (ns : list Z) (es : edge_list) (u v : Z) :
  v ∈ From (directed ns es) u → canReach (directed ns es) u v = true.
Proof.
  intros [w Hw]%succs_lookup_weight. unfold canReach. simpl.
  apply bool_decide_eq_true. unfold edge_of. by rewrite Hw.
Qed.

Lemma succs_reachable (es : edge_list) (s v : Z) :
  reachable (succs es) s v → v = s ∨ v ∈ (λ e : Z * Z * float, e.1.2) <$> es.
Proof.
  induction 1 as [|u v _ _ Hv]; [by left|right].
  unfold succs in Hv.
  apply list_elem_of_fmap in Hv as (e & -> & [_ Hin]%list_elem_of_filter).
  exact (list_elem_of_fmap_2 (λ e : Z * Z * float, e.1.2) es e Hin).
Qed.

Lemma AStar_path_leads_to_goal_witness :
  AStar 5 0%Z 3%Z detour None (Some estimate)
  = Ok (Some [0; 2; 3]%Z, 13%float, 4%nat)
  ∧ (∃ p, [0; 2; 3]%Z = p ++ [3%Z])
  ∧ (ID <$> head [0; 2; 3]%Z) = Some (ID 0%Z)
  ∧ (ID 0%Z ≠ ID 3%Z → head [0; 2; 3]%Z = Some 0%Z)
  ∧ is_walk (From detour) [0; 2; 3]%Z
  ∧ NoDup (ID <$> [0; 2; 3]%Z)
  ∧ (length [0; 2; 3]%Z ≤ 4)%nat.
Proof.
  split; [vm_compute; reflexivity|].
  apply (AStar_path_leads_to_goal detour 0%Z 3%Z None (Some estimate) 5
           [0; 2; 3]%Z 13%float 4).
  vm_compute. reflexivity.
Defined.

Lemma AStar_finds_reachable_goal_witness :
  ∃ path pathCost expanded,
    AStar 5 0%Z 3%Z detour None None = Ok (Some path, pathCost, expanded).
Proof.
  apply (AStar_finds_reachable_goal detour 0%Z 3%Z None None
           (list_to_set [0; 1; 2; 2; 3]%Z) 5).
  - intros x y Hxy. exact Hxy.
  - intros v Hv. apply elem_of_list_to_set.
    apply succs_reachable in Hv as [->|Hv]; [by left|by right].
  - apply (reachable_step _ _ 2%Z); [apply (reachable_step _ _ 0%Z)|].
    + constructor.
    + apply list_elem_of_In. vm_compute. tauto.
    + apply list_elem_of_In. vm_compute. tauto.
  - vm_compute. lia.
Defined.

Lemma AStar_path_IsPath_witness :
  IsPath (λ n, bool_decide (n ∈ Nodes detour)) [0; 2; 3]%Z detour = true.
Proof.
  apply (AStar_path_IsPath detour (λ n, bool_decide (n ∈ Nodes detour))
           0%Z 3%Z None (Some estimate) 5 [0; 2; 3]%Z 13%float 4).
  - intros x y Hxy. exact Hxy.
  - apply directed_canReach.
  - vm_compute. reflexivity.
  - vm_compute. reflexivity.
Defined.
End walk_witnesses.

(** ** Depth-first search *)

Lemma foldl_prefix_inv {A S : Type} (P : list A → S → Prop) (xs : list A)
    (f : S → A → S) (s : S) :
  P [] s →
  (∀ pre x post s, xs = pre ++ x :: post → P pre s → P (pre ++ [x]) (f s x)) →
  P xs (foldl f s xs).
Proof.
  intros Hs Hstep.
  enough (∀ pre post s, xs = pre ++ post → P pre s → P xs (foldl f s post))
    as Hgen.
  { by apply (Hgen [] xs). }
  intros pre post. revert pre.
  induction post as [|x post IH]; intros pre s0 Hxs Hpre; simpl.
  - rewrite app_nil_r in Hxs. by subst.
  - apply (IH (pre ++ [x])); [by rewrite <-app_assoc|]. by eapply Hstep.
Qed.

Module dfs_facts.
Import walk_spec walk_facts.
Section DFS.
Context {N : Type} `{!Node N}.
Variable sf : searchFuncs N.
Variables start goal : N.

Local Abbreviation reach := (reachable (from sf) start).
Local Abbreviation dfs_inv := (walk_spec.dfs_inv sf start goal).
Local Abbreviation dfs_neighbor_inv := (walk_spec.dfs_neighbor_inv sf start).

Lemma tree_inv_insert_plain expanded preds curr neighbor :
  tree_inv (from sf) start (expanded ++ [curr]) preds →
  ID neighbor ∉ ID <$> (expanded ++ [curr]) →
  neighbor ∈ from sf curr →
  tree_inv (from sf) start (expanded ++ [curr])
    (<[ID neighbor := Plain curr]> preds).
Proof.
  intros [Hfirst Hlinked Hparent] Hfresh Hnb. split.
  - done.
  - intros v Hv. destruct (Hlinked v Hv) as [?|Hsome]; [by left|right].
    rewrite lookup_insert_is_Some. destruct (decide (ID neighbor = ID v)); auto.
  - intros id p. rewrite lookup_insert. case_decide as Heq.
    + subst id. intros [= <-]. exists expanded, curr, [].
      split_and!; [done..|]. by exists neighbor.
    + apply Hparent.
Qed.

Lemma DepthFirstSearch_neighbor_inv order curr rest pre neighbor post st :
  ID start ∈ ID <$> (order ++ [curr]) →
  from sf curr = pre ++ neighbor :: post →
  reach curr →
  dfs_neighbor_inv order curr rest pre st →
  dfs_neighbor_inv order curr rest (pre ++ [neighbor])
    (DepthFirstSearch_neighbor curr st neighbor).
Proof.
  intros Hstart Hfrom Hcurr [Hclosed Hreach Htree Hlinked Hfront Hlen].
  assert (neighbor ∈ from sf curr) as Hnb.
  { rewrite Hfrom. apply elem_of_app. right. by left. }
  unfold DepthFirstSearch_neighbor. case_decide as Hc.
  - split; [done..| |rewrite length_app; simpl; lia].
    intros w [Hold| [Hw| ->%list_elem_of_singleton]%elem_of_app].
    + apply Hfront. by left.
    + apply Hfront. by right.
    + left. by apply Hclosed.
  - assert (ID neighbor ∉ ID <$> (order ++ [curr])) as Hfresh.
    { by rewrite <-Hclosed. }
    split; simpl.
    + done.
    + intros v [->|Hv]%elem_of_cons; [|by apply Hreach].
      by apply (reachable_step _ _ curr).
    + by apply tree_inv_insert_plain.
    + intros v [->|Hv]%elem_of_cons.
      * right. rewrite lookup_insert_eq. by eexists.
      * destruct (Hlinked v Hv) as [?|Hsome]; [by left|right].
        rewrite lookup_insert_is_Some.
        destruct (decide (ID neighbor = ID v)); auto.
    + intros w Hw.
      assert (ID w ∈ ID <$> (order ++ [curr]) ∨ ID w ∈ ID <$> dfs_open st
              ∨ w = neighbor) as [?|[?| ->]].
      { destruct Hw as [Hold| [Hw| ->%list_elem_of_singleton]%elem_of_app].
        - destruct (Hfront w (or_introl Hold)); auto.
        - destruct (Hfront w (or_intror Hw)); auto.
        - auto. }
      * by left.
      * right. apply elem_of_cons. by right.
      * right. apply elem_of_cons. by left.
    + rewrite length_app. simpl. lia.
Qed.

(** Expanding [curr] keeps the invariant and pushes at most as many nodes
    as [curr] has successors. *)
Lemma DepthFirstSearch_expand order st curr rest :
  dfs_inv order st → dfs_open st = curr :: rest →
  ID curr ∉ dfs_closed st → ID curr ≠ ID goal →
  let st' := foldl (DepthFirstSearch_neighbor curr)
               {| dfs_closed := {[ID curr]} ∪ dfs_closed st;
                  dfs_predecessor := dfs_predecessor st; dfs_open := rest |}
               (from sf curr) in
  dfs_inv (order ++ [curr]) st'
  ∧ dfs_closed st' = {[ID curr]} ∪ dfs_closed st
  ∧ (length (dfs_open st') ≤ length rest + length (from sf curr))%nat.
Proof.
  intros [Hclosed Hnodup Hreach Htree Hstart Hlinked Hfront Hnotgoal] Hopen
    Hnew Hgoal st'.
  assert (reach curr) as Hrcurr.
  { apply Hreach. right. rewrite Hopen. by left. }
  assert (ID curr = ID start → curr = start) as Hfirst.
  { intros Heq. destruct Hstart as [[_ Honly]|Hin].
    - rewrite Hopen in Honly. by injection Honly.
    - destruct Hnew. apply Hclosed. by rewrite Heq. }
  assert (ID start ∈ ID <$> (order ++ [curr])) as Hstart'.
  { rewrite fmap_app, elem_of_app. destruct Hstart as [[_ Honly]|Hin]; [|by left].
    right. rewrite Hopen in Honly. injection Honly as -> _. by left. }
  assert (dfs_neighbor_inv order curr rest (from sf curr) st'
          ∧ dfs_closed st' = {[ID curr]} ∪ dfs_closed st) as [Hst' Hclosed'].
  { subst st'.
    apply (foldl_prefix_inv
             (λ pre s, dfs_neighbor_inv order curr rest pre s
                       ∧ dfs_closed s = {[ID curr]} ∪ dfs_closed st)).
    - split; [|done]. split; simpl.
      + intros id. rewrite elem_of_union, elem_of_singleton, Hclosed, fmap_app.
        rewrite elem_of_app. simpl. rewrite list_elem_of_singleton. tauto.
      + intros v Hv. apply Hreach. right. rewrite Hopen. by right.
      + apply tree_inv_grow; [done..|]. apply Hlinked. rewrite Hopen. by left.
      + intros v Hv. apply Hlinked. rewrite Hopen. by right.
      + intros w [(x & Hx & Hw)|Hw]; [|by apply elem_of_nil in Hw].
        rewrite fmap_app, elem_of_app.
        destruct (Hfront x w Hx Hw) as [?|Hin]; [by left; left|].
        rewrite Hopen, fmap_cons in Hin.
        apply elem_of_cons in Hin as [->|Hin]; [|by right].
        left. right. by left.
      + simpl. lia.
    - intros pre x post s Hxs [Hs Hcl]. split.
      + by eapply DepthFirstSearch_neighbor_inv.
      + unfold DepthFirstSearch_neighbor. by case_decide. }
  destruct Hst' as [Hcl Hreach' Htree' Hlinked' Hfront' Hlen'].
  split_and!; [|done|done]. split.
  - done.
  - rewrite fmap_app. apply NoDup_app. split_and!; [done| |apply NoDup_singleton].
    intros id Hid ->%list_elem_of_singleton. apply Hnew. by apply Hclosed.
  - intros v [[Hv| ->%list_elem_of_singleton]%elem_of_app|Hv].
    + apply Hreach. by left.
    + done.
    + by apply Hreach'.
  - done.
  - by right.
  - done.
  - intros x w [Hx| ->%list_elem_of_singleton]%elem_of_app Hw.
    + apply Hfront'. left. eauto.
    + apply Hfront'. by right.
  - intros x [Hx| ->%list_elem_of_singleton]%elem_of_app; [by apply Hnotgoal|done].
Qed.

Lemma DepthFirstSearch_skip order st curr rest :
  dfs_inv order st → dfs_open st = curr :: rest → ID curr ∈ dfs_closed st →
  dfs_inv order {| dfs_closed := dfs_closed st;
                   dfs_predecessor := dfs_predecessor st; dfs_open := rest |}.
Proof.
  intros [Hclosed Hnodup Hreach Htree Hstart Hlinked Hfront Hnotgoal] Hopen Hc.
  split; simpl; [done|done| |done| | | |done].
  - intros v [Hv|Hv]; apply Hreach; [by left|right]. rewrite Hopen. by right.
  - destruct Hstart as [[-> _]|?]; [|by right].
    apply Hclosed in Hc. by apply elem_of_nil in Hc.
  - intros v Hv. apply Hlinked. rewrite Hopen. by right.
  - intros x w Hx Hw. destruct (Hfront x w Hx Hw) as [?|Hin]; [by left|].
    rewrite Hopen, fmap_cons in Hin.
    apply elem_of_cons in Hin as [->|Hin]; [left|by right]. by apply Hclosed.
Qed.

Lemma dfs_inv_rebuildPath order st curr rest :
  dfs_inv order st → dfs_open st = curr :: rest → ID curr = ID goal →
  ∃ path, rebuildPath (dfs_predecessor st) (Plain goal) = Ok path
          ∧ found_path (from sf) start goal path.
Proof.
  intros [Hclosed Hnodup Hreach Htree Hstart Hlinked Hfront Hnotgoal] Hopen Hg.
  destruct (rebuildPath_ok (λ id, first_index id (ID <$> order))
              (dfs_predecessor st) (Plain goal)) as [path Hpath].
  { intros id p Hp.
    by destruct (tree_parent_rank _ _ _ _ Htree id p Hp) as [? _]. }
  exists path. split; [done|].
  eapply rebuildPath_found; [done..| |done].
  rewrite <-Hg. apply Hlinked. rewrite Hopen. by left.
Qed.

(** Whatever the fuel, the path the loop returns leads from [start] to
    [goal]. *)
Lemma DepthFirstSearch_loop_sound fuel order st path :
  dfs_inv order st →
  DepthFirstSearch_loop fuel sf goal st = Ok (Some path) →
  found_path (from sf) start goal path.
Proof.
  revert order st. induction fuel as [|fuel IH]; intros order st Hinv; [done|].
  cbn [DepthFirstSearch_loop].
  destruct (dfs_open st) as [|curr rest] eqn:Hopen; [done|].
  case_decide as Hc; [|case_decide as Hg].
  - apply (IH order). by eapply DepthFirstSearch_skip.
  - destruct (dfs_inv_rebuildPath order st curr rest Hinv Hopen Hg)
      as (p & -> & Hfound).
    bind_ok. by intros [= <-].
  - apply (IH (order ++ [curr])).
    by destruct (DepthFirstSearch_expand order st curr rest Hinv Hopen Hc Hg).
Qed.

(** With enough fuel the loop returns; it returns nil when no reachable
    node has the identifier of [goal], and only then when identifiers
    identify nodes. *)
Lemma DepthFirstSearch_loop_returns (R : gset Z) (d : nat) fuel order st :
  (∀ v, reach v → ID v ∈ R) →
  (∀ v, reach v → (length (from sf v) ≤ d)%nat) →
  dfs_inv order st →
  (length (dfs_open st) + d * size (R ∖ dfs_closed st) < fuel)%nat →
  ∃ r, DepthFirstSearch_loop fuel sf goal st = Ok r
    ∧ ((∀ v, reach v → ID v ≠ ID goal) → r = None)
    ∧ ((∀ x y : N, ID x = ID y → x = y) → r = None →
       ∀ v, reach v → ID v ≠ ID goal).
Proof.
  intros HR Hd. revert order st.
  induction fuel as [|fuel IH]; intros order st Hinv Hfuel; [lia|].
  cbn [DepthFirstSearch_loop].
  destruct (dfs_open st) as [|curr rest] eqn:Hopen.
  { exists None. split_and!; [done..|]. intros ID_inj _.
    destruct Hinv as [Hclosed Hnodup Hreach Htree Hstart Hlinked Hfront Hnotgoal].
    assert (∀ v, reach v → v ∈ order) as Hall.
    { induction 1 as [|u v Hu Hin Hv].
      - destruct Hstart as [[_ Honly]|Hin]; [by rewrite Hopen in Honly|].
        apply list_elem_of_fmap in Hin as (x & Hid & Hx).
        by rewrite (ID_inj _ _ Hid).
      - destruct (Hfront u v Hin Hv) as [Hv'|Hv'].
        + apply list_elem_of_fmap in Hv' as (y & Hid & Hy).
          by rewrite (ID_inj _ _ Hid).
        + rewrite Hopen in Hv'. by apply elem_of_nil in Hv'. }
    intros v Hv%Hall. by apply Hnotgoal. }
  assert (reach curr) as Hrcurr.
  { apply (dinv_reach _ _ _ _ _ Hinv). right. rewrite Hopen. by left. }
  case_decide as Hc; [|case_decide as Hg].
  - apply (IH order); [by eapply DepthFirstSearch_skip|]. simpl in *. lia.
  - destruct (dfs_inv_rebuildPath order st curr rest Hinv Hopen Hg)
      as (p & -> & Hfound).
    bind_ok. eexists. split; [done|]. split; [|done].
    intros Hunreach. by destruct (Hunreach curr Hrcurr).
  - destruct (DepthFirstSearch_expand order st curr rest Hinv Hopen Hc Hg)
      as (Hinv' & Hclosed' & Hlen).
    apply (IH (order ++ [curr])); [done|]. rewrite Hclosed'.
    assert (R ∖ ({[ID curr]} ∪ dfs_closed st) ⊂ R ∖ dfs_closed st) as Hsub.
    { split.
      - intros id. rewrite !elem_of_difference, elem_of_union.
        intros [? Hnot]. split; [done|]. intros ?. apply Hnot. by right.
      - intros Hback. specialize (Hback (ID curr)).
        rewrite !elem_of_difference, elem_of_union, elem_of_singleton in Hback.
        destruct Hback as [_ Hback]; [split; [by apply HR|done]|].
        apply Hback. by left. }
    apply subset_size in Hsub. specialize (Hd curr Hrcurr). simpl in Hfuel.
    assert (d * size (R ∖ ({[ID curr]} ∪ dfs_closed st)) + d
            ≤ d * size (R ∖ dfs_closed st))%nat as Hmul.
    { rewrite <-Nat.mul_succ_r. apply Nat.mul_le_mono_l. lia. }
    lia.
Qed.

Lemma DepthFirstSearch_init :
  dfs_inv [] {| dfs_closed := ∅; dfs_predecessor := ∅; dfs_open := [start] |}.
Proof.
  split; simpl.
  - intros id. rewrite elem_of_empty. split; [done|]. by intros ?%elem_of_nil.
  - constructor.
  - intros v [?%elem_of_nil| ->%list_elem_of_singleton]; [done|constructor].
  - split; [by intros u ?%elem_of_nil..|by intros id p].
  - by left.
  - intros v ->%list_elem_of_singleton. by left.
  - by intros x w ?%elem_of_nil.
  - by intros x ?%elem_of_nil.
Qed.
End DFS.

Section Results.
Context {N : Type} `{!Node N}.

(** X4.  Whenever [DepthFirstSearch] returns a path, the path ends with
    [goal], begins with [start] (it is [goal] alone when the two share an
    identifier), each of its nodes has a successor with the identifier of
    the next one, and no identifier occurs twice. *)
Theorem DepthFirstSearch_path_leads_to_goal (g : Graph N) (start goal : N)
    (fuel : nat) (path : list N) :
  DepthFirstSearch fuel start goal g = Ok (Some path) →
  (∃ p, path = p ++ [goal])
  ∧ (ID <$> head path) = Some (ID start)
  ∧ (ID start ≠ ID goal → head path = Some start)
  ∧ is_walk (From g) path
  ∧ NoDup (ID <$> path).
Proof.
  unfold DepthFirstSearch. set (sf := setupFuncs g None None).
  assert (from sf = From g) as Hfrom by apply search_facts.setupFuncs_from.
  intros Hloop.
  destruct (DepthFirstSearch_loop_sound sf start goal fuel [] _ path
              (DepthFirstSearch_init sf start goal) Hloop)
    as [Hlast HheadID Hhead Hwalked Hnodup].
  rewrite Hfrom in Hwalked. done.
Qed.

(** X5.  When the identifiers of the nodes reachable from [start] lie in
    the finite set [R], no reachable node has more than [d] successors and
    none has the identifier of [goal], [DepthFirstSearch] with more than
    [1 + d * size R] units of fuel returns nil. *)
Theorem DepthFirstSearch_unreachable_goal (g : Graph N) (start goal : N)
    (R : gset Z) (d fuel : nat) :
  (∀ v, reachable (From g) start v → ID v ∈ R) →
  (∀ v, reachable (From g) start v → (length (From g v) ≤ d)%nat) →
  (∀ v, reachable (From g) start v → ID v ≠ ID goal) →
  (1 + d * size R < fuel)%nat →
  DepthFirstSearch fuel start goal g = Ok None.
Proof.
  intros HR Hd Hunreach Hfuel. unfold DepthFirstSearch.
  set (sf := setupFuncs g None None).
  assert (from sf = From g) as Hfrom by apply search_facts.setupFuncs_from.
  rewrite <-Hfrom in HR, Hd, Hunreach.
  destruct (DepthFirstSearch_loop_returns sf start goal R d fuel [] _ HR Hd
              (DepthFirstSearch_init sf start goal))
    as (r & -> & Hnone & _).
  { simpl. by rewrite difference_empty_L. }
  by rewrite Hnone.
Qed.

(** X6.  When identifiers identify nodes, the identifiers of the nodes
    reachable from [start] lie in the finite set [R], no reachable node has
    more than [d] successors and [goal] is reachable, [DepthFirstSearch]
    with more than [1 + d * size R] units of fuel returns a path. *)
Theorem DepthFirstSearch_finds_reachable_goal (g : Graph N) (start goal : N)
    (R : gset Z) (d fuel : nat) :
  (∀ x y : N, ID x = ID y → x = y) →
  (∀ v, reachable (From g) start v → ID v ∈ R) →
  (∀ v, reachable (From g) start v → (length (From g v) ≤ d)%nat) →
  reachable (From g) start goal →
  (1 + d * size R < fuel)%nat →
  ∃ path, DepthFirstSearch fuel start goal g = Ok (Some path).
Proof.
  intros ID_inj HR Hd Hgoal Hfuel. unfold DepthFirstSearch.
  set (sf := setupFuncs g None None).
  assert (from sf = From g) as Hfrom by apply search_facts.setupFuncs_from.
  rewrite <-Hfrom in HR, Hd, Hgoal.
  destruct (DepthFirstSearch_loop_returns sf start goal R d fuel [] _ HR Hd
              (DepthFirstSearch_init sf start goal))
    as (r & -> & _ & Hsome).
  { simpl. by rewrite difference_empty_L. }
  destruct r as [path|]; [by exists path|].
  by destruct (Hsome ID_inj eq_refl goal).
Qed.
End Results.
End dfs_facts.

Module dfs_witnesses.
Import examples inputs walk_spec walk_witnesses dfs_facts.

Lemma succs_length (es : edge_list) (u : Z) :
  (length (succs es u) ≤ length es)%nat.
Proof. unfold succs. rewrite length_fmap. apply length_filter. Qed.

Lemma DepthFirstSearch_path_leads_to_goal_witness :
  DepthFirstSearch 5 0%Z 3%Z detour = Ok (Some [0; 2; 3]%Z)
  ∧ (∃ p, [0; 2; 3]%Z = p ++ [3%Z])
  ∧ (ID <$> head [0; 2; 3]%Z) = Some (ID 0%Z)
  ∧ (ID 0%Z ≠ ID 3%Z → head [0; 2; 3]%Z = Some 0%Z)
  ∧ is_walk (From detour) [0; 2; 3]%Z
  ∧ NoDup (ID <$> [0; 2; 3]%Z).
Proof.
  split; [vm_compute; reflexivity|].
  apply (DepthFirstSearch_path_leads_to_goal detour 0%Z 3%Z 5 [0; 2; 3]%Z).
  vm_compute. reflexivity.
Defined.

Lemma DepthFirstSearch_unreachable_goal_witness :
  DepthFirstSearch 4 0%Z 2%Z dead_end = Ok None.
Proof.
  apply (DepthFirstSearch_unreachable_goal dead_end 0%Z 2%Z
           (list_to_set [0; 1]%Z) 1 4).
  - intros v Hv. apply elem_of_list_to_set.
    apply succs_reachable in Hv as [->|Hv]; [by left|by right].
  - intros v _. apply (succs_length [(0, 1, 1%float)]%Z).
  - intros v Hv. apply succs_reachable in Hv as [->|Hv]; [done|].
    apply list_elem_of_In in Hv. vm_compute in Hv.
    destruct Hv as [<-|[]]. done.
  - vm_compute. lia.
Defined.

Lemma DepthFirstSearch_finds_reachable_goal_witness :
  ∃ path, DepthFirstSearch 18 0%Z 3%Z detour = Ok (Some path).
Proof.
  apply (DepthFirstSearch_finds_reachable_goal detour 0%Z 3%Z
           (list_to_set [0; 1; 2; 2; 3]%Z) 4 18).
  - intros x y Hxy. exact Hxy.
  - intros v Hv. apply elem_of_list_to_set.
    apply succs_reachable in Hv as [->|Hv]; [by left|by right].
  - intros v _.
    apply (succs_length
             [(0, 1, 1%float); (0, 2, 3%float); (1, 2, 1%float);
              (2, 3, 10%float)]%Z).
  - apply (reachable_step _ _ 2%Z); [apply (reachable_step _ _ 0%Z)|].
    + constructor.
    + apply list_elem_of_In. vm_compute. tauto.
    + apply list_elem_of_In. vm_compute. tauto.
  - vm_compute. lia.
Defined.
End dfs_witnesses.

(** ** Bellman-Ford: what it never does *)

Module bellman_ford_more.
Section BellmanFord.
Context {N : Type} `{!Node N}.

Lemma rebuildPath_loop_no_panic fuel (preds : gmap Z (anyNode N)) curr acc why :
  rebuildPath_loop fuel preds curr acc ≠ Panicked why.
Proof.
  revert curr acc. induction fuel as [|fuel IH]; intros curr acc; simpl;
    destruct (preds !! ID curr); first [done|apply IH].
Qed.

Lemma rebuildPath_no_panic (preds : gmap Z (anyNode N)) goal why :
  rebuildPath preds goal ≠ Panicked why.
Proof.
  unfold rebuildPath.
  pose proof (rebuildPath_loop_no_panic (size preds) preds (unwrap goal)
                [unwrap goal] why) as Hloop.
  by destruct (rebuildPath_loop _ _ _ _).
Qed.

(** [rebuildAll] does not panic when every identifier with a cost has a
    node, and what it returns has the keys of [costs]. *)
Lemma rebuildAll_keys (preds nodeIDMap : gmap Z (anyNode N))
    (costs : gmap Z float) :
  (∀ id, is_Some (costs !! id) → is_Some (nodeIDMap !! id)) →
  (∀ why, rebuildAll preds nodeIDMap costs ≠ Panicked why)
  ∧ ∀ paths, rebuildAll preds nodeIDMap costs = Ok paths →
      ∀ id, is_Some (paths !! id) ↔ is_Some (costs !! id).
Proof.
  intros Hnodes. unfold rebuildAll.
  set (body := λ (paths : gmap Z (list N)) '(node, _), _).
  assert (∀ l acc,
            (∀ k c, (k, c) ∈ l → is_Some (nodeIDMap !! k)) →
            (∀ why, for_range l body acc ≠ Panicked why)
            ∧ ∀ paths, for_range l body acc = Ok paths →
                ∀ id, is_Some (paths !! id)
                      ↔ is_Some (acc !! id) ∨ id ∈ l.*1) as Hgen.
  { induction l as [|[k c] l IH]; intros acc Hl; simpl.
    - split; [done|]. intros paths [= <-] id. rewrite elem_of_nil. tauto.
    - destruct (Hl k c) as [goal Hgoal]; [by left|]. rewrite Hgoal.
      pose proof (rebuildPath_no_panic preds goal) as Hnp.
      destruct (rebuildPath preds goal) as [path|why|]; bind_ok;
        [|by destruct (Hnp why)|done].
      destruct (IH (<[k := path]> acc)) as [IHnp IHkeys].
      { intros k' c' Hin. apply (Hl k' c'). by right. }
      split; [done|]. intros paths Hpaths id.
      rewrite (IHkeys paths Hpaths id), lookup_insert_is_Some, elem_of_cons.
      destruct (decide (k = id)) as [->|Hne]; [tauto|]. intuition congruence. }
  destruct (Hgen (map_to_list costs) ∅) as [Hnp Hkeys].
  { intros k c Hin%elem_of_map_to_list. apply Hnodes. by rewrite Hin. }
  split; [done|]. intros paths Hpaths id.
  rewrite (Hkeys paths Hpaths id), lookup_empty, list_elem_of_fmap.
  split.
  - intros [[? ?]|([k c] & -> & Hin%elem_of_map_to_list)]; [done|].
    simpl. by rewrite Hin.
  - intros [c Hc]. right. exists (id, c). split; [done|].
    by apply elem_of_map_to_list.
Qed.
Lemma fadd_zero_negative (w : float) :
  flt (fadd fzero w) fzero = flt w fzero.
Proof.
  unfold flt, fadd. rewrite !ltb_spec, add_spec.
  change (Prim2SF fzero) with (S754_zero false).
  by destruct (Prim2SF w) as [[|]|[|]| |[|] m e].
Qed.

Lemma existsb_false {A} (f : A → bool) (l : list A) :
  (∀ x, x ∈ l → f x = false) → existsb f l = false.
Proof.
  induction l as [|x l IH]; intros Hf; simpl; [done|].
  rewrite (Hf x) by by left. apply IH. intros y Hy. apply Hf. by right.
Qed.

(** Every identifier that has a cost has a node, and the source has a
    cost: kept by every relaxation. *)
Lemma BellmanFord_relax_nodes (sf : searchFuncs N) source node st succ :
  (is_Some (bf_costs st !! ID source)
   ∧ ∀ id, is_Some (bf_costs st !! id) → is_Some (bf_nodeIDMap st !! id)) →
  let st' := BellmanFord_relax sf node st succ in
  is_Some (bf_costs st' !! ID source)
  ∧ ∀ id, is_Some (bf_costs st' !! id) → is_Some (bf_nodeIDMap st' !! id).
Proof.
  intros [Hsrc Hnodes]. unfold BellmanFord_relax.
  destruct (flt _ _); simpl.
  - split.
    + rewrite lookup_insert_is_Some. destruct (decide (ID succ = ID source)); auto.
    + intros id. rewrite !lookup_insert_is_Some.
      intros [?|[? ?]]; [by left|]. destruct (decide (ID succ = id)); auto.
  - split; [done|]. intros id Hid. rewrite lookup_insert_is_Some.
    destruct (decide (ID succ = id)); auto.
Qed.

Lemma BellmanFord_passes_nodes (sf : searchFuncs N) source nodes :
  let st := BellmanFord_passes sf nodes (BellmanFord_init source) in
  is_Some (bf_costs st !! ID source)
  ∧ ∀ id, is_Some (bf_costs st !! id) → is_Some (bf_nodeIDMap st !! id).
Proof.
  unfold BellmanFord_passes.
  induction (length nodes - 2)%nat as [|n IH]; simpl.
  { split; [by rewrite lookup_singleton_eq|].
    intros id. rewrite !lookup_singleton_is_Some. done. }
  unfold BellmanFord_pass at 1.
  apply (foldl_prefix_inv
           (λ _ st, is_Some (bf_costs st !! ID source)
                    ∧ ∀ id, is_Some (bf_costs st !! id) →
                            is_Some (bf_nodeIDMap st !! id))); [exact IH|].
  intros _ node _ st _ [Hsrc Hnodes]. unfold BellmanFord_node.
  apply (foldl_prefix_inv
           (λ _ st, is_Some (bf_costs st !! ID source)
                    ∧ ∀ id, is_Some (bf_costs st !! id) →
                            is_Some (bf_nodeIDMap st !! id))).
  - simpl. split; [done|]. intros id Hid. rewrite lookup_insert_is_Some.
    destruct (decide (ID node = id)); auto.
  - intros _ succ _ st' _ Hst'. by apply BellmanFord_relax_nodes.
Qed.

(** X7.  [BellmanFord] never panics.  When it returns without an error,
    both maps are there, the costs have an entry for the source, and the
    paths have the same keys as the costs; when it returns an error both
    maps are nil. *)
Theorem BellmanFord_never_panics (g : Graph N) (source : N)
    (w : option (WeightFunc N)) :
  (∀ why, BellmanFord source g w ≠ Panicked why)
  ∧ ∀ r, BellmanFord source g w = Ok r →
      match paths r, costs r with
      | Some p, Some c =>
        err r = None ∧ is_Some (c !! ID source)
        ∧ ∀ id, is_Some (p !! id) ↔ is_Some (c !! id)
      | None, None => is_Some (err r)
      | _, _ => False
      end.
Proof.
  unfold BellmanFord. set (sf := setupFuncs g w None).
  destruct (BellmanFord_passes_nodes sf source (Nodes g)) as [Hsrc Hnodes].
  set (st := BellmanFord_passes sf (Nodes g) (BellmanFord_init source)) in *.
  destruct (BellmanFord_detect sf (Nodes g) (bf_costs st)).
  { split; [done|]. intros r [= <-]. simpl. by eexists. }
  destruct (rebuildAll_keys (bf_predecessor st) (bf_nodeIDMap st)
              (bf_costs st) Hnodes) as [Hnp Hkeys].
  destruct (rebuildAll _ _ _) as [p|why|]; bind_ok.
  - split; [done|]. intros r [= <-]. simpl. split_and!; [done..|].
    by apply Hkeys.
  - by destruct (Hnp why).
  - done.
Qed.

Lemma cost_at_source_only (source : Z) (id : Z) :
  cost_at {[source := fzero]} id = fzero.
Proof.
  unfold cost_at. destruct (decide (source = id)) as [->|Hne].
  - by rewrite lookup_singleton_eq.
  - by rewrite lookup_singleton_ne.
Qed.

(** X8.  When no weight is negative, no relaxation of [BellmanFord] ever
    succeeds: it returns without error the costs map that holds the source
    alone, with cost 0, and the one path that consists of a node with the
    identifier of the source. *)
Theorem BellmanFord_nonnegative_weights_relax_nothing (g : Graph N)
    (source : N) (w : option (WeightFunc N)) :
  (∀ e, flt (weight (setupFuncs g w None) e) fzero = false) →
  ∃ n, ID n = ID source
    ∧ BellmanFord source g w
      = Ok {| paths := Some {[ID source := [n]]};
              costs := Some {[ID source := fzero]}; err := None |}.
Proof.
  intros Hw. unfold BellmanFord. set (sf := setupFuncs g w None) in *.
  set (good := λ st : bellmanFordState N,
         bf_costs st = {[ID source := fzero]} ∧ bf_predecessor st = ∅
         ∧ ∃ p, bf_nodeIDMap st !! ID source = Some (Plain p)
                ∧ ID p = ID source).
  assert (∀ st node succ, good st → good (BellmanFord_relax sf node st succ))
    as Hrelax.
  { intros st node succ (Hc & Hp & n & Hn & Hid). unfold BellmanFord_relax.
    rewrite Hc, !cost_at_source_only, fadd_zero_negative, Hw.
    split_and!; simpl; [done..|].
    destruct (decide (ID succ = ID source)) as [Heq|Hne].
    - exists succ. by rewrite Heq, lookup_insert_eq.
    - exists n. by rewrite lookup_insert_ne. }
  assert (∀ st node, good st → good (BellmanFord_node sf st node)) as Hnode.
  { intros st node (Hc & Hp & n & Hn & Hid). unfold BellmanFord_node.
    apply (foldl_prefix_inv (λ _ st, good st)).
    - split_and!; simpl; [done..|].
      destruct (decide (ID node = ID source)) as [Heq|Hne].
      + exists node. by rewrite Heq, lookup_insert_eq.
      + exists n. by rewrite lookup_insert_ne.
    - intros _ succ _ st' _ Hst'. by apply Hrelax. }
  assert (good (BellmanFord_passes sf (Nodes g) (BellmanFord_init source)))
    as (Hc & Hp & n & Hn & Hid).
  { unfold BellmanFord_passes.
    induction (length (Nodes g) - 2)%nat as [|k IH]; simpl.
    - split_and!; [done..|]. exists source. simpl.
      by rewrite lookup_singleton_eq.
    - unfold BellmanFord_pass at 1.
      apply (foldl_prefix_inv (λ _ st, good st)); [exact IH|].
      intros _ node _ st _ Hst. by apply Hnode. }
  exists n. split; [done|]. rewrite Hc, Hp.
  replace (BellmanFord_detect sf (Nodes g) {[ID source := fzero]})
    with false.
  2:{ symmetry. unfold BellmanFord_detect. apply existsb_false. intros u _.
      apply existsb_false. intros v _. unfold relaxes.
      by rewrite !cost_at_source_only, fadd_zero_negative. }
  unfold rebuildAll. rewrite map_to_list_singleton. simpl. rewrite Hn.
  unfold rebuildPath. rewrite map_size_empty. simpl. rewrite lookup_empty.
  bind_ok. by rewrite insert_empty.
Qed.
End BellmanFord.
End bellman_ford_more.

Module bellman_ford_more_witnesses.
Import examples inputs bellman_ford_more.

Lemma BellmanFord_nonnegative_weights_relax_nothing_witness :
  ∃ n, ID n = ID 0%Z
    ∧ BellmanFord 0%Z chain None
      = Ok {| paths := Some {[ID 0%Z := [n]]};
              costs := Some {[ID 0%Z := fzero]}; err := None |}.
Proof.
  apply (BellmanFord_nonnegative_weights_relax_nothing chain 0%Z None).
  intros [[u v]|]; [|reflexivity].
  cbn [setupFuncs chain directed directedness Weighter weight edge_weight].
  unfold lookup_weight. cbn [list_find fmap option_fmap option_map].
  repeat (case_decide; cbn [fmap option_fmap option_map default snd fst];
          try reflexivity).
Defined.
End bellman_ford_more_witnesses.

(** ** Dijkstra: the nodes that get a cost *)

Module dijkstra_facts.
Import queue_spec queue_facts search_facts walk_facts dijkstra_spec
  bellman_ford_more.
Section Dijkstra.
Context {N : Type} `{!Node N}.
Variable sf : searchFuncs N.
Variable source : N.

Local Abbreviation reach := (reachable (from sf) source).
Local Abbreviation dijkstra_inv := (dijkstra_spec.dijkstra_inv sf source).
Local Abbreviation dijkstra_neighbor_inv :=
  (dijkstra_spec.dijkstra_neighbor_inv sf source).

Lemma open_ID_indexed (pq : aStarPriorityQueue N) id :
  pq_wf pq → id ∈ ID <$> members pq ↔ is_Some (indexList pq !! id).
Proof.
  intros Hwf. rewrite ID_members, (pq_wf_indexed pq id Hwf), list_elem_of_fmap.
  split; intros (x & ? & ?); by exists x.
Qed.

Lemma Dijkstra_neighbor_inv popped node pre neighbor post st :
  from sf (node_of node) = pre ++ neighbor :: post →
  reach (node_of node) →
  dijkstra_neighbor_inv popped node pre st →
  ∃ st', Dijkstra_neighbor sf node st neighbor = Ok st'
         ∧ dijkstra_neighbor_inv popped node (pre ++ [neighbor]) st'.
Proof.
  intros Hfrom Hnode [Hwf Hcosts Hfresh Hreach Hmap Hsrc Hfront].
  assert (reach neighbor) as Hnb.
  { apply (reachable_step _ _ (node_of node)); [done|]. rewrite Hfrom.
    apply elem_of_app. right. by left. }
  unfold Dijkstra_neighbor.
  set (tmpCost := fadd _ _).
  destruct (d_costs st !! ID neighbor) as [c|] eqn:Hc.
  - assert (∀ id, is_Some (<[ID neighbor := tmpCost]> (d_costs st) !! id)
                  ↔ is_Some (d_costs st !! id)) as Hsame.
    { intros id. rewrite lookup_insert_is_Some.
      destruct (decide (ID neighbor = id)) as [<-|Hne]; [|tauto].
      rewrite Hc. split; [by eexists|by left]. }
    destruct (flt tmpCost c).
    + destruct (aStar_Fix_ok (d_openSet st) (ID neighbor) tmpCost tmpCost Hwf)
        as (open' & -> & Hwf' & Hm).
      bind_ok. eexists. split; [done|].
      assert (∀ id, id ∈ ID <$> members open'
                    ↔ id ∈ ID <$> members (d_openSet st)) as HmID.
      { intros id. rewrite !list_elem_of_fmap.
        split; intros (v & ? & Hv); exists v; (split; [done|]); by apply Hm. }
      split; simpl.
      * done.
      * intros id. by rewrite HmID, <-Hcosts, Hsame.
      * intros v Hv. apply Hfresh. by apply Hm.
      * intros v Hv. apply Hreach. by apply Hm.
      * done.
      * by apply Hsame.
      * intros w' Hw'. apply Hsame.
        destruct Hw' as [Hold| [Hw'| ->%list_elem_of_singleton]%elem_of_app].
        -- apply Hfront. by left.
        -- apply Hfront. by right.
        -- by rewrite Hc.
    + eexists. split; [done|]. split; [done..|].
      intros w' [Hold| [Hw'| ->%list_elem_of_singleton]%elem_of_app].
      * apply Hfront. by left.
      * apply Hfront. by right.
      * by rewrite Hc.
  - assert (¬ (ID neighbor ∈ ID <$> members (d_openSet st)
               ∨ ID neighbor ∈ ID <$> (popped ++ [node]))) as Hnew.
    { rewrite <-Hcosts, Hc. by intros [? ?]. }
    destruct (heap_Push_ok (d_openSet st)
                {| node_of := neighbor; gscore := tmpCost; fscore := tmpCost |}
                Hwf) as (open' & -> & Hwf' & Hm).
    { apply eq_None_not_Some. rewrite <-open_ID_indexed by done. tauto. }
    bind_ok. eexists. split; [done|]. split; simpl.
    + done.
    + intros id. rewrite lookup_insert_is_Some, Hcosts, !list_elem_of_fmap.
      split.
      * intros [<-|[Hne [(v & ? & Hv)|?]]].
        -- left. exists neighbor. split; [done|]. apply Hm. by left.
        -- left. exists v. split; [done|]. apply Hm. by right.
        -- by right.
      * intros [(v & -> & [->|Hv]%Hm)|?].
        -- by left.
        -- destruct (decide (ID neighbor = ID v)); [by left|right].
           split; [done|]. left. by exists v.
        -- destruct (decide (ID neighbor = id)); [by left|right].
           split; [done|]. by right.
    + intros v [->|Hv]%Hm; [tauto|by apply Hfresh].
    + intros v [->|Hv]%Hm; [done|by apply Hreach].
    + done.
    + rewrite lookup_insert_is_Some. destruct (decide (ID neighbor = ID source)); auto.
    + intros w' Hw'. rewrite lookup_insert_is_Some.
      destruct (decide (ID neighbor = ID w')); [by left|right]. split; [done|].
      destruct Hw' as [Hold| [Hw'| ->%list_elem_of_singleton]%elem_of_app].
      * apply Hfront. by left.
      * apply Hfront. by right.
      * done.
Qed.

(** The loop of [Dijkstra] returns when it is given more fuel than there
    are identifiers still to pop, and the invariant holds of what it
    returns, with an empty open set. *)
Lemma Dijkstra_loop_returns (R : gset Z) fuel popped st :
  (∀ v, reach v → ID v ∈ R) →
  dijkstra_inv popped st →
  (size (R ∖ list_to_set (ID <$> popped)) < fuel)%nat →
  ∃ popped' st', Dijkstra_loop fuel sf st = Ok st'
                 ∧ dijkstra_inv popped' st' ∧ nodes (d_openSet st') = [].
Proof.
  intros HR. revert popped st.
  induction fuel as [|fuel IH]; intros popped st Hinv Hfuel; [lia|].
  cbn [Dijkstra_loop]. cbn [Interface.Len aStarPriorityQueue_heap].
  unfold aStar_Len. case_decide as Hlen.
  { exists popped, st. split_and!; [done..|]. by apply nil_length_inv. }
  destruct Hinv as [Hwf Hcosts Hnodup Hfresh Hreach Hmap Hsrc Hfront].
  destruct (heap_Pop_ok (d_openSet st) Hwf) as (open' & x & -> & Hwf' & Hm & Hgone).
  { intros Hnil. apply Hlen. by rewrite Hnil. }
  bind_ok.
  assert (node_of x ∈ members (d_openSet st)) as Hx by (apply Hm; by left).
  assert (reach (node_of x)) as Hrx by (apply Hreach; by left).
  assert (ID x ∉ ID <$> popped) as Hnew by by apply (Hfresh (node_of x)).
  assert (ID x ∉ ID <$> members open') as Hnotopen.
  { rewrite open_ID_indexed by done. rewrite Hgone. by intros [? ?]. }
  assert (∀ id, id ∈ ID <$> members (d_openSet st)
                ↔ id = ID x ∨ id ∈ ID <$> members open') as HmID.
  { intros id. rewrite !list_elem_of_fmap. split.
    - intros (v & -> & [->|Hv]%Hm); [by left|right; by exists v].
    - intros [->|(v & -> & Hv)].
      + exists (node_of x). split; [done|]. apply Hm. by left.
      + exists v. split; [done|]. apply Hm. by right. }
  assert (∀ id, id ∈ ID <$> (popped ++ [x]) ↔ id ∈ ID <$> popped ∨ id = ID x)
    as HpID.
  { intros id. rewrite fmap_app, elem_of_app. simpl.
    by rewrite list_elem_of_singleton. }
  destruct (for_range_prefix_inv
              (λ pre s, dijkstra_neighbor_inv popped x pre s)
              (from sf (node_of x)) (Dijkstra_neighbor sf x)
              {| d_openSet := open'; d_costs := d_costs st;
                 d_predecessor := d_predecessor st;
                 d_nodeIDMap := <[ID x := Wrapped x]> (d_nodeIDMap st) |})
    as (st' & -> & [Hwf'' Hcosts'' Hfresh'' Hreach'' Hmap'' Hsrc'' Hfront'']).
  { split; simpl.
    - done.
    - intros id. rewrite Hcosts, HmID, HpID. tauto.
    - intros v Hv. rewrite HpID. intros [Hin|Heq].
      + apply (Hfresh v); [|done]. apply Hm. by right.
      + apply Hnotopen. rewrite <-Heq. by apply list_elem_of_fmap_2.
    - intros v Hv. apply Hreach. left. apply Hm. by right.
    - intros id. rewrite lookup_insert_is_Some, Hmap, HpID.
      destruct (decide (ID x = id)); [by split; auto|]. split.
      + intros [?|[_ ?]]; [done|by left].
      + intros [?|?]; [by right|congruence].
    - done.
    - intros w [(y & Hy & Hw)|Hw]; [|by apply elem_of_nil in Hw].
      by apply (Hfront y). }
  { intros pre v post s Hxs Hs. by eapply Dijkstra_neighbor_inv. }
  bind_ok.
  apply (IH (popped ++ [x])).
  - split.
    + done.
    + done.
    + rewrite fmap_app. apply NoDup_app.
      split_and!; [done| |apply NoDup_singleton].
      intros id Hid ->%list_elem_of_singleton. done.
    + done.
    + intros v [Hv|Hv]; [by apply Hreach''|].
      rewrite fmap_app in Hv.
      apply elem_of_app in Hv as [Hv| ->%list_elem_of_singleton]; [|done].
      apply Hreach. by right.
    + done.
    + done.
    + intros y w [Hy| ->%list_elem_of_singleton]%elem_of_app Hw.
      * apply Hfront''. left. eauto.
      * apply Hfront''. by right.
  - enough (R ∖ list_to_set (ID <$> (popped ++ [x]))
            ⊂ R ∖ list_to_set (ID <$> popped)) as Hsub.
    { apply subset_size in Hsub. lia. }
    split.
    + intros id. rewrite !elem_of_difference, !elem_of_list_to_set, HpID.
      intros [? Hnot]. split; [done|]. intros ?. apply Hnot. by left.
    + intros Hback. specialize (Hback (ID x)).
      rewrite !elem_of_difference, !elem_of_list_to_set, HpID in Hback.
      destruct Hback as [_ Hback]; [split; [by apply (HR (node_of x))|done]|].
      apply Hback. by right.
Qed.

Lemma Dijkstra_init_inv :
  ∃ pq, heap.Push (emptyQueue (N := N))
          {| node_of := source; gscore := fzero; fscore := fzero |} = Ok pq
    ∧ dijkstra_inv []
        {| d_openSet := pq; d_costs := {[ID source := fzero]};
           d_predecessor := ∅; d_nodeIDMap := ∅ |}.
Proof.
  destruct (heap_Push_ok emptyQueue
              {| node_of := source; gscore := fzero; fscore := fzero |}
              emptyQueue_wf) as (pq & Hpush & Hwf & Hm); [done|].
  exists pq. split; [done|].
  assert (∀ v, v ∈ members pq ↔ v = source) as Hsource.
  { intros v. rewrite Hm. split; [|by left].
    intros [->|Hv]; [done|]. by apply elem_of_nil in Hv. }
  split; simpl.
  - done.
  - intros id. rewrite lookup_singleton_is_Some, list_elem_of_fmap. split.
    + intros <-. left. exists source. split; [done|]. by apply Hsource.
    + intros [(v & -> & ->%Hsource)|?%elem_of_nil]; done.
  - constructor.
  - by intros v _ ?%elem_of_nil.
  - intros v [->%Hsource|?%elem_of_nil]; [constructor|done].
  - intros id. rewrite lookup_empty. split; [by intros [? ?]|].
    by intros ?%elem_of_nil.
  - by rewrite lookup_singleton_eq.
  - by intros x w ?%elem_of_nil.
Qed.
End Dijkstra.

(** X9.  When identifiers identify nodes and the identifiers of the nodes
    reachable from the source lie in the finite set [R], [Dijkstra] with
    more fuel than [R] has elements does not panic, and whenever it
    returns, the costs have an entry for exactly the identifiers of the
    reachable nodes and the paths have the same keys. *)
Theorem Dijkstra_costs_for_reachable_nodes {N : Type} `{!Node N}
    (g : Graph N) (source : N) (w : option (WeightFunc N)) (R : gset Z)
    (fuel : nat) :
  (∀ x y : N, ID x = ID y → x = y) →
  (∀ v, reachable (From g) source v → ID v ∈ R) →
  (size R < fuel)%nat →
  (∀ why, Dijkstra fuel source g w ≠ Panicked why)
  ∧ ∀ paths costs, Dijkstra fuel source g w = Ok (paths, costs) →
      (∀ id, is_Some (costs !! id)
             ↔ ∃ v, reachable (From g) source v ∧ ID v = id)
      ∧ (∀ id, is_Some (paths !! id) ↔ is_Some (costs !! id)).
Proof.
  intros ID_inj HR Hfuel. unfold Dijkstra. set (sf := setupFuncs g w None).
  assert (from sf = From g) as Hfrom by apply setupFuncs_from.
  rewrite <-Hfrom in *. rewrite heap_Init_empty. bind_ok.
  destruct (Dijkstra_init_inv sf source) as (pq & -> & Hinit). bind_ok.
  destruct (Dijkstra_loop_returns sf source R fuel [] _ HR Hinit)
    as (popped & st & -> & [Hwf Hcosts Hnodup Hfresh Hreach Hmap Hsrc Hfront]
        & Hempty).
  { simpl. by rewrite difference_empty_L. }
  bind_ok.
  assert (∀ id, is_Some (d_costs st !! id) ↔ id ∈ ID <$> popped) as Hkeys.
  { intros id. rewrite Hcosts. unfold members. rewrite Hempty. simpl.
    rewrite elem_of_nil. tauto. }
  destruct (rebuildAll_keys (d_predecessor st) (d_nodeIDMap st) (d_costs st))
    as [Hnp Hpaths].
  { intros id. by rewrite Hkeys, Hmap. }
  destruct (rebuildAll _ _ _) as [p|why|]; bind_ok.
  - split; [done|]. intros paths costs [= <- <-]. split; [|by apply Hpaths].
    intros id. rewrite Hkeys. split.
    + intros (x & -> & Hx)%list_elem_of_fmap. exists (node_of x).
      split; [|done]. apply Hreach. right. by apply list_elem_of_fmap_2.
    + intros (v & Hv & <-). apply Hkeys.
      induction Hv as [|u v Hu IHu Hv]; [done|].
      apply Hkeys in IHu. apply list_elem_of_fmap in IHu as (x & Hid & Hx).
      apply (Hfront x v Hx). by rewrite <-(ID_inj _ _ Hid).
  - by destruct (Hnp why).
  - done.
Qed.
End dijkstra_facts.

Module dijkstra_witnesses.
Import examples inputs walk_witnesses dijkstra_facts.

Lemma Dijkstra_costs_for_reachable_nodes_witness :
  (∀ why, Dijkstra 5 0%Z detour None ≠ Panicked why)
  ∧ ∀ paths costs, Dijkstra 5 0%Z detour None = Ok (paths, costs) →
      (∀ id, is_Some (costs !! id)
             ↔ ∃ v, reachable (From detour) 0%Z v ∧ ID v = id)
      ∧ (∀ id, is_Some (paths !! id) ↔ is_Some (costs !! id)).
Proof.
  apply (Dijkstra_costs_for_reachable_nodes detour 0%Z None
           (list_to_set [0; 1; 2; 2; 3]%Z) 5).
  - intros x y Hxy. exact Hxy.
  - intros v Hv. apply elem_of_list_to_set.
    apply succs_reachable in Hv as [->|Hv]; [by left|by right].
  - vm_compute. lia.
Defined.
End dijkstra_witnesses.

(** ** concrete.UndirectedGraph *)

Module concrete_facts.
Import structure concrete_spec.
Section UndirectedGraph.
Context {N : Type} `{!Node N}.
Implicit Types (g : UndirectedGraph N) (n : N) (a b c d : Z).

Lemma neighbor_at_Some g a b :
  is_Some (concrete.neighbor_at g a b)
  ↔ ∃ around, neighbors g !! a = Some around ∧ is_Some (around !! b).
Proof.
  unfold concrete.neighbor_at. destruct (neighbors g !! a) as [around|]; simpl.
  - split; [by exists around|]. by intros (? & [= <-] & ?).
  - split; [by intros [? ?]|]. by intros (? & ? & ?).
Qed.

Lemma Has_true g n : Has g n = true ↔ is_Some (nodeMap g !! ID n).
Proof. unfold Has. by rewrite bool_decide_eq_true. Qed.

Lemma Has_false g n : Has g n = false ↔ nodeMap g !! ID n = None.
Proof.
  unfold Has. rewrite bool_decide_eq_false. by rewrite eq_None_not_Some.
Qed.

Lemma HasEdge_true g n m :
  concrete.HasEdge g n m = true ↔ is_Some (concrete.neighbor_at g (ID n) (ID m)).
Proof. unfold concrete.HasEdge. by rewrite bool_decide_eq_true. Qed.

(** The adjacency after [AddNode]. *)
Lemma neighbor_at_AddNode g n a b :
  concrete.neighbor_at (AddNode g n) a b
  = if decide (a = ID n) then None else concrete.neighbor_at g a b.
Proof.
  unfold concrete.neighbor_at, AddNode. simpl. case_decide as Ha.
  - subst a. by rewrite lookup_insert_eq.
  - by rewrite lookup_insert_ne.
Qed.

Lemma AddNode_stored g n : ug_stored g → ug_stored (AddNode g n).
Proof.
  intros [Hdom Hids [Hmax0 Hmax] Hfree]. split; simpl.
  - intros id. rewrite !lookup_insert_is_Some, Hdom. tauto.
  - intros id m. rewrite lookup_insert. case_decide; [by intros [= <-]|].
    apply Hids.
  - split; [lia|]. intros id. rewrite lookup_insert_is_Some.
    intros [<-|[_ Hid%Hmax]]; lia.
  - intros id [Hid Hne]%elem_of_difference. rewrite lookup_insert_ne.
    + by apply Hfree.
    + intros <-. apply Hne. by apply elem_of_singleton.
Qed.

(** A node outside the graph has no adjacency. *)
Lemma neighbor_at_outside g n b :
  ug_stored g → Has g n = false → concrete.neighbor_at g (ID n) b = None.
Proof.
  intros Hst Hn%Has_false. apply eq_None_not_Some.
  intros (around & Hn' & _)%neighbor_at_Some.
  assert (is_Some (nodeMap g !! ID n)) as [? ?]; [|congruence].
  apply (ug_dom _ Hst). by rewrite Hn'.
Qed.

Lemma AddNode_wf g n : ug_wf g → Has g n = false → ug_wf (AddNode g n).
Proof.
  intros [Hst Hsym] Hn. split; [by apply AddNode_stored|].
  intros a b. rewrite !neighbor_at_AddNode.
  case_decide as Ha; [by intros [? ?]|]. case_decide as Hb; [|apply Hsym].
  subst b. intros Hab%Hsym. rewrite neighbor_at_outside in Hab by done.
  by destruct Hab.
Qed.

(** What [set_neighbor] does to the adjacency when [a] has a map. *)
Lemma set_neighbor_ok g a b we :
  is_Some (neighbors g !! a) →
  ∃ g', set_neighbor g a b we = Ok g'
    ∧ nodeMap g' = nodeMap g ∧ maxID g' = maxID g ∧ freeMap g' = freeMap g
    ∧ absent g' = absent g
    ∧ (∀ id, is_Some (neighbors g' !! id) ↔ is_Some (neighbors g !! id))
    ∧ ∀ c d, concrete.neighbor_at g' c d
             = if decide (c = a ∧ d = b) then Some we
               else concrete.neighbor_at g c d.
Proof.
  intros [around Ha]. unfold set_neighbor. rewrite Ha. eexists.
  split; [done|]. simpl. split_and!; [done..| |].
  - intros id. rewrite lookup_insert_is_Some.
    destruct (decide (a = id)) as [<-|]; [|tauto]. rewrite Ha.
    split; [by eexists|by left].
  - intros c d. unfold concrete.neighbor_at. simpl.
    destruct (decide (c = a)) as [->|Hc].
    + rewrite lookup_insert_eq, Ha. simpl.
      destruct (decide (d = b)) as [->|Hd].
      * rewrite lookup_insert_eq. by rewrite decide_True.
      * rewrite lookup_insert_ne by done. rewrite decide_False; [done|].
        by intros [_ ?].
    + rewrite lookup_insert_ne by done. rewrite decide_False; [done|].
      by intros [? _].
Qed.

(** [AddUndirectedEdge] on a graph whose books are in order: it does not
    panic, both end points are in the graph afterwards, and the adjacency
    changes at the two entries of the edge only. *)
Lemma AddUndirectedEdge_adj g (e : N * N) (w : float) :
  ug_stored g →
  ∃ g', AddUndirectedEdge g e w = Ok g' ∧ ug_stored g'
    ∧ absent g' = absent g
    ∧ (∀ id, is_Some (nodeMap g' !! id)
             ↔ id = ID e.1 ∨ id = ID e.2 ∨ is_Some (nodeMap g !! id))
    ∧ (∀ id n, nodeMap g !! id = Some n → nodeMap g' !! id = Some n)
    ∧ ∀ c d, concrete.neighbor_at g' c d
             = if decide ((c = ID e.1 ∧ d = ID e.2) ∨ (c = ID e.2 ∧ d = ID e.1))
               then Some {| edge_of := e; Weight := w |}
               else concrete.neighbor_at g c d.
Proof.
  intros Hst. destruct e as [from to]. unfold AddUndirectedEdge. simpl.
  set (g1 := if Has g from then g else AddNode g from).
  assert (ug_stored g1 ∧ is_Some (nodeMap g1 !! ID from)
          ∧ absent g1 = absent g
          ∧ (∀ id, is_Some (nodeMap g1 !! id)
                   ↔ id = ID from ∨ is_Some (nodeMap g !! id))
          ∧ (∀ id n, nodeMap g !! id = Some n → nodeMap g1 !! id = Some n)
          ∧ ∀ c d, concrete.neighbor_at g1 c d = concrete.neighbor_at g c d)
    as (Hst1 & Hfrom1 & Habs1 & Hnodes1 & Hkeep1 & Hadj1).
  { subst g1. destruct (Has g from) eqn:Hhas.
    - apply Has_true in Hhas. split_and!; [done..| |done|done].
      intros id. split; [by right|]. by intros [->|?].
    - split_and!.
      + by apply AddNode_stored.
      + simpl. by rewrite lookup_insert_eq.
      + done.
      + intros id. simpl. rewrite lookup_insert_is_Some.
        split; [intros [<-|[_ ?]]; auto|].
        intros [->|?]; [by left|]. destruct (decide (ID from = id)); auto.
      + intros id n Hn. simpl. rewrite lookup_insert_ne; [done|].
        intros <-. apply Has_false in Hhas. congruence.
      + intros c d. rewrite neighbor_at_AddNode. case_decide as Hc; [|done].
        subst c. by rewrite neighbor_at_outside. }
  set (g2 := if Has g1 to then g1 else AddNode g1 to).
  assert (ug_stored g2 ∧ is_Some (nodeMap g2 !! ID from)
          ∧ is_Some (nodeMap g2 !! ID to)
          ∧ absent g2 = absent g
          ∧ (∀ id, is_Some (nodeMap g2 !! id)
                   ↔ id = ID from ∨ id = ID to ∨ is_Some (nodeMap g !! id))
          ∧ (∀ id n, nodeMap g !! id = Some n → nodeMap g2 !! id = Some n)
          ∧ ∀ c d, concrete.neighbor_at g2 c d = concrete.neighbor_at g c d)
    as (Hst2 & Hfrom2 & Hto2 & Habs2 & Hnodes2 & Hkeep2 & Hadj2).
  { subst g2. destruct (Has g1 to) eqn:Hhas.
    - apply Has_true in Hhas. split_and!; [done..| |done|done].
      intros id. rewrite Hnodes1. split; [tauto|].
      intros [->|[->|?]]; [by left| |by right]. by apply Hnodes1.
    - split_and!.
      + by apply AddNode_stored.
      + simpl. rewrite lookup_insert_is_Some.
        destruct (decide (ID to = ID from)); auto.
      + simpl. by rewrite lookup_insert_eq.
      + done.
      + intros id. simpl. rewrite lookup_insert_is_Some, Hnodes1.
        split; [intros [<-|[_ [?|?]]]; auto|]. intros Hid.
        destruct (decide (ID to = id)); [by left|right]. split; [done|].
        destruct Hid as [?|[?|?]]; [by left|congruence|by right].
      + intros id n Hn. simpl. rewrite lookup_insert_ne; [by apply Hkeep1|].
        intros <-. apply Has_false in Hhas. apply Hkeep1 in Hn. congruence.
      + intros c d. rewrite neighbor_at_AddNode, <-Hadj1.
        case_decide as Hc; [|done].
        subst c. by rewrite neighbor_at_outside. }
  clearbody g2. clear g1 Hst1 Hfrom1 Habs1 Hnodes1 Hkeep1 Hadj1.
  set (we := {| edge_of := (from, to); Weight := w |}).
  destruct (set_neighbor_ok g2 (ID from) (ID to) we)
    as (g3 & -> & Hn3 & Hm3 & Hf3 & Ha3 & Hd3 & Hadj3).
  { by apply (ug_dom _ Hst2). }
  bind_ok.
  destruct (set_neighbor_ok g3 (ID to) (ID from) we)
    as (g4 & -> & Hn4 & Hm4 & Hf4 & Ha4 & Hd4 & Hadj4).
  { apply Hd3. by apply (ug_dom _ Hst2). }
  exists g4. split; [done|]. split_and!.
  - destruct Hst2 as [Hdom Hids Hmax Hfree]. split.
    + intros id. by rewrite Hd4, Hd3, Hn4, Hn3.
    + intros id n. rewrite Hn4, Hn3. apply Hids.
    + by rewrite Hm4, Hm3, Hn4, Hn3.
    + intros id. rewrite Hf4, Hf3, Hn4, Hn3. apply Hfree.
  - by rewrite Ha4, Ha3.
  - intros id. by rewrite Hn4, Hn3.
  - intros id n. rewrite Hn4, Hn3. apply Hkeep2.
  - intros c d. rewrite Hadj4, Hadj3, Hadj2.
    repeat case_decide; try done; tauto.
Qed.

Lemma AddUndirectedEdge_ok g (e : N * N) (w : float) :
  ug_wf g →
  ∃ g', AddUndirectedEdge g e w = Ok g' ∧ ug_wf g'
    ∧ absent g' = absent g
    ∧ (∀ id, is_Some (nodeMap g' !! id)
             ↔ id = ID e.1 ∨ id = ID e.2 ∨ is_Some (nodeMap g !! id))
    ∧ (∀ id n, nodeMap g !! id = Some n → nodeMap g' !! id = Some n)
    ∧ ∀ c d, concrete.neighbor_at g' c d
             = if decide ((c = ID e.1 ∧ d = ID e.2) ∨ (c = ID e.2 ∧ d = ID e.1))
               then Some {| edge_of := e; Weight := w |}
               else concrete.neighbor_at g c d.
Proof.
  intros [Hst Hsym].
  destruct (AddUndirectedEdge_adj g e w Hst)
    as (g' & Heq & Hst' & Habs & Hnodes & Hkeep & Hadj).
  exists g'. split_and!; [done| |done..]. split; [done|].
  intros a b. rewrite !Hadj.
  repeat case_decide; try done; try tauto. apply Hsym.
Qed.

Lemma remove_around {X} (k : Z) (nb : gmap Z (gmap Z X)) (around : gmap Z X) a :
  map_fold (λ neigh _ nb, alter (delete k) neigh nb) nb around !! a
  = if decide (is_Some (around !! a)) then delete k <$> nb !! a else nb !! a.
Proof.
  revert a.
  set (P := λ (r : gmap Z (gmap Z X)) (m : gmap Z X), ∀ a,
              r !! a = if decide (is_Some (m !! a)) then delete k <$> nb !! a
                       else nb !! a).
  change (P (map_fold (λ neigh _ nb, alter (delete k) neigh nb) nb around)
            around).
  apply (map_fold_weak_ind P); subst P; simpl.
  - intros a. rewrite lookup_empty. by rewrite decide_False by by intros [? ?].
  - intros i x m r Hi IH a. destruct (decide (a = i)) as [->|Hne].
    + rewrite lookup_alter_eq, IH, Hi, lookup_insert_eq.
      rewrite decide_False by by intros [? ?].
      by rewrite decide_True by by eexists.
    + rewrite lookup_alter_ne by done. rewrite IH.
      by rewrite lookup_insert_ne by done.
Qed.

(** The adjacency after [RemoveNode] of a node of the graph. *)
Lemma neighbor_at_RemoveNode g n a b :
  is_Some (nodeMap g !! ID n) →
  concrete.neighbor_at (concrete.RemoveNode g n) a b
  = if decide (a = ID n
               ∨ (b = ID n ∧ is_Some (concrete.neighbor_at g (ID n) a)))
    then None else concrete.neighbor_at g a b.
Proof.
  intros [x Hn]. unfold concrete.RemoveNode. rewrite Hn.
  unfold concrete.neighbor_at at 1. simpl.
  destruct (decide (a = ID n)) as [->|Ha].
  { rewrite lookup_delete_eq. simpl. rewrite decide_True; [done|by left]. }
  rewrite lookup_delete_ne by done. unfold concrete.delete_neighbor.
  rewrite remove_around.
  assert (is_Some (default ∅ (neighbors g !! ID n) !! a)
          ↔ is_Some (concrete.neighbor_at g (ID n) a)) as Haround.
  { unfold concrete.neighbor_at. destruct (neighbors g !! ID n); simpl; [done|].
    rewrite lookup_empty. done. }
  assert (concrete.neighbor_at g a b
          = neighbors g !! a ≫= λ inner, inner !! b) as -> by done.
  destruct (neighbors g !! a) as [inner|] eqn:Hinner; simpl.
  - case_decide as Har.
    + simpl. destruct (decide (b = ID n)) as [->|Hb].
      * rewrite lookup_delete_eq. rewrite decide_True; [done|].
        right. split; [done|]. by apply Haround.
      * rewrite lookup_delete_ne by done. rewrite decide_False; [done|].
        intros [?|[? _]]; done.
    + simpl. rewrite decide_False; [done|].
      intros [?|[_ ?%Haround]]; done.
  - case_decide; simpl; by case_decide.
Qed.

Lemma RemoveNode_absent g n :
  nodeMap g !! ID n = None → concrete.RemoveNode g n = g.
Proof. intros Hn. unfold concrete.RemoveNode. by rewrite Hn. Qed.

Lemma RemoveNode_wf g n : ug_wf g → ug_wf (concrete.RemoveNode g n).
Proof.
  intros Hwf. destruct (nodeMap g !! ID n) as [x|] eqn:Hn.
  2:{ by rewrite RemoveNode_absent. }
  pose proof (neighbor_at_RemoveNode g n) as Hadj.
  destruct Hwf as [[Hdom Hids [Hmax0 Hmax] Hfree] Hsym].
  assert (nodeMap (concrete.RemoveNode g n) = delete (ID n) (nodeMap g)
          ∧ maxID (concrete.RemoveNode g n)
            = (if decide (maxID g ≠ 0 ∧ ID n = maxID g)%Z
               then (maxID g - 1)%Z else maxID g)
          ∧ freeMap (concrete.RemoveNode g n) = {[ID n]} ∪ freeMap g
          ∧ ∀ id, is_Some (neighbors (concrete.RemoveNode g n) !! id)
                  ↔ id ≠ ID n ∧ is_Some (neighbors g !! id))
    as (Hnodes & HmaxID & Hfreemap & Hnb).
  { unfold concrete.RemoveNode. rewrite Hn. simpl. split_and!; [done..|].
    intros id. destruct (decide (id = ID n)) as [->|Hne].
    - rewrite lookup_delete_eq. split; [by intros [? ?]|]. by intros [? _].
    - rewrite lookup_delete_ne by done. unfold concrete.delete_neighbor.
      rewrite remove_around. case_decide; [|tauto].
      rewrite fmap_is_Some. tauto. }
  split; [split|].
  - intros id. rewrite Hnb, Hnodes, lookup_delete_is_Some, Hdom.
    split; intros [? ?]; (split; [congruence|done]).
  - intros id m. rewrite Hnodes, lookup_delete_Some. intros [_ ?]. by apply Hids.
  - rewrite HmaxID, Hnodes. case_decide as Hdec.
    + split; [lia|]. intros id [Hne Hid%Hmax]%lookup_delete_is_Some. lia.
    + split; [done|]. intros id [_ Hid%Hmax]%lookup_delete_is_Some. done.
  - intros id. rewrite Hfreemap, Hnodes, elem_of_union, elem_of_singleton.
    intros [->|Hid%Hfree].
    + by rewrite lookup_delete_eq.
    + rewrite lookup_delete_None. by right.
  - intros a b. rewrite !Hadj by by eexists.
    destruct (decide (a = ID n
                      ∨ b = ID n ∧ is_Some (concrete.neighbor_at g (ID n) a)))
      as [Hab|Hab]; [by intros [? ?]|].
    intros Hedge. rewrite decide_False; [by apply Hsym|].
    intros [->|[-> Hna]]; apply Hab.
    + right. split; [done|]. by apply Hsym.
    + by left.
Qed.

(** The adjacency after [RemoveUndirectedEdge] between two nodes of the
    graph. *)
Lemma neighbor_at_RemoveUndirectedEdge g (e : N * N) a b :
  is_Some (nodeMap g !! ID e.1) → is_Some (nodeMap g !! ID e.2) →
  concrete.neighbor_at (concrete.RemoveUndirectedEdge g e) a b
  = if decide ((a = ID e.1 ∧ b = ID e.2) ∨ (a = ID e.2 ∧ b = ID e.1))
    then None else concrete.neighbor_at g a b.
Proof.
  destruct e as [from to]. simpl. intros [x Hfrom] [y Hto].
  unfold concrete.RemoveUndirectedEdge. rewrite Hfrom, Hto.
  unfold concrete.neighbor_at, concrete.delete_neighbor. simpl.
  destruct (decide (ID from = ID to)) as [Heq|Hne]; [rewrite ?Heq in *|];
    rewrite !lookup_alter;
    repeat case_decide; simplify_eq/=;
    repeat match goal with
           | |- context [neighbors g !! ?k] => destruct (neighbors g !! k); simpl
           end;
    rewrite ?lookup_delete; repeat case_decide; simplify_eq/=;
    try done; try (exfalso; intuition congruence).
Qed.

Lemma RemoveUndirectedEdge_wf g (e : N * N) :
  ug_wf g → ug_wf (concrete.RemoveUndirectedEdge g e).
Proof.
  intros Hwf.
  destruct (nodeMap g !! ID e.1) as [x|] eqn:Hfrom;
    [destruct (nodeMap g !! ID e.2) as [y|] eqn:Hto|].
  2,3: destruct e as [from to]; unfold concrete.RemoveUndirectedEdge;
       simpl in *; rewrite Hfrom; try rewrite Hto; done.
  pose proof (neighbor_at_RemoveUndirectedEdge g e) as Hadj.
  destruct Hwf as [[Hdom Hids Hmax Hfree] Hsym].
  assert (nodeMap (concrete.RemoveUndirectedEdge g e) = nodeMap g
          ∧ maxID (concrete.RemoveUndirectedEdge g e) = maxID g
          ∧ freeMap (concrete.RemoveUndirectedEdge g e) = freeMap g
          ∧ ∀ id, is_Some (neighbors (concrete.RemoveUndirectedEdge g e) !! id)
                  ↔ is_Some (neighbors g !! id))
    as (Hnodes & HmaxID & Hfreemap & Hnb).
  { destruct e as [from to]. unfold concrete.RemoveUndirectedEdge.
    simpl in *. rewrite Hfrom, Hto. simpl. split_and!; [done..|].
    intros id. unfold concrete.delete_neighbor.
    destruct (decide (id = ID to)) as [->|?];
      [rewrite lookup_alter_eq|rewrite lookup_alter_ne by done];
      (destruct (decide (id = ID from)) as [->|?] ||
       destruct (decide (ID to = ID from)) as [->|?]);
      rewrite ?lookup_alter_eq, ?lookup_alter_ne by done;
      rewrite ?fmap_is_Some; done. }
  split; [split|].
  - intros id. by rewrite Hnb, Hnodes.
  - intros id m. rewrite Hnodes. apply Hids.
  - by rewrite HmaxID, Hnodes.
  - intros id. rewrite Hfreemap, Hnodes. apply Hfree.
  - intros a b. rewrite !Hadj by by eexists.
    destruct (decide ((a = ID e.1 ∧ b = ID e.2) ∨ (a = ID e.2 ∧ b = ID e.1)))
      as [Hab|Hab]; [by intros [? ?]|].
    intros Hedge. rewrite decide_False; [by apply Hsym|]. tauto.
Qed.

Lemma NewUndirectedGraph_wf (absent : float) :
  ug_wf (NewUndirectedGraph (N := N) absent).
Proof.
  split; [split|]; simpl.
  - intros id. by rewrite !lookup_empty.
  - intros id n. by rewrite lookup_empty.
  - split; [done|]. intros id. rewrite lookup_empty. by intros [? ?].
  - intros id. by rewrite elem_of_empty.
  - intros a b. unfold concrete.neighbor_at. simpl. rewrite lookup_empty.
    by intros [? ?].
Qed.

Lemma EmptyGraph_wf g : ug_wf g → ug_wf (concrete.EmptyGraph g).
Proof.
  intros [[_ _ [Hmax0 _] _] _]. split; [split|]; simpl.
  - intros id. by rewrite !lookup_empty.
  - intros id n. by rewrite lookup_empty.
  - split; [done|]. intros id. rewrite lookup_empty. by intros [? ?].
  - intros id _. apply lookup_empty.
  - intros a b. unfold concrete.neighbor_at. simpl. rewrite lookup_empty.
    by intros [? ?].
Qed.

Lemma built_wf g : built g → ug_wf g.
Proof.
  induction 1 as [absent|g n _ IH Hn|g e w g' _ IH Hadd|g n _ IH|g e _ IH
                  |g _ IH].
  - apply NewUndirectedGraph_wf.
  - by apply AddNode_wf.
  - destruct (AddUndirectedEdge_ok g e w IH) as (g'' & Heq & Hwf & _).
    rewrite Hadd in Heq. by injection Heq as <-.
  - by apply RemoveNode_wf.
  - by apply RemoveUndirectedEdge_wf.
  - by apply EmptyGraph_wf.
Qed.

Lemma Weight_neighbor_at g (e : N * N) :
  concrete.Weight g e
  = match concrete.neighbor_at g (ID e.1) (ID e.2) with
    | Some we => Weight we
    | None => absent g
    end.
Proof.
  unfold concrete.Weight, concrete.neighbor_at.
  by destruct (neighbors g !! ID e.1).
Qed.
Lemma HasEdge_neighbor_at g n m :
  concrete.HasEdge g n m
  = bool_decide (is_Some (concrete.neighbor_at g (ID n) (ID m))).
Proof. done. Qed.

(** X10.  On a well-formed graph [AddUndirectedEdge] does not panic and
    keeps the graph well formed; afterwards both end points are in the
    graph, [HasEdge] holds in both directions and [Weight] returns the
    weight given, in both directions; the edges and weights between other
    pairs of identifiers are as before. *)
Theorem AddUndirectedEdge_then_lookup g (from to : N) (w : float) :
  ug_wf g →
  ∃ g', AddUndirectedEdge g (from, to) w = Ok g' ∧ ug_wf g'
    ∧ Has g' from = true ∧ Has g' to = true
    ∧ concrete.HasEdge g' from to = true ∧ concrete.HasEdge g' to from = true
    ∧ concrete.Weight g' (from, to) = w ∧ concrete.Weight g' (to, from) = w
    ∧ ∀ c d : N,
        ¬ ((ID c = ID from ∧ ID d = ID to) ∨ (ID c = ID to ∧ ID d = ID from)) →
        concrete.HasEdge g' c d = concrete.HasEdge g c d
        ∧ concrete.Weight g' (c, d) = concrete.Weight g (c, d).
Proof.
  intros Hwf.
  destruct (AddUndirectedEdge_ok g (from, to) w Hwf)
    as (g' & Heq & Hwf' & Habs & Hnodes & _ & Hadj).
  simpl in *. exists g'. split_and!; [done..| | | | | | |].
  - apply Has_true, Hnodes. by left.
  - apply Has_true, Hnodes. right. by left.
  - apply HasEdge_true. rewrite Hadj, decide_True; [by eexists|by left].
  - apply HasEdge_true. rewrite Hadj, decide_True; [by eexists|by right].
  - rewrite Weight_neighbor_at. simpl. rewrite Hadj, decide_True; [done|by left].
  - rewrite Weight_neighbor_at. simpl.
    rewrite Hadj, decide_True; [done|by right].
  - intros c d Hcd. rewrite !HasEdge_neighbor_at, !Weight_neighbor_at. simpl.
    rewrite Hadj, decide_False by done. by rewrite Habs.
Qed.

(** X11.  [AddNode] of a node that is already in the graph empties the
    adjacency of that node and of that node only: an edge to it is still
    reported from its other end, no longer from the node itself. *)
Theorem AddNode_again_forgets_edges g (n m : N) :
  concrete.HasEdge g m n = true → ID m ≠ ID n →
  concrete.HasEdge (AddNode g n) m n = true
  ∧ concrete.HasEdge (AddNode g n) n m = false
  ∧ concrete.Degree (AddNode g n) n = 0%nat.
Proof.
  intros Hmn Hne. rewrite !HasEdge_neighbor_at, !neighbor_at_AddNode.
  rewrite decide_False by done. rewrite decide_True by done. split_and!.
  - done.
  - apply bool_decide_eq_false. by intros [? ?].
  - unfold concrete.Degree, AddNode. simpl. by rewrite !lookup_insert_eq.
Qed.

(** X12.  On a well-formed graph [RemoveNode] keeps the graph well formed,
    removes the node and every edge at it, and leaves the other nodes and
    the edges between them as they were; the order drops by one when the
    node was in the graph. *)
Theorem RemoveNode_removes_node_and_edges g (n : N) :
  ug_wf g →
  ug_wf (concrete.RemoveNode g n)
  ∧ Has (concrete.RemoveNode g n) n = false
  ∧ (∀ m : N, concrete.HasEdge (concrete.RemoveNode g n) n m = false
              ∧ concrete.HasEdge (concrete.RemoveNode g n) m n = false)
  ∧ (∀ a b : N, ID a ≠ ID n → ID b ≠ ID n →
       concrete.HasEdge (concrete.RemoveNode g n) a b = concrete.HasEdge g a b)
  ∧ (∀ m : N, ID m ≠ ID n → Has (concrete.RemoveNode g n) m = Has g m)
  ∧ concrete.Order (concrete.RemoveNode g n)
    = (concrete.Order g - (if Has g n then 1 else 0))%nat.
Proof.
  intros Hwf. split; [by apply RemoveNode_wf|].
  destruct (nodeMap g !! ID n) as [x|] eqn:Hn.
  - pose proof (λ a b, neighbor_at_RemoveNode g n a b (mk_is_Some _ _ Hn))
      as Hadj.
    assert (nodeMap (concrete.RemoveNode g n) = delete (ID n) (nodeMap g))
      as Hnodes.
    { unfold concrete.RemoveNode. by rewrite Hn. }
    split_and!.
    + apply Has_false. by rewrite Hnodes, lookup_delete_eq.
    + intros m. rewrite !HasEdge_neighbor_at, !Hadj. split.
      * rewrite decide_True by by left. apply bool_decide_eq_false.
        by intros [? ?].
      * apply bool_decide_eq_false. case_decide as Hdec; [by intros [? ?]|].
        intros Hmn. apply Hdec. right. split; [done|].
        by apply (ug_sym _ Hwf).
    + intros a b Ha Hb. rewrite !HasEdge_neighbor_at, Hadj.
      rewrite decide_False; [done|]. intros [?|[? _]]; done.
    + intros m Hm. unfold Has. by rewrite Hnodes, lookup_delete_ne.
    + unfold concrete.Order. rewrite Hnodes.
      replace (Has g n) with true by (symmetry; apply Has_true; by eexists).
      rewrite map_size_delete_Some by by eexists. lia.
  - rewrite RemoveNode_absent by done.
    assert (Has g n = false) as Hhas by by apply Has_false.
    split_and!; [done| |done..|rewrite Hhas; lia].
    intros m. rewrite !HasEdge_neighbor_at. split; apply bool_decide_eq_false.
    + by rewrite (neighbor_at_outside g n) by (done || apply Hwf).
    + intros Hmn%(ug_sym _ Hwf).
      rewrite (neighbor_at_outside g n) in Hmn by (done || apply Hwf).
      by destruct Hmn.
Qed.

(** X13.  [RemoveUndirectedEdge] between two nodes of the graph removes the
    edge in both directions and nothing else; when an end point is not in
    the graph it changes nothing. *)
Theorem RemoveUndirectedEdge_removes_edge g (from to : N) :
  (Has g from = true → Has g to = true →
   concrete.HasEdge (concrete.RemoveUndirectedEdge g (from, to)) from to = false
   ∧ concrete.HasEdge (concrete.RemoveUndirectedEdge g (from, to)) to from
     = false
   ∧ (∀ c d : N,
        ¬ ((ID c = ID from ∧ ID d = ID to) ∨ (ID c = ID to ∧ ID d = ID from)) →
        concrete.HasEdge (concrete.RemoveUndirectedEdge g (from, to)) c d
        = concrete.HasEdge g c d)
   ∧ ∀ m : N, Has (concrete.RemoveUndirectedEdge g (from, to)) m = Has g m)
  ∧ (Has g from = false ∨ Has g to = false →
     concrete.RemoveUndirectedEdge g (from, to) = g).
Proof.
  split.
  - intros Hfrom%Has_true Hto%Has_true.
    pose proof (λ a b, neighbor_at_RemoveUndirectedEdge g (from, to) a b
                         Hfrom Hto) as Hadj.
    simpl in Hadj. split_and!.
    + rewrite HasEdge_neighbor_at, Hadj, decide_True by by left.
      apply bool_decide_eq_false. by intros [? ?].
    + rewrite HasEdge_neighbor_at, Hadj, decide_True by by right.
      apply bool_decide_eq_false. by intros [? ?].
    + intros c d Hcd. by rewrite !HasEdge_neighbor_at, Hadj, decide_False.
    + intros m. destruct Hfrom as [x Hx], Hto as [y Hy].
      unfold concrete.RemoveUndirectedEdge. by rewrite Hx, Hy.
  - unfold concrete.RemoveUndirectedEdge.
    intros [Hfrom%Has_false|Hto%Has_false].
    + by rewrite Hfrom.
    + rewrite Hto. by destruct (nodeMap g !! ID from).
Qed.

Lemma first_unused_None steps i (nm : gmap Z N) j :
  concrete.first_unused steps i nm = Some j → nm !! j = None.
Proof.
  revert i. induction steps as [|steps IH]; intros i; simpl; [done|].
  destruct (nm !! i) eqn:Hi; [apply IH|]. by intros [= <-].
Qed.

(** X14.  On a graph whose books are in order, [NewNode] returns
    [maxID + 1] as long as [maxID] is not [maxInt], and whatever it returns
    is the identifier of no node of the graph; the nodes and edges of the
    graph are as before and its books stay in order. *)
Theorem NewNode_returns_unused_identifier (maxInt : Z)
    (first_key : gset Z → option Z) g :
  (∀ s id, first_key s = Some id → id ∈ s) →
  ug_stored g →
  (maxID g ≠ maxInt →
   ∃ g', concrete.NewNode maxInt first_key g = Ok (g', (maxID g + 1)%Z))
  ∧ ∀ g' id, concrete.NewNode maxInt first_key g = Ok (g', id) →
      nodeMap g !! id = None ∧ nodeMap g' = nodeMap g
      ∧ neighbors g' = neighbors g ∧ ug_stored g'.
Proof.
  intros Hkey Hst. unfold concrete.NewNode. split.
  { intros Hmax. rewrite decide_True by done. by eexists. }
  intros g' id. destruct Hst as [Hdom Hids [Hmax0 Hmax] Hfree].
  case_decide as Hdec.
  - intros [= <- <-]. simpl. split_and!; [|done..|].
    + apply eq_None_not_Some. intros Hin%Hmax. lia.
    + split; simpl; [done..| |done]. split; [lia|].
      intros id Hid%Hmax. lia.
  - destruct (first_key (freeMap g)) as [k|] eqn:Hk.
    + intros [= <- <-]. split_and!; [|done..]. by apply Hfree, Hkey.
    + case_decide; [done|].
      destruct (concrete.first_unused _ _ _) as [i|] eqn:Hi; [|done].
      intros [= <- <-]. split_and!; [|done..]. by eapply first_unused_None.
Qed.

(** X15.  In a graph built by the methods, no node being added twice,
    [HasEdge] is symmetric and holds between nodes of the graph only,
    [EdgeBetween] returns a stored edge exactly where [HasEdge] holds,
    [From] lists as many nodes as [Degree] counts, none of them nil and all
    of them adjacent, [Nodes] lists nodes of the graph, as many as [Order]
    counts, and no identifier in use exceeds [maxID]. *)
Theorem built_graph_is_consistent g :
  built g →
  (∀ a b : N, concrete.HasEdge g a b = concrete.HasEdge g b a)
  ∧ (∀ a b : N, concrete.HasEdge g a b = true →
       Has g a = true ∧ Has g b = true)
  ∧ (∀ a b : N, concrete.HasEdge g a b = true
       ↔ ∃ we, concrete.EdgeBetween g a b = concrete.StoredEdge we)
  ∧ (∀ n : N, length (concrete.From g n) = concrete.Degree g n
       ∧ ∀ x, x ∈ concrete.From g n →
           ∃ m, x = Some m ∧ concrete.HasEdge g n m = true)
  ∧ (∀ n : N, n ∈ concrete.Nodes g → Has g n = true)
  ∧ length (concrete.Nodes g) = concrete.Order g
  ∧ (∀ n : N, Has g n = true → (ID n ≤ maxID g)%Z).
Proof.
  intros [[Hdom Hids [_ Hmax] _] Hsym]%built_wf.
  assert (∀ a b : Z, is_Some (concrete.neighbor_at g a b) →
            is_Some (nodeMap g !! a)) as Hin.
  { intros a b (around & Ha & _)%neighbor_at_Some. apply Hdom.
    by rewrite Ha. }
  split_and!.
  - intros a b. rewrite !HasEdge_neighbor_at. apply bool_decide_ext.
    split; apply Hsym.
  - intros a b Hab%HasEdge_true. split; apply Has_true.
    + by apply (Hin _ (ID b)).
    + apply (Hin _ (ID a)). by apply Hsym.
  - intros a b. rewrite HasEdge_true. unfold concrete.EdgeBetween.
    destruct (concrete.neighbor_at g (ID a) (ID b)) as [we|] eqn:Hab.
    + assert (Has g a = true) as ->.
      { apply Has_true, (Hin _ (ID b)). by rewrite Hab. }
      simpl. split; [by eexists|by eexists].
    + split; [by intros [? ?]|]. intros [we Hwe]. by destruct (Has g a).
  - intros n. unfold concrete.From, concrete.Degree.
    destruct (Has g n) eqn:Hn; simpl.
    + apply Has_true in Hn as Hn'. destruct Hn' as [x Hx]. rewrite Hx.
      split.
      { by rewrite !length_fmap, length_map_to_list. }
      intros y (id & -> & Hid)%list_elem_of_fmap.
      apply list_elem_of_fmap in Hid as ([id' we] & -> & Hwe%elem_of_map_to_list).
      simpl.
      assert (concrete.neighbor_at g (ID n) id' = Some we) as Hadj.
      { unfold concrete.neighbor_at.
        destruct (neighbors g !! ID n) as [around|]; simpl in *; [done|].
        by rewrite lookup_empty in Hwe. }
      destruct (Hin id' (ID n)) as [m Hm].
      { apply Hsym. by rewrite Hadj. }
      exists m. split; [done|]. apply HasEdge_true.
      rewrite (Hids _ _ Hm), Hadj. by eexists.
    + apply Has_false in Hn. rewrite Hn. split; [done|].
      by intros x ?%elem_of_nil.
  - intros n. unfold concrete.Nodes.
    intros ([id m] & -> & Hm%elem_of_map_to_list)%list_elem_of_fmap.
    simpl. apply Has_true. rewrite (Hids _ _ Hm). by eexists.
  - unfold concrete.Nodes, concrete.Order.
    by rewrite length_fmap, length_map_to_list.
  - intros n Hn%Has_true. by apply Hmax.
Qed.
End UndirectedGraph.

Section Copy.
Context {N : Type} `{!Node N}.

Lemma NoDup_ID_inj (l : list N) (x y : N) :
  NoDup (ID <$> l) → x ∈ l → y ∈ l → ID x = ID y → x = y.
Proof.
  induction l as [|z l IH]; [by intros _ ?%elem_of_nil|].
  rewrite fmap_cons, NoDup_cons.
  intros [Hz Hl] [->|Hx]%elem_of_cons [->|Hy]%elem_of_cons Hid.
  - done.
  - destruct Hz. rewrite Hid. by apply list_elem_of_fmap_2.
  - destruct Hz. rewrite <-Hid. by apply list_elem_of_fmap_2.
  - by apply IH.
Qed.

(** X16.  [CopyUndirected] of a graph into a new [UndirectedGraph].  When
    the nodes of the source have pairwise different identifiers, the
    successors of a node are nodes, the successor lists are symmetric and
    [EdgeBetween] returns, for a node and a successor, an edge between the
    two, the copy succeeds and is well formed, its nodes are those of the
    source, and it has an edge from a node of the source to exactly the
    successors of that node. *)
Theorem CopyUndirected_copies_adjacency (src : Graph N)
    (EdgeBetween : N → N → Edge N) (absent : float) :
  NoDup (ID <$> Nodes src) →
  (∀ u v, u ∈ Nodes src → v ∈ From src u → ID v ∈ ID <$> Nodes src) →
  (∀ u v v', u ∈ Nodes src → v ∈ Nodes src → v' ∈ From src u →
     ID v' = ID v → ∃ u', u' ∈ From src v ∧ ID u' = ID u) →
  (∀ u v, u ∈ Nodes src → v ∈ From src u →
     ∃ a b, EdgeBetween u v = Some (a, b)
            ∧ ((ID a = ID u ∧ ID b = ID v) ∨ (ID a = ID v ∧ ID b = ID u))) →
  ∃ dst, CopyUndirected (NewUndirectedGraph absent) src EdgeBetween = Ok dst
    ∧ ug_wf dst
    ∧ (∀ n, Has dst n = true ↔ ID n ∈ ID <$> Nodes src)
    ∧ ∀ u v, u ∈ Nodes src →
        (concrete.HasEdge dst u v = true ↔ ∃ v', v' ∈ From src u ∧ ID v' = ID v).
Proof.
  intros Hnodup Hclosed Hsym Hedge. unfold CopyUndirected.
  set (cost := match Weighter src with Some c => c | None => _ end).
  set (adjP := λ (P : list N) (a b : Z),
         ∃ u v, u ∈ P ∧ v ∈ From src u
                ∧ ((ID u = a ∧ ID v = b) ∨ (ID u = b ∧ ID v = a))).
  set (nodesP := λ (P : list N) (id : Z),
         id ∈ ID <$> P ∨ ∃ u v, u ∈ P ∧ v ∈ From src u ∧ ID v = id).
  set (I := λ (P : list N) (d : UndirectedGraph N),
         ug_stored d
         ∧ (∀ id, is_Some (nodeMap d !! id) ↔ nodesP P id)
         ∧ ∀ a b, is_Some (concrete.neighbor_at d a b) ↔ adjP P a b).
  destruct (for_range_prefix_inv I (Nodes src)
              (λ dst node,
                 for_range (From src node)
                   (λ dst succ,
                      match EdgeBetween node succ with
                      | None => nil_dereference
                      | Some e =>
                        AddUndirectedEdge dst e (cost (EdgeBetween node succ))
                      end)
                   (AddNode dst node))
              (NewUndirectedGraph absent))
    as (dst & Hcopy & Hst & Hnodes & Hadj).
  { split_and!.
    - apply NewUndirectedGraph_wf.
    - intros id. simpl. rewrite lookup_empty. split; [by intros [? ?]|].
      intros [?%elem_of_nil|(u & v & ?%elem_of_nil & _)]; done.
    - intros a b. unfold concrete.neighbor_at. simpl. rewrite lookup_empty.
      split; [by intros [? ?]|]. by intros (u & v & ?%elem_of_nil & _). }
  { intros P n post d HP (Hst & Hnodes & Hadj).
    assert (n ∈ Nodes src) as Hn.
    { rewrite HP. apply elem_of_app. right. by left. }
    assert (∀ u, u ∈ P → u ∈ Nodes src) as HPsub.
    { intros u Hu. rewrite HP. apply elem_of_app. by left. }
    assert (ID n ∉ ID <$> P) as Hfresh.
    { rewrite HP, fmap_app, fmap_cons in Hnodup.
      apply NoDup_app in Hnodup as (_ & Hdisj & _). intros Hin.
      apply (Hdisj _ Hin). by left. }
    set (J := λ (seen : list N) (d' : UndirectedGraph N),
           ug_stored d'
           ∧ (∀ id, is_Some (nodeMap d' !! id)
                    ↔ nodesP P id ∨ id = ID n ∨ id ∈ ID <$> seen)
           ∧ ∀ a b, is_Some (concrete.neighbor_at d' a b)
                    ↔ (a ≠ ID n ∧ adjP P a b)
                      ∨ ∃ v, v ∈ seen ∧ ((a = ID n ∧ b = ID v)
                                         ∨ (a = ID v ∧ b = ID n))).
    destruct (for_range_prefix_inv J (From src n)
                (λ dst succ,
                   match EdgeBetween n succ with
                   | None => nil_dereference
                   | Some e =>
                     AddUndirectedEdge dst e (cost (EdgeBetween n succ))
                   end)
                (AddNode d n))
      as (d' & Hinner & Hst' & Hnodes' & Hadj').
    { split_and!.
      - by apply AddNode_stored.
      - intros id. simpl. rewrite lookup_insert_is_Some, Hnodes.
        split.
        + intros [<-|[_ ?]]; [right; by left|by left].
        + intros [?|[->|?%elem_of_nil]]; [|by left|done].
          destruct (decide (ID n = id)); [by left|right; by split].
      - intros a b. rewrite neighbor_at_AddNode. case_decide as Ha.
        + split; [by intros [? ?]|].
          intros [[? _]|(v & ?%elem_of_nil & _)]; done.
        + rewrite Hadj. split; [intros ?; by left|].
          intros [[_ ?]|(v & ?%elem_of_nil & _)]; done. }
    { intros seen v post' d0 Hfrom (Hst0 & Hnodes0 & Hadj0).
      assert (v ∈ From src n) as Hv.
      { rewrite Hfrom. apply elem_of_app. right. by left. }
      destruct (Hedge n v Hn Hv) as (x & y & -> & Hxy).
      destruct (AddUndirectedEdge_adj d0 (x, y) (cost (Some (x, y))) Hst0)
        as (d1 & -> & Hst1 & _ & Hnodes1 & _ & Hadj1).
      simpl in *. exists d1. split; [done|]. split_and!.
      - done.
      - intros id. rewrite Hnodes1, Hnodes0, fmap_app, elem_of_app. simpl.
        rewrite list_elem_of_singleton.
        destruct Hxy as [[-> ->]|[-> ->]]; tauto.
      - intros a b. rewrite Hadj1.
        assert ((a = ID x ∧ b = ID y) ∨ (a = ID y ∧ b = ID x)
                ↔ (a = ID n ∧ b = ID v) ∨ (a = ID v ∧ b = ID n)) as Hswap.
        { destruct Hxy as [[-> ->]|[-> ->]]; tauto. }
        case_decide as Hdec.
        + split; [|by eexists]. intros _. right. exists v.
          split; [|by apply Hswap]. apply elem_of_app. right. by left.
        + rewrite Hadj0. split.
          * intros [?|(w & Hw & ?)]; [by left|right]. exists w.
            split; [|done]. apply elem_of_app. by left.
          * intros [?|(w & [Hw| ->%list_elem_of_singleton]%elem_of_app & Hor)];
              [by left| |].
            -- right. by exists w.
            -- destruct Hdec. by apply Hswap. }
    exists d'. split; [done|]. split_and!.
    - done.
    - intros id. rewrite Hnodes'. unfold nodesP.
      rewrite fmap_app, elem_of_app. simpl. rewrite list_elem_of_singleton.
      split.
      + intros [[?|(u & v & Hu & Hv & Hid)]|[->|Hin]].
        * left. by left.
        * right. exists u, v. split; [|done]. apply elem_of_app. by left.
        * left. by right.
        * apply list_elem_of_fmap in Hin as (v & -> & Hv). right.
          exists n, v. split; [|done]. apply elem_of_app. right. by left.
      + intros [[?|?]|(u & v & [Hu| ->%list_elem_of_singleton]%elem_of_app
                       & Hv & Hid)].
        * left. by left.
        * right. by left.
        * left. right. by exists u, v.
        * right. right. rewrite <-Hid. by apply list_elem_of_fmap_2.
    - intros a b. rewrite Hadj'. unfold adjP. split.
      + intros [[_ (u & v & Hu & Hv & Hor)]|(v & Hv & Hor)].
        * exists u, v. split; [|done]. apply elem_of_app. by left.
        * exists n, v. split; [apply elem_of_app; right; by left|].
          split; [done|]. destruct Hor as [[-> ->]|[-> ->]]; auto.
      + intros (u & v & [Hu| ->%list_elem_of_singleton]%elem_of_app & Hv & Hor).
        * destruct (decide (a = ID n)) as [->|Ha].
          2:{ left. split; [done|]. by exists u, v. }
          destruct Hor as [[Hid _]|[<- Hid]].
          { destruct Hfresh. rewrite <-Hid. by apply list_elem_of_fmap_2. }
          destruct (Hsym u n v (HPsub u Hu) Hn Hv Hid) as (u' & Hu' & Hid').
          right. exists u'. split; [done|]. left. by rewrite Hid'.
        * right. exists v. split; [done|].
          destruct Hor as [[<- <-]|[<- <-]]; auto. }
  exists dst. split; [done|].
  assert (∀ a b, adjP (Nodes src) a b → adjP (Nodes src) b a) as Hflip.
  { intros a b (u & v & Hu & Hv & Hor). exists u, v. tauto. }
  split_and!.
  - split; [done|]. intros a b. rewrite !Hadj. apply Hflip.
  - intros n. rewrite Has_true, Hnodes. unfold nodesP. split; [|by left].
    intros [?|(u & v & Hu & Hv & <-)]; [done|]. by apply (Hclosed u).
  - intros u v Hu. rewrite HasEdge_true, Hadj. unfold adjP. split.
    + intros (u0 & v0 & Hu0 & Hv0 & [[Hid1 Hid2]|[Hid1 Hid2]]).
      * rewrite (NoDup_ID_inj _ _ _ Hnodup Hu0 Hu Hid1) in Hv0. by exists v0.
      * destruct (Hsym u0 u v0 Hu0 Hu Hv0 Hid2) as (u' & Hu' & Hid').
        exists u'. split; [done|]. by rewrite Hid'.
    + intros (v' & Hv' & Hid). exists u, v'. auto.
Qed.
End Copy.
End concrete_facts.

Module concrete_witnesses.
Import examples inputs structure concrete_spec concrete_facts.

(** The graph with the single edge 1 - 0 of weight 1. *)
Lemma one_edge_built : built (dst attached_1).
Proof.
  apply (built_AddUndirectedEdge (AddNode (NewUndirectedGraph inf) 0%Z)
           (1, 0)%Z 1%float).
  - apply built_AddNode; [apply built_New|]. vm_compute. reflexivity.
  - vm_compute. reflexivity.
Defined.

Lemma AddUndirectedEdge_then_lookup_witness :
  ∃ g', AddUndirectedEdge (dst attached_1) (1, 2)%Z 1%float = Ok g'
    ∧ ug_wf g'
    ∧ Has g' 1%Z = true ∧ Has g' 2%Z = true
    ∧ concrete.HasEdge g' 1%Z 2%Z = true ∧ concrete.HasEdge g' 2%Z 1%Z = true
    ∧ concrete.Weight g' (1, 2)%Z = 1%float
    ∧ concrete.Weight g' (2, 1)%Z = 1%float
    ∧ ∀ c d : Z,
        ¬ ((ID c = ID 1%Z ∧ ID d = ID 2%Z) ∨ (ID c = ID 2%Z ∧ ID d = ID 1%Z)) →
        concrete.HasEdge g' c d = concrete.HasEdge (dst attached_1) c d
        ∧ concrete.Weight g' (c, d) = concrete.Weight (dst attached_1) (c, d).
Proof.
  apply (AddUndirectedEdge_then_lookup (dst attached_1) 1%Z 2%Z 1%float).
  apply built_wf, one_edge_built.
Defined.

Lemma AddNode_again_forgets_edges_witness :
  concrete.HasEdge (AddNode (dst attached_1) 1%Z) 0%Z 1%Z = true
  ∧ concrete.HasEdge (AddNode (dst attached_1) 1%Z) 1%Z 0%Z = false
  ∧ concrete.Degree (AddNode (dst attached_1) 1%Z) 1%Z = 0%nat.
Proof.
  apply (AddNode_again_forgets_edges (dst attached_1) 1%Z 0%Z).
  - vm_compute. reflexivity.
  - vm_compute. discriminate.
Defined.

Lemma RemoveNode_removes_node_and_edges_witness :
  ug_wf (concrete.RemoveNode (dst attached_1) 1%Z)
  ∧ Has (concrete.RemoveNode (dst attached_1) 1%Z) 1%Z = false
  ∧ (∀ m : Z,
       concrete.HasEdge (concrete.RemoveNode (dst attached_1) 1%Z) 1%Z m = false
       ∧ concrete.HasEdge (concrete.RemoveNode (dst attached_1) 1%Z) m 1%Z
         = false)
  ∧ (∀ a b : Z, ID a ≠ ID 1%Z → ID b ≠ ID 1%Z →
       concrete.HasEdge (concrete.RemoveNode (dst attached_1) 1%Z) a b
       = concrete.HasEdge (dst attached_1) a b)
  ∧ (∀ m : Z, ID m ≠ ID 1%Z →
       Has (concrete.RemoveNode (dst attached_1) 1%Z) m
       = Has (dst attached_1) m)
  ∧ concrete.Order (concrete.RemoveNode (dst attached_1) 1%Z)
    = (concrete.Order (dst attached_1)
       - (if Has (dst attached_1) 1%Z then 1 else 0))%nat.
Proof.
  apply (RemoveNode_removes_node_and_edges (dst attached_1) 1%Z).
  apply built_wf, one_edge_built.
Defined.

Lemma built_graph_is_consistent_witness :
  (∀ a b : Z, concrete.HasEdge (dst attached_1) a b
              = concrete.HasEdge (dst attached_1) b a)
  ∧ (∀ a b : Z, concrete.HasEdge (dst attached_1) a b = true →
       Has (dst attached_1) a = true ∧ Has (dst attached_1) b = true)
  ∧ (∀ a b : Z, concrete.HasEdge (dst attached_1) a b = true
       ↔ ∃ we, concrete.EdgeBetween (dst attached_1) a b
               = concrete.StoredEdge we)
  ∧ (∀ n : Z,
       length (concrete.From (dst attached_1) n)
       = concrete.Degree (dst attached_1) n
       ∧ ∀ x, x ∈ concrete.From (dst attached_1) n →
           ∃ m, x = Some m ∧ concrete.HasEdge (dst attached_1) n m = true)
  ∧ (∀ n : Z, n ∈ concrete.Nodes (dst attached_1) →
       Has (dst attached_1) n = true)
  ∧ length (concrete.Nodes (dst attached_1)) = concrete.Order (dst attached_1)
  ∧ (∀ n : Z, Has (dst attached_1) n = true →
       (ID n ≤ maxID (dst attached_1))%Z).
Proof.
  apply (built_graph_is_consistent (dst attached_1)), one_edge_built.
Defined.

Lemma NewNode_returns_unused_identifier_witness :
  (maxID (dst attached_1) ≠ 9223372036854775807%Z →
   ∃ g', concrete.NewNode 9223372036854775807%Z
           (λ s, head (elements s)) (dst attached_1)
         = Ok (g', (maxID (dst attached_1) + 1)%Z))
  ∧ ∀ g' id,
      concrete.NewNode 9223372036854775807%Z (λ s, head (elements s))
        (dst attached_1) = Ok (g', id) →
      nodeMap (dst attached_1) !! id = None
      ∧ nodeMap g' = nodeMap (dst attached_1)
      ∧ neighbors g' = neighbors (dst attached_1) ∧ ug_stored g'.
Proof.
  apply (NewNode_returns_unused_identifier 9223372036854775807%Z
           (λ s, head (elements s)) (dst attached_1)).
  - intros s id Hid. apply elem_of_elements.
    destruct (elements s) as [|x l]; [done|]. injection Hid as ->. by left.
  - apply built_wf, one_edge_built.
Defined.

(** The path 0 - 1 - 2 as a source of [CopyUndirected]. *)
Lemma CopyUndirected_copies_adjacency_witness :
  ∃ copy,
    CopyUndirected (NewUndirectedGraph inf) star
      (examples.edge_of (symmetric [(1, 0, 1%float); (1, 2, 1%float)]%Z))
    = Ok copy
    ∧ ug_wf copy
    ∧ (∀ n : Z, Has copy n = true ↔ ID n ∈ ID <$> Nodes star)
    ∧ ∀ u v : Z, u ∈ Nodes star →
        (concrete.HasEdge copy u v = true
         ↔ ∃ v', v' ∈ From star u ∧ ID v' = ID v).
Proof.
  assert (∀ u v : Z, u ∈ [0; 1; 2]%Z →
            v ∈ succs (symmetric [(1, 0, 1%float); (1, 2, 1%float)]%Z) u →
            (u = 0 ∧ v = 1) ∨ (u = 1 ∧ v = 0) ∨ (u = 1 ∧ v = 2)
            ∨ (u = 2 ∧ v = 1))%Z as Hcases.
  { intros u v Hu Hv. apply list_elem_of_In in Hu, Hv.
    destruct Hu as [<-|[<-|[<-|[]]]]; vm_compute in Hv;
      intuition congruence. }
  apply (CopyUndirected_copies_adjacency star
           (examples.edge_of (symmetric [(1, 0, 1%float); (1, 2, 1%float)]%Z))
           inf).
  - vm_compute. repeat constructor; set_solver.
  - intros u v Hu Hv. apply list_elem_of_In.
    destruct (Hcases u v Hu Hv) as [[-> ->]|[[-> ->]|[[-> ->]|[-> ->]]]];
      vm_compute; tauto.
  - intros u v v' Hu _ Hv' Hid. change (v' = v) in Hid. subst v.
    destruct (Hcases u v' Hu Hv') as [[-> ->]|[[-> ->]|[[-> ->]|[-> ->]]]].
    + exists 0%Z. split; [|done]. apply list_elem_of_In. vm_compute. tauto.
    + exists 1%Z. split; [|done]. apply list_elem_of_In. vm_compute. tauto.
    + exists 1%Z. split; [|done]. apply list_elem_of_In. vm_compute. tauto.
    + exists 2%Z. split; [|done]. apply list_elem_of_In. vm_compute. tauto.
  - intros u v Hu Hv. exists u, v.
    destruct (Hcases u v Hu Hv) as [[-> ->]|[[-> ->]|[[-> ->]|[-> ->]]]];
      (split; [vm_compute; reflexivity|by left]).
Defined.
End concrete_witnesses.

(** ** container/heap below a bound

    [down h i n] and, for [j < n], [up h j] call [Less] and [Swap] at
    positions below [n] only. *)

Module heap_below_facts.
Section Below.
Context {H X : Type} `{!Interface.t H X}.
Variable ok : H → Prop.
Variable R : H → H → Prop.
Variable n : nat.
Hypothesis R_refl : ∀ h, R h h.
Hypothesis R_trans : ∀ h1 h2 h3, R h1 h2 → R h2 h3 → R h1 h3.
Hypothesis Less_ok : ∀ h i j,
  ok h → (i < n)%nat → (j < n)%nat → ∃ b, Interface.Less h i j = Ok b.
Hypothesis Swap_ok : ∀ h i j,
  ok h → (i < n)%nat → (j < n)%nat →
  ∃ h', Interface.Swap h i j = Ok h' ∧ ok h' ∧ R h h'.

Lemma up_loop_below fuel h j :
  ok h → (j < n)%nat → (j < fuel)%nat →
  ∃ h', heap.up_loop fuel h j = Ok h' ∧ ok h' ∧ R h h'.
Proof.
  revert h j. induction fuel as [|fuel IH]; intros h j Hok Hj Hfuel; [lia|].
  cbn [heap.up_loop]. cbv zeta.
  case_decide as Hparent; [by eauto|].
  assert ((j - 1) / 2 < j)%nat as Hlt.
  { destruct j as [|j]; [done|]. apply Nat.Div0.div_lt_upper_bound; lia. }
  destruct (Less_ok h j ((j - 1) / 2) Hok) as [b ->]; [lia..|]. bind_ok.
  destruct b; bind_ok; [|by eauto].
  destruct (Swap_ok h ((j - 1) / 2) j Hok) as (h1 & -> & Hok1 & HR1);
    [lia..|]. bind_ok.
  destruct (IH h1 ((j - 1) / 2)%nat) as (h2 & -> & Hok2 & HR2); [done|lia..|].
  eauto.
Qed.

Lemma down_loop_below fuel h i :
  ok h → (n < fuel + i)%nat → (0 < fuel)%nat →
  ∃ h' i', heap.down_loop fuel h i n = Ok (h', i') ∧ ok h' ∧ R h h'.
Proof.
  revert h i. induction fuel as [|fuel IH]; intros h i Hok Hfuel Hpos; [lia|].
  cbn [heap.down_loop]. cbv zeta.
  case_decide as Hleaf; [by eauto|].
  assert (∃ b, (if decide (2 * i + 1 + 1 < n)%nat
                then Interface.Less h (2 * i + 1 + 1)%nat (2 * i + 1)%nat
                else Ok false) = Ok b
               ∧ (b = true → 2 * i + 1 + 1 < n)%nat) as (b & -> & Hb).
  { case_decide; [|by exists false].
    destruct (Less_ok h (2 * i + 1 + 1)%nat (2 * i + 1)%nat) as [b ->];
      [done|lia..|]. eauto. }
  bind_ok.
  set (j := if b then (2 * i + 1 + 1)%nat else (2 * i + 1)%nat).
  assert (i < j ∧ j < n)%nat as [Hij Hjn].
  { subst j. destruct b; [|lia]. specialize (Hb eq_refl). lia. }
  destruct (Less_ok h j i Hok) as [lt ->]; [lia..|]. bind_ok.
  destruct lt; bind_ok; [|by eauto].
  destruct (Swap_ok h i j Hok) as (h1 & -> & Hok1 & HR1); [lia..|]. bind_ok.
  destruct (IH h1 j) as (h2 & i2 & -> & Hok2 & HR2); [done|lia..|].
  eauto 6.
Qed.

(** The step that [Fix] and [Remove] share: sift down, and up when the
    element did not move. *)
Lemma sift_below h i :
  ok h → (i < n)%nat →
  ∃ h', ('(h2, moved) ← heap.down h i n;
         if (moved : bool) then Ok h2 else heap.up h2 i) = Ok h'
        ∧ ok h' ∧ R h h'.
Proof.
  intros Hok Hi. unfold heap.down.
  destruct (down_loop_below (S n) h i) as (h1 & i1 & -> & Hok1 & HR1);
    [done|lia..|].
  bind_ok. case_bool_decide; [by eauto|].
  destruct (up_loop_below (S i) h1 i) as (h2 & Hup & Hok2 & HR2);
    [done|lia..|].
  unfold heap.up. rewrite Hup. eauto.
Qed.
End Below.
End heap_below_facts.

(** ** The D* Lite queue *)

Module dstar_queue_facts.
Import dynamic dstar_queue_spec.
Section Queue.
Context {N : Type} `{!Node N}.
Implicit Types (h : queueHeap N).

Lemma memory_lookup_insert (m : memory N) p q x :
  <[p := x]> m !! q = if decide (p = q) then Some x else m !! q.
Proof. unfold memory in *. apply lookup_insert. Qed.

Lemma queued_unique h i j id :
  queue_wf h → queued h i id → queued h j id → i = j.
Proof.
  intros [_ Hwf] Hi Hj. apply Hwf in Hi, Hj. congruence.
Qed.

Lemma queue_has_queued h id :
  queue_wf h →
  (queue_has h.2 id = true
   ↔ ∃ p n, p ∈ nodes h.2 ∧ h.1 !! p = Some n ∧ ID (node_of n) = id).
Proof.
  intros [_ Hwf]. unfold queue_has. rewrite bool_decide_eq_true. split.
  - intros [i Hi]. apply Hwf in Hi as (p & n & Hp & Hn & Hid).
    exists p, n. split_and!; [by eapply list_elem_of_lookup_2|done..].
  - intros (p & n & Hp & Hn & Hid). apply list_elem_of_lookup in Hp as [i Hi].
    exists i. apply Hwf. by exists p, n.
Qed.

(** Queues over the same memory with the same pointers hold the same
    identifiers. *)
Lemma same_has h h' id :
  queue_wf h → queue_wf h' → h'.1 = h.1 →
  (∀ p, p ∈ nodes h'.2 ↔ p ∈ nodes h.2) →
  queue_has h'.2 id = queue_has h.2 id.
Proof.
  intros Hwf Hwf' Hmem Hel. apply eq_true_iff_eq.
  rewrite !queue_has_queued by done. rewrite Hmem.
  split; intros (p & n & Hp & Hn); exists p, n; (split; [by apply Hel|done]).
Qed.

Lemma empty_queue_wf (m : memory N) :
  queue_wf (m, {| indexOf := ∅; nodes := [] |}).
Proof.
  split; simpl.
  - intros p Hp. by apply elem_of_nil in Hp.
  - intros id i. rewrite lookup_empty. split; [done|].
    by intros (p & n & Hp & _).
Qed.

Lemma same_queue_refl n h : same_queue n h h.
Proof. by split_and!. Qed.

Lemma same_queue_trans n h1 h2 h3 :
  same_queue n h1 h2 → same_queue n h2 h3 → same_queue n h1 h3.
Proof.
  intros (Hm1 & Hl1 & He1 & Hd1) (Hm2 & Hl2 & He2 & Hd2).
  split_and!; [congruence..| |congruence].
  intros p. by rewrite He2, He1.
Qed.

Lemma queue_Less_ok h i j :
  queue_wf h → (i < length (nodes h.2))%nat → (j < length (nodes h.2))%nat →
  ∃ b, queue_Less h i j = Ok b.
Proof.
  intros [Hall _] Hi Hj. unfold queue_Less, at_index, deref.
  destruct (lookup_lt_is_Some_2 _ _ Hi) as [a Ha].
  destruct (lookup_lt_is_Some_2 _ _ Hj) as [b Hb].
  destruct (Hall a) as [na Hna]; [by eapply list_elem_of_lookup_2|].
  destruct (Hall b) as [nb Hnb]; [by eapply list_elem_of_lookup_2|].
  rewrite Ha, Hb. simpl. rewrite Hna. simpl. rewrite Hnb. simpl. eauto.
Qed.

Lemma swap_elem_of {A} (l : list A) i j a b x :
  l !! i = Some a → l !! j = Some b →
  x ∈ <[j:=a]> (<[i:=b]> l) ↔ x ∈ l.
Proof.
  intros Ha Hb. pose proof (queue_facts.swap_lookup l i j a b) as Hk.
  split; intros Hx; apply list_elem_of_lookup in Hx as [k Hx].
  - rewrite Hk in Hx by done.
    repeat case_decide; simplify_eq; by eapply list_elem_of_lookup_2.
  - apply list_elem_of_lookup.
    destruct (decide (k = i)) as [->|Hki].
    + exists j. rewrite Hk by done. rewrite decide_True by done. congruence.
    + destruct (decide (k = j)) as [->|Hkj].
      * exists i. rewrite Hk by done.
        destruct (decide (i = j)); [congruence|].
        rewrite decide_True by done. congruence.
      * exists k. rewrite Hk by done. by rewrite !decide_False by done.
Qed.

Lemma queue_Swap_ok h i j a b :
  queue_wf h → nodes h.2 !! i = Some a → nodes h.2 !! j = Some b →
  ∃ h', queue_Swap h i j = Ok h' ∧ queue_wf h' ∧ h'.1 = h.1
        ∧ nodes h'.2 = <[j:=a]> (<[i:=b]> (nodes h.2)).
Proof.
  intros Hwf Ha Hb. pose proof Hwf as [Hall Hidx].
  destruct (Hall a) as [na Hna]; [by eapply list_elem_of_lookup_2|].
  destruct (Hall b) as [nb Hnb]; [by eapply list_elem_of_lookup_2|].
  unfold queue_Swap, at_index, node_ID, deref.
  rewrite Ha. simpl. rewrite Hna. simpl. rewrite Hb. simpl. rewrite Hnb. simpl.
  eexists. split; [done|]. split; [|done].
  pose proof (queue_facts.swap_lookup (nodes h.2) i j a b) as Hk.
  assert (queued h i (ID (node_of na))) as Hqa by by exists a, na.
  assert (queued h j (ID (node_of nb))) as Hqb by by exists b, nb.
  split; simpl.
  - intros p Hp. apply Hall. by apply (swap_elem_of _ i j a b p Ha Hb) in Hp.
  - intros id k. unfold queued. simpl. rewrite !lookup_insert.
    destruct (decide (ID (node_of nb) = id)) as [<-|Hidb].
    + split.
      * intros [= <-]. rewrite Hk by done.
        destruct (decide (i = j)) as [->|Hij].
        -- exists a, na. split_and!; [done..|]. congruence.
        -- rewrite decide_True by done. by exists b, nb.
      * intros (p & n & Hp & Hn & Hid). f_equal.
        rewrite Hk in Hp by done.
        destruct (decide (k = j)) as [->|Hkj].
        -- injection Hp as <-. eapply (queued_unique h); [done| |done].
           exists a, na. split_and!; [done..|]. congruence.
        -- destruct (decide (k = i)) as [->|Hki]; [done|].
           destruct Hkj. eapply (queued_unique h); [done| |done].
           by exists p, n.
    + destruct (decide (ID (node_of na) = id)) as [<-|Hida].
      * split.
        -- intros [= <-]. rewrite Hk by done. rewrite decide_True by done.
           by exists a, na.
        -- intros (p & n & Hp & Hn & Hid). f_equal.
           rewrite Hk in Hp by done.
           destruct (decide (k = j)) as [->|Hkj]; [done|].
           destruct (decide (k = i)) as [->|Hki].
           ++ injection Hp as <-. congruence.
           ++ destruct Hki. eapply (queued_unique h); [done| |done].
              by exists p, n.
      * rewrite Hidx. unfold queued.
        split; intros (p & n & Hp & Hn & Hid); exists p, n;
          (split; [|done]).
        -- rewrite Hk by done.
           rewrite decide_False by (intros ->; congruence).
           rewrite decide_False by (intros ->; congruence). done.
        -- rewrite Hk in Hp by done.
           destruct (decide (k = j)); [congruence|].
           destruct (decide (k = i)); [congruence|]. done.
Qed.

Lemma queue_Swap_below n h i j :
  sifting n h → (i < n)%nat → (j < n)%nat →
  ∃ h', queue_Swap h i j = Ok h' ∧ sifting n h' ∧ same_queue n h h'.
Proof.
  intros [Hwf Hn] Hi Hj.
  destruct (lookup_lt_is_Some_2 (nodes h.2) i) as [a Ha]; [lia|].
  destruct (lookup_lt_is_Some_2 (nodes h.2) j) as [b Hb]; [lia|].
  destruct (queue_Swap_ok h i j a b) as (h' & -> & Hwf' & Hmem & Hnodes);
    [done..|].
  exists h'. split; [done|]. unfold sifting, same_queue. rewrite Hnodes.
  split; [split; [done|by rewrite !length_insert]|].
  split_and!; [done|by rewrite !length_insert| |].
  - intros p. by apply (swap_elem_of _ i j a b).
  - rewrite !drop_insert_lt by lia. done.
Qed.

(** Sifting position [i] below [n]. *)
Lemma queue_sift n h i :
  queue_wf h → (n ≤ length (nodes h.2))%nat → (i < n)%nat →
  ∃ h', ('(h2, moved) ← heap.down h i n;
         if (moved : bool) then Ok h2 else heap.up h2 i) = Ok h'
        ∧ queue_wf h' ∧ same_queue n h h'.
Proof.
  intros Hwf Hn Hi.
  destruct (heap_below_facts.sift_below (sifting n) (same_queue n) n
              (same_queue_refl n) (same_queue_trans n)) with (h := h) (i := i)
    as (h' & Hs & [Hwf' _] & Hsame); [| |by split|done|by eauto].
  - intros h0 a b [Hwf0 Hn0] Ha Hb. apply queue_Less_ok; [done|lia..].
  - intros h0 a b. apply queue_Swap_below.
Qed.

Lemma queue_Push_ok h u n :
  queue_wf h → h.1 !! u = Some n → indexOf h.2 !! ID (node_of n) = None →
  queue_wf (h.1, {| indexOf := <[ID (node_of n) := length (nodes h.2)]>
                                 (indexOf h.2);
                    nodes := nodes h.2 ++ [u] |}).
Proof.
  intros [Hall Hidx] Hu Hnone. split; simpl.
  - intros p [Hp| ->%list_elem_of_singleton]%elem_of_app; [by apply Hall|].
    by eexists.
  - intros id i. unfold queued. simpl. rewrite lookup_insert.
    case_decide as Hid.
    + subst id. split.
      * intros [= <-]. exists u, n. split_and!; [|done..].
        by rewrite lookup_app_r, Nat.sub_diag by lia.
      * intros (p & n' & Hp & Hn' & Hid). f_equal.
        destruct (decide (i < length (nodes h.2))%nat) as [Hlt|Hge].
        -- rewrite lookup_app_l in Hp by done.
           assert (indexOf h.2 !! ID (node_of n) = Some i)
             by (apply Hidx; by exists p, n').
           congruence.
        -- apply lookup_lt_Some in Hp. rewrite length_app in Hp. simpl in Hp.
           lia.
    + rewrite Hidx. unfold queued.
      split; intros (p & n' & Hp & Hn' & Hid'); exists p, n'; (split; [|done]).
      * apply lookup_app_l_Some. done.
      * apply lookup_app_Some in Hp as [Hp|[Hlen Hp]]; [done|].
        apply list_lookup_singleton_Some in Hp as [_ <-]. congruence.
Qed.

Lemma queue_Pop_ok h l p :
  queue_wf h → nodes h.2 = l ++ [p] →
  ∃ n, h.1 !! p = Some n
       ∧ queue_Pop h
         = Ok ((h.1, {| indexOf := delete (ID (node_of n)) (indexOf h.2);
                        nodes := l |}), p)
       ∧ queue_wf (h.1, {| indexOf := delete (ID (node_of n)) (indexOf h.2);
                           nodes := l |}).
Proof.
  intros Hwf Hnodes. pose proof Hwf as [Hall Hidx].
  destruct (Hall p) as [n Hn]; [rewrite Hnodes; set_solver|].
  exists n. split; [done|].
  assert (queued h (length l) (ID (node_of n))) as Hlast.
  { exists p, n. split_and!; [|done..].
    by rewrite Hnodes, lookup_app_r, Nat.sub_diag by lia. }
  split.
  - unfold queue_Pop, at_index, node_ID, deref. rewrite Hnodes.
    replace (length (l ++ [p]) - 1)%nat with (length l)
      by (rewrite length_app; simpl; lia).
    rewrite lookup_app_r, Nat.sub_diag by lia. simpl. rewrite Hn. simpl.
    rewrite take_app_length. by destruct l.
  - split; simpl.
    + intros q Hq. apply Hall. rewrite Hnodes. set_solver.
    + intros id i. unfold queued. simpl.
      destruct (decide (ID (node_of n) = id)) as [<-|Hid].
      * rewrite lookup_delete_eq. split; [done|].
        intros (q & n' & Hq & Hn' & Hid'). exfalso.
        apply lookup_lt_Some in Hq as Hlt.
        assert (i = length l); [|lia].
        eapply (queued_unique h); [done| |done].
        exists q, n'. split_and!; [|done..].
        rewrite Hnodes. by apply lookup_app_l_Some.
      * rewrite lookup_delete_ne by done. rewrite Hidx. unfold queued.
        rewrite Hnodes.
        split; intros (q & n' & Hq & Hn' & Hid'); exists q, n';
          (split; [|done]).
        -- apply lookup_app_Some in Hq as [Hq|[Hlen Hq]]; [done|].
           apply list_lookup_singleton_Some in Hq as [_ <-]. congruence.
        -- by apply lookup_app_l_Some.
Qed.

(** Writing a field other than the embedded node keeps the queue
    consistent. *)
Lemma queue_wf_store h p n f :
  queue_wf h → h.1 !! p = Some n → node_of (f n) = node_of n →
  queue_wf (<[p := f n]> h.1, h.2)
  ∧ ∀ id, queue_has h.2 id = queue_has (<[p := f n]> h.1, h.2).2 id.
Proof.
  intros [Hall Hidx] Hp Hf. split; [|done]. split; simpl.
  - intros q Hq. rewrite memory_lookup_insert. case_decide; [by eexists|].
    by apply Hall.
  - intros id i. rewrite Hidx. unfold queued. simpl.
    split; intros (q & n' & Hq & Hn' & Hid).
    + destruct (decide (p = q)) as [<-|Hne].
      * exists p, (f n). rewrite memory_lookup_insert, decide_True by done.
        split_and!; [done..|]. congruence.
      * exists q, n'. by rewrite memory_lookup_insert, decide_False.
    + rewrite memory_lookup_insert in Hn'.
      destruct (decide (p = q)) as [<-|Hne].
      * injection Hn' as <-.
        exists p, n. split_and!; [done..|]. congruence.
      * by exists q, n'.
Qed.

Lemma queue_insert_ok h u n k :
  queue_wf h → h.1 !! u = Some n → queue_has h.2 (ID (node_of n)) = false →
  ∃ h', queue_insert h u k = Ok h' ∧ queue_wf h'
        ∧ h'.1 = h.1
        ∧ length (nodes h'.2) = S (length (nodes h.2))
        ∧ (∀ p, p ∈ nodes h'.2 ↔ p = u ∨ p ∈ nodes h.2)
        ∧ ∀ id, queue_has h'.2 id = true
                ↔ id = ID (node_of n) ∨ queue_has h.2 id = true.
Proof.
  intros Hwf Hu Hhas.
  assert (indexOf h.2 !! ID (node_of n) = None) as Hnone.
  { unfold queue_has in Hhas. apply bool_decide_eq_false in Hhas.
    by apply eq_None_not_Some. }
  pose proof (queue_Push_ok h u n Hwf Hu Hnone) as Hwf1.
  set (h1 := (h.1, {| indexOf := <[ID (node_of n) := length (nodes h.2)]>
                                   (indexOf h.2);
                      nodes := nodes h.2 ++ [u] |})) in *.
  unfold queue_insert, heap.Push. cbn [Interface.Push dStarLiteQueue_heap].
  unfold queue_Push, node_ID, deref. rewrite Hu. simpl.
  fold h1.
  assert (queue_Len h1 = S (length (nodes h.2))) as HL.
  { unfold queue_Len, h1. simpl. rewrite length_app. simpl. lia. }
  rewrite HL. simpl. rewrite Nat.sub_0_r.
  destruct (heap_below_facts.up_loop_below
              (sifting (S (length (nodes h.2))))
              (same_queue (S (length (nodes h.2)))) (S (length (nodes h.2)))
              (same_queue_refl _) (same_queue_trans _))
    with (fuel := S (length (nodes h.2))) (h := h1) (j := length (nodes h.2))
    as (h' & Hup & [Hwf' _] & Hmem & Hlen & Hel & _).
  { intros h0 a b [Hwf0 Hn0] Ha Hb. apply queue_Less_ok; [done|lia..]. }
  { intros h0 a b. apply queue_Swap_below. }
  { split; [done|]. unfold queue_Len in HL. lia. }
  { lia. }
  { lia. }
  unfold heap.up. rewrite Hup.
  exists h'. split; [done|]. split; [done|]. split; [done|].
  split; [by rewrite Hlen|].
  assert (∀ p, p ∈ nodes h'.2 ↔ p = u ∨ p ∈ nodes h.2) as Hel'.
  { intros p. rewrite Hel. unfold h1. simpl. rewrite elem_of_app.
    rewrite list_elem_of_singleton. tauto. }
  split; [done|].
  intros id. rewrite !queue_has_queued by done. rewrite Hmem. simpl. split.
  - intros (p & n' & Hp & Hn' & Hid). apply Hel' in Hp as [->|Hp].
    + left. congruence.
    + right. by exists p, n'.
  - intros [->|(p & n' & Hp & Hn' & Hid)].
    + exists u, n. split_and!; [|done..]. apply Hel'. by left.
    + exists p, n'. split_and!; [|done..]. apply Hel'. by right.
Qed.

Lemma queue_update_ok h id i k :
  queue_wf h → indexOf h.2 !! id = Some i →
  ∃ h' p n, queue_update h id k = Ok h' ∧ queue_wf h'
    ∧ p ∈ nodes h.2 ∧ h.1 !! p = Some n ∧ ID (node_of n) = id
    ∧ h'.1 = <[p := set_key k n]> h.1
    ∧ length (nodes h'.2) = length (nodes h.2)
    ∧ (∀ q, q ∈ nodes h'.2 ↔ q ∈ nodes h.2)
    ∧ ∀ id', queue_has h'.2 id' = queue_has h.2 id'.
Proof.
  intros Hwf Hi. unfold queue_update. rewrite Hi.
  pose proof Hwf as [Hall Hidx].
  apply Hidx in Hi as (p & n & Hp & Hn & Hid).
  unfold at_index, store, deref. rewrite Hp. simpl. rewrite Hn. simpl.
  destruct (queue_wf_store h p n (set_key k)) as [Hwf1 Hhas1]; [done..|].
  set (h1 := (<[p := set_key k n]> h.1, h.2)) in *.
  apply lookup_lt_Some in Hp as Hlt.
  destruct (queue_sift (length (nodes h.2)) h1 i)
    as (h' & Hfix & Hwf' & Hmem & Hlen & Hel & _); [done|done|done|].
  unfold heap.Fix. cbn [Interface.Len dStarLiteQueue_heap]. unfold queue_Len.
  exists h', p, n. split; [exact Hfix|]. split; [done|].
  split; [by eapply list_elem_of_lookup_2|].
  do 5 (split; [done|]).
  intros id'. rewrite Hhas1. by apply same_has.
Qed.

Lemma queue_remove_ok h id i :
  queue_wf h → indexOf h.2 !! id = Some i →
  ∃ h', queue_remove h id = Ok h' ∧ queue_wf h'
    ∧ h'.1 = h.1
    ∧ queue_has h'.2 id = false
    ∧ (∀ id', id' ≠ id → queue_has h'.2 id' = queue_has h.2 id')
    ∧ S (length (nodes h'.2)) = length (nodes h.2).
Proof.
  intros Hwf Hi. unfold queue_remove. rewrite Hi.
  pose proof Hwf as [Hall Hidx].
  apply Hidx in Hi as Hq. destruct Hq as (p & n & Hp & Hn & Hid).
  apply lookup_lt_Some in Hp as Hlt.
  unfold heap.Remove. cbn [Interface.Len dStarLiteQueue_heap].
  unfold queue_Len.
  destruct (length (nodes h.2)) as [|m] eqn:Hlen; [lia|].
  (* the heap after the element at [i] has been moved to the end *)
  assert (∃ h2 l, (if decide (m = i) then Ok h
                   else h1 ← Interface.Swap h i m;
                        '(h2, moved) ← heap.down h1 i m;
                        if (moved : bool) then Ok h2 else heap.up h2 i)
                  = Ok h2
                  ∧ queue_wf h2 ∧ h2.1 = h.1 ∧ nodes h2.2 = l ++ [p]
                  ∧ length l = m
                  ∧ ∀ q, q ∈ nodes h2.2 ↔ q ∈ nodes h.2)
    as (h2 & l & -> & Hwf2 & Hmem2 & Hnodes2 & Hl & Hel2).
  { case_decide as Hmi.
    - subst i. exists h, (take m (nodes h.2)). split_and!; [done..| | |done].
      + rewrite <-(take_drop m (nodes h.2)) at 1. f_equal.
        rewrite (drop_S _ p m) by done. by rewrite drop_ge by lia.
      + rewrite length_take. lia.
    - destruct (lookup_lt_is_Some_2 (nodes h.2) m) as [b Hb]; [lia|].
      cbn [Interface.Swap dStarLiteQueue_heap].
      destruct (queue_Swap_ok h i m p b) as (h1 & -> & Hwf1 & Hmem1 & Hnodes1);
        [done..|].
      bind_ok.
      destruct (queue_sift m h1 i) as (h2 & -> & Hwf2 & Hmem & Hlen2 & Hel & Hdrop);
        [done|rewrite Hnodes1, !length_insert; lia|lia|].
      exists h2, (take m (nodes h2.2)). split_and!; [done|done|congruence| | |].
      + rewrite <-(take_drop m (nodes h2.2)) at 1. f_equal.
        rewrite Hdrop, Hnodes1.
        rewrite (drop_S _ p m).
        * rewrite drop_ge; [done|]. rewrite !length_insert. lia.
        * apply list_lookup_insert_eq. rewrite length_insert. lia.
      + rewrite length_take, Hlen2, Hnodes1, !length_insert. lia.
      + intros q. rewrite Hel, Hnodes1. by apply (swap_elem_of _ i m p b). }
  bind_ok. cbn [Interface.Pop dStarLiteQueue_heap].
  destruct (queue_Pop_ok h2 l p Hwf2 Hnodes2) as (n2 & Hn2 & -> & Hwf').
  bind_ok. eexists. split; [done|]. split; [done|].
  rewrite Hmem2, Hn in Hn2. injection Hn2 as <-.
  split; [done|]. simpl.
  split_and!.
  - unfold queue_has. simpl. rewrite Hid, lookup_delete_eq.
    apply bool_decide_eq_false_2. by intros [? ?].
  - intros id' Hne. rewrite <-(same_has h h2 id') by done.
    unfold queue_has. simpl. rewrite lookup_delete_ne by congruence. done.
  - lia.
Qed.
Lemma queue_has_cases h id :
  (queue_has h.2 id = true ∧ ∃ i, indexOf h.2 !! id = Some i)
  ∨ (queue_has h.2 id = false ∧ indexOf h.2 !! id = None).
Proof.
  unfold queue_has. destruct (indexOf h.2 !! id) as [i|] eqn:Hi.
  - left. split; [|by eauto]. by apply bool_decide_eq_true_2.
  - right. split; [|done]. apply bool_decide_eq_false_2. by intros [? ?].
Qed.

(** X17.  [insert(u, k)] through a nil pointer panics.  For a node that is
    not in the queue it succeeds: the queue stays consistent, is one
    longer, and holds [u] besides what it held; the memory, and so every
    key, is as before. *)
Theorem queue_insert_adds_node h u k :
  queue_wf h →
  match h.1 !! u with
  | None => queue_insert h u k = nil_dereference
  | Some n =>
    queue_has h.2 (ID (node_of n)) = false →
    ∃ h', queue_insert h u k = Ok h' ∧ queue_wf h'
          ∧ h'.1 = h.1
          ∧ length (nodes h'.2) = S (length (nodes h.2))
          ∧ (∀ p, p ∈ nodes h'.2 ↔ p = u ∨ p ∈ nodes h.2)
          ∧ ∀ id, queue_has h'.2 id = true
                  ↔ id = ID (node_of n) ∨ queue_has h.2 id = true
  end.
Proof.
  intros Hwf. destruct (h.1 !! u) as [n|] eqn:Hu.
  - by apply queue_insert_ok.
  - unfold queue_insert, heap.Push. cbn [Interface.Push dStarLiteQueue_heap].
    unfold queue_Push, node_ID, deref. by rewrite Hu.
Qed.

(** X18.  [update(id, k)] of a queued node writes [k] into the key of that
    node and of no other, and leaves in the queue what was there; for an
    identifier that is not queued it does nothing. *)
Theorem queue_update_stores_key h id k :
  queue_wf h →
  if queue_has h.2 id then
    ∃ h' p n, queue_update h id k = Ok h' ∧ queue_wf h'
      ∧ p ∈ nodes h.2 ∧ h.1 !! p = Some n ∧ ID (node_of n) = id
      ∧ h'.1 = <[p := set_key k n]> h.1
      ∧ length (nodes h'.2) = length (nodes h.2)
      ∧ (∀ q, q ∈ nodes h'.2 ↔ q ∈ nodes h.2)
      ∧ ∀ id', queue_has h'.2 id' = queue_has h.2 id'
  else queue_update h id k = Ok h.
Proof.
  intros Hwf. destruct (queue_has_cases h id) as [[-> [i Hi]]|[-> Hi]].
  - by eapply queue_update_ok.
  - unfold queue_update. by rewrite Hi.
Qed.

(** X19.  [remove(id)] of a queued identifier takes it, and nothing else,
    out of the queue, which stays consistent and gets one shorter; the
    memory is as before.  For an identifier that is not queued it does
    nothing. *)
Theorem queue_remove_takes_out h id :
  queue_wf h →
  if queue_has h.2 id then
    ∃ h', queue_remove h id = Ok h' ∧ queue_wf h'
      ∧ h'.1 = h.1
      ∧ queue_has h'.2 id = false
      ∧ (∀ id', id' ≠ id → queue_has h'.2 id' = queue_has h.2 id')
      ∧ S (length (nodes h'.2)) = length (nodes h.2)
  else queue_remove h id = Ok h.
Proof.
  intros Hwf. destruct (queue_has_cases h id) as [[-> [i Hi]]|[-> Hi]].
  - by eapply queue_remove_ok.
  - unfold queue_remove. by rewrite Hi.
Qed.

(** X20.  UpdateVertex: when the node [u] and the start node are
    allocated, [update(u)] succeeds and leaves [u] in the queue exactly
    when it is inconsistent, that is when [g] and [rhs] differ; no other
    identifier enters or leaves the queue, which stays consistent. *)
Theorem update_queues_inconsistent_nodes (d : DStarLite N) u n :
  queue_wf (heap_of d) → mem d !! u = Some n → is_Some (mem d !! s d) →
  ∃ d', update d u = Ok d' ∧ queue_wf (heap_of d')
    ∧ queue_has (queue d') (ID (node_of n)) = negb (feq (g n) (rhs n))
    ∧ ∀ id, id ≠ ID (node_of n) →
        queue_has (queue d') id = queue_has (queue d) id.
Proof.
  intros Hwf Hu [start Hs]. unfold update, keyFor, deref.
  rewrite Hu, Hs. simpl.
  destruct (queue_has_cases (heap_of d) (ID (node_of n)))
    as [[Hhas [i Hi]]|[Hhas Hi]]; simpl in Hhas; rewrite Hhas;
    destruct (feq (g n) (rhs n)); simpl.
  - destruct (queue_remove_ok (heap_of d) _ i Hwf Hi)
      as (h' & -> & Hwf' & Hmem & Hgone & Hrest & _).
    simpl. exists (with_heap d h'). split; [done|].
    split; [by destruct h'|]. by split.
  - destruct (queue_update_ok (heap_of d) _ i
                (fadd (fadd (Min (g n) (rhs n))
                         (heuristic d (node_of start) (node_of n))) (k_m d),
                 Min (g n) (rhs n)) Hwf Hi)
      as (h' & p & n' & -> & Hwf' & _ & _ & _ & _ & _ & _ & Hsame).
    simpl. exists (with_heap d h'). split; [done|].
    split; [by destruct h'|]. split; [by rewrite Hsame|].
    intros id _. apply Hsame.
  - by eauto.
  - destruct (queue_insert_ok (heap_of d) u n
                (fadd (fadd (Min (g n) (rhs n))
                         (heuristic d (node_of start) (node_of n))) (k_m d),
                 Min (g n) (rhs n)) Hwf Hu Hhas)
      as (h' & -> & Hwf' & _ & _ & _ & Hin).
    simpl. exists (with_heap d h'). split; [done|].
    split; [by destruct h'|]. split; [apply Hin; by left|].
    intros id Hid. apply eq_true_iff_eq. rewrite Hin. simpl. tauto.
Qed.
End Queue.
End dstar_queue_facts.
Module dstar_queue_witnesses.
Import dynamic inputs queue_inputs dstar_queue_spec dstar_queue_facts.

Lemma both_queued_wf : queue_wf both_queued.
Proof.
  assert (queue_wf (two_nodes, {| indexOf := <[7%Z := 0%nat]> ∅;
                                  nodes := [0%nat] |})) as Hfirst.
  { exact (queue_Push_ok no_queue 0%nat fresh_node (empty_queue_wf _)
             eq_refl eq_refl). }
  exact (queue_Push_ok _ 1%nat inconsistent_node Hfirst eq_refl eq_refl).
Defined.

Lemma queue_insert_adds_node_witness :
  ∃ h', queue_insert no_queue 1%nat (fone, fzero) = Ok h' ∧ queue_wf h'
        ∧ h'.1 = no_queue.1
        ∧ length (nodes h'.2) = S (length (nodes no_queue.2))
        ∧ (∀ p, p ∈ nodes h'.2 ↔ p = 1%nat ∨ p ∈ nodes no_queue.2)
        ∧ ∀ id, queue_has h'.2 id = true
                ↔ id = ID (node_of inconsistent_node)
                  ∨ queue_has no_queue.2 id = true.
Proof.
  exact (queue_insert_adds_node no_queue 1%nat (fone, fzero)
           (empty_queue_wf two_nodes) eq_refl).
Defined.

Lemma queue_update_stores_key_witness :
  ∃ h' p n, queue_update both_queued 7%Z (fone, fone) = Ok h' ∧ queue_wf h'
    ∧ p ∈ nodes both_queued.2 ∧ both_queued.1 !! p = Some n
    ∧ ID (node_of n) = 7%Z
    ∧ h'.1 = <[p := set_key (fone, fone) n]> both_queued.1
    ∧ length (nodes h'.2) = length (nodes both_queued.2)
    ∧ (∀ q, q ∈ nodes h'.2 ↔ q ∈ nodes both_queued.2)
    ∧ ∀ id', queue_has h'.2 id' = queue_has both_queued.2 id'.
Proof.
  exact (queue_update_stores_key both_queued 7%Z (fone, fone) both_queued_wf).
Defined.

Lemma queue_remove_takes_out_witness :
  ∃ h', queue_remove both_queued 7%Z = Ok h' ∧ queue_wf h'
    ∧ h'.1 = both_queued.1
    ∧ queue_has h'.2 7%Z = false
    ∧ (∀ id', id' ≠ 7%Z → queue_has h'.2 id' = queue_has both_queued.2 id')
    ∧ S (length (nodes h'.2)) = length (nodes both_queued.2).
Proof.
  exact (queue_remove_takes_out both_queued 7%Z both_queued_wf).
Defined.

Lemma update_queues_inconsistent_nodes_witness :
  ∃ d', update idle_planner 1%nat = Ok d' ∧ queue_wf (heap_of d')
    ∧ queue_has (queue d') (ID (node_of inconsistent_node))
      = negb (feq (g inconsistent_node) (rhs inconsistent_node))
    ∧ ∀ id, id ≠ ID (node_of inconsistent_node) →
        queue_has (queue d') id = queue_has (queue idle_planner) id.
Proof.
  apply (update_queues_inconsistent_nodes idle_planner 1%nat
           inconsistent_node).
  - apply empty_queue_wf.
  - reflexivity.
  - by eexists.
Defined.
End dstar_queue_witnesses.

Module tarjan_scc_facts.
Import structure tarjan_spec tarjan_scc_spec.

Lemma reachable_trans {N : Type} (from : N → list N) a b c :
  reachable from a b → reachable from b c → reachable from a c.
Proof. intros Hab Hbc. induction Hbc; [done|]. by eapply reachable_step. Qed.

Lemma reachable_edge {N : Type} (from : N → list N) a b :
  b ∈ from a → reachable from a b.
Proof. intros Hb. eapply reachable_step; [apply reachable_start|done]. Qed.

Section Components.
Context {N : Type} `{!Node N}.
Context (ID_inj : ∀ x y : N, ID x = ID y → x = y).
Variable succ : N → list N.
Variable universe : list N.
Hypothesis succ_closed : ∀ u v, u ∈ universe → v ∈ succ u → v ∈ universe.
Implicit Types (t : tarjan N) (x y v w : N).

Local Abbreviation wf := (tarjan_spec.wf succ universe).
Local Abbreviation wf_nodup := (tarjan_spec.wf_nodup succ universe).
Local Abbreviation wf_visited := (tarjan_spec.wf_visited succ universe).
Local Abbreviation wf_onStack := (tarjan_spec.wf_onStack succ universe).
Local Abbreviation wf_index := (tarjan_spec.wf_index succ universe).
Local Abbreviation wf_lowlink := (tarjan_spec.wf_lowlink succ universe).
Local Abbreviation wf_ordered := (tarjan_spec.wf_ordered succ universe).
Local Abbreviation wf_universe := (tarjan_spec.wf_universe succ universe).
Local Abbreviation unvisited := (tarjan_spec.unvisited universe).
Local Abbreviation returned := (tarjan_spec.returned succ universe).
Local Abbreviation visiting := (tarjan_spec.visiting succ universe).
Local Abbreviation conn := (tarjan_scc_spec.conn succ).
Local Abbreviation block_reaches := (tarjan_scc_spec.block_reaches succ).
Local Abbreviation stack_above := (tarjan_facts.stack_above succ universe).

Lemma on_stack_visited t x : wf t → x ∈ stack t → ix t x ≠ 0%nat.
Proof. intros Hwf Hx. apply (wf_visited _ Hwf), elem_of_app. by left. Qed.

(** While [v] is visited, every stack node reaches [v]. *)
Lemma all_reach t v :
  conn t → block_reaches t v → v ∈ stack t →
  ∀ x, x ∈ stack t → reachable succ x v.
Proof.
  intros Hconn Hblock Hv x Hx.
  destruct (le_lt_dec (ix t v) (ix t x)) as [Hle|Hlt]; [by apply Hblock|].
  apply (conn_stack _ _ Hconn); [done..|lia].
Qed.

Lemma discover_conn t v :
  wf t → conn t → ix t v = 0%nat →
  (∀ x, x ∈ stack t → reachable succ x v) →
  conn (discover v t) ∧ block_reaches (discover v t) v.
Proof.
  intros Hwf Hconn Hnew Hcalls.
  assert (∀ x, x ∈ stack t → x ≠ v) as Hne.
  { intros x Hx ->. by apply (on_stack_visited t v). }
  assert (∀ x, x ∈ stack t →
            ix (discover v t) x = ix t x ∧ ll (discover v t) x = ll t x
            ∧ (ix t x ≤ index t)%nat) as Hold.
  { intros x Hx.
    rewrite (tarjan_facts.ix_discover ID_inj), (tarjan_facts.ll_discover ID_inj).
    rewrite !decide_False by by apply Hne.
    split_and!; [done..|apply (wf_index _ Hwf)]. }
  assert (ix (discover v t) v = S (index t)
          ∧ ll (discover v t) v = S (index t)) as [Hixv Hllv].
  { rewrite (tarjan_facts.ix_discover ID_inj), (tarjan_facts.ll_discover ID_inj).
    by rewrite !decide_True by done. }
  split; [split|].
  - apply (conn_sccs _ _ Hconn).
  - intros x y Hx Hy. cbn [stack discover] in Hx, Hy.
    apply elem_of_cons in Hx as [->|Hx], Hy as [->|Hy].
    + intros _. apply reachable_start.
    + destruct (Hold y Hy) as (-> & _ & Hle). rewrite Hixv. lia.
    + intros _. by apply Hcalls.
    + destruct (Hold x Hx) as (-> & _ & _), (Hold y Hy) as (-> & _ & _).
      by apply (conn_stack _ _ Hconn).
  - intros x Hx. cbn [stack discover] in Hx.
    apply elem_of_cons in Hx as [->|Hx].
    + exists v. split_and!; [by left|congruence|apply reachable_start].
    + destruct (conn_lowlink _ _ Hconn x Hx) as (z & Hz & Hzx & Hxz).
      exists z. destruct (Hold x Hx) as (_ & -> & _).
      destruct (Hold z Hz) as (-> & _ & _). split_and!; [by right|done..].
  - intros x Hx. cbn [stack discover] in Hx.
    apply elem_of_cons in Hx as [->|Hx]; [intros _; apply reachable_start|].
    destruct (Hold x Hx) as (-> & _ & Hle). rewrite Hixv. lia.
Qed.

Lemma set_lowLink_conn t v n :
  conn t → (∃ z, z ∈ stack t ∧ ix t z = n ∧ reachable succ v z) →
  conn (set_lowLink t (ID v) n).
Proof.
  intros Hconn Hz. split.
  - apply (conn_sccs _ _ Hconn).
  - apply (conn_stack _ _ Hconn).
  - intros x Hx. change (stack (set_lowLink t (ID v) n)) with (stack t) in *.
    change (ix (set_lowLink t (ID v) n)) with (ix t).
    rewrite (tarjan_facts.ll_set_lowLink ID_inj).
    case_decide as Hxv; [by subst|]. by apply (conn_lowlink _ _ Hconn).
Qed.

Lemma consider_successor_conn fuel t0 v pre w t t' :
  (∀ t' w' t1, wf t' → conn t' → w' ∈ universe → ix t' w' = 0%nat →
     (∀ x, x ∈ stack t' → reachable succ x w') →
     (length (unvisited t') < fuel)%nat →
     strongconnect fuel succ w' t' = Ok t1 →
     conn t1 ∧ block_reaches t1 w') →
  (length (unvisited t0) ≤ fuel)%nat →
  v ∈ universe → ix t0 v = 0%nat →
  visiting t0 v pre t → conn t → block_reaches t v → w ∈ succ v →
  consider_successor (strongconnect fuel succ) v t w = Ok t' →
  conn t' ∧ block_reaches t' v.
Proof.
  intros IH Hbound Hv Hv0 [Hwf Hext Hix (B & Hstack & Hblack) Hdone]
    Hconn Hblock Hw Hrun.
  assert (w ∈ universe) as Hwu by by eapply succ_closed.
  assert (v ∈ stack t) as Hvs.
  { rewrite Hstack. apply elem_of_app. right. by left. }
  pose proof (all_reach t v Hconn Hblock Hvs) as Hall.
  unfold consider_successor in Hrun. cbv zeta in Hrun.
  fold (ix t w) in Hrun. case_decide as Hnew.
  - assert (length (unvisited t) < fuel)%nat as Hfuel.
    { assert (length (unvisited t) < length (unvisited t0))%nat; [|lia].
      apply (tarjan_facts.unvisited_strict universe t0 t v); [|done..|lia].
      intros x Hx. by destruct (ext_frame _ _ Hext x Hx) as [-> _]. }
    destruct (tarjan_facts.strongconnect_spec ID_inj succ universe succ_closed
                fuel t w Hwf Hwu Hnew Hfuel) as (t1 & Ht1 & Hret).
    rewrite Ht1 in Hrun. simpl in Hrun. injection Hrun as <-.
    destruct (IH t w t1) as [Hconn1 Hblock1]; [done..| |done|done|].
    { intros x Hx. eapply reachable_trans; [by apply Hall|].
      by apply reachable_edge. }
    destruct Hret as [Hwf1 Hext1 Hix1 (B1 & Hstack1 & Hblack1 & Hshape)].
    fold (ll t1 v). fold (ll t1 w).
    assert (∀ x, x ∈ stack t → ix t1 x = ix t x) as Hsame.
    { intros x Hx.
      by destruct (ext_frame _ _ Hext1 x (on_stack_visited t x Hwf Hx))
        as [-> _]. }
    assert (v ∈ stack t1) as Hvs1.
    { rewrite Hstack1. apply elem_of_app. by right. }
    destruct (wf_lowlink _ Hwf1 v Hvs1) as [Hlev _].
    pose proof (wf_index _ Hwf v) as Hiv.
    split.
    + apply set_lowLink_conn; [done|].
      destruct (Nat.min_spec (ll t1 v) (ll t1 w)) as [[_ ->]|[Hle ->]].
      * by apply (conn_lowlink _ _ Hconn1).
      * destruct Hshape as [[-> Hroot]|(B' & -> & _)].
        { rewrite (Hsame v Hvs) in Hlev. lia. }
        assert (w ∈ stack t1) as Hws1.
        { rewrite Hstack1. apply elem_of_app. left. apply elem_of_app.
          right. by left. }
        destruct (conn_lowlink _ _ Hconn1 w Hws1) as (z & Hz & Hzw & Hwz).
        exists z. split_and!; [done..|].
        eapply reachable_trans; [by apply reachable_edge|done].
    + intros x Hx.
      change (stack (set_lowLink t1 (ID v) _)) with (stack t1) in Hx.
      change (ix (set_lowLink t1 (ID v) (Nat.min (ll t1 v) (ll t1 w))))
        with (ix t1).
      rewrite Hstack1 in Hx. apply elem_of_app in Hx as [Hx|Hx]; cycle 1.
      { rewrite (Hsame x Hx), (Hsame v Hvs). by apply Hblock. }
      intros _. destruct Hshape as [[-> _]|(B' & -> & Hnonroot)].
      { by apply elem_of_nil in Hx. }
      assert (stack t1 = B' ++ w :: stack t) as Hstack1'.
      { by rewrite Hstack1, <-app_assoc. }
      assert (w ∈ stack t1) as Hws1.
      { rewrite Hstack1'. apply elem_of_app. right. by left. }
      assert (∀ z, z ∈ B' → ix t1 w < ix t1 z)%nat as Habove.
      { intros z Hz.
        apply (stack_above t1 B' (w :: stack t) z w Hwf1 Hstack1' Hz).
        by left. }
      assert (reachable succ x w) as Hxw.
      { apply Hblock1.
        - rewrite Hstack1. apply elem_of_app. by left.
        - apply elem_of_app in Hx as [Hx| ->%list_elem_of_singleton]; [|done].
          specialize (Habove x Hx). lia. }
      eapply reachable_trans; [done|].
      destruct (conn_lowlink _ _ Hconn1 w Hws1) as (z & Hz & Hzw & Hwz).
      destruct (wf_lowlink _ Hwf1 w Hws1) as [Hlew _].
      eapply reachable_trans; [done|]. apply Hall.
      rewrite Hstack1' in Hz.
      apply elem_of_app in Hz as [Hz|Hz].
      { specialize (Habove z Hz). lia. }
      apply elem_of_cons in Hz as [->|Hz]; [lia|done].
  - case_decide as Hon.
    + injection Hrun as <-. fold (ll t v). split; [|done].
      apply set_lowLink_conn; [done|].
      apply (wf_onStack _ Hwf) in Hon.
      destruct (Nat.min_spec (ll t v) (ix t w)) as [[_ ->]|[Hle ->]].
      * by apply (conn_lowlink _ _ Hconn).
      * exists w. split_and!; [done..|]. by apply reachable_edge.
    + by injection Hrun as <-.
Qed.

Lemma close_root_conn t0 t v B t1 :
  wf t → conn t → block_reaches t v → stack t = B ++ v :: stack t0 →
  close_root v t = Ok t1 → conn t1 ∧ block_reaches t1 v.
Proof.
  intros Hwf Hconn Hblock Hstack Hrun. unfold close_root in Hrun.
  case_decide as Hroot; [|by injection Hrun as <-].
  pose proof (wf_nodup _ Hwf) as Hnodup. rewrite Hstack in Hnodup.
  assert (v ∉ B) as HvB.
  { rewrite <-app_assoc in Hnodup. apply NoDup_app in Hnodup as (_ & Hnot & _).
    intros Hin. apply (Hnot _ Hin). apply elem_of_app. left. by left. }
  destruct (tarjan_facts.pop_component_spec ID_inj B v (stack t0) (onStack t)
              [] HvB) as (on' & Hpop & _).
  rewrite Hstack, Hpop in Hrun. simpl in Hrun. injection Hrun as <-.
  assert (v ∈ stack t) as Hvs.
  { rewrite Hstack. apply elem_of_app. right. by left. }
  assert (∀ x, x ∈ B ++ [v] → x ∈ stack t ∧ (ix t v ≤ ix t x)%nat) as Hc.
  { intros x [Hx| ->%list_elem_of_singleton]%elem_of_app; [|done].
    split; [rewrite Hstack; apply elem_of_app; by left|].
    assert (ix t v < ix t x)%nat; [|lia].
    apply (stack_above t B (v :: stack t0) x v Hwf Hstack Hx). by left. }
  assert (∀ x, x ∈ stack t0 → x ∈ stack t ∧ (ix t x < ix t v)%nat) as Hlow.
  { intros x Hx. split.
    - rewrite Hstack. apply elem_of_app. right. by right.
    - apply (stack_above t (B ++ [v]) (stack t0) v x Hwf); [|set_solver|done].
      by rewrite <-app_assoc. }
  split; [split|]; cbn [stack sccs].
  - intros c x y [Hc0| ->%list_elem_of_singleton]%elem_of_app Hx Hy.
    { by apply (conn_sccs _ _ Hconn c). }
    destruct (Hc x Hx) as [Hxs Hxle], (Hc y Hy) as [Hys Hyle].
    eapply reachable_trans; [by apply Hblock|].
    by apply (conn_stack _ _ Hconn).
  - intros x y Hx Hy. apply (conn_stack _ _ Hconn); by apply Hlow.
  - intros x Hx. destruct (Hlow x Hx) as [Hxs Hxlt].
    destruct (conn_lowlink _ _ Hconn x Hxs) as (z & Hz & Hzx & Hxz).
    destruct (wf_lowlink _ Hwf x Hxs) as [Hle _].
    exists z. split_and!; [|done..].
    rewrite Hstack in Hz. apply elem_of_app in Hz as [Hz|Hz].
    { destruct (Hc z) as [_ Hzle]; [apply elem_of_app; by left|].
      fold (ix t z) in *. lia. }
    apply elem_of_cons in Hz as [->|Hz]; [|done]. lia.
  - intros x Hx Hle. destruct (Hlow x Hx) as [_ Hlt].
    change (ix t v ≤ ix t x)%nat in Hle. lia.
Qed.

Lemma strongconnect_conn fuel t0 v t1 :
  wf t0 → conn t0 → v ∈ universe → ix t0 v = 0%nat →
  (∀ x, x ∈ stack t0 → reachable succ x v) →
  (length (unvisited t0) < fuel)%nat →
  strongconnect fuel succ v t0 = Ok t1 →
  conn t1 ∧ block_reaches t1 v.
Proof.
  revert t0 v t1.
  induction fuel as [|fuel IH]; intros t0 v t1 Hwf Hconn Hv Hnew Hcalls Hfuel;
    [lia|].
  cbn [strongconnect].
  destruct (for_range_prefix_inv
              (λ pre t, visiting t0 v pre t ∧ conn t ∧ block_reaches t v)
              (succ v) (consider_successor (strongconnect fuel succ) v)
              (discover v t0)) as (t & -> & Hvis & Hconnt & Hblockt).
  { split; [by apply tarjan_facts.discover_visiting|].
    by apply discover_conn. }
  { intros pre w post t Hsucc (Hpre & Hconnt & Hblockt).
    assert (w ∈ succ v) as Hw.
    { rewrite Hsucc. apply elem_of_app. right. by left. }
    destruct (tarjan_facts.consider_successor_spec ID_inj succ universe
                succ_closed (strongconnect fuel succ) fuel t0 v pre w t)
      as (t' & Ht' & Hvis'); [|lia|done..|].
    { intros t' w' ????.
      by apply (tarjan_facts.strongconnect_spec ID_inj succ universe). }
    exists t'. split; [done|]. split; [done|].
    apply (consider_successor_conn fuel t0 v pre w t t'); try done. lia. }
  simpl. intros Hrun.
  destruct Hvis as [Hwft Hext Hix (B & Hstack & Hblack) Hdone].
  by apply (close_root_conn t0 t v B t1).
Qed.

Lemma TarjanSCC_init_conn : conn TarjanSCC_init.
Proof.
  split.
  - by intros c x y ?%elem_of_nil.
  - by intros x y ?%elem_of_nil.
  - by intros x ?%elem_of_nil.
Qed.

(** The loop of [TarjanSCC] over the nodes returns, with every node
    visited, the stack empty and the components strongly connected. *)
Lemma TarjanSCC_loop_conn fuel :
  (length universe < fuel)%nat →
  ∃ t, for_range universe
         (λ t v, if decide (int_at (indexTable t) (ID v) = 0)%nat
                 then strongconnect fuel succ v t else Ok t)
         TarjanSCC_init = Ok t
       ∧ wf t ∧ conn t ∧ stack t = [] ∧ ∀ x, x ∈ universe → ix t x ≠ 0%nat.
Proof.
  intros Hfuel.
  apply (for_range_prefix_inv
           (λ pre t, wf t ∧ conn t ∧ stack t = []
                     ∧ ∀ x, x ∈ pre → ix t x ≠ 0%nat)).
  { split; [apply tarjan_facts.TarjanSCC_init_wf|].
    split; [apply TarjanSCC_init_conn|]. split; [done|].
    by intros x ?%elem_of_nil. }
  intros pre v post t Huniv (Hwf & Hconn & Hstack & Hpre).
  assert (v ∈ universe) as Hv.
  { rewrite Huniv. apply elem_of_app. right. by left. }
  fold (ix t v). case_decide as Hnew.
  - assert (length (unvisited t) < fuel)%nat as Hlen.
    { pose proof (length_filter (λ x, ix t x = 0%nat) universe) as Hle.
      unfold tarjan_spec.unvisited. lia. }
    destruct (tarjan_facts.strongconnect_spec ID_inj succ universe succ_closed
                fuel t v Hwf Hv Hnew Hlen) as (t1 & Ht1 & Hret).
    exists t1. split; [done|].
    split; [apply (tarjan_spec.ret_wf _ _ _ _ _ Hret)|].
    split.
    { apply (strongconnect_conn fuel t v t1); try done.
      rewrite Hstack. by intros x ?%elem_of_nil. }
    split; [by eapply tarjan_facts.returned_empty_stack|].
    intros x [Hx| ->%list_elem_of_singleton]%elem_of_app.
    + destruct (ext_frame _ _ (tarjan_spec.ret_extends _ _ _ _ _ Hret) x)
        as [-> _]; auto.
    + rewrite (tarjan_spec.ret_index _ _ _ _ _ Hret). lia.
  - eexists. split; [done|]. split; [done|]. split; [done|]. split; [done|].
    intros x [Hx| ->%list_elem_of_singleton]%elem_of_app; auto.
Qed.

(** Along a path the components do not get later. *)
Lemma reachable_earlier (cs : list (list N)) x y :
  tarjan_spec.ordered succ cs → reachable succ x y →
  ∀ i c, cs !! i = Some c → x ∈ c →
    ∃ j c', (j ≤ i)%nat ∧ cs !! j = Some c' ∧ y ∈ c'.
Proof.
  intros Hord Hxy. induction Hxy as [|u y Hxu IH Hy]; intros i c Hi Hx.
  - by exists i, c.
  - destruct (IH i c Hi Hx) as (j & c' & Hj & Hc' & Hu).
    destruct (Hord j c' u y Hc' Hu Hy) as (k & c'' & Hk & Hc'' & Hyc).
    exists k, c''. split; [lia|done].
Qed.

Lemma NoDup_concat_unique (cs : list (list N)) i j c c' x :
  NoDup (concat cs) → cs !! i = Some c → cs !! j = Some c' →
  x ∈ c → x ∈ c' → i = j.
Proof.
  revert i j. induction cs as [|c0 cs IH]; intros i j Hnd Hi Hj Hx Hx';
    [done|].
  simpl in Hnd. apply NoDup_app in Hnd as (_ & Hdisj & Hnd).
  assert (∀ k d, cs !! k = Some d → x ∈ d → x ∈ concat cs) as Hin.
  { intros k d Hk Hd. apply tarjan_facts.elem_of_concat_lookup. eauto. }
  destruct i as [|i], j as [|j]; simplify_eq/=; [done| | |f_equal; eauto].
  - destruct (Hdisj x Hx). eauto.
  - destruct (Hdisj x Hx'). eauto.
Qed.
End Components.

(** X21.  On a graph whose nodes are told apart by their identifiers and
    whose successor lists stay inside [Nodes], [TarjanSCC] with more fuel
    than there are nodes returns the strongly connected components: two
    nodes of the graph lie in one returned component when and only when
    each can be reached from the other. *)
Theorem TarjanSCC_returns_strongly_connected_components {N : Type}
    `{!Node N} (g : Graph N) (fuel : nat) :
  (∀ x y : N, ID x = ID y → x = y) →
  (∀ u v, u ∈ Nodes g → v ∈ From g u → v ∈ Nodes g) →
  (length (Nodes g) < fuel)%nat →
  ∃ cs, TarjanSCC fuel g = Ok cs
    ∧ ∀ x y, x ∈ Nodes g → y ∈ Nodes g →
        (same_component cs x y
         ↔ reachable (From g) x y ∧ reachable (From g) y x).
Proof.
  intros Hinj Hclosed Hfuel. unfold TarjanSCC.
  destruct (TarjanSCC_loop_conn Hinj (From g) (Nodes g) Hclosed fuel Hfuel)
    as (t & -> & Hwf & Hconn & Hstack & Hall).
  simpl. exists (sccs t). split; [done|].
  pose proof (tarjan_spec.wf_nodup _ _ _ Hwf) as Hnodup.
  pose proof (tarjan_spec.wf_visited _ _ _ Hwf) as Hvisited.
  pose proof (tarjan_spec.wf_ordered _ _ _ Hwf) as Hord.
  rewrite Hstack in *. simpl in *.
  intros x y Hx Hy. split.
  - intros (c & Hc & Hxc & Hyc).
    split; by apply (conn_sccs _ _ Hconn c).
  - intros [Hxy Hyx].
    apply Hall, Hvisited, tarjan_facts.elem_of_concat_lookup in Hx
      as (i & c & Hi & Hxc).
    destruct (reachable_earlier (From g) (sccs t) x y Hord Hxy i c Hi Hxc)
      as (j & c' & Hji & Hj & Hyc).
    destruct (reachable_earlier (From g) (sccs t) y x Hord Hyx j c' Hj Hyc)
      as (k & c'' & Hkj & Hk & Hxc'').
    assert (i = k) as <-
      by apply (NoDup_concat_unique (sccs t) i k c c'' x Hnodup Hi Hk Hxc Hxc'').
    assert (j = i) as -> by lia.
    exists c. split; [by eapply list_elem_of_lookup_2|]. split; [done|].
    congruence.
Qed.
End tarjan_scc_facts.

Module tarjan_scc_witnesses.
Import examples structure inputs tarjan_spec tarjan_scc_spec tarjan_scc_facts.

Lemma TarjanSCC_returns_strongly_connected_components_witness :
  ∃ cs, TarjanSCC 5 cycle_with_entry = Ok cs
    ∧ ∀ x y, x ∈ Nodes cycle_with_entry → y ∈ Nodes cycle_with_entry →
        (same_component cs x y
         ↔ reachable (From cycle_with_entry) x y
           ∧ reachable (From cycle_with_entry) y x).
Proof.
  apply (TarjanSCC_returns_strongly_connected_components cycle_with_entry 5).
  - intros x y Hxy. exact Hxy.
  - apply tarjan_witnesses.cycle_with_entry_closed.
  - vm_compute. lia.
Defined.
End tarjan_scc_witnesses.

Module kruskal_facts.
Import structure concrete_spec kruskal_spec.

Section UnionFind.
Implicit Types (ds : DisjointSet) (x y r : Z).

Lemma climbs_det ds x r n r' n' :
  climbs ds x r n → climbs ds x r' n' → r = r' ∧ n = n'.
Proof.
  intros H1. revert r' n'.
  induction H1 as [x Hx|x p r n Hp Hne _ IH]; intros r' n' H2.
  - inversion H2; simplify_eq; done.
  - inversion H2 as [|? p' ? n2 Hp' Hne' H2']; simplify_eq.
    destruct (IH _ _ H2') as [-> ->]. done.
Qed.

Lemma climbs_is_root ds x r n : climbs ds x r n → parent ds !! r = Some r.
Proof. induction 1; done. Qed.

Lemma climbs_known ds x r n : climbs ds x r n → is_Some (parent ds !! x).
Proof. destruct 1; by eexists. Qed.

Lemma climbs_parent ds ds' x r n :
  parent ds' = parent ds → climbs ds x r n → climbs ds' x r n.
Proof.
  intros Heq. induction 1.
  - apply climbs_root. by rewrite Heq.
  - eapply climbs_step; [by rewrite Heq|done..].
Qed.

(** The nodes on the way to the root are pairwise different, so the way
    is shorter than the number of elements. *)
Lemma climbs_path ds x r n :
  climbs ds x r n →
  ∃ l, length l = S n ∧ NoDup l
       ∧ ∀ y, y ∈ l → ∃ k, (k ≤ n)%nat ∧ climbs ds y r k.
Proof.
  induction 1 as [x Hx|x p r n Hp Hne Hc (l & Hlen & Hnd & Hl)].
  - exists [x]. split; [done|]. split; [apply NoDup_singleton|].
    intros y ->%list_elem_of_singleton. exists 0%nat.
    split; [done|]. by apply climbs_root.
  - exists (x :: l). split; [by rewrite length_cons, Hlen|]. split.
    + apply NoDup_cons. split; [|done]. intros Hin.
      destruct (Hl x Hin) as (k & Hk & Hxk).
      assert (climbs ds x r (S n)) as Hx by by eapply climbs_step.
      destruct (climbs_det _ _ _ _ _ _ Hx Hxk) as [_ ?]. lia.
    + intros y [->|Hy]%elem_of_cons.
      * exists (S n). split; [done|]. by eapply climbs_step.
      * destruct (Hl y Hy) as (k & Hk & Hyk). exists k. split; [lia|done].
Qed.

Lemma climbs_bound ds x r n : climbs ds x r n → (n < size (parent ds))%nat.
Proof.
  intros (l & Hlen & Hnd & Hl)%climbs_path.
  assert (length l ≤ size (dom (parent ds)))%nat; [|rewrite size_dom in *; lia].
  apply search_facts.NoDup_length_le_size; [done|].
  intros y Hy. destruct (Hl y Hy) as (k & _ & Hyk).
  apply elem_of_dom. by eapply climbs_known.
Qed.

(** Pointing an element at its own root keeps every root. *)
Lemma redirect ds ds' x r n :
  climbs ds x r n → x ≠ r → parent ds' = <[x := r]> (parent ds) →
  ∀ y r' k, climbs ds y r' k → ∃ k', climbs ds' y r' k'.
Proof.
  intros Hx Hne Hds' y r' k Hy.
  induction Hy as [y Hroot|y q r' k Hq Hqy Hc (k' & IH)].
  - exists 0%nat. apply climbs_root. rewrite Hds', lookup_insert_ne; [done|].
    intros <-. destruct (climbs_det _ _ _ _ _ _ Hx (climbs_root ds x Hroot)).
    done.
  - destruct (decide (y = x)) as [->|Hyx].
    + assert (climbs ds x r' (S k)) as Hx' by by eapply climbs_step.
      destruct (climbs_det _ _ _ _ _ _ Hx Hx') as [<- _].
      exists 1%nat. eapply climbs_step.
      * by rewrite Hds', lookup_insert_eq.
      * done.
      * apply climbs_root. rewrite Hds', lookup_insert_ne by done.
        by eapply climbs_is_root.
    + exists (S k'). eapply climbs_step; [|done..].
      by rewrite Hds', lookup_insert_ne.
Qed.

Lemma keeps_sets_refl ds : keeps_sets ds ds.
Proof. split; [done|]. eauto. Qed.

Lemma keeps_sets_trans ds1 ds2 ds3 :
  keeps_sets ds1 ds2 → keeps_sets ds2 ds3 → keeps_sets ds1 ds3.
Proof.
  intros [Hd1 Hc1] [Hd2 Hc2]. split.
  - intros y. by rewrite Hd2, Hd1.
  - intros y r k Hy. destruct (Hc1 y r k Hy) as (k1 & Hy1). eauto.
Qed.

Lemma keeps_sets_inv ds ds' : uf_inv ds → keeps_sets ds ds' → uf_inv ds'.
Proof.
  intros Hinv [Hd Hc] x Hx. apply Hd, Hinv in Hx as (r & n & Hx).
  destruct (Hc x r n Hx) as (k & Hk). eauto.
Qed.

Lemma keeps_sets_same_set ds ds' x y :
  uf_inv ds → keeps_sets ds ds' → (same_set ds' x y ↔ same_set ds x y).
Proof.
  intros Hinv [Hd Hc]. split.
  - intros (r & n & m & Hx & Hy).
    destruct (Hinv x) as (rx & nx & Hx0); [by eapply Hd, climbs_known|].
    destruct (Hinv y) as (ry & ny & Hy0); [by eapply Hd, climbs_known|].
    destruct (Hc x rx nx Hx0) as (kx & Hx1), (Hc y ry ny Hy0) as (ky & Hy1).
    destruct (climbs_det _ _ _ _ _ _ Hx Hx1) as [-> _].
    destruct (climbs_det _ _ _ _ _ _ Hy Hy1) as [-> _].
    by exists ry, nx, ny.
  - intros (r & n & m & Hx & Hy).
    destruct (Hc x r n Hx) as (kx & Hx1), (Hc y r m Hy) as (ky & Hy1).
    by exists r, kx, ky.
Qed.

(** [find] returns the root and keeps the sets. *)
Lemma find_loop_spec fuel ds x r n :
  climbs ds x r n → (n < fuel)%nat →
  ∃ ds', find_loop fuel ds x = Ok (ds', r) ∧ keeps_sets ds ds'
         ∧ rank ds' = rank ds.
Proof.
  intros Hx. revert fuel.
  induction Hx as [x Hroot|x p r n Hp Hne Hc IH]; intros fuel Hfuel;
    (destruct fuel as [|fuel]; [lia|]); cbn [find_loop].
  - rewrite Hroot, decide_True by done. exists ds.
    split; [done|]. split; [apply keeps_sets_refl|done].
  - rewrite Hp, decide_False by done.
    destruct (IH fuel) as (ds1 & -> & Hkeep & Hrank); [lia|]. simpl.
    eexists. split; [done|]. split; [|done].
    assert (x ≠ r) as Hxr.
    { intros ->. apply climbs_is_root in Hc. congruence. }
    destruct Hkeep as [Hd1 Hc1].
    destruct (Hc1 x r (S n)) as (k1 & Hx1); [by eapply climbs_step|].
    split.
    + intros y. cbn [parent]. rewrite lookup_insert_is_Some, Hd1.
      split; [intros [<-|[_ ?]]; [by eexists|done]|].
      intros Hy. destruct (decide (x = y)); [by left|by right].
    + intros y r' k Hy. destruct (Hc1 y r' k Hy) as (k' & Hy1).
      by eapply (redirect ds1 _ x r k1).
Qed.

Lemma find_spec ds x :
  uf_inv ds → is_Some (parent ds !! x) →
  ∃ ds' r n, find ds x = Ok (ds', r) ∧ climbs ds x r n ∧ keeps_sets ds ds'.
Proof.
  intros Hinv Hx. destruct (Hinv x Hx) as (r & n & Hc).
  destruct (find_loop_spec (S (size (parent ds))) ds x r n Hc)
    as (ds' & Hf & Hkeep & _).
  { pose proof (climbs_bound _ _ _ _ Hc). lia. }
  by exists ds', r, n.
Qed.

Lemma Find_spec ds el :
  uf_inv ds →
  ∃ ds' s, Find ds el = Ok (ds', s) ∧ keeps_sets ds ds'
    ∧ match s with
      | Some r => ∃ n, climbs ds el r n
      | None => parent ds !! el = None
      end.
Proof.
  intros Hinv. unfold Find. destruct (parent ds !! el) as [p|] eqn:Hel.
  - destruct (find_spec ds el Hinv) as (ds' & r & n & -> & Hc & Hkeep);
      [by eexists|].
    simpl. exists ds', (Some r). split; [done|]. split; [done|]. by exists n.
  - exists ds, None. split; [done|]. split; [apply keeps_sets_refl|done].
Qed.

(** Making the root [a] a child of the root [b] moves the set of [a] into
    the set of [b] and leaves the other sets as they were. *)
Lemma link ds ds' a b :
  parent ds !! a = Some a → parent ds !! b = Some b → a ≠ b →
  parent ds' = <[a := b]> (parent ds) →
  ∀ y r k, climbs ds y r k →
    ∃ k', climbs ds' y (if decide (r = a) then b else r) k'.
Proof.
  intros Ha Hb Hab Hds' y r k Hy.
  induction Hy as [y Hroot|y q r k Hq Hqy Hc (k' & IH)].
  - case_decide as Hya.
    + subst y. exists 1%nat. eapply climbs_step.
      * by rewrite Hds', lookup_insert_eq.
      * done.
      * apply climbs_root. by rewrite Hds', lookup_insert_ne.
    + exists 0%nat. apply climbs_root. by rewrite Hds', lookup_insert_ne.
  - exists (S k'). eapply climbs_step; [|done..].
    rewrite Hds', lookup_insert_ne; [done|]. intros <-. congruence.
Qed.

Lemma link_spec ds ds' a b :
  uf_inv ds →
  parent ds !! a = Some a → parent ds !! b = Some b → a ≠ b →
  parent ds' = <[a := b]> (parent ds) →
  uf_inv ds'
  ∧ (∀ y, is_Some (parent ds' !! y) ↔ is_Some (parent ds !! y))
  ∧ ∀ x y, same_set ds' x y
           ↔ same_set ds x y
             ∨ (same_set ds x a ∧ same_set ds y b)
             ∨ (same_set ds x b ∧ same_set ds y a).
Proof.
  intros Hinv Ha Hb Hab Hds'.
  pose proof (link ds ds' a b Ha Hb Hab Hds') as Hlink.
  assert (∀ y, is_Some (parent ds' !! y) ↔ is_Some (parent ds !! y)) as Hd.
  { intros y. rewrite Hds', lookup_insert_is_Some.
    split; [intros [<-|[_ ?]]; [by eexists|done]|].
    intros Hy. destruct (decide (a = y)); [by left|by right]. }
  assert (∀ r, climbs ds r r 0 → same_set ds r r) as Hrefl.
  { intros r Hr. by exists r, 0%nat, 0%nat. }
  pose proof (climbs_root ds a Ha) as Hca.
  pose proof (climbs_root ds b Hb) as Hcb.
  split; [|split; [done|]].
  - intros x Hx. apply Hd, Hinv in Hx as (r & n & Hx).
    destruct (Hlink x r n Hx) as (k & Hk). eauto.
  - intros x y. split.
    + intros (r & n & m & Hx & Hy).
      destruct (Hinv x) as (rx & nx & Hx0); [by eapply Hd, climbs_known|].
      destruct (Hinv y) as (ry & ny & Hy0); [by eapply Hd, climbs_known|].
      destruct (Hlink x rx nx Hx0) as (kx & Hx1).
      destruct (Hlink y ry ny Hy0) as (ky & Hy1).
      destruct (climbs_det _ _ _ _ _ _ Hx Hx1) as [Hrx _].
      destruct (climbs_det _ _ _ _ _ _ Hy Hy1) as [Hry _].
      destruct (decide (rx = a)) as [->|Hxa], (decide (ry = a)) as [->|Hya].
      * left. by exists a, nx, ny.
      * assert (ry = b) as -> by congruence.
        right. left. split; [by exists a, nx, 0%nat|].
        by exists b, ny, 0%nat.
      * assert (rx = b) as -> by congruence.
        right. right. split; [by exists b, nx, 0%nat|].
        by exists a, ny, 0%nat.
      * assert (rx = ry) as -> by congruence.
        left. by exists ry, nx, ny.
    + intros [(r & n & m & Hx & Hy)|[[Hx Hy]|[Hx Hy]]].
      * destruct (Hlink x r n Hx) as (kx & Hx1).
        destruct (Hlink y r m Hy) as (ky & Hy1). by eexists _, kx, ky.
      * destruct Hx as (r & n & m & Hx & Har).
        destruct (climbs_det _ _ _ _ _ _ Har Hca) as [-> _].
        destruct Hy as (r & n' & m' & Hy & Hbr).
        destruct (climbs_det _ _ _ _ _ _ Hbr Hcb) as [-> _].
        destruct (Hlink x a n Hx) as (kx & Hx1).
        destruct (Hlink y b n' Hy) as (ky & Hy1).
        rewrite decide_True in Hx1 by done.
        rewrite decide_False in Hy1 by done. by exists b, kx, ky.
      * destruct Hx as (r & n & m & Hx & Hbr).
        destruct (climbs_det _ _ _ _ _ _ Hbr Hcb) as [-> _].
        destruct Hy as (r & n' & m' & Hy & Har).
        destruct (climbs_det _ _ _ _ _ _ Har Hca) as [-> _].
        destruct (Hlink x b n Hx) as (kx & Hx1).
        destruct (Hlink y a n' Hy) as (ky & Hy1).
        rewrite decide_False in Hx1 by done.
        rewrite decide_True in Hy1 by done. by exists b, kx, ky.
Qed.

Lemma same_set_sym ds x y : same_set ds x y → same_set ds y x.
Proof. intros (r & n & m & Hx & Hy). by exists r, m, n. Qed.

Lemma same_set_trans ds x y z :
  same_set ds x y → same_set ds y z → same_set ds x z.
Proof.
  intros (r & n & m & Hx & Hy) (r' & n' & m' & Hy' & Hz).
  destruct (climbs_det _ _ _ _ _ _ Hy Hy') as [-> _]. by exists r', n, m'.
Qed.

Lemma same_set_root ds x r n : climbs ds x r n → same_set ds x r.
Proof.
  intros Hx. exists r, n, 0%nat. split; [done|].
  apply climbs_root. by eapply climbs_is_root.
Qed.

(** [Union] of two known elements merges their sets and no others. *)
Lemma Union_spec ds a b :
  uf_inv ds → is_Some (parent ds !! a) → is_Some (parent ds !! b) →
  ∃ ds', Union ds (Some a) (Some b) = Ok ds' ∧ uf_inv ds'
    ∧ (∀ y, is_Some (parent ds' !! y) ↔ is_Some (parent ds !! y))
    ∧ ∀ x y, same_set ds' x y
             ↔ same_set ds x y
               ∨ (same_set ds x a ∧ same_set ds y b)
               ∨ (same_set ds x b ∧ same_set ds y a).
Proof.
  intros Hinv Ha Hb. unfold Union.
  destruct (find_spec ds a Hinv Ha) as (ds1 & ra & na & -> & Hca & Hk1).
  simpl. pose proof (keeps_sets_inv _ _ Hinv Hk1) as Hinv1.
  destruct (find_spec ds1 b Hinv1) as (ds2 & rb & nb & -> & Hcb & Hk2);
    [by apply Hk1|].
  simpl. pose proof (keeps_sets_inv _ _ Hinv1 Hk2) as Hinv2.
  pose proof (keeps_sets_trans _ _ _ Hk1 Hk2) as Hk.
  assert (∀ x y, same_set ds2 x y ↔ same_set ds x y) as Hsame.
  { intros x y. by apply keeps_sets_same_set. }
  assert (same_set ds a ra) as Hara by by eapply same_set_root.
  assert (same_set ds b rb) as Hbrb.
  { apply (keeps_sets_same_set ds ds1); [done..|]. by eapply same_set_root. }
  assert (parent ds2 !! ra = Some ra) as Hra.
  { destruct Hk as [_ Hc]. destruct (Hc a ra na Hca) as (k & Hk').
    by eapply climbs_is_root. }
  assert (parent ds2 !! rb = Some rb) as Hrb.
  { destruct Hk2 as [_ Hc]. destruct (Hc b rb nb Hcb) as (k & Hk').
    by eapply climbs_is_root. }
  assert (∀ x, same_set ds x ra ↔ same_set ds x a) as Hxa.
  { intros x. split; intros Hx; eapply same_set_trans; [done| |done|done].
    by apply same_set_sym. }
  assert (∀ x, same_set ds x rb ↔ same_set ds x b) as Hxb.
  { intros x. split; intros Hx; eapply same_set_trans; [done| |done|done].
    by apply same_set_sym. }
  case_decide as Hroots.
  { exists ds2. split; [done|]. split; [done|]. split; [apply Hk|].
    intros x y. rewrite Hsame. split; [by left|].
    intros [?|[[Hx Hy]|[Hx Hy]]]; [done| |].
    - apply Hxa in Hx. apply Hxb in Hy. rewrite <-Hroots in Hy.
      eapply same_set_trans; [done|by apply same_set_sym].
    - apply Hxb in Hx. apply Hxa in Hy. rewrite <-Hroots in Hx.
      eapply same_set_trans; [done|by apply same_set_sym]. }
  assert (∀ ds', (parent ds' = <[ra := rb]> (parent ds2)
                  ∨ parent ds' = <[rb := ra]> (parent ds2)) →
            uf_inv ds'
            ∧ (∀ y, is_Some (parent ds' !! y) ↔ is_Some (parent ds !! y))
            ∧ ∀ x y, same_set ds' x y
                     ↔ same_set ds x y
                       ∨ (same_set ds x a ∧ same_set ds y b)
                       ∨ (same_set ds x b ∧ same_set ds y a)) as Hlinked.
  { intros ds' [Hds'|Hds'].
    - destruct (link_spec ds2 ds' ra rb Hinv2 Hra Hrb Hroots Hds')
        as (Hinv' & Hd' & Hs').
      split; [done|]. split.
      { intros y. rewrite Hd'. apply Hk. }
      intros x y. rewrite Hs', !Hsame, !Hxa, !Hxb. done.
    - destruct (link_spec ds2 ds' rb ra Hinv2 Hrb Hra) as (Hinv' & Hd' & Hs');
        [congruence|done|].
      split; [done|]. split.
      { intros y. rewrite Hd'. apply Hk. }
      intros x y. rewrite Hs', !Hsame, !Hxa, !Hxb. tauto. }
  repeat case_decide; eexists; (split; [done|]); apply Hlinked; auto.
Qed.

(** [find] leaves its argument pointing at the root it returns. *)
Lemma find_loop_compresses fuel ds x ds' r :
  find_loop fuel ds x = Ok (ds', r) → parent ds' !! x = Some r.
Proof.
  destruct fuel as [|fuel]; [done|]. cbn [find_loop].
  destruct (parent ds !! x) as [p|] eqn:Hp; [|done].
  case_decide as Hpx; [intros [= <- <-]; congruence|].
  destruct (find_loop fuel ds p) as [[ds1 root]| |]; [|done..].
  bind_ok. intros [= <- <-]. cbn [parent]. by rewrite lookup_insert_eq.
Qed.

(** X22.  The test of [Kruskal]: on an acyclic disjoint set, [Find] of two
    known elements, one after the other, returns two roots that are equal
    when and only when the elements are in the same set.  Both calls keep
    the sets, and each leaves its element pointing at its root. *)
Theorem Find_twice_compares_sets ds a b :
  uf_inv ds → is_Some (parent ds !! a) → is_Some (parent ds !! b) →
  ∃ ds1 ds2 ra rb,
    Find ds a = Ok (ds1, Some ra) ∧ Find ds1 b = Ok (ds2, Some rb)
    ∧ (ra = rb ↔ same_set ds a b)
    ∧ uf_inv ds2 ∧ keeps_sets ds ds2
    ∧ parent ds1 !! a = Some ra ∧ parent ds2 !! b = Some rb
    ∧ parent ds2 !! ra = Some ra ∧ parent ds2 !! rb = Some rb.
Proof.
  intros Hinv [pa Ha] [pb Hb].
  destruct (find_spec ds a Hinv) as (ds1 & ra & na & Hfa & Hca & Hk1);
    [by eexists|].
  pose proof (keeps_sets_inv _ _ Hinv Hk1) as Hinv1.
  assert (is_Some (parent ds1 !! b)) as [pb1 Hb1] by (apply Hk1; by eexists).
  destruct (find_spec ds1 b Hinv1) as (ds2 & rb & nb & Hfb & Hcb & Hk2);
    [by eexists|].
  pose proof (keeps_sets_trans _ _ _ Hk1 Hk2) as Hk.
  destruct (proj2 Hk1 a ra na Hca) as (ka & Hca1).
  destruct (proj2 Hk a ra na Hca) as (ka2 & Hca2).
  destruct (proj2 Hk2 b rb nb Hcb) as (kb2 & Hcb2).
  exists ds1, ds2, ra, rb.
  split; [unfold Find; by rewrite Ha, Hfa|].
  split; [unfold Find; by rewrite Hb1, Hfb|]. split_and!.
  - rewrite <-(keeps_sets_same_set ds ds1 a b Hinv Hk1). split.
    + intros <-. by exists ra, ka, nb.
    + intros (r & n & m & Hx & Hy).
      destruct (climbs_det _ _ _ _ _ _ Hx Hca1) as [-> _].
      by destruct (climbs_det _ _ _ _ _ _ Hy Hcb) as [-> _].
  - by eapply keeps_sets_inv.
  - done.
  - by eapply find_loop_compresses.
  - by eapply find_loop_compresses.
  - by eapply climbs_is_root.
  - by eapply climbs_is_root.
Qed.

(** X23.  [Union] of a nil set panics.  On an acyclic disjoint set, [Union]
    of two known elements returns, keeps the set acyclic with the same
    elements, and merges the sets of the two elements and no others. *)
Theorem Union_merges_two_sets ds (s1 s2 : option Z) :
  uf_inv ds →
  match s1, s2 with
  | Some a, Some b =>
    is_Some (parent ds !! a) → is_Some (parent ds !! b) →
    ∃ ds', Union ds s1 s2 = Ok ds' ∧ uf_inv ds'
      ∧ (∀ y, is_Some (parent ds' !! y) ↔ is_Some (parent ds !! y))
      ∧ ∀ x y, same_set ds' x y
               ↔ same_set ds x y
                 ∨ (same_set ds x a ∧ same_set ds y b)
                 ∨ (same_set ds x b ∧ same_set ds y a)
  | _, _ => Union ds s1 s2 = Panicked "Disjoint Set union on nil sets"
  end.
Proof.
  intros Hinv. destruct s1 as [a|], s2 as [b|]; try done.
  intros Ha Hb. by apply Union_spec.
Qed.

Lemma MakeSet_spec ds el :
  uf_inv ds →
  uf_inv (MakeSet ds el)
  ∧ ∀ y, is_Some (parent (MakeSet ds el) !! y)
         ↔ y = el ∨ is_Some (parent ds !! y).
Proof.
  intros Hinv. unfold MakeSet. destruct (parent ds !! el) as [p|] eqn:Hel.
  { split; [done|]. intros y. split; [by right|].
    intros [->|?]; [by eexists|done]. }
  cbn [parent].
  assert (∀ y r n, climbs ds y r n →
            climbs {| parent := <[el := el]> (parent ds);
                      rank := <[el := 0%nat]> (rank ds) |} y r n) as Hkeep.
  { intros y r n Hy. induction Hy as [y Hroot|y q r n Hq Hqy Hc IH].
    - apply climbs_root. cbn [parent].
      rewrite lookup_insert_ne; [done|]. intros <-. congruence.
    - eapply climbs_step; [|done..]. cbn [parent].
      rewrite lookup_insert_ne; [done|]. intros <-. congruence. }
  split.
  - intros x Hx. cbn [parent] in Hx. apply lookup_insert_is_Some in Hx.
    destruct (decide (el = x)) as [<-|Hne].
    + exists el, 0%nat. apply climbs_root. cbn [parent].
      by rewrite lookup_insert_eq.
    + destruct Hx as [?|[_ Hx]]; [done|].
      destruct (Hinv x Hx) as (r & n & Hc). eauto.
  - intros y. rewrite lookup_insert_is_Some.
    split; [intros [<-|[_ ?]]; [by left|by right]|].
    intros [->|Hy]; [by left|].
    destruct (decide (el = y)); [by left|by right].
Qed.

(** After the calls of [MakeSet] every node is a set of its own. *)
Lemma MakeSet_all {N : Type} `{!Node N} (nodes : list N) :
  let ds := foldl (λ ds node, MakeSet ds (ID node)) NewDisjointSet nodes in
  uf_inv ds ∧ (∀ id, is_Some (parent ds !! id) ↔ id ∈ ID <$> nodes)
  ∧ ∀ id p, parent ds !! id = Some p → p = id.
Proof.
  induction nodes as [|n nodes IH] using rev_ind; simpl.
  - split; [by intros x [? ?]|]. split; [|done]. intros id.
    rewrite lookup_empty.
    split; [by intros [? ?]|by intros ?%elem_of_nil].
  - rewrite foldl_app. simpl. destruct IH as (Hinv & Hd & Hself).
    destruct (MakeSet_spec _ (ID n) Hinv) as [Hinv' Hd'].
    split; [done|]. split.
    + intros id. rewrite Hd', Hd, fmap_app, elem_of_app.
      simpl. rewrite list_elem_of_singleton. tauto.
    + intros id p. unfold MakeSet.
      destruct (parent _ !! ID n) eqn:Hn; [apply Hself|]. cbn [parent].
      rewrite lookup_insert. case_decide; [congruence|apply Hself].
Qed.
End UnionFind.

Section Kruskal.
Context {N : Type} `{!Node N}.
Implicit Types (dst : UndirectedGraph N).

Lemma elem_of_insert_by_weight (e x : WeightedEdge N) l :
  x ∈ insert_by_weight e l ↔ x = e ∨ x ∈ l.
Proof.
  induction l as [|y l IH]; simpl.
  - rewrite list_elem_of_singleton, elem_of_nil. tauto.
  - destruct (flt _ _); rewrite !elem_of_cons; [rewrite IH|]; tauto.
Qed.

(** The sorted slice holds the edges it was given. *)
Lemma elem_of_sort_byWeight (x : WeightedEdge N) l :
  x ∈ sort_byWeight l ↔ x ∈ l.
Proof.
  unfold sort_byWeight. rewrite elem_of_reverse.
  assert (∀ acc, x ∈ foldl (λ sorted e, insert_by_weight e sorted) acc l
                 ↔ x ∈ acc ∨ x ∈ l) as Hgen.
  { induction l as [|y l IH]; intros acc; simpl.
    - rewrite elem_of_nil. tauto.
    - rewrite IH, elem_of_insert_by_weight, elem_of_cons. tauto. }
  rewrite Hgen, elem_of_nil. tauto.
Qed.

Lemma joined_mono dst dst' x y :
  (∀ a b, is_Some (concrete.neighbor_at dst a b)
          → is_Some (concrete.neighbor_at dst' a b)) →
  joined dst x y → joined dst' x y.
Proof.
  intros Hsub Hxy. induction Hxy as [|x z y Hxz _ IH]; [apply rtc_refl|].
  eapply rtc_l; [by apply Hsub|done].
Qed.

Lemma joined_sym dst x y : ug_wf dst → joined dst x y → joined dst y x.
Proof.
  intros Hwf Hxy. induction Hxy as [|x z y Hxz _ IH]; [apply rtc_refl|].
  eapply rtc_r; [done|]. by apply (ug_sym _ Hwf).
Qed.

Lemma for_range_cons {A S : Type} (x : A) xs (body : S → A → result S) s :
  for_range (x :: xs) body s = body s x ≫= for_range xs body.
Proof. done. Qed.

Lemma edge_eta (e : WeightedEdge N) :
  {| edge_of := edge_of e; Weight := Weight e |} = e.
Proof. by destruct e. Qed.

(** One turn of the loop of [Kruskal] over an edge between two nodes. *)
Lemma Kruskal_edge_spec ids edges (st : DisjointSet * UndirectedGraph N)
    (e : WeightedEdge N) :
  kruskal_inv ids edges st → e ∈ edges →
  ID (edge_of e).1 ∈ ids → ID (edge_of e).2 ∈ ids →
  ∃ st', Kruskal_edge st e = Ok st' ∧ kruskal_inv ids edges st'
    ∧ joined st'.2 (ID (edge_of e).1) (ID (edge_of e).2)
    ∧ ∀ a b, is_Some (concrete.neighbor_at st.2 a b)
             → is_Some (concrete.neighbor_at st'.2 a b).
Proof.
  destruct st as [ds dst].
  intros [Hinv Hknown Hwf Hjoined Hedges Hnodes] He Ha Hb.
  cbn [fst snd] in *. unfold Kruskal_edge.
  set (a := ID (edge_of e).1) in *. set (b := ID (edge_of e).2) in *.
  destruct (Find_spec ds a Hinv) as (ds1 & s1 & -> & Hk1 & Hs1). bind_ok.
  destruct s1 as [ra|]; cycle 1.
  { assert (is_Some (parent ds !! a)) as [? Ha0] by by apply Hknown.
    congruence. }
  destruct Hs1 as [na Hca].
  pose proof (keeps_sets_inv _ _ Hinv Hk1) as Hinv1.
  destruct (Find_spec ds1 b Hinv1) as (ds2 & s2 & -> & Hk2 & Hs2). bind_ok.
  destruct s2 as [rb|]; cycle 1.
  { assert (is_Some (parent ds1 !! b)) as [? Hb1] by by apply Hk1, Hknown.
    congruence. }
  destruct Hs2 as [nb Hcb].
  pose proof (keeps_sets_inv _ _ Hinv1 Hk2) as Hinv2.
  pose proof (keeps_sets_trans _ _ _ Hk1 Hk2) as Hk.
  assert (∀ x y, same_set ds2 x y ↔ same_set ds x y) as Hsame.
  { intros x y. by apply keeps_sets_same_set. }
  assert (same_set ds a ra) as Hara by by eapply same_set_root.
  assert (same_set ds b rb) as Hbrb.
  { apply (keeps_sets_same_set ds ds1); [done..|]. by eapply same_set_root. }
  case_decide as Hdiff; cycle 1.
  { assert (ra = rb) as <- by congruence.
    exists (ds2, dst). split; [done|]. split; [|split; [|done]].
    - split; cbn [fst snd]; [done| |done| |done|done].
      + intros id. rewrite <-Hknown. apply Hk.
      + intros x y Hxy. by apply Hjoined, Hsame.
    - cbn [snd]. apply Hjoined. eapply same_set_trans; [done|].
      by apply same_set_sym. }
  assert (is_Some (parent ds2 !! ra) ∧ is_Some (parent ds2 !! rb)) as [Hra Hrb].
  { split; apply Hk.
    - destruct Hara as (r & n & m & _ & Hr). by eapply climbs_known.
    - destruct Hbrb as (r & n & m & _ & Hr). by eapply climbs_known. }
  destruct (Union_spec ds2 ra rb Hinv2 Hra Hrb) as (ds3 & -> & Hinv3 & Hd3 & Hs3).
  bind_ok.
  destruct (concrete_facts.AddUndirectedEdge_ok dst (edge_of e) (Weight e) Hwf)
    as (dst' & -> & Hwf' & _ & Hnm & _ & Hadj).
  bind_ok. rewrite edge_eta in Hadj. fold a b in Hadj, Hnm.
  assert (∀ c d, is_Some (concrete.neighbor_at dst c d)
                 → is_Some (concrete.neighbor_at dst' c d)) as Hmono.
  { intros c d Hcd. rewrite Hadj. by case_decide. }
  assert (joined dst' a b) as Hab.
  { apply rtc_once. rewrite Hadj, decide_True by auto. by eexists. }
  exists (ds3, dst'). split; [done|]. split; [|done].
  split; cbn [fst snd]; [done| |done| | |].
  - intros id. rewrite Hd3, <-Hknown. apply Hk.
  - assert (joined dst' ra rb) as Hroots.
    { etrans; [|etrans; [exact Hab|]].
      - apply (joined_mono dst); [done|]. by apply Hjoined, same_set_sym.
      - apply (joined_mono dst); [done|]. by apply Hjoined. }
    intros x y. rewrite Hs3, !Hsame.
    intros [Hxy|[[Hx Hy]|[Hx Hy]]].
    + apply (joined_mono dst); [done|]. by apply Hjoined.
    + etrans; [apply (joined_mono dst); [done|]; by apply Hjoined|].
      etrans; [exact Hroots|].
      apply (joined_mono dst); [done|]. by apply Hjoined, same_set_sym.
    + etrans; [apply (joined_mono dst); [done|]; by apply Hjoined|].
      etrans; [by apply joined_sym|].
      apply (joined_mono dst); [done|]. by apply Hjoined, same_set_sym.
  - intros c d we. rewrite Hadj. case_decide as Hcd.
    + intros [= <-]. split; [done|]. done.
    + apply Hedges.
  - intros id [->|[->|Hid]]%Hnm.
    + exists b. rewrite Hadj, decide_True by auto. by eexists.
    + exists a. rewrite Hadj, decide_True by auto. by eexists.
    + destruct (Hnodes id Hid) as (d & Hd). exists d. by apply Hmono.
Qed.

(** X24.  On an edge list whose edges join nodes of the graph, [Kruskal]
    into a new graph returns without panic.  The destination is then
    consistent; the end points of every edge of the graph are joined by a
    path in it; each edge it stores is an edge of the graph, stored with
    the weight the weight function gives it under the identifiers of its
    end points; and its nodes are the end points of its edges, so that a
    node of the graph without an edge to another node is not a node of
    the destination. *)
Theorem Kruskal_spans_the_graph (g : EdgeList N)
    (weight : option (WeightFunc N)) (absent : float) :
  (∀ e : N * N, e ∈ Edges g →
     ID e.1 ∈ ID <$> Nodes g ∧ ID e.2 ∈ ID <$> Nodes g) →
  ∃ dst', Kruskal (NewUndirectedGraph absent) g weight = Ok dst'
    ∧ ug_wf dst'
    ∧ (∀ e : N * N, e ∈ Edges g → joined dst' (ID e.1) (ID e.2))
    ∧ (∀ a b we, concrete.neighbor_at dst' a b = Some we →
         edge_of we ∈ Edges g
         ∧ Weight we = resolve_weight g weight (Some (edge_of we))
         ∧ ((a = ID (edge_of we).1 ∧ b = ID (edge_of we).2)
            ∨ (a = ID (edge_of we).2 ∧ b = ID (edge_of we).1)))
    ∧ ∀ id, is_Some (nodeMap dst' !! id)
            ↔ ∃ b, is_Some (concrete.neighbor_at dst' id b).
Proof.
  intros Hends. unfold Kruskal. cbv zeta.
  set (w := resolve_weight g weight).
  set (weighted := (λ e, {| edge_of := e; Weight := w (Some e) |}) <$> Edges g).
  set (edges := sort_byWeight weighted).
  destruct (MakeSet_all (Nodes g)) as (Hinv & Hknown & Hself).
  set (ds := foldl _ _ _) in *.
  assert (∀ e, e ∈ edges ↔ e ∈ weighted) as Hsorted.
  { intros e. apply elem_of_sort_byWeight. }
  destruct (for_range_prefix_inv
              (λ pre st, kruskal_inv (ID <$> Nodes g) edges st
                         ∧ ∀ e, e ∈ pre →
                             joined st.2 (ID (edge_of e).1) (ID (edge_of e).2))
              edges Kruskal_edge (ds, NewUndirectedGraph absent))
    as ([ds' dst'] & -> & Hend & Hall).
  { split; [|by intros e ?%elem_of_nil].
    split; cbn [fst snd]; [done..|apply concrete_facts.NewUndirectedGraph_wf| | |].
    - intros x y (r & n & m & Hx & Hy).
      assert (∀ z k, climbs ds z r k → z = r) as Hroot.
      { intros z k Hz. destruct Hz as [|z p r k Hp Hne _]; [done|].
        by apply Hself in Hp. }
      rewrite (Hroot x n Hx), (Hroot y m Hy). apply rtc_refl.
    - intros a b we. unfold concrete.neighbor_at. cbn [neighbors NewUndirectedGraph].
      by rewrite lookup_empty.
    - intros id. cbn [nodeMap NewUndirectedGraph]. rewrite lookup_empty.
      by intros [? ?]. }
  { intros pre e post st Hedges [Hst Hpre].
    assert (e ∈ edges) as He.
    { rewrite Hedges. apply elem_of_app. right. by left. }
    assert (edge_of e ∈ Edges g) as Hin.
    { apply Hsorted, list_elem_of_fmap in He as (e0 & -> & He0). done. }
    destruct (Hends _ Hin) as [Ha Hb].
    destruct (Kruskal_edge_spec _ _ st e Hst He Ha Hb)
      as (st' & -> & Hst' & Hjoin & Hmono).
    exists st'. split; [done|]. split; [done|].
    intros e' [He'| ->%list_elem_of_singleton]%elem_of_app; [|done].
    apply (joined_mono st.2); [done|]. by apply Hpre. }
  simpl. exists dst'. split; [done|].
  destruct Hend as [_ _ Hwf _ Hedges Hnodes]. cbn [fst snd] in *.
  split; [done|]. split_and!.
  - intros e He.
    apply (Hall {| edge_of := e; Weight := w (Some e) |}).
    apply Hsorted. unfold weighted.
    by apply (list_elem_of_fmap_2
                (λ e, {| edge_of := e; Weight := w (Some e) |})).
  - intros a b we Hwe. destruct (Hedges a b we Hwe) as [Hin Hab].
    apply Hsorted, list_elem_of_fmap in Hin as (e0 & -> & He0). done.
  - intros id. split; [apply Hnodes|]. intros (b & Hb).
    apply (ug_dom _ (ug_book _ Hwf)).
    apply concrete_facts.neighbor_at_Some in Hb as (around & -> & _).
    by eexists.
Qed.

(** X25.  When the edge list has an edge with one end point among the
    nodes of the graph and the other not, [Kruskal] into a new graph
    panics in [Union], whatever its other edges are. *)
Theorem Kruskal_panics_on_foreign_end_point (g : EdgeList N)
    (weight : option (WeightFunc N)) (absent : float) (e : N * N) :
  e ∈ Edges g →
  ¬ (ID e.1 ∈ ID <$> Nodes g ↔ ID e.2 ∈ ID <$> Nodes g) →
  Kruskal (NewUndirectedGraph absent) g weight
  = Panicked "Disjoint Set union on nil sets".
Proof.
  intros He Hmixed. unfold Kruskal. cbv zeta.
  set (w := resolve_weight g weight).
  set (weighted := (λ e, {| edge_of := e; Weight := w (Some e) |}) <$> Edges g).
  destruct (MakeSet_all (Nodes g)) as (Hinv & Hknown & _).
  set (ds := foldl _ _ _) in *.
  set (ids := ID <$> Nodes g) in *.
  set (mixed := λ e' : WeightedEdge N,
         ¬ (ID (edge_of e').1 ∈ ids ↔ ID (edge_of e').2 ∈ ids)).
  assert (∃ e', e' ∈ sort_byWeight weighted ∧ mixed e') as Hsome.
  { exists {| edge_of := e; Weight := w (Some e) |}. split; [|done].
    apply elem_of_sort_byWeight.
    by apply (list_elem_of_fmap_2
                (λ e, {| edge_of := e; Weight := w (Some e) |})). }
  enough (∀ edges (st : DisjointSet * UndirectedGraph N),
            uf_inv st.1 → (∀ id, is_Some (parent st.1 !! id) ↔ id ∈ ids) →
            ug_wf st.2 → (∃ e', e' ∈ edges ∧ mixed e') →
            for_range edges Kruskal_edge st
            = Panicked "Disjoint Set union on nil sets") as Hloop.
  { rewrite (Hloop _ (ds, NewUndirectedGraph absent)); [done..| |done].
    apply concrete_facts.NewUndirectedGraph_wf. }
  clear Hsome. intros edges.
  induction edges as [|e' edges IH]; intros [ds0 dst0] Hinv0 Hknown0 Hwf0 Hsome;
    cbn [fst snd] in *.
  { destruct Hsome as (? & ?%elem_of_nil & _). done. }
  rewrite for_range_cons. set (rest := for_range edges Kruskal_edge).
  unfold Kruskal_edge.
  destruct (Find_spec ds0 (ID (edge_of e').1) Hinv0)
    as (ds1 & s1 & -> & Hk1 & Hs1). bind_ok.
  pose proof (keeps_sets_inv _ _ Hinv0 Hk1) as Hinv1.
  destruct (Find_spec ds1 (ID (edge_of e').2) Hinv1)
    as (ds2 & s2 & -> & Hk2 & Hs2). bind_ok.
  pose proof (keeps_sets_inv _ _ Hinv1 Hk2) as Hinv2.
  pose proof (keeps_sets_trans _ _ _ Hk1 Hk2) as Hk.
  assert (∀ id, is_Some (parent ds2 !! id) ↔ id ∈ ids) as Hknown2.
  { intros id. rewrite <-Hknown0. apply Hk. }
  assert (is_Some s1 ↔ ID (edge_of e').1 ∈ ids) as H1.
  { rewrite <-Hknown0. destruct s1 as [r|].
    - destruct Hs1 as [n Hc]. split; [intros _; by eapply climbs_known|done].
    - rewrite Hs1. split; by intros [? ?]. }
  assert (is_Some s2 ↔ ID (edge_of e').2 ∈ ids) as H2.
  { rewrite <-Hknown0, <-(proj1 Hk1). destruct s2 as [r|].
    - destruct Hs2 as [n Hc]. split; [intros _; by eapply climbs_known|done].
    - rewrite Hs2. split; by intros [? ?]. }
  destruct s1 as [ra|], s2 as [rb|].
  - (* both ends are nodes: the turn succeeds *)
    assert (∃ st', (if decide (Some ra ≠ Some rb)
                    then ds ← Union ds2 (Some ra) (Some rb);
                         dst ← AddUndirectedEdge dst0 (edge_of e') (Weight e');
                         Ok (ds, dst)
                    else Ok (ds2, dst0)) = Ok st'
                   ∧ uf_inv st'.1
                   ∧ (∀ id, is_Some (parent st'.1 !! id) ↔ id ∈ ids)
                   ∧ ug_wf st'.2) as (st' & -> & Hinv' & Hknown' & Hwf').
    { case_decide; [|by exists (ds2, dst0)].
      destruct Hs1 as [na Hca], Hs2 as [nb Hcb].
      destruct (Union_spec ds2 ra rb Hinv2) as (ds3 & -> & Hinv3 & Hd3 & _).
      { apply Hk. apply climbs_is_root in Hca. by eexists. }
      { apply Hk2. apply climbs_is_root in Hcb. by eexists. }
      bind_ok.
      destruct (concrete_facts.AddUndirectedEdge_ok dst0 (edge_of e')
                  (Weight e') Hwf0) as (dst' & -> & Hwf' & _).
      bind_ok. exists (ds3, dst'). split; [done|]. split; [done|].
      split; [|done]. intros id. cbn [fst]. by rewrite Hd3. }
    bind_ok. subst rest. apply IH; [done..|].
    destruct Hsome as (e'' & [->|He'']%elem_of_cons & Hmix); [|by eauto].
    destruct Hmix. split; intros _; [by apply H2|by apply H1].
  - rewrite decide_True by done. done.
  - rewrite decide_True by done. done.
  - (* neither end is a node: the edge is skipped *)
    rewrite decide_False by (by intros []). bind_ok.
    subst rest. apply IH; [done..|].
    destruct Hsome as (e'' & [->|He'']%elem_of_cons & Hmix); [|by eauto].
    destruct Hmix. split; intros Hin; [apply H1 in Hin|apply H2 in Hin];
      by destruct Hin.
Qed.
End Kruskal.
End kruskal_facts.

Module kruskal_witnesses.
Import examples structure inputs kruskal_inputs concrete_spec kruskal_spec
  kruskal_facts.

Lemma Kruskal_spans_the_graph_witness :
  ∃ dst', Kruskal (NewUndirectedGraph inf) star None = Ok dst'
    ∧ ug_wf dst'
    ∧ (∀ e : Z * Z, e ∈ Edges star → joined dst' (ID e.1) (ID e.2))
    ∧ (∀ a b we, concrete.neighbor_at dst' a b = Some we →
         edge_of we ∈ Edges star
         ∧ Weight we = resolve_weight star None (Some (edge_of we))
         ∧ ((a = ID (edge_of we).1 ∧ b = ID (edge_of we).2)
            ∨ (a = ID (edge_of we).2 ∧ b = ID (edge_of we).1)))
    ∧ ∀ id, is_Some (nodeMap dst' !! id)
            ↔ ∃ b, is_Some (concrete.neighbor_at dst' id b).
Proof.
  apply (Kruskal_spans_the_graph star None inf).
  intros e He. apply list_elem_of_In in He.
  destruct He as [<-|[<-|[]]]; split; apply list_elem_of_In; vm_compute; auto.
Defined.

Lemma Kruskal_panics_on_foreign_end_point_witness :
  Kruskal (NewUndirectedGraph inf) dangling None
  = Panicked "Disjoint Set union on nil sets".
Proof.
  apply (Kruskal_panics_on_foreign_end_point dangling None inf (1, 5)%Z).
  - apply list_elem_of_In. vm_compute. auto.
  - intros [Hin _].
    assert (ID (1, 5)%Z.2 ∈ ID <$> Nodes dangling) as H5.
    { apply Hin, list_elem_of_In. vm_compute. auto. }
    apply list_elem_of_In in H5. vm_compute in H5.
    destruct H5 as [H5|[H5|[]]]; discriminate H5.
Defined.
Lemma two_sets_inv :
  uf_inv (MakeSet (MakeSet NewDisjointSet 0) 1).
Proof.
  apply MakeSet_spec, MakeSet_spec. by intros x [? ?].
Defined.

Lemma Find_twice_compares_sets_witness :
  ∃ ds1 ds2 ra rb,
    Find (MakeSet (MakeSet NewDisjointSet 0) 1) 0%Z = Ok (ds1, Some ra)
    ∧ Find ds1 1%Z = Ok (ds2, Some rb)
    ∧ (ra = rb ↔ same_set (MakeSet (MakeSet NewDisjointSet 0) 1) 0 1)
    ∧ uf_inv ds2 ∧ keeps_sets (MakeSet (MakeSet NewDisjointSet 0) 1) ds2
    ∧ parent ds1 !! 0%Z = Some ra ∧ parent ds2 !! 1%Z = Some rb
    ∧ parent ds2 !! ra = Some ra ∧ parent ds2 !! rb = Some rb.
Proof.
  apply (Find_twice_compares_sets (MakeSet (MakeSet NewDisjointSet 0) 1)
           0%Z 1%Z two_sets_inv).
  - vm_compute. by eexists.
  - vm_compute. by eexists.
Defined.

Lemma Union_merges_two_sets_witness :
  ∃ ds', Union (MakeSet (MakeSet NewDisjointSet 0) 1) (Some 0%Z) (Some 1%Z)
         = Ok ds'
    ∧ uf_inv ds'
    ∧ (∀ y, is_Some (parent ds' !! y)
            ↔ is_Some (parent (MakeSet (MakeSet NewDisjointSet 0) 1) !! y))
    ∧ ∀ x y, same_set ds' x y
             ↔ same_set (MakeSet (MakeSet NewDisjointSet 0) 1) x y
               ∨ (same_set (MakeSet (MakeSet NewDisjointSet 0) 1) x 0
                  ∧ same_set (MakeSet (MakeSet NewDisjointSet 0) 1) y 1)
               ∨ (same_set (MakeSet (MakeSet NewDisjointSet 0) 1) x 1
                  ∧ same_set (MakeSet (MakeSet NewDisjointSet 0) 1) y 0).
Proof.
  apply (Union_merges_two_sets (MakeSet (MakeSet NewDisjointSet 0) 1)
           (Some 0%Z) (Some 1%Z) two_sets_inv).
  - vm_compute. by eexists.
  - vm_compute. by eexists.
Defined.
End kruskal_witnesses.

Module float_facts.
Import float_spec.

Lemma SFltb_place a b :
  SFltb a b = true
  ↔ ∃ pa pb, place a = Some pa ∧ place b = Some pb ∧ before pa pb.
Proof.
  unfold SFltb, before.
  destruct a as [sa|sa| |sa ma ea], b as [sb|sb| |sb mb eb];
    try destruct sa; try destruct sb; simpl; try first [place_holds|place_fails].
  - change (PosDef.Pos.compare_cont Eq ma mb) with (Pos.compare ma mb).
    destruct (Z.compare_spec ea eb) as [->|?|?]; [|place_fails|place_holds].
    destruct (Pos.compare_spec ma mb) as [->|?|?]; simpl; first [place_holds|place_fails].
  - change (PosDef.Pos.compare_cont Eq ma mb) with (Pos.compare ma mb).
    destruct (Z.compare_spec ea eb) as [->|?|?]; [|place_holds|place_fails].
    destruct (Pos.compare_spec ma mb) as [->|?|?]; simpl; first [place_holds|place_fails].
Qed.

Lemma SFeqb_place a b :
  SFeqb a b = true
  ↔ ∃ pa, place a = Some pa ∧ place b = Some pa.
Proof.
  unfold SFeqb.
  destruct a as [sa|sa| |sa ma ea], b as [sb|sb| |sb mb eb];
    try destruct sa; try destruct sb; simpl;
    try (split; [intros _; by eexists|done]);
    try (split; [done|intros (? & ? & ?); simplify_eq/=]).
  - change (PosDef.Pos.compare_cont Eq ma mb) with (Pos.compare ma mb).
    destruct (Z.compare_spec ea eb) as [->|?|?];
      [|split; [done|intros (? & ? & ?); simplify_eq/=; lia]..].
    destruct (Pos.compare_spec ma mb) as [->|?|?]; simpl;
      first [split; [intros _; by eexists|done]
            |split; [done|intros (? & ? & ?); simplify_eq/=; lia]].
  - change (PosDef.Pos.compare_cont Eq ma mb) with (Pos.compare ma mb).
    destruct (Z.compare_spec ea eb) as [->|?|?];
      [|split; [done|intros (? & ? & ?); simplify_eq/=; lia]..].
    destruct (Pos.compare_spec ma mb) as [->|?|?]; simpl;
      first [split; [intros _; by eexists|done]
            |split; [done|intros (? & ? & ?); simplify_eq/=; lia]].
Qed.

Lemma before_irrefl a : ¬ before a a.
Proof. unfold before. lia. Qed.

Lemma before_trans a b c : before a b → before b c → before a c.
Proof. unfold before. lia. Qed.

Lemma flt_place x y :
  flt x y = true
  ↔ ∃ pa pb, place (Prim2SF x) = Some pa ∧ place (Prim2SF y) = Some pb
             ∧ before pa pb.
Proof. unfold flt. rewrite FloatAxioms.ltb_spec. apply SFltb_place. Qed.

Lemma feq_place x y :
  feq x y = true
  ↔ ∃ pa, place (Prim2SF x) = Some pa ∧ place (Prim2SF y) = Some pa.
Proof. unfold feq. rewrite FloatAxioms.eqb_spec. apply SFeqb_place. Qed.

Lemma less_true (k other : dynamic.key) :
  dynamic.less k other = true
  ↔ flt k.1 other.1 = true
    ∨ (feq k.1 other.1 = true ∧ flt k.2 other.2 = true).
Proof.
  unfold dynamic.less. rewrite orb_true_iff, andb_true_iff. done.
Qed.

(** X26.  [key.less] is a strict order on all keys: no key is less than
    itself, two keys are never less than each other, and it is
    transitive.  A key whose first component is NaN is less than no key,
    and no key is less than it. *)
Theorem less_is_a_strict_order (k1 k2 k3 : dynamic.key) :
  dynamic.less k1 k1 = false
  ∧ (dynamic.less k1 k2 = true → dynamic.less k2 k1 = false)
  ∧ (dynamic.less k1 k2 = true → dynamic.less k2 k3 = true →
     dynamic.less k1 k3 = true)
  ∧ (IsNaN k1.1 = true →
     dynamic.less k1 k2 = false ∧ dynamic.less k2 k1 = false).
Proof.
  split_and!.
  - apply not_true_iff_false. rewrite less_true, !flt_place.
    intros [(pa & pb & Ha & Hb & Hlt)|[_ (pa & pb & Ha & Hb & Hlt)]];
      simplify_eq; by apply before_irrefl in Hlt.
  - rewrite less_true. intros H12. apply not_true_iff_false.
    rewrite less_true. rewrite !flt_place, !feq_place in *.
    intros H21.
    destruct H12 as [(pa & pb & Ha & Hb & Hlt)
                    |[(p & Ha & Hb) (qa & qb & Hqa & Hqb & Hlt)]];
      destruct H21 as [(pa' & pb' & Ha' & Hb' & Hlt')
                      |[(p' & Ha' & Hb') (qa' & qb' & Hqa' & Hqb' & Hlt')]];
      simplify_eq;
      first [by apply before_irrefl in Hlt
            |by apply before_irrefl in Hlt'
            |by apply (before_irrefl _ (before_trans _ _ _ Hlt Hlt'))].
  - rewrite !less_true, !flt_place, !feq_place.
    intros [(pa & pb & Ha & Hb & Hlt)
           |[(p & Ha & Hb) (qa & qb & Hqa & Hqb & Hlt)]]
           [(pa' & pb' & Ha' & Hb' & Hlt')
           |[(p' & Ha' & Hb') (qa' & qb' & Hqa' & Hqb' & Hlt')]];
      simplify_eq.
    + left. eexists _, _. split_and!; [done..|]. by eapply before_trans.
    + left. by eexists _, _.
    + left. by eexists _, _.
    + right. split; [by eexists|]. eexists _, _. split_and!; [done..|].
      by eapply before_trans.
  - unfold IsNaN. rewrite negb_true_iff. intros Hnan.
    assert (place (Prim2SF k1.1) = None) as Hnone.
    { destruct (place (Prim2SF k1.1)) as [p|] eqn:Hp; [|done].
      assert (feq k1.1 k1.1 = true) by (apply feq_place; by exists p).
      congruence. }
    split; apply not_true_iff_false; rewrite less_true, !flt_place, !feq_place;
      intros [(pa & pb & Ha & Hb & _)|[(p & Ha & Hb) _]]; congruence.
Qed.
End float_facts.

Module prim_facts.
Import structure.
Section Prim.
Context {N : Type} `{!Node N}.

(** The edge that a turn of [Prim] selects is one of the edge list. *)
Lemma Prim_turn_removes (weight : WeightFunc N) (edgeList : list (N * N))
    (st st' : primState N) :
  Prim_turn weight edgeList st = Ok st' →
  ∃ e, e ∈ edgeList ∧ remainingNodes st' = remainingNodes st ∖ {[ID e.1]}.
Proof.
  unfold Prim_turn, at_index.
  destruct (sort_byWeight (crossing weight edgeList st) !! 0%nat)
    as [myEdge|] eqn:Hsel; [|done].
  bind_ok.
  destruct (AddUndirectedEdge _ _ _) as [dst'| |]; [|done..].
  bind_ok. intros [= <-]. exists (edge_of myEdge). split; [|done].
  apply list_elem_of_lookup_2 in Hsel.
  apply (proj1 (kruskal_facts.elem_of_sort_byWeight _ _)) in Hsel.
  unfold crossing in Hsel.
  apply list_elem_of_fmap in Hsel as (e & -> & He).
  apply list_elem_of_filter in He as [_ He]. done.
Qed.

Lemma Prim_loop_never_returns (weight : WeightFunc N)
    (edgeList : list (N * N)) (id : Z) fuel (st : primState N) r :
  (∀ e : N * N, e ∈ edgeList → ID e.1 ≠ id) →
  id ∈ remainingNodes st →
  Prim_loop fuel weight edgeList st ≠ Ok r.
Proof.
  intros Hfrom. revert st.
  induction fuel as [|fuel IH]; intros st Hid; [done|]. cbn [Prim_loop].
  case_decide as Hsize.
  { apply size_empty_iff in Hsize. set_solver. }
  destruct (Prim_turn weight edgeList st) as [st'| |] eqn:Hturn; [|done..].
  bind_ok. apply IH.
  destruct (Prim_turn_removes _ _ _ _ Hturn) as (e & He & ->).
  apply elem_of_difference. split; [done|].
  intros ->%elem_of_singleton. by apply (Hfrom e).
Qed.

(** X27.  [Prim] takes a node off the remaining nodes only as the [From]
    end of the edge it selects.  So when a node after the first is the
    [From] end of no edge of the edge list, [Prim] does not return,
    whatever the destination, the weights and the fuel: it panics or
    runs for ever. *)
Theorem Prim_never_returns_without_From_end (dst : UndirectedGraph N)
    (g : EdgeList N) (weight : option (WeightFunc N)) (first : N)
    (rest : list N) (n : N) (fuel : nat) :
  Nodes g = first :: rest → n ∈ rest →
  (∀ e : N * N, e ∈ Edges g → ID e.1 ≠ ID n) →
  Prim fuel dst g weight = OutOfFuel
  ∨ ∃ why, Prim fuel dst g weight = Panicked why.
Proof.
  intros Hnodes Hn Hfrom.
  destruct (Prim fuel dst g weight) as [r|why|] eqn:Hrun; [|by eauto..].
  exfalso. revert Hrun. unfold Prim. rewrite Hnodes.
  apply (Prim_loop_never_returns _ _ (ID n)); [done|].
  cbn [remainingNodes]. apply elem_of_list_to_set.
  by apply list_elem_of_fmap_2.
Qed.
End Prim.
End prim_facts.

Module prim_witnesses.
Import examples structure inputs prim_facts.

Lemma Prim_never_returns_without_From_end_witness :
  Prim 9 (NewUndirectedGraph inf) star None = OutOfFuel
  ∨ ∃ why, Prim 9 (NewUndirectedGraph inf) star None = Panicked why.
Proof.
  apply (Prim_never_returns_without_From_end (NewUndirectedGraph inf) star
           None 0%Z [1; 2]%Z 2%Z 9).
  - reflexivity.
  - apply list_elem_of_In. simpl. auto.
  - intros e He. apply list_elem_of_In in He.
    destruct He as [<-|[<-|[]]]; vm_compute; discriminate.
Defined.
End prim_witnesses.

(** ** Degeneracy ordering *)

Module degeneracy_facts.
Import degeneracy degeneracy_spec.
Section Ordering.
Context {N : Type} `{!Node N}.
Implicit Types (st : ordering N) (adj bucket : list N) (R : gset Z).

Lemma filter_length_le {A} (P Q : A → Prop) `{!∀ x, Decision (P x)}
    `{!∀ x, Decision (Q x)} (xs : list A) :
  (∀ x, x ∈ xs → P x → Q x) →
  (length (filter P xs) ≤ length (filter Q xs))%nat.
Proof.
  induction xs as [|x xs IH]; intros HPQ; [done|].
  rewrite !filter_cons.
  assert (length (filter P xs) ≤ length (filter Q xs))%nat.
  { apply IH. intros y Hy. apply HPQ. by right. }
  destruct (decide (P x)) as [HP|]; destruct (decide (Q x)) as [|HnQ];
    simpl; try lia.
  destruct HnQ. apply HPQ; [left|done].
Qed.

Lemma filter_length_lt {A} (P Q : A → Prop) `{!∀ x, Decision (P x)}
    `{!∀ x, Decision (Q x)} (xs : list A) y :
  (∀ x, x ∈ xs → P x → Q x) → y ∈ xs → Q y → ¬ P y →
  (length (filter P xs) < length (filter Q xs))%nat.
Proof.
  induction xs as [|x xs IH]; intros HPQ Hy HQ HnP; [by inversion Hy|].
  assert (∀ x, x ∈ xs → P x → Q x) as HPQ'.
  { intros z Hz. apply HPQ. by right. }
  rewrite !filter_cons. apply elem_of_cons in Hy as [<-|Hy].
  - rewrite decide_False, decide_True by done. simpl.
    pose proof (filter_length_le P Q xs HPQ'). lia.
  - specialize (IH HPQ' Hy HQ HnP).
    destruct (decide (P x)) as [HP|]; destruct (decide (Q x)) as [|HnQ];
      simpl; try lia.
    destruct HnQ. apply HPQ; [left|done].
Qed.

Lemma live_mono R R' adj : R' ⊆ R → (live R' adj ≤ live R adj)%nat.
Proof. intros Hsub. apply filter_length_le. intros x _. apply Hsub. Qed.

Lemma live_drop R x adj :
  x ∈ R → x ∈ ID <$> adj → (live (R ∖ {[x]}) adj < live R adj)%nat.
Proof.
  intros HR (w & -> & Hw)%list_elem_of_fmap.
  apply (filter_length_lt _ _ adj w); [|done|done|].
  - intros y _. set_solver.
  - set_solver.
Qed.

(** [xs[i], xs = xs[len(xs)-1], xs[:len(xs)-1]] takes out the element at
    [i]. *)
Lemma swap_remove_Permutation {A} (xs : list A) i x last :
  xs !! i = Some x → xs !! (length xs - 1)%nat = Some last →
  take (length xs - 1) (<[i := last]> xs) ≡ₚ delete i xs.
Proof.
  intros Hi Hlast.
  destruct xs as [|x0 xs _] using rev_ind; [done|].
  rewrite length_app in *. simpl in *.
  replace (length xs + 1 - 1)%nat with (length xs) in * by lia.
  rewrite lookup_app_r, Nat.sub_diag in Hlast by lia. simplify_eq/=.
  destruct (decide (i = length xs)) as [->|Hne].
  - rewrite list_insert_id by (by rewrite lookup_app_r, Nat.sub_diag by lia).
    rewrite take_app_length.
    rewrite delete_take_drop, take_app_length.
    rewrite drop_ge by (rewrite length_app; simpl; lia).
    by rewrite app_nil_r.
  - assert (i < length xs)%nat as Hlt.
    { apply lookup_lt_Some in Hi. rewrite length_app in Hi. simpl in Hi. lia. }
    rewrite insert_app_l by done.
    rewrite take_app_length' by (by rewrite length_insert).
    rewrite lookup_app_l in Hi by done.
    rewrite (delete_take_drop (xs ++ [last])).
    rewrite take_app_le, drop_app_le by lia.
    rewrite insert_take_drop by done.
    rewrite <-Permutation_middle, app_assoc, <-Permutation_cons_append.
    done.
Qed.

Lemma scan_finds i0 di0 j (cells : list (list N)) :
  (∃ b, b ∈ cells ∧ b ≠ []) →
  ∃ i di, scan i0 di0 j cells = (i, di) ∧ (j ≤ i)%nat
    ∧ cells !! (i - j)%nat = Some di ∧ di ≠ [].
Proof.
  revert i0 di0 j.
  induction cells as [|b cells IH]; intros i0 di0 j (b0 & Hb0 & Hne).
  - by apply elem_of_nil in Hb0.
  - simpl. destruct (decide (length b ≠ 0)%nat) as [Hlen|Hlen].
    + exists j, b. rewrite Nat.sub_diag. repeat split; [lia|].
      by intros ->.
    + assert (b = []) as -> by (destruct b; [done|simpl in Hlen; lia]).
      apply elem_of_cons in Hb0 as [->|Hb0]; [done|].
      destruct (IH j [] (S j)) as (i & di & -> & Hle & Hlk & Hdi);
        [by eauto|].
      exists i, di. split; [done|]. split; [lia|]. split; [|done].
      by replace (i - j)%nat with (S (i - S j)) by lia.
Qed.
(** The first loop of [VertexOrdering]. *)
Lemma count_degrees_spec (g : Graph N) (nodes : list N) :
  NoDup (ID <$> nodes) →
  ∃ neighbours dv0 maxDegree,
    foldl (count_degree g) (∅, ∅, 0%nat) nodes = (neighbours, dv0, maxDegree)
    ∧ (∀ u, u ∈ nodes →
         neighbours !! ID u = Some (From g u)
         ∧ dv0 !! ID u = Some (length (From g u))
         ∧ (length (From g u) ≤ maxDegree)%nat)
    ∧ ∀ id, is_Some (neighbours !! id) ∨ is_Some (dv0 !! id) →
        id ∈ ID <$> nodes.
Proof.
  induction nodes as [|n nodes IH] using rev_ind; intros Hnodup.
  - exists ∅, ∅, 0%nat. split; [done|]. split.
    + by intros u ?%elem_of_nil.
    + intros id [[? Hid]|[? Hid]]; by rewrite lookup_empty in Hid.
  - rewrite fmap_app in Hnodup. apply NoDup_app in Hnodup as (Hnd & Hfresh & _).
    destruct (IH Hnd) as (nb & dv0 & m & Hfold & Hin & Hdom).
    rewrite foldl_snoc, Hfold. unfold count_degree at 1. simpl.
    eexists _, _, _. split; [done|]. split.
    + intros u [Hu| ->%list_elem_of_singleton]%elem_of_app.
      * assert (ID u ≠ ID n) as Hne.
        { intros Heq. apply (Hfresh (ID u)); [by apply list_elem_of_fmap_2|].
          rewrite Heq. by left. }
        rewrite !lookup_insert_ne by done.
        destruct (Hin u Hu) as (? & ? & ?). repeat split; [done|done|].
        case_decide; lia.
      * rewrite !lookup_insert_eq. repeat split. case_decide; lia.
    + intros id Hid. rewrite fmap_app. apply elem_of_app.
      destruct (decide (id = ID n)) as [->|Hne]; [right; by left|].
      rewrite !lookup_insert_ne in Hid by done. left. by apply Hdom.
Qed.

(** The second loop of [VertexOrdering]. *)
Lemma file_nodes_spec (nodes : list N) (dv0 : gmap Z nat) (m : nat) :
  NoDup (ID <$> nodes) →
  (∀ u, u ∈ nodes → ∃ c, dv0 !! ID u = Some c ∧ (c ≤ m)%nat) →
  ∃ d0, for_range nodes (file_node dv0) (replicate (m + 1) []) = Ok d0
    ∧ (∀ b bucket, d0 !! b = Some bucket →
         NoDup (ID <$> bucket)
         ∧ ∀ x, x ∈ bucket → x ∈ nodes ∧ dv0 !! ID x = Some b)
    ∧ ∀ u, u ∈ nodes →
        ∃ b bucket, dv0 !! ID u = Some b ∧ d0 !! b = Some bucket ∧ u ∈ bucket.
Proof.
  intros Hnodup Hdeg.
  destruct (for_range_prefix_inv
    (λ pre (cells : list (list N)),
       length cells = (m + 1)%nat
       ∧ (∀ b bucket, cells !! b = Some bucket →
            NoDup (ID <$> bucket)
            ∧ ∀ x, x ∈ bucket → x ∈ pre ∧ dv0 !! ID x = Some b)
       ∧ ∀ u, u ∈ pre →
           ∃ b bucket,
             dv0 !! ID u = Some b ∧ cells !! b = Some bucket ∧ u ∈ bucket)
    nodes (file_node dv0) (replicate (m + 1) []))
    as (d0 & Hrun & _ & Hcells & Hfiled).
  - split; [by rewrite length_replicate|]. split.
    + intros b bucket [-> _]%lookup_replicate. split; [constructor|].
      by intros x ?%elem_of_nil.
    + by intros u ?%elem_of_nil.
  - intros pre n post cells Hsplit (Hlen & Hcells & Hfiled).
    destruct (Hdeg n) as (c & Hc & Hle).
    { rewrite Hsplit. apply elem_of_app. right. by left. }
    unfold file_node, structure.int_at. rewrite Hc. simpl.
    destruct (lookup_lt_is_Some_2 cells c) as [bucket Hbucket]; [lia|].
    unfold at_index. rewrite Hbucket. bind_ok.
    unfold set_index. rewrite decide_True by lia.
    eexists. split; [done|].
    assert (ID n ∉ ID <$> pre) as Hfresh.
    { rewrite Hsplit, fmap_app in Hnodup.
      apply NoDup_app in Hnodup as (_ & Hnodup & _).
      intros Hin. apply (Hnodup _ Hin). by left. }
    split; [by rewrite length_insert|]. split.
    + intros b cell Hcell.
      destruct (decide (b = c)) as [->|Hne].
      * rewrite list_lookup_insert_eq in Hcell by lia. simplify_eq.
        destruct (Hcells c bucket Hbucket) as [Hnd Hin]. split.
        -- rewrite fmap_app. apply NoDup_app. split; [done|]. split.
           ++ intros id (x & -> & Hx)%list_elem_of_fmap Hn.
              apply list_elem_of_singleton in Hn. apply Hfresh.
              rewrite <-Hn. apply list_elem_of_fmap_2. by apply Hin.
           ++ apply NoDup_singleton.
        -- intros x [Hx| ->%list_elem_of_singleton]%elem_of_app.
           ++ destruct (Hin x Hx). split; [|done]. apply elem_of_app. by left.
           ++ split; [|done]. apply elem_of_app. right. by left.
      * rewrite list_lookup_insert_ne in Hcell by done.
        destruct (Hcells b cell Hcell) as [Hnd Hin]. split; [done|].
        intros x Hx. destruct (Hin x Hx). split; [|done].
        apply elem_of_app. by left.
    + intros u [Hu| ->%list_elem_of_singleton]%elem_of_app.
      * destruct (Hfiled u Hu) as (b & cell & Hb & Hcell & Hin).
        destruct (decide (b = c)) as [->|Hne].
        -- exists c, (bucket ++ [n]). split; [done|].
           rewrite list_lookup_insert_eq by lia. split; [done|].
           simplify_eq. apply elem_of_app. by left.
        -- exists b, cell. by rewrite list_lookup_insert_ne.
      * exists c, (bucket ++ [n]). split; [done|].
        rewrite list_lookup_insert_eq by lia. split; [done|].
        apply elem_of_app. right. by left.
  - exists d0. done.
Qed.

Lemma at_index_lookup {A} (xs : list A) i x :
  xs !! i = Some x → at_index xs i = Ok x.
Proof. intros Hx. unfold at_index. by rewrite Hx. Qed.

(** One neighbour [w] of the selected node [v]: its number is lowered by
    one and it moves one cell down, without a panic. *)
Lemma lower_ok neighbours v adjv st0 pre w post st :
  mutual neighbours → neighbours !! ID v = Some adjv → NoDup (ID <$> adjv) →
  adjv = pre ++ w :: post →
  lowering neighbours v st0 pre st →
  ∃ st', lower st w = Ok st' ∧ lowering neighbours v st0 (pre ++ [w]) st'.
Proof.
  intros Hmutual Hadjv Hnodup Hsplit [Hl Hk Hs Hdom Hbk Hdeg Hcredit].
  assert (ID w ∉ ID <$> pre) as Hfresh.
  { rewrite Hsplit, fmap_app in Hnodup.
    apply NoDup_app in Hnodup as (_ & Hnodup & _).
    intros Hin. apply (Hnodup _ Hin). by left. }
  assert (ID w ∈ ID <$> adjv) as Hw.
  { rewrite Hsplit, fmap_app. apply elem_of_app. right. by left. }
  unfold lower. destruct (dv st !! ID w) as [dw|] eqn:Hdw.
  2:{ exists st. split; [done|]. split; try done.
      intros id c adj Hc Hadj Hv Hpre. apply (Hcredit id c adj); try done.
      intros Hin. apply Hpre. rewrite fmap_app. apply elem_of_app. by left. }
  destruct (bk_filed _ _ Hbk _ _ Hdw) as (bucket & Hbucket & Hin).
  rewrite (at_index_lookup _ _ _ Hbucket). bind_ok.
  destruct (list_find (λ n, ID n = ID w) bucket) as [[i n]|] eqn:Hfind.
  2:{ apply list_find_None in Hfind.
      apply list_elem_of_fmap in Hin as (x & Hx & Hxin).
      rewrite Forall_forall in Hfind. by destruct (Hfind x Hxin). }
  apply list_find_Some in Hfind as (Hi & Hn & _).
  assert (i < length bucket)%nat as Hilt by (by eapply lookup_lt_Some).
  destruct (lookup_lt_is_Some_2 bucket (length bucket - 1)) as [last Hlast];
    [lia|].
  rewrite (at_index_lookup _ _ _ Hlast). bind_ok.
  destruct (Hdeg _ _ Hdw) as (adjw & Hadjw & Hlive).
  assert (live (dom (dv st)) adjw < dw)%nat as Hlt.
  { apply (Hcredit (ID w)); try done.
    by apply (Hmutual (ID v) (ID w) adjv adjw). }
  destruct dw as [|dw']; [lia|].
  set (bucket' := take (length bucket - 1) (<[i := last]> bucket)).
  assert (bucket ≡ₚ n :: bucket') as Hperm.
  { unfold bucket'. rewrite (swap_remove_Permutation bucket i n last) by done.
    by apply delete_Permutation. }
  assert (NoDup (ID <$> n :: bucket')) as Hnd.
  { rewrite <-Hperm. by eapply bk_nodup. }
  rewrite fmap_cons in Hnd. apply NoDup_cons in Hnd as [Hnotin Hnd'].
  assert (S dw' < length (d st))%nat as Hdwlt by (by eapply lookup_lt_Some).
  destruct (lookup_lt_is_Some_2 (d st) dw') as [target Htarget]; [lia|].
  assert (∀ x, x ∈ target → ID x ≠ ID w) as Htw.
  { intros x Hx Heq. pose proof (bk_degree _ _ Hbk _ _ _ Htarget Hx) as Hdx.
    rewrite Heq, Hdw in Hdx. simplify_eq. lia. }
  fold bucket'. rewrite (at_index_lookup _ dw' target)
    by (by rewrite list_lookup_insert_ne by lia).
  bind_ok. eexists. split; [done|].
  assert (dom (<[ID w := dw']> (dv st)) = dom (dv st)) as Hdom'.
  { by apply dom_insert_lookup_L. }
  split; simpl; try done.
  - by rewrite Hdom'.
  - split.
    + intros b cell Hcell.
      destruct (decide (b = dw')) as [->|Hne1].
      * rewrite list_lookup_insert_eq in Hcell
          by (rewrite length_insert; lia).
        simplify_eq. rewrite fmap_app. apply NoDup_app.
        split; [by eapply bk_nodup|]. split; [|apply NoDup_singleton].
        intros id (x & -> & Hx)%list_elem_of_fmap Hid.
        apply list_elem_of_singleton in Hid. by apply (Htw x).
      * rewrite list_lookup_insert_ne in Hcell by done.
        destruct (decide (b = S dw')) as [->|Hne2].
        -- rewrite list_lookup_insert_eq in Hcell by lia. by simplify_eq.
        -- rewrite list_lookup_insert_ne in Hcell by done.
           by eapply bk_nodup.
    + intros b cell x Hcell Hx.
      destruct (decide (b = dw')) as [->|Hne1].
      * rewrite list_lookup_insert_eq in Hcell
          by (rewrite length_insert; lia).
        simplify_eq.
        apply elem_of_app in Hx as [Hx| ->%list_elem_of_singleton].
        -- rewrite lookup_insert_ne by (apply not_eq_sym; by apply Htw).
           by eapply bk_degree.
        -- by rewrite lookup_insert_eq.
      * rewrite list_lookup_insert_ne in Hcell by done.
        destruct (decide (b = S dw')) as [->|Hne2].
        -- rewrite list_lookup_insert_eq in Hcell by lia. simplify_eq.
           assert (ID x ≠ ID w) as Hne.
           { intros Heq. apply Hnotin. rewrite Hn, <-Heq.
             by apply list_elem_of_fmap_2. }
           rewrite lookup_insert_ne by done.
           apply (bk_degree _ _ Hbk _ bucket); [done|].
           rewrite Hperm. by right.
        -- rewrite list_lookup_insert_ne in Hcell by done.
           pose proof (bk_degree _ _ Hbk _ _ _ Hcell Hx) as Hdx.
           rewrite lookup_insert_ne; [done|].
           intros Heq. rewrite <-Heq, Hdw in Hdx. by simplify_eq.
    + intros id b Hid.
      destruct (decide (id = ID w)) as [->|Hne].
      * rewrite lookup_insert_eq in Hid. simplify_eq.
        exists (target ++ [w]).
        rewrite list_lookup_insert_eq by (rewrite length_insert; lia).
        split; [done|]. rewrite fmap_app. apply elem_of_app. right. by left.
      * rewrite lookup_insert_ne in Hid by done.
        destruct (bk_filed _ _ Hbk _ _ Hid) as (cell & Hcell & Hcin).
        destruct (decide (b = dw')) as [->|Hne1].
        -- exists (target ++ [w]).
           rewrite list_lookup_insert_eq by (rewrite length_insert; lia).
           split; [done|]. simplify_eq.
           rewrite fmap_app. apply elem_of_app. by left.
        -- rewrite list_lookup_insert_ne by done.
           destruct (decide (b = S dw')) as [->|Hne2].
           ++ exists bucket'. rewrite list_lookup_insert_eq by lia.
              split; [done|]. simplify_eq.
              rewrite Hperm, fmap_cons in Hcin.
              apply elem_of_cons in Hcin as [Heq|]; [|done].
              by rewrite Heq, Hn in Hne.
           ++ exists cell. by rewrite list_lookup_insert_ne.
  - intros id c Hid. rewrite Hdom'.
    destruct (decide (id = ID w)) as [->|Hne].
    + rewrite lookup_insert_eq in Hid. simplify_eq.
      exists adjw. split; [done|lia].
    + rewrite lookup_insert_ne in Hid by done. by apply Hdeg.
  - intros id c adj Hid Hadj Hv Hpre. rewrite Hdom'.
    destruct (decide (id = ID w)) as [->|Hne].
    + destruct Hpre. rewrite fmap_app. apply elem_of_app. right. by left.
    + rewrite lookup_insert_ne in Hid by done.
      apply (Hcredit id c adj); try done.
      intros Hin'. apply Hpre. rewrite fmap_app. apply elem_of_app. by left.
Qed.

Lemma snoc_inv {A} (xs : list A) : xs ≠ [] → ∃ xs' x, xs = xs' ++ [x].
Proof.
  destruct xs as [|x xs _] using rev_ind; [done|]. intros _. by exists xs, x.
Qed.

Lemma sum_list_bump (xs : list nat) i c :
  xs !! i = Some c → sum_list (<[i := S c]> xs) = S (sum_list xs).
Proof.
  revert i. induction xs as [|x xs IH]; intros [|i] Hi; simplify_eq/=;
    [done|].
  rewrite IH by done. lia.
Qed.

(** One turn of the main loop selects a waiting node, without a panic. *)
Lemma select_ok ids neighbours j st :
  mutual neighbours → plain neighbours → NoDup ids → (j < length ids)%nat →
  ordering_inv ids neighbours j st →
  ∃ st', select neighbours st = Ok st' ∧ ordering_inv ids neighbours (S j) st'.
Proof.
  intros Hmutual Hplain Hids Hj
    [Hnd Hdone Htodo Hall Hlen Hbk Hdeg Hk Hsum Hlater].
  assert (∃ id, is_Some (dv st !! id)) as [id0 [c0 Hid0]].
  { destruct (decide (Forall (λ id, id ∈ ID <$> l st) ids))
      as [Hforall|Hnot].
    - rewrite Forall_forall in Hforall.
      pose proof (NoDup_submseteq _ _ Hids Hforall) as Hsub.
      apply submseteq_length in Hsub. rewrite length_fmap in Hsub. lia.
    - apply not_Forall_Exists in Hnot; [|apply _].
      apply Exists_exists in Hnot as (id & Hid & Hnotin).
      destruct (Hall id Hid) as [?|?]; [done|]. eauto. }
  destruct (bk_filed _ _ Hbk _ _ Hid0) as (cell0 & Hcell0 & Hin0).
  destruct (scan_finds 0 [] 0 (d st)) as (i & di & Hscan & _ & Hdi & Hne).
  { exists cell0. split; [by eapply list_elem_of_lookup_2|].
    intros ->. by apply elem_of_nil in Hin0. }
  rewrite Nat.sub_0_r in Hdi.
  destruct (snoc_inv di Hne) as (di' & v & ->).
  unfold select. rewrite Hscan.
  match goal with
  | |- context [mbind _ (if decide (k st < i)%nat then ?a else ?b)] =>
    assert (∃ k1 s1, (if decide (k st < i)%nat then a else b) = Ok (k1, s1)
              ∧ length s1 = S k1 ∧ sum_list s1 = sum_list (s st)
              ∧ (i ≤ k1)%nat ∧ (k st ≤ k1)%nat)
      as (k1 & s1 & -> & Hk1 & Hsum1 & Hik & Hkk)
  end.
  { destruct (decide (k st < i)%nat).
    - rewrite decide_False by lia. eexists _, _. split; [done|].
      rewrite length_app, length_replicate, sum_list_with_app,
        sum_list_replicate.
      repeat split; lia.
    - eexists _, _. split; [done|]. repeat split; [done|lia|lia]. }
  bind_ok. rewrite length_app. simpl.
  replace (length di' + 1 - 1)%nat with (length di') by lia.
  rewrite (at_index_lookup _ _ v)
    by (by rewrite lookup_app_r, Nat.sub_diag by lia).
  bind_ok. rewrite take_app_length.
  unfold set_index. rewrite decide_True by (by eapply lookup_lt_Some).
  bind_ok.
  destruct (lookup_lt_is_Some_2 s1 k1) as [count Hcount]; [lia|].
  rewrite (at_index_lookup _ _ _ Hcount). bind_ok.
  assert (dv st !! ID v = Some i) as Hdv.
  { apply (bk_degree _ _ Hbk _ _ _ Hdi). apply elem_of_app. right. by left. }
  destruct (Hdeg _ _ Hdv) as (adjv & Hadjv & Hlive).
  rewrite Hadjv. simpl.
  pose proof (bk_nodup _ _ Hbk _ _ Hdi) as Hndi.
  rewrite fmap_app in Hndi. apply NoDup_app in Hndi as (Hndi & Hvdi & _).
  assert (∀ x, x ∈ di' → ID x ≠ ID v) as Hxv.
  { intros x Hx Heq. apply (Hvdi (ID x)); [by apply list_elem_of_fmap_2|].
    rewrite Heq. by left. }
  set (st1 := {| l := l st ++ [v]; dv := delete (ID v) (dv st);
                 d := <[i := di']> (d st); k := k1;
                 s := <[k1 := S count]> s1 |}).
  assert (i < length (d st))%nat as Hilt by (by eapply lookup_lt_Some).
  assert (ID v ∈ dom (dv st)) as Hvdom by (by apply elem_of_dom).
  destruct (for_range_prefix_inv (lowering neighbours v st1) adjv lower st1)
    as (st' & Hrun & [Hl' Hk' Hs' Hdom' Hbk' Hdeg' _]).
  - split; try done; simpl.
    + split.
      * intros b cell Hcell. destruct (decide (b = i)) as [->|Hne'].
        -- rewrite list_lookup_insert_eq in Hcell by done. by simplify_eq.
        -- rewrite list_lookup_insert_ne in Hcell by done.
           by eapply bk_nodup.
      * intros b cell x Hcell Hx. destruct (decide (b = i)) as [->|Hne'].
        -- rewrite list_lookup_insert_eq in Hcell by done. simplify_eq.
           rewrite lookup_delete_ne by (apply not_eq_sym; by apply Hxv).
           apply (bk_degree _ _ Hbk _ _ _ Hdi). apply elem_of_app. by left.
        -- rewrite list_lookup_insert_ne in Hcell by done.
           pose proof (bk_degree _ _ Hbk _ _ _ Hcell Hx) as Hdx.
           rewrite lookup_delete_ne; [done|].
           intros Heq. rewrite <-Heq, Hdv in Hdx. by simplify_eq.
      * intros id b Hid.
        destruct (decide (id = ID v)) as [->|Hne'];
          [by rewrite lookup_delete_eq in Hid|].
        rewrite lookup_delete_ne in Hid by done.
        destruct (bk_filed _ _ Hbk _ _ Hid) as (cell & Hcell & Hcin).
        destruct (decide (b = i)) as [->|Hne''].
        -- exists di'. rewrite list_lookup_insert_eq by done.
           split; [done|]. simplify_eq. rewrite fmap_app in Hcin.
           apply elem_of_app in Hcin as [|Hcin]; [done|].
           by apply list_elem_of_singleton in Hcin.
        -- exists cell. by rewrite list_lookup_insert_ne.
    + intros id c Hid.
      destruct (decide (id = ID v)) as [->|Hne'];
        [by rewrite lookup_delete_eq in Hid|].
      rewrite lookup_delete_ne in Hid by done.
      destruct (Hdeg _ _ Hid) as (adj & Hadj & Hle). exists adj.
      split; [done|]. rewrite dom_delete_L.
      assert (dom (dv st) ∖ {[ID v]} ⊆ dom (dv st)) as Hsub by set_solver.
      pose proof (live_mono _ _ adj Hsub). lia.
    + intros id c adj Hid Hadj Hv _.
      destruct (decide (id = ID v)) as [->|Hne'];
        [by rewrite lookup_delete_eq in Hid|].
      rewrite lookup_delete_ne in Hid by done.
      destruct (Hdeg _ _ Hid) as (adj' & Hadj' & Hle). simplify_eq.
      rewrite dom_delete_L.
      pose proof (live_drop (dom (dv st)) (ID v) adj Hvdom Hv). lia.
  - intros pre w post st2 Hsplit Hst2.
    by eapply (lower_ok neighbours v adjv); [| |eapply Hplain| |].
  - exists st'. split; [done|]. simpl in *.
    rewrite dom_delete_L in Hdom'.
    assert (∀ id, is_Some (dv st' !! id)
                  ↔ is_Some (dv st !! id) ∧ id ≠ ID v) as Hwait.
    { intros id. rewrite <-!elem_of_dom, Hdom'. set_solver. }
    split.
    + rewrite Hl', fmap_app. apply NoDup_app. split; [done|].
      split; [|apply NoDup_singleton].
      intros id Hid ->%list_elem_of_singleton.
      destruct (Hdone _ Hid) as [_ Hnone]. by rewrite Hnone in Hdv.
    + intros id. rewrite Hl', fmap_app.
      intros [Hid| ->%list_elem_of_singleton]%elem_of_app.
      * destruct (Hdone _ Hid) as [? Hnone]. split; [done|].
        apply eq_None_not_Some. rewrite Hwait, Hnone.
        by intros [[? ?] _].
      * split; [by apply Htodo|].
        apply eq_None_not_Some. rewrite Hwait. by intros [_ ?].
    + intros id Hid%Hwait. apply Htodo, Hid.
    + intros id Hid. rewrite Hl', fmap_app, Hwait.
      destruct (decide (id = ID v)) as [->|Hne'].
      * left. apply elem_of_app. right. by left.
      * destruct (Hall id Hid) as [?|?]; [left|right; done].
        apply elem_of_app. by left.
    + rewrite Hl', length_app. simpl. lia.
    + done.
    + done.
    + by rewrite Hs', Hk', length_insert.
    + rewrite Hs', Hl', length_app, (sum_list_bump _ _ _ Hcount). simpl. lia.
    + intros a x b adj Hsplit Hadj. rewrite Hk', Hdom'.
      rewrite Hl' in Hsplit.
      destruct b as [|y b _] using rev_ind.
      * apply app_inj_tail in Hsplit as [_ <-]. simplify_eq.
        etrans; [|etrans; [exact Hlive|exact Hik]].
        apply filter_length_le. intros w _ [Hw|Hw]; [|set_solver].
        by apply elem_of_nil in Hw.
      * rewrite app_comm_cons, app_assoc in Hsplit.
        apply app_inj_tail in Hsplit as [Hsplit <-].
        etrans; [|etrans; [exact (Hlater a x b adj Hsplit Hadj)|exact Hkk]].
        apply filter_length_le. intros w _ [Hw|Hw]; [|set_solver].
        rewrite fmap_app in Hw. apply elem_of_app in Hw as [Hw|Hw]; [by left|].
        apply list_elem_of_singleton in Hw. right. by rewrite Hw.
Qed.

(** The last loop of [VertexOrdering] cuts the list from its end. *)
Lemma cores_spec (order : list N) (counts : list nat) acc offset :
  (sum_list counts ≤ offset)%nat →
  ∃ cores,
    for_range counts (core order) (acc, offset)
      = Ok (cores, (offset - sum_list counts)%nat)
    ∧ length cores = (length acc + length counts)%nat
    ∧ concat (reverse cores)
      = take (sum_list counts) (drop (offset - sum_list counts) order)
        ++ concat (reverse acc).
Proof.
  revert acc offset.
  induction counts as [|n counts IH]; intros acc offset Hle; simpl in *.
  - exists acc. rewrite Nat.sub_0_r. split; [done|]. split; [lia|done].
  - assert (core order (acc, offset) n
            = Ok (acc ++ [take n (drop (offset - n) order)],
                  (offset - n)%nat)) as ->.
    { unfold core. cbn [fst snd]. by rewrite decide_False by lia. }
    bind_ok.
    destruct (IH (acc ++ [take n (drop (offset - n) order)]) (offset - n)%nat)
      as (cores & -> & Hlen & Hcat); [lia|].
    exists cores.
    replace (offset - n - sum_list counts)%nat
      with (offset - (n + sum_list counts))%nat in * by lia.
    split; [done|]. split; [rewrite Hlen, length_app; simpl; lia|].
    rewrite Hcat, reverse_app. simpl. rewrite app_assoc. f_equal.
    replace (offset - n)%nat
      with (offset - (n + sum_list counts) + sum_list counts)%nat by lia.
    rewrite <-drop_drop, take_take_drop. f_equal. lia.
Qed.

(** The whole run on a simple undirected graph, with what the main loop
    has established. *)
Lemma VertexOrdering_run (g : Graph N) :
  simple_undirected g →
  ∃ neighbours st cores,
    VertexOrdering g = Ok (reverse (l st), cores)
    ∧ ordering_inv (ID <$> Nodes g) neighbours (length (Nodes g)) st
    ∧ (∀ u, u ∈ Nodes g → neighbours !! ID u = Some (From g u))
    ∧ length cores = length (s st)
    ∧ concat (reverse cores) = reverse (l st).
Proof.
  intros [Hnodes Hplain Hmutual].
  destruct (count_degrees_spec g (Nodes g) Hnodes)
    as (nb & dv0 & m & Hfold & Hin & Hdom).
  assert (∀ id adj, nb !! id = Some adj →
            ∃ u, u ∈ Nodes g ∧ ID u = id ∧ adj = From g u) as Hnb.
  { intros id adj Hadj.
    assert (id ∈ ID <$> Nodes g) as (u & -> & Hu)%list_elem_of_fmap.
    { apply Hdom. left. by eexists. }
    exists u. destruct (Hin u Hu) as (Hu' & _). by simplify_eq. }
  destruct (file_nodes_spec (Nodes g) dv0 m Hnodes)
    as (d0 & Hfile & Hcells & Hfiled).
  { intros u Hu. destruct (Hin u Hu) as (_ & ? & ?). eauto. }
  unfold VertexOrdering. rewrite Hfold, Hfile. bind_ok.
  set (st0 := {| l := []; dv := dv0; d := d0; k := 0%nat; s := [0%nat] |}).
  destruct (for_range_prefix_inv
    (λ pre st, ordering_inv (ID <$> Nodes g) nb (length pre) st)
    (Nodes g) (λ st _, select nb st) st0) as (st & Hrun & Hinv).
  - split; simpl; try done.
    + constructor.
    + by intros id ?%elem_of_nil.
    + intros id Hid. apply Hdom. by right.
    + intros id (u & -> & Hu)%list_elem_of_fmap. right.
      destruct (Hin u Hu) as (_ & ? & _). by eexists.
    + split.
      * intros b cell Hcell. by destruct (Hcells b cell Hcell).
      * intros b cell x Hcell Hx. destruct (Hcells b cell Hcell) as [_ Hc].
        by destruct (Hc x Hx).
      * intros id b Hid.
        assert (id ∈ ID <$> Nodes g) as (u & -> & Hu)%list_elem_of_fmap.
        { apply Hdom. right. by eexists. }
        destruct (Hfiled u Hu) as (b' & cell & Hb' & Hcell & Hucell).
        exists cell. simplify_eq. split; [done|].
        by apply list_elem_of_fmap_2.
    + intros id c Hid.
      assert (id ∈ ID <$> Nodes g) as (u & -> & Hu)%list_elem_of_fmap.
      { apply Hdom. right. by eexists. }
      destruct (Hin u Hu) as (Hadj & Hc & _). exists (From g u).
      split; [done|]. simplify_eq. apply length_filter.
    + intros a v b adj Hsplit. by destruct a.
  - intros pre x post st1 Hsplit Hst1.
    rewrite length_app. simpl. rewrite Nat.add_1_r.
    apply (select_ok (ID <$> Nodes g)); try done.
    + intros a b adja adjb Ha Hb Hba.
      destruct (Hnb a adja Ha) as (u & Hu & <- & ->).
      destruct (Hnb b adjb Hb) as (v & Hv & <- & ->).
      by apply Hmutual.
    + intros id adj Hadj.
      destruct (Hnb id adj Hadj) as (u & Hu & <- & ->). by apply Hplain.
    + rewrite length_fmap, Hsplit, length_app. simpl. lia.
  - rewrite Hrun. bind_ok.
    destruct (cores_spec (reverse (l st)) (s st) [] (length (reverse (l st))))
      as (cores & Hcores & Hlen & Hcat).
    { rewrite length_reverse, (oi_sum _ _ _ _ Hinv). lia. }
    rewrite Hcores. bind_ok. exists nb, st, cores.
    split; [done|]. split; [done|]. split; [by intros u Hu; apply Hin|].
    split; [done|].
    rewrite Hcat, (oi_sum _ _ _ _ Hinv), length_reverse, Nat.sub_diag.
    simpl. rewrite app_nil_r. apply take_ge. by rewrite length_reverse.
Qed.

(** X28. On a simple undirected graph (no node and no neighbour listed
    twice, adjacency mutual) [VertexOrdering] returns without a panic; the
    order it returns lists every node of the graph exactly once, and the
    cores, taken from the last to the first, are consecutive pieces of that
    order. *)
Theorem VertexOrdering_lists_every_node_once (g : Graph N) :
  simple_undirected g →
  ∃ order cores,
    VertexOrdering g = Ok (order, cores)
    ∧ ID <$> order ≡ₚ ID <$> Nodes g
    ∧ concat (reverse cores) = order.
Proof.
  intros Hg.
  destruct (VertexOrdering_run g Hg)
    as (nb & st & cores & Hrun & Hinv & _ & _ & Hcat).
  exists (reverse (l st)), cores. split; [done|]. split; [|done].
  rewrite fmap_reverse, reverse_Permutation.
  apply submseteq_length_Permutation.
  - apply NoDup_submseteq; [by eapply oi_nodup|].
    intros id Hid. by destruct (oi_done _ _ _ _ Hinv id Hid).
  - by rewrite !length_fmap, (oi_length _ _ _ _ Hinv).
Qed.

(** X29. On a simple undirected graph the order that [VertexOrdering]
    returns is a degeneracy ordering for the number of cores it returns:
    every node has fewer neighbours before it in the order than there are
    cores. *)
Theorem VertexOrdering_bounds_earlier_neighbours (g : Graph N) :
  simple_undirected g →
  ∃ order cores,
    VertexOrdering g = Ok (order, cores)
    ∧ ∀ pre v post u, order = pre ++ v :: post → u ∈ Nodes g → ID u = ID v →
        (length (filter (λ w, ID w ∈ ID <$> pre) (From g u))
         < length cores)%nat.
Proof.
  intros Hg.
  destruct (VertexOrdering_run g Hg)
    as (nb & st & cores & Hrun & Hinv & Hnb & Hlen & _).
  exists (reverse (l st)), cores. split; [done|].
  intros pre v post u Hsplit Hu Hid.
  assert (l st = reverse post ++ v :: reverse pre) as Hl.
  { rewrite <-(reverse_involutive (l st)), Hsplit, reverse_app, reverse_cons.
    by rewrite <-app_assoc. }
  pose proof (oi_later _ _ _ _ Hinv _ _ _ (From g u) Hl) as Hlater.
  rewrite <-Hid in Hlater. specialize (Hlater (Hnb u Hu)).
  rewrite Hlen, (oi_k _ _ _ _ Hinv).
  apply Nat.lt_succ_r. etrans; [|exact Hlater].
  apply filter_length_le. intros w _ Hw. left.
  rewrite fmap_reverse. by apply elem_of_reverse.
Qed.
End Ordering.
End degeneracy_facts.

Module degeneracy_witnesses.
Import degeneracy degeneracy_spec degeneracy_inputs degeneracy_facts.

Lemma kite_simple_undirected : simple_undirected kite.
Proof.
  split.
  - by apply (bool_decide_unpack _).
  - intros u Hu. apply list_elem_of_In in Hu. simpl in Hu.
    destruct Hu as [<-|[<-|[<-|[<-|[]]]]]; by apply (bool_decide_unpack _).
  - intros u v Hu Hv.
    apply list_elem_of_In in Hu. apply list_elem_of_In in Hv.
    simpl in Hu, Hv.
    destruct Hu as [<-|[<-|[<-|[<-|[]]]]];
      destruct Hv as [<-|[<-|[<-|[<-|[]]]]];
      by apply (bool_decide_unpack _).
Qed.

Lemma VertexOrdering_lists_every_node_once_witness :
  ∃ order cores,
    VertexOrdering kite = Ok (order, cores)
    ∧ ID <$> order ≡ₚ ID <$> Nodes kite
    ∧ concat (reverse cores) = order.
Proof.
  exact (VertexOrdering_lists_every_node_once kite kite_simple_undirected).
Defined.

Lemma VertexOrdering_bounds_earlier_neighbours_witness :
  ∃ order cores,
    VertexOrdering kite = Ok (order, cores)
    ∧ ∀ pre v post u, order = pre ++ v :: post → u ∈ Nodes kite →
        ID u = ID v →
        (length (filter (λ w, ID w ∈ ID <$> pre) (From kite u))
         < length cores)%nat.
Proof.
  exact (VertexOrdering_bounds_earlier_neighbours kite kite_simple_undirected).
Defined.
End degeneracy_witnesses.
